(** * HtmlToWp: the IR-to-block-markup generator and the class-name
      reconciliation pass, embedded from the TypeScript sources

    Sources embedded here:
    - [src/lib/utils.ts] (escaping, chunking, font-size lookup, slugs,
      [sanitizeJSON]),
    - [src/generator/block-renderer.ts] (block markup renderer),
    - the class-name post-processor that exports [postprocessClassNames],
    - [src/generator/files/functions-php.ts] (theme names, font address),
    - [src/lib/reducer.ts] (converter state, summary).

    Conventions of the embedding.
    - A JavaScript string is the [string] of the bytes of its UTF-8 form.
      The HTML metacharacters, the characters of a CSS class name and the
      characters of a slug are ASCII, and an ASCII byte never occurs inside
      a multi-byte sequence.  White space is every character of [\s], the
      ones outside ASCII as their byte sequences; lower-casing knows the
      two characters outside ASCII whose lower-case form has an ASCII
      letter.
    - A JavaScript number that the code uses as a count or a pixel size
      (heading level, column count, image width and height) is a [Z]: a
      whole number, and one below 10^21 in size where it is printed, which
      JavaScript writes with all its digits.  Other numbers are not
      modelled; the schema admits them for the column count and the image
      sizes, and what is proved about those is about whole numbers.
    - [x || d], [if (x)] and [!x] are written out with the truthiness of the
      value at hand: an absent value, the empty string and the number 0 are
      falsy. *)

From Stdlib Require Import Ascii ZArith QArith Lia Lqa.
From stdpp Require Import base option list strings gmap pretty.

Set Warnings "-register-all".
Local Open Scope Z_scope.
Local Open Scope stdpp_scope.

(** ** Characters and small string helpers *)

Definition DQ : string := String "034"%char "".
Definition NL : string := String "010"%char "".

(** [arr.join(sep)] *)
Fixpoint join (sep : string) (l : list string) : string :=
  match l with
  | [] => ""
  | [x] => x
  | x :: rest => x +:+ sep +:+ join sep rest
  end.

(** Does the character [c] occur in [s]? *)
Fixpoint occurs (c : ascii) (s : string) : bool :=
  match s with
  | EmptyString => false
  | String a rest => if decide (a = c) then true else occurs c rest
  end.

(** [s] with every character replaced by the string [f] gives for it. *)
Fixpoint mapChars (f : ascii → string) (s : string) : string :=
  match s with
  | EmptyString => ""
  | String a rest => f a +:+ mapChars f rest
  end.

(** The string with the given bytes, for characters outside ASCII in
    UTF-8. *)
Definition utf8 (bytes : list nat) : string :=
  foldr (λ n s, String (ascii_of_nat n) s) "" bytes.

(** Does [s] start with [p]? *)
Fixpoint startsWith (p s : string) : bool :=
  match p with
  | EmptyString => true
  | String a p' =>
      match s with
      | String b s' => bool_decide (a = b) && startsWith p' s'
      | EmptyString => false
      end
  end.

(** Truthiness of an optional string: [Some s] with [s] non-empty. *)
Definition nonEmptyStr (o : option string) : option string :=
  match o with
  | Some s => if decide (s = "") then None else Some s
  | None => None
  end.

(** [o || d] for an optional string. *)
Definition orStr (o : option string) (d : string) : string :=
  default d (nonEmptyStr o).

(** Truthiness of an optional number: present and not 0. *)
Definition nonZero (o : option Z) : option Z :=
  match o with
  | Some n => if decide (n = 0) then None else Some n
  | None => None
  end.

(** [o || d] for an optional number. *)
Definition orNum (o : option Z) (d : Z) : Z :=
  default d (nonZero o).

(** ** [src/lib/utils.ts] *)

Module Utils.

(** [str.replace(/c/g, by)]: every occurrence of the single character [c]
    is replaced, left to right. *)
Fixpoint replaceAll (c : ascii) (by_ : string) (s : string) : string :=
  match s with
  | EmptyString => ""
  | String a rest =>
      if decide (a = c) then by_ +:+ replaceAll c by_ rest
      else String a (replaceAll c by_ rest)
  end.

Definition escapeHtml (str : string) : string :=
  replaceAll ">"%char "&gt;"
    (replaceAll "<"%char "&lt;"
       (replaceAll "&"%char "&amp;" str)).

Definition escapeAttr (str : string) : string :=
  replaceAll ">"%char "&gt;"
    (replaceAll "<"%char "&lt;"
       (replaceAll "034"%char "&quot;"
          (replaceAll "&"%char "&amp;" str))).

(** [Math.ceil(a / b)] on integers.  For [b = 0] JavaScript yields
    [Infinity] or [NaN]; the only caller then runs a loop of zero
    iterations, so the value is never used. *)
Definition ceilDiv (a b : Z) : Z := - ((- a) `div` b).

(** [arr.slice(start, end)] with JavaScript's clamping: a negative index
    counts from the end of the array. *)
Definition sliceIndex (len k : Z) : Z :=
  if k <? 0 then Z.max (len + k) 0 else Z.min k len.

Definition slice {T} (arr : list T) (start end_ : Z) : list T :=
  let len := Z.of_nat (length arr) in
  let s := sliceIndex len start in
  let e := sliceIndex len end_ in
  take (Z.to_nat (e - s)) (drop (Z.to_nat s) arr).

(** The [for (let i = 0; i < buckets; i++)] loop of [chunkArray], with the
    iterations still to run as the structural argument. *)
Fixpoint chunkLoop {T} (arr : list T) (chunkSize : Z) (i : Z) (todo : nat)
  : list (list T) :=
  match todo with
  | O => []
  | S todo' =>
      slice arr (i * chunkSize) ((i + 1) * chunkSize)
      :: chunkLoop arr chunkSize (i + 1) todo'
  end.

Definition nonEmpty {T} (chunk : list T) : bool :=
  match chunk with [] => false | _ => true end.

(** The bucket count is a whole number.  (For a count that is not whole
    the loop of the source runs for every [i] below it, that is once more
    than its whole part.) *)
Definition chunkArray {T} (arr : list T) (buckets : Z) : list (list T) :=
  let chunkSize := ceilDiv (Z.of_nat (length arr)) buckets in
  List.filter nonEmpty (chunkLoop arr chunkSize 0 (Z.to_nat buckets)).

(** [mapFontSize]: the size token is a string at run time. *)
Definition fontSizeMap : gmap string string :=
  list_to_map
    [("sm", "small"); ("md", "medium"); ("lg", "large"); ("xl", "x-large")].

Definition mapFontSize (size : option string) : option string :=
  match nonEmptyStr size with
  | None => None
  | Some s => fontSizeMap !! s
  end.

End Utils.


(** ** JavaScript values held in block attributes

    [Record<string, unknown>] objects are association lists in insertion
    order, which is the order [Object.entries] and [JSON.stringify] follow
    for keys that are not array indices.  These are the objects the
    renderer builds, and it reads them through [Object.entries] and
    [JSON.stringify] only, which see own properties.  The lookup tables of
    the renderer are read by key instead: see [Renderer.inheritedKeys]. *)

Inductive json :=
| JUndefined
| JNull
| JBool (b : bool)
| JNum (n : Z)
| JStr (s : string)
| JArr (elems : list json)
| JObj (fields : list (string * json)).

Definition obj := list (string * json).

Definition truthy (v : json) : bool :=
  match v with
  | JUndefined | JNull => false
  | JBool b => b
  | JNum n => negb (n =? 0)
  | JStr s => if decide (s = "") then false else true
  | JArr _ | JObj _ => true
  end.

(** [o[k]] on an object. *)
Fixpoint lookupProp (o : obj) (k : string) : json :=
  match o with
  | [] => JUndefined
  | (k', v) :: rest => if decide (k' = k) then v else lookupProp rest k
  end.

(** [v?.k]: undefined unless [v] is an object that has [k]. *)
Definition getProp (v : json) (k : string) : json :=
  match v with
  | JObj o => lookupProp o k
  | _ => JUndefined
  end.

(** [o[k] = v]: an existing key keeps its place, a new key goes last. *)
Fixpoint setProp (o : obj) (k : string) (v : json) : obj :=
  match o with
  | [] => [(k, v)]
  | (k', v') :: rest =>
      if decide (k' = k) then (k, v) :: rest else (k', v') :: setProp rest k v
  end.

(** [{...v}] for [v] an object or undefined. *)
Definition spread (v : json) : obj :=
  match v with
  | JObj o => o
  | _ => []
  end.

(** String coercion of a template literal, [`${v}`]. *)
Fixpoint toStr (v : json) : string :=
  match v with
  | JUndefined => "undefined"
  | JNull => "null"
  | JBool b => if b then "true" else "false"
  | JNum n => pretty n
  | JStr s => s
  | JArr elems =>
      join ","
        (List.map
           (λ x, match x with JUndefined | JNull => "" | _ => toStr x end)
           elems)
  | JObj _ => "[object Object]"
  end.

Definition hexDigit (n : nat) : ascii :=
  match n with
  | 0 => "0" | 1 => "1" | 2 => "2" | 3 => "3" | 4 => "4" | 5 => "5"
  | 6 => "6" | 7 => "7" | 8 => "8" | 9 => "9" | 10 => "a" | 11 => "b"
  | 12 => "c" | 13 => "d" | 14 => "e" | _ => "f"
  end%nat%char.

(** The escape [JSON.stringify] writes for one character of a string. *)
Definition jsonEscapeChar (c : ascii) : string :=
  if decide (c = "034"%char) then "\" +:+ DQ
  else if decide (c = "\"%char) then "\\"
  else if decide (c = "008"%char) then "\b"
  else if decide (c = "009"%char) then "\t"
  else if decide (c = "010"%char) then "\n"
  else if decide (c = "012"%char) then "\f"
  else if decide (c = "013"%char) then "\r"
  else
    let n := nat_of_ascii c in
    if (n <? 32)%nat then
      "\u00" +:+ String (hexDigit (n / 16)) (String (hexDigit (n mod 16)) "")
    else String c "".

Definition jsonQuote (s : string) : string :=
  DQ +:+ mapChars jsonEscapeChar s +:+ DQ.

(** [JSON.stringify(v)] without indentation.  A property whose value is
    undefined is skipped; undefined inside an array is written [null]. *)
Fixpoint stringify (v : json) : string :=
  match v with
  | JUndefined | JNull => "null"
  | JBool b => if b then "true" else "false"
  | JNum n => pretty n
  | JStr s => jsonQuote s
  | JArr elems => "[" +:+ join "," (List.map stringify elems) +:+ "]"
  | JObj fields =>
      "{" +:+
      join ","
        ((fix go (l : obj) : list string :=
            match l with
            | [] => []
            | (k, x) :: rest =>
                match x with
                | JUndefined => go rest
                | _ => (jsonQuote k +:+ ":" +:+ stringify x) :: go rest
                end
            end) fields)
      +:+ "}"
  end.

(** ** [src/types/ir.ts]

    Enumerations that the code uses as map keys, compares with [===] or
    interpolates into class names stay strings, as they are at run time. *)

Inductive NodeType :=
| heading | paragraph | image | button | list_ | spacer | group | navigation
| unsupported (name : string).
  (* [unsupported]: a kind outside the eight of the schema, which only the
     [default] branches of the switches over [node.type] see. *)

Record Link := mkLink { text : string; link_href : string }.

Record NodeAttributes := mkNodeAttributes {
  level : option Z;
  src : option string;
  alt : option string;
  width : option Z;
  height : option Z;
  href : option string;
  variant : option string;
  ordered : option bool;
  items : option (list string);
  links : option (list Link);
  fontSize : option string;
  textAlign : option string;
  backgroundColor : option string;
  textColor : option string;
  padding : option string }.

Inductive IRNode := mkIRNode {
  type : NodeType;
  content : option string;
  attributes : NodeAttributes;
  children : option (list IRNode);
  motionIntent : option string;
  style : option (gmap string string);
  className : option string }.

Record LayoutDescriptor := mkLayoutDescriptor {
  layout_type : string;
  columns : option Z;
  gap : option string;
  contentWidth : option string;
  verticalAlign : option string }.

Record Background := mkBackground { bg_type : string; bg_value : string }.

Record IRSection := mkIRSection {
  sectionIntent : string;
  layout : LayoutDescriptor;
  section_children : list IRNode;
  section_motionIntent : option string;
  background : option Background;
  section_style : option (gmap string string);
  section_className : option string }.

Record Colors := mkColors {
  primary : string;
  secondary : string;
  color_background : string;
  foreground : string;
  accent : option string;
  muted : option string }.

Record Fonts := mkFonts {
  fonts_heading : option string;
  fonts_body : option string }.

Record DesignTokens := mkDesignTokens {
  colors : Colors;
  fonts : Fonts;
  borderRadius : option string }.

Record Metadata := mkMetadata {
  title : string;
  description : option string;
  sourceUrl : option string }.

Record IRDocument := mkIRDocument {
  version : string;
  metadata : Metadata;
  designTokens : DesignTokens;
  header : option IRSection;
  sections : list IRSection;
  footer : option IRSection;
  customCSS : option string }.

(** The attribute bag with every field absent, and a node with nothing but
    its kind. *)
Definition noAttributes : NodeAttributes :=
  mkNodeAttributes None None None None None None None None None None
    None None None None None.


(** ** [src/generator/block-renderer.ts] *)

Module Renderer.

(** The tables are object literals, and [TABLE[key]] also finds what every
    object inherits from [Object.prototype]: for a key of [inheritedKeys]
    the source gets the inherited member, which is not a string and is
    truthy, where the finite maps below have nothing.  The schema admits
    the keys of each table only; what is proved about other keys leaves the
    inherited names out. *)
Definition inheritedKeys : list string :=
  ["constructor"; "hasOwnProperty"; "isPrototypeOf"; "propertyIsEnumerable";
   "toLocaleString"; "toString"; "valueOf"; "__proto__"; "__defineGetter__";
   "__defineSetter__"; "__lookupGetter__"; "__lookupSetter__"].

Definition PADDING_MAP : gmap string string :=
  list_to_map [("sm", "10px"); ("md", "20px"); ("lg", "40px"); ("xl", "60px")].

Definition GAP_MAP : gmap string string :=
  list_to_map [("sm", "10px"); ("md", "20px"); ("lg", "40px")].

(** [cleanObj]: drop undefined, null and empty-string values; clean nested
    objects and drop those that end up empty; leave arrays alone. *)
Fixpoint cleanValue (v : json) : obj :=
  match v with
  | JObj fields =>
      (fix go (l : obj) : obj :=
         match l with
         | [] => []
         | (k, x) :: rest =>
             match x with
             | JUndefined | JNull => go rest
             | JStr s => if decide (s = "") then go rest else (k, x) :: go rest
             | JObj _ =>
                 match cleanValue x with
                 | [] => go rest
                 | nested => (k, JObj nested) :: go rest
                 end
             | _ => (k, x) :: go rest
             end
         end) fields
  | _ => []
  end.

Definition cleanObj (o : obj) : obj := cleanValue (JObj o).

(** The [" " + JSON.stringify(cleaned)] part of a block comment. *)
Definition attrsJson (attrs : obj) : string :=
  match cleanObj attrs with
  | [] => ""
  | cleaned => " " +:+ stringify (JObj cleaned)
  end.

Definition block (name : string) (attrs : obj) (inner : string) : string :=
  "<!-- wp:" +:+ name +:+ attrsJson attrs +:+ " -->" +:+ NL +:+
  inner +:+ NL +:+ "<!-- /wp:" +:+ name +:+ " -->".

Definition selfClosingBlock (name : string) (attrs : obj) : string :=
  "<!-- wp:" +:+ name +:+ attrsJson attrs +:+ " /-->".

(** One [if (v) styles.push(`prop:${v}`)]. *)
Definition pushIf (prop : string) (v : json) : list string :=
  if truthy v then [prop +:+ ":" +:+ toStr v] else [].

(** [typeof p === "object" && p !== null] *)
Definition isObjectType (v : json) : bool :=
  match v with
  | JObj _ | JArr _ => true
  | _ => false
  end.

Definition sidesOf (prefix : string) (v : json) : list string :=
  if truthy v && isObjectType v then
    pushIf (prefix +:+ "-top") (getProp v "top") ++
    pushIf (prefix +:+ "-right") (getProp v "right") ++
    pushIf (prefix +:+ "-bottom") (getProp v "bottom") ++
    pushIf (prefix +:+ "-left") (getProp v "left")
  else [].

Definition blockGapOf (bg : json) : list string :=
  if truthy bg then
    match bg with
    | JStr s => ["gap:" +:+ s]
    | JObj _ | JArr _ =>
        let top := getProp bg "top" in
        let left := getProp bg "left" in
        if truthy top && truthy left then
          ["gap:" +:+ toStr top +:+ " " +:+ toStr left]
        else if truthy top then ["gap:" +:+ toStr top]
        else if truthy left then ["gap:" +:+ toStr left]
        else []
    | _ => []
    end
  else [].

(** The [styles] array that [wpInlineStyle] fills, in push order. *)
Definition inlineStyles (blockStyle : json) : list string :=
  let typo := getProp blockStyle "typography" in
  let color := getProp blockStyle "color" in
  let spacing := getProp blockStyle "spacing" in
  let border := getProp blockStyle "border" in
  pushIf "font-size" (getProp typo "fontSize") ++
  pushIf "line-height" (getProp typo "lineHeight") ++
  pushIf "letter-spacing" (getProp typo "letterSpacing") ++
  pushIf "text-transform" (getProp typo "textTransform") ++
  pushIf "color" (getProp color "text") ++
  pushIf "background-color" (getProp color "background") ++
  pushIf "background" (getProp color "gradient") ++
  sidesOf "padding" (getProp spacing "padding") ++
  sidesOf "margin" (getProp spacing "margin") ++
  blockGapOf (getProp spacing "blockGap") ++
  pushIf "border-radius" (getProp border "radius").

Definition wpInlineStyle (blockStyle : json) : string :=
  if negb (truthy blockStyle) then ""
  else
    match inlineStyles blockStyle with
    | [] => ""
    | styles => " style=" +:+ DQ +:+ join ";" styles +:+ DQ
    end.

(** [str.split(" ")] on the single space character. *)
Fixpoint splitSpaceGo (cur : string) (s : string) : list string :=
  match s with
  | EmptyString => [cur]
  | String a rest =>
      if decide (a = " "%char) then cur :: splitSpaceGo "" rest
      else splitSpaceGo (cur +:+ String a "") rest
  end.

Definition splitSpace (s : string) : list string := splitSpaceGo "" s.

Definition isNonEmpty (s : string) : bool :=
  if decide (s = "") then false else true.

Definition applyClassName (className : option string)
    (blockAttrs : obj) (cssClasses : list string) : obj * list string :=
  match nonEmptyStr className with
  | None => (blockAttrs, cssClasses)
  | Some cn =>
      (setProp blockAttrs "className" (JStr cn),
       cssClasses ++ List.filter isNonEmpty (splitSpace cn))
  end.

Definition layoutClassFromType (type : option string) : option string :=
  match type with
  | Some t =>
      if decide (t = "constrained") then Some "is-layout-constrained"
      else if decide (t = "grid") then Some "is-layout-grid"
      else if decide (t = "flex") then Some "is-layout-flex"
      else if decide (t = "default") then Some "is-layout-flow"
      else None
  | None => None
  end.

(** [irStyle[k]] when it is truthy. *)
Definition styleProp (irStyle : option (gmap string string)) (k : string)
  : option string :=
  nonEmptyStr (irStyle ≫= (λ m, m !! k)).

(** [blockStyle.group = { ...(blockStyle.group as object), key: v }] *)
Definition setIn (blockStyle : obj) (group key : string) (v : string) : obj :=
  setProp blockStyle group
    (JObj (setProp (spread (lookupProp blockStyle group)) key (JStr v))).

Definition when {A} (o : option A) (f : A → obj * list string → obj * list string)
    (acc : obj * list string) : obj * list string :=
  match o with
  | Some a => f a acc
  | None => acc
  end.

(** [buildBlockStyle]: the pair is [(blockStyle, classes)]. *)
Definition buildBlockStyle (attrs : NodeAttributes)
    (irStyle : option (gmap string string)) : obj * list string :=
  let acc : obj * list string := ([], []) in
  let acc := when (nonEmptyStr (textColor attrs))
    (λ v '(bs, cls), (setIn bs "color" "text" v, cls ++ ["has-text-color"])) acc in
  let acc := when (nonEmptyStr (backgroundColor attrs))
    (λ v '(bs, cls),
      (setIn bs "color" "background" v, cls ++ ["has-background"])) acc in
  let acc := when (nonEmptyStr (padding attrs) ≫= (λ p, nonEmptyStr (PADDING_MAP !! p)))
    (λ val '(bs, cls),
      (setProp bs "spacing"
         (JObj [("padding",
                 JObj [("top", JStr val); ("right", JStr val);
                       ("bottom", JStr val); ("left", JStr val)])]),
       cls)) acc in
  match irStyle with
  | None => acc
  | Some _ =>
      let acc := when (styleProp irStyle "font-size")
        (λ v '(bs, cls), (setIn bs "typography" "fontSize" v, cls)) acc in
      let acc := when (styleProp irStyle "line-height")
        (λ v '(bs, cls), (setIn bs "typography" "lineHeight" v, cls)) acc in
      let acc := when (styleProp irStyle "letter-spacing")
        (λ v '(bs, cls), (setIn bs "typography" "letterSpacing" v, cls)) acc in
      let acc := when (styleProp irStyle "text-transform")
        (λ v '(bs, cls), (setIn bs "typography" "textTransform" v, cls)) acc in
      let acc :=
        when (match nonEmptyStr (backgroundColor attrs) with
              | Some _ => None
              | None => styleProp irStyle "background-color"
              end)
          (λ v '(bs, cls),
            (setIn bs "color" "background" v, cls ++ ["has-background"])) acc in
      let acc :=
        when (match nonEmptyStr (textColor attrs) with
              | Some _ => None
              | None => styleProp irStyle "color"
              end)
          (λ v '(bs, cls),
            (setIn bs "color" "text" v, cls ++ ["has-text-color"])) acc in
      acc
  end.

(** [if (Object.keys(blockStyle).length > 0) blockAttrs.style = blockStyle] *)
Definition attachStyle (blockAttrs : obj) (blockStyle : obj) : obj :=
  match blockStyle with
  | [] => blockAttrs
  | _ => setProp blockAttrs "style" (JObj blockStyle)
  end.

(** [cssClasses.length > 0 ? ` class="..."` : ""] *)
Definition classAttrOf (cssClasses : list string) : string :=
  match cssClasses with
  | [] => ""
  | _ => " class=" +:+ DQ +:+ join " " cssClasses +:+ DQ
  end.

(** [renderHeading] up to its [return]: the attributes and the inner HTML it
    passes to [block]. *)
Definition headingParts (node : IRNode) (tokens : DesignTokens) : obj * string :=
  let attrs := attributes node in
  let content := default "" (content node) in
  let level := orNum (level attrs) 2 in
  let tag := "h" +:+ pretty level in
  let acc : obj * list string := ([("level", JNum level)], ["wp-block-heading"]) in
  let acc := when (nonEmptyStr (textAlign attrs))
    (λ ta '(ba, cls),
      (setProp ba "textAlign" (JStr ta), cls ++ ["has-text-align-" +:+ ta])) acc in
  let acc := when (nonEmptyStr (Utils.mapFontSize (fontSize attrs)))
    (λ fs '(ba, cls),
      (setProp ba "fontSize" (JStr fs), cls ++ ["has-" +:+ fs +:+ "-font-size"])) acc in
  let acc := when (nonEmptyStr (fonts_heading (fonts tokens)))
    (λ _ '(ba, cls),
      (setProp ba "fontFamily" (JStr "heading"),
       cls ++ ["has-heading-font-family"])) acc in
  let '(blockStyle, classes) := buildBlockStyle attrs (style node) in
  let '(blockAttrs, cssClasses) := acc in
  let blockAttrs := attachStyle blockAttrs blockStyle in
  let cssClasses := cssClasses ++ classes in
  let '(blockAttrs, cssClasses) :=
    applyClassName (className node) blockAttrs cssClasses in
  let classAttr := classAttrOf cssClasses in
  let styleAttr := wpInlineStyle (lookupProp blockAttrs "style") in
  (blockAttrs,
   "<" +:+ tag +:+ classAttr +:+ styleAttr +:+ ">" +:+
   Utils.escapeHtml content +:+ "</" +:+ tag +:+ ">").

Definition renderHeading (node : IRNode) (tokens : DesignTokens) : string :=
  let '(blockAttrs, html) := headingParts node tokens in
  block "heading" blockAttrs html.

Definition paragraphParts (node : IRNode) (tokens : DesignTokens) : obj * string :=
  let attrs := attributes node in
  let content := default "" (content node) in
  let acc : obj * list string := ([], []) in
  let acc := when (nonEmptyStr (textAlign attrs))
    (λ ta '(ba, cls),
      (setProp ba "align" (JStr ta), cls ++ ["has-text-align-" +:+ ta])) acc in
  let acc := when (nonEmptyStr (Utils.mapFontSize (fontSize attrs)))
    (λ fs '(ba, cls),
      (setProp ba "fontSize" (JStr fs), cls ++ ["has-" +:+ fs +:+ "-font-size"])) acc in
  let acc := when (nonEmptyStr (fonts_body (fonts tokens)))
    (λ _ '(ba, cls),
      (setProp ba "fontFamily" (JStr "body"),
       cls ++ ["has-body-font-family"])) acc in
  let '(blockStyle, classes) := buildBlockStyle attrs (style node) in
  let '(blockAttrs, cssClasses) := acc in
  let blockAttrs := attachStyle blockAttrs blockStyle in
  let cssClasses := cssClasses ++ classes in
  let '(blockAttrs, cssClasses) :=
    applyClassName (className node) blockAttrs cssClasses in
  let classAttr := classAttrOf cssClasses in
  let styleAttr := wpInlineStyle (lookupProp blockAttrs "style") in
  (blockAttrs,
   "<p" +:+ classAttr +:+ styleAttr +:+ ">" +:+
   Utils.escapeHtml content +:+ "</p>").

Definition renderParagraph (node : IRNode) (tokens : DesignTokens) : string :=
  let '(blockAttrs, html) := paragraphParts node tokens in
  block "paragraph" blockAttrs html.

Definition imageParts (node : IRNode) : obj * string :=
  let attrs := attributes node in
  let src := orStr (src attrs) "" in
  let alt := orStr (alt attrs) "" in
  let blockAttrs : obj :=
    [("sizeSlug", JStr "full"); ("linkDestination", JStr "none")] in
  let cssClasses := ["wp-block-image"; "size-full"] in
  let blockAttrs :=
    match nonZero (width attrs) with
    | Some w => setProp blockAttrs "width" (JNum w)
    | None => blockAttrs
    end in
  let blockAttrs :=
    match nonZero (height attrs) with
    | Some h => setProp blockAttrs "height" (JNum h)
    | None => blockAttrs
    end in
  let '(blockAttrs, cssClasses) :=
    applyClassName (className node) blockAttrs cssClasses in
  let imgAttrs :=
    ["src=" +:+ DQ +:+ Utils.escapeAttr src +:+ DQ;
     "alt=" +:+ DQ +:+ Utils.escapeAttr alt +:+ DQ] ++
    match nonZero (width attrs) with
    | Some w => ["width=" +:+ DQ +:+ pretty w +:+ DQ]
    | None => []
    end ++
    match nonZero (height attrs) with
    | Some h => ["height=" +:+ DQ +:+ pretty h +:+ DQ]
    | None => []
    end in
  (blockAttrs,
   "<figure class=" +:+ DQ +:+ join " " cssClasses +:+ DQ +:+ "><img " +:+
   join " " imgAttrs +:+ "/></figure>").

Definition renderImage (node : IRNode) : string :=
  let '(blockAttrs, html) := imageParts node in
  block "image" blockAttrs html.

(** The attributes and anchor classes [renderButton] picks for a variant,
    before the node's own class name is applied. *)
Definition buttonVariant (variant : string) : obj * list string :=
  let btnAttrs : obj := [] in
  let btnClasses := ["wp-block-button__link"; "wp-element-button"] in
  if decide (variant = "primary") then
    (setProp (setProp btnAttrs "backgroundColor" (JStr "primary"))
       "textColor" (JStr "background"),
     btnClasses ++ ["has-primary-background-color";
                    "has-background-color-color"; "has-text-color";
                    "has-background"])
  else if decide (variant = "secondary") then
    (setProp (setProp btnAttrs "backgroundColor" (JStr "secondary"))
       "textColor" (JStr "background"),
     btnClasses ++ ["has-secondary-background-color";
                    "has-background-color-color"; "has-text-color";
                    "has-background"])
  else if decide (variant = "outline") then
    (setProp (setProp btnAttrs "textColor" (JStr "primary"))
       "style"
       (JObj [("border", JObj [("width", JStr "2px"); ("style", JStr "solid")])]),
     btnClasses ++ ["has-primary-color"; "has-text-color"; "is-style-outline"])
  else (btnAttrs, btnClasses).

(** The [btnAttrs] object of a button node as [renderButton] hands it to
    [block]. *)
Definition buttonAttrs (node : IRNode) : obj :=
  let variant := orStr (variant (attributes node)) "primary" in
  let '(btnAttrs, btnClasses) := buttonVariant variant in
  fst (applyClassName (className node) btnAttrs btnClasses).

(** The inner HTML of the [wp:button] block. *)
Definition buttonInnerHtml (node : IRNode) : string :=
  let content := default "" (content node) in
  let href := orStr (href (attributes node)) "#" in
  let variant := orStr (variant (attributes node)) "primary" in
  let '(btnAttrs, btnClasses) := buttonVariant variant in
  let '(btnAttrs, btnClasses) :=
    applyClassName (className node) btnAttrs btnClasses in
  let styleAttr := wpInlineStyle (lookupProp btnAttrs "style") in
  "<div class=" +:+ DQ +:+ "wp-block-button" +:+ DQ +:+ "><a class=" +:+ DQ +:+
  join " " btnClasses +:+ DQ +:+ " href=" +:+ DQ +:+ Utils.escapeAttr href +:+
  DQ +:+ styleAttr +:+ ">" +:+ Utils.escapeHtml content +:+ "</a></div>".

(** The opening tag of the div of the [wp:buttons] block. *)
Definition buttonsOpenTag : string :=
  let buttonsClasses := ["wp-block-buttons"; "is-layout-flex"] in
  "<div class=" +:+ DQ +:+ join " " buttonsClasses +:+ DQ +:+ ">".

Definition renderButton (node : IRNode) (_tokens : DesignTokens) : string :=
  let innerButton := block "button" (buttonAttrs node) (buttonInnerHtml node) in
  block "buttons" []
    (buttonsOpenTag +:+ NL +:+ innerButton +:+ NL +:+ "</div>").

Definition listParts (node : IRNode) : obj * string :=
  let attrs := attributes node in
  let ordered := default false (ordered attrs) in
  let items := default [] (items attrs) in
  let tag := if ordered then "ol" else "ul" in
  let blockAttrs : obj := [] in
  let cssClasses := ["wp-block-list"] in
  let blockAttrs :=
    if ordered then setProp blockAttrs "ordered" (JBool true) else blockAttrs in
  let '(blockAttrs, cssClasses) :=
    applyClassName (className node) blockAttrs cssClasses in
  let listItems :=
    join NL (List.map (λ item, "<li>" +:+ Utils.escapeHtml item +:+ "</li>") items) in
  (blockAttrs,
   "<" +:+ tag +:+ " class=" +:+ DQ +:+ join " " cssClasses +:+ DQ +:+ ">" +:+
   NL +:+ listItems +:+ NL +:+ "</" +:+ tag +:+ ">").

Definition renderList (node : IRNode) : string :=
  let '(blockAttrs, html) := listParts node in
  block "list" blockAttrs html.

(** [PADDING_MAP[node.attributes.padding || "md"] || "40px"] *)
Definition spacerHeight (node : IRNode) : string :=
  orStr (PADDING_MAP !! orStr (padding (attributes node)) "md") "40px".

Definition spacerParts (node : IRNode) : obj * string :=
  let height := spacerHeight node in
  ([("height", JStr height)],
   "<div style=" +:+ DQ +:+ "height:" +:+ height +:+ DQ +:+
   " aria-hidden=" +:+ DQ +:+ "true" +:+ DQ +:+
   " class=" +:+ DQ +:+ "wp-block-spacer" +:+ DQ +:+ "></div>").

Definition renderSpacer (node : IRNode) : string :=
  let '(blockAttrs, html) := spacerParts node in
  block "spacer" blockAttrs html.

(** The attributes and the opening tag of the div of a group block. *)
Definition groupParts (node : IRNode) : obj * string :=
  let irStyle := style node in
  let display := irStyle ≫= (λ m, m !! "display") in
  let layoutAttr : obj :=
    if decide (display = Some "grid") then
      [("type", JStr "grid"); ("minimumColumnWidth", JStr "280px")]
    else if decide (display = Some "flex") then
      [("type", JStr "flex"); ("flexWrap", JStr "nowrap")]
    else [("type", JStr "constrained")] in
  let blockAttrs : obj := [("layout", JObj layoutAttr)] in
  let cssClasses := ["wp-block-group"] in
  let layoutClass :=
    layoutClassFromType
      (match lookupProp layoutAttr "type" with JStr t => Some t | _ => None end) in
  let cssClasses :=
    match nonEmptyStr layoutClass with
    | Some c => cssClasses ++ [c]
    | None => cssClasses
    end in
  let '(blockStyle, classes) := buildBlockStyle (attributes node) irStyle in
  let blockStyle :=
    match styleProp irStyle "gap" with
    | Some g =>
        setProp blockStyle "spacing"
          (JObj (setProp (spread (lookupProp blockStyle "spacing")) "blockGap" (JStr g)))
    | None => blockStyle
    end in
  let blockAttrs := attachStyle blockAttrs blockStyle in
  let cssClasses := cssClasses ++ classes in
  let '(blockAttrs, cssClasses) :=
    applyClassName (className node) blockAttrs cssClasses in
  let classAttr := " class=" +:+ DQ +:+ join " " cssClasses +:+ DQ in
  let styleAttr := wpInlineStyle (lookupProp blockAttrs "style") in
  (blockAttrs, "<div" +:+ classAttr +:+ styleAttr +:+ ">").

(** [renderGroup]; [rendered] is [children.map((c) => renderNode(c, tokens))],
    which [renderNode] computes and passes in. *)
Definition renderGroup (node : IRNode) (rendered : list string) : string :=
  let '(blockAttrs, openTag) := groupParts node in
  let inner := join (NL +:+ NL) rendered in
  block "group" blockAttrs (openTag +:+ NL +:+ inner +:+ NL +:+ "</div>").

(** The attributes and the opening tag of the div of the group block that
    stands for a navigation. *)
Definition navigationParts (node : IRNode) : obj * string :=
  let blockAttrs : obj :=
    [("layout", JObj [("type", JStr "flex"); ("flexWrap", JStr "nowrap")])] in
  let cssClasses := ["wp-block-group"] in
  let cssClasses :=
    match nonEmptyStr (layoutClassFromType (Some "flex")) with
    | Some c => cssClasses ++ [c]
    | None => cssClasses
    end in
  let '(blockAttrs, cssClasses) :=
    applyClassName (className node) blockAttrs cssClasses in
  (blockAttrs, "<div class=" +:+ DQ +:+ join " " cssClasses +:+ DQ +:+ ">").

(** The inner HTML of the paragraph block of one link. *)
Definition linkHtml (link : Link) : string :=
  "<p><a href=" +:+ DQ +:+ Utils.escapeAttr (link_href link) +:+ DQ +:+
  ">" +:+ Utils.escapeHtml (text link) +:+ "</a></p>".

Definition renderNavigation (node : IRNode) (_tokens : DesignTokens) : string :=
  let links := default [] (links (attributes node)) in
  let '(blockAttrs, openTag) := navigationParts node in
  let linkBlocks :=
    join (NL +:+ NL)
      (List.map (λ link, block "paragraph" [] (linkHtml link)) links) in
  block "group" blockAttrs (openTag +:+ NL +:+ linkBlocks +:+ NL +:+ "</div>").

Fixpoint renderNode (node : IRNode) (tokens : DesignTokens) : string :=
  match node with
  | mkIRNode t _ _ ch _ _ _ =>
      match t with
      | heading => renderHeading node tokens
      | paragraph => renderParagraph node tokens
      | image => renderImage node
      | button => renderButton node tokens
      | list_ => renderList node
      | spacer => renderSpacer node
      | group =>
          renderGroup node
            (match ch with
             | Some cs => List.map (λ c, renderNode c tokens) cs
             | None => []
             end)
      | navigation => renderNavigation node tokens
      | unsupported name => "<!-- Unsupported node type: " +:+ name +:+ " -->"
      end
  end.

(** [chunkArray(children, layout.columns || 2)] *)
Definition columnChunks (section : IRSection) : list (list IRNode) :=
  Utils.chunkArray (section_children section) (orNum (columns (layout section)) 2).

Definition renderColumn (colChildren : list IRNode) (tokens : DesignTokens)
  : string :=
  let inner := join (NL +:+ NL) (List.map (λ c, renderNode c tokens) colChildren) in
  block "column" []
    ("<div class=" +:+ DQ +:+ "wp-block-column is-layout-flow" +:+ DQ +:+ ">" +:+
     NL +:+ inner +:+ NL +:+ "</div>").

(** The [colAttrs] object of a columns layout: the gap, when the layout has
    one that the table knows, as a block gap. *)
Definition columnsAttrs (layout : LayoutDescriptor) : obj :=
  let gap := nonEmptyStr (gap layout) ≫= (λ g, GAP_MAP !! g) in
  match nonEmptyStr gap with
  | Some g =>
      [("style",
        JObj [("spacing",
               JObj [("blockGap", JObj [("top", JStr g); ("left", JStr g)])])])]
  | None => []
  end.

Definition renderChildrenForLayout (section : IRSection) (tokens : DesignTokens)
  : string :=
  let layout := layout section in
  let children := section_children section in
  if decide (layout_type layout = "columns") then
    let columns := columnChunks section in
    let colAttrs := columnsAttrs layout in
    let columnBlocks :=
      join (NL +:+ NL) (List.map (λ col, renderColumn col tokens) columns) in
    let colStyleAttr := wpInlineStyle (lookupProp colAttrs "style") in
    let colsCssClasses := ["wp-block-columns"; "is-layout-flex"] in
    block "columns" colAttrs
      ("<div class=" +:+ DQ +:+ join " " colsCssClasses +:+ DQ +:+ colStyleAttr +:+
       ">" +:+ NL +:+ columnBlocks +:+ NL +:+ "</div>")
  else if decide (layout_type layout = "grid") then
    let gridAttrs : obj :=
      [("layout",
        JObj [("type", JStr "grid"); ("minimumColumnWidth", JStr "300px")])] in
    let inner := join (NL +:+ NL) (List.map (λ c, renderNode c tokens) children) in
    let gridClasses := ["wp-block-group"; "is-layout-grid"] in
    block "group" gridAttrs
      ("<div class=" +:+ DQ +:+ join " " gridClasses +:+ DQ +:+ ">" +:+ NL +:+
       inner +:+ NL +:+ "</div>")
  else join (NL +:+ NL) (List.map (λ c, renderNode c tokens) children).

Definition renderSection (section : IRSection) (tokens : DesignTokens) : string :=
  let innerContent := renderChildrenForLayout section tokens in
  let background := background section in
  let layout := layout section in
  let className := section_className section in
  let outerType :=
    if decide (layout_type layout = "full-width") then "default" else "constrained" in
  let imageBg :=
    match background with
    | Some bg => if decide (bg_type bg = "image") then Some bg else None
    | None => None
    end in
  match imageBg with
  | Some bg =>
      let coverAttrs : obj :=
        [("url", JStr (bg_value bg)); ("dimRatio", JNum 50);
         ("layout", JObj [("type", JStr outerType)])] in
      let coverClasses := ["wp-block-cover"] in
      let '(coverAttrs, coverClasses) :=
        applyClassName className coverAttrs coverClasses in
      block "cover" coverAttrs
        (join NL
           ["<div class=" +:+ DQ +:+ join " " coverClasses +:+ DQ +:+ ">";
            "<span aria-hidden=" +:+ DQ +:+ "true" +:+ DQ +:+ " class=" +:+ DQ +:+
              "wp-block-cover__background has-background-dim" +:+ DQ +:+ "></span>";
            "<img class=" +:+ DQ +:+ "wp-block-cover__image-background" +:+ DQ +:+
              " alt=" +:+ DQ +:+ DQ +:+ " src=" +:+ DQ +:+
              Utils.escapeAttr (bg_value bg) +:+ DQ +:+ " data-object-fit=" +:+ DQ +:+
              "cover" +:+ DQ +:+ "/>";
            "<div class=" +:+ DQ +:+ "wp-block-cover__inner-container" +:+ DQ +:+ ">";
            innerContent;
            "</div>";
            "</div>"])
  | None =>
      let groupAttrs : obj := [("layout", JObj [("type", JStr outerType)])] in
      let cssClasses := ["wp-block-group"] in
      let cssClasses :=
        match nonEmptyStr (layoutClassFromType (Some outerType)) with
        | Some c => cssClasses ++ [c]
        | None => cssClasses
        end in
      let groupStyle : obj := [] in
      let '(groupStyle, cssClasses) :=
        match background with
        | Some bg =>
            if decide (bg_type bg = "color") then
              (setProp groupStyle "color" (JObj [("background", JStr (bg_value bg))]),
               cssClasses ++ ["has-background"])
            else if decide (bg_type bg = "gradient") then
              (setProp groupStyle "color" (JObj [("gradient", JStr (bg_value bg))]),
               cssClasses ++ ["has-background"])
            else (groupStyle, cssClasses)
        | None => (groupStyle, cssClasses)
        end in
      let groupStyle :=
        match nonEmptyStr (gap layout) ≫= (λ g, nonEmptyStr (GAP_MAP !! g)) with
        | Some gapVal =>
            setProp groupStyle "spacing"
              (JObj [("padding",
                      JObj [("top", JStr gapVal); ("bottom", JStr gapVal)])])
        | None => groupStyle
        end in
      let groupAttrs := attachStyle groupAttrs groupStyle in
      let '(groupAttrs, cssClasses) :=
        applyClassName className groupAttrs cssClasses in
      let classAttr := " class=" +:+ DQ +:+ join " " cssClasses +:+ DQ in
      let styleAttr := wpInlineStyle (lookupProp groupAttrs "style") in
      block "group" groupAttrs
        ("<div" +:+ classAttr +:+ styleAttr +:+ ">" +:+ NL +:+ innerContent +:+
         NL +:+ "</div>")
  end.

Definition renderTemplate (sections : list IRSection) (tokens : DesignTokens)
    (hasHeader hasFooter : bool) : string :=
  let parts : list string := [] in
  let parts :=
    if hasHeader then
      parts ++ [selfClosingBlock "template-part"
                  [("slug", JStr "header"); ("area", JStr "header")]]
    else parts in
  let parts := parts ++ List.map (λ section, renderSection section tokens) sections in
  let parts :=
    if hasFooter then
      parts ++ [selfClosingBlock "template-part"
                  [("slug", JStr "footer"); ("area", JStr "footer")]]
    else parts in
  join (NL +:+ NL) parts.

End Renderer.

(** ** The block structure of a fragment

    The renderer returns strings.  To speak of the blocks in a fragment,
    [renderNodeTree] is [renderNode] again with every call of [block] kept
    as a node: [Block name attrs inner] for [block(name, attrs, ...)] and
    [Html] for the text between blocks, and [flatten] writes a tree out as
    the string. *)

Inductive Markup :=
| Html (s : string)
| Block (name : string) (attrs : obj) (inner : list Markup).

Fixpoint flatten (m : Markup) : string :=
  match m with
  | Html s => s
  | Block name attrs inner =>
      Renderer.block name attrs
        ((fix all (l : list Markup) : string :=
            match l with
            | [] => ""
            | x :: rest => flatten x +:+ all rest
            end) inner)
  end.

Definition flattenAll (l : list Markup) : string :=
  foldr (λ x acc, flatten x +:+ acc) "" l.

(** The items with [sep] between neighbours, as [join] places it. *)
Fixpoint separated (sep : Markup) (items : list Markup) : list Markup :=
  match items with
  | [] => []
  | [x] => [x]
  | x :: rest => x :: sep :: separated sep rest
  end.

Fixpoint renderNodeTree (node : IRNode) (tokens : DesignTokens) : Markup :=
  match node with
  | mkIRNode t _ _ ch _ _ _ =>
      match t with
      | heading =>
          let '(blockAttrs, html) := Renderer.headingParts node tokens in
          Block "heading" blockAttrs [Html html]
      | paragraph =>
          let '(blockAttrs, html) := Renderer.paragraphParts node tokens in
          Block "paragraph" blockAttrs [Html html]
      | image =>
          let '(blockAttrs, html) := Renderer.imageParts node in
          Block "image" blockAttrs [Html html]
      | button =>
          Block "buttons" []
            [Html (Renderer.buttonsOpenTag +:+ NL);
             Block "button" (Renderer.buttonAttrs node)
               [Html (Renderer.buttonInnerHtml node)];
             Html (NL +:+ "</div>")]
      | list_ =>
          let '(blockAttrs, html) := Renderer.listParts node in
          Block "list" blockAttrs [Html html]
      | spacer =>
          let '(blockAttrs, html) := Renderer.spacerParts node in
          Block "spacer" blockAttrs [Html html]
      | group =>
          let '(blockAttrs, openTag) := Renderer.groupParts node in
          Block "group" blockAttrs
            ([Html (openTag +:+ NL)] ++
             separated (Html (NL +:+ NL))
               (match ch with
                | Some cs => List.map (λ c, renderNodeTree c tokens) cs
                | None => []
                end) ++
             [Html (NL +:+ "</div>")])
      | navigation =>
          let '(blockAttrs, openTag) := Renderer.navigationParts node in
          Block "group" blockAttrs
            ([Html (openTag +:+ NL)] ++
             separated (Html (NL +:+ NL))
               (List.map (λ link, Block "paragraph" [] [Html (Renderer.linkHtml link)])
                  (default [] (links (attributes node)))) ++
             [Html (NL +:+ "</div>")])
      | unsupported name => Html ("<!-- Unsupported node type: " +:+ name +:+ " -->")
      end
  end.

(** A tree in which a [button] block occurs only as the one block inside a
    [buttons] block, between two pieces of text, and holds text only. *)
Inductive Wrapped : Markup → Prop :=
| Wrapped_html (s : string) : Wrapped (Html s)
| Wrapped_buttons (attrs battrs : obj) (pre anchor post : string) :
    Wrapped (Block "buttons" attrs
               [Html pre; Block "button" battrs [Html anchor]; Html post])
| Wrapped_block (name : string) (attrs : obj) (inner : list Markup) :
    name ≠ "button" → name ≠ "buttons" → Forall Wrapped inner →
    Wrapped (Block name attrs inner).

(** ** The parsed original markup

    [cheerio.load] is a library call.  Its result is modelled as the list of
    top-level nodes of the parsed document; text and element nodes are the
    only ones that [text()], [attr()] and the tag selectors look at.  The
    parser itself is a parameter of [postprocessClassNames]. *)

Inductive DomNode :=
| DomText (data : string)
| DomElement (tagName : string) (attribs : list (string * string))
    (childNodes : list DomNode).

Module Cheerio.

(** [$(el).text()] *)
Fixpoint text (n : DomNode) : string :=
  match n with
  | DomText d => d
  | DomElement _ _ cs =>
      (fix go (l : list DomNode) : string :=
         match l with
         | [] => ""
         | c :: rest => text c +:+ go rest
         end) cs
  end.

(** [$(el).attr(name)] *)
Definition attr (n : DomNode) (name : string) : option string :=
  match n with
  | DomText _ => None
  | DomElement _ attribs _ => snd <$> List.find (λ kv, bool_decide (fst kv = name)) attribs
  end.

Definition toLowerChar (c : ascii) : ascii :=
  let n := nat_of_ascii c in
  if ((65 <=? n) && (n <=? 90))%nat then ascii_of_nat (n + 32) else c.

(** [String.prototype.toLowerCase].  Inside ASCII it moves [A-Z] to [a-z].
    Two characters outside ASCII have an ASCII letter in their lower-case
    form: U+212A (the Kelvin sign) becomes [k], and U+0130 becomes [i]
    followed by U+0307.  Every other character outside ASCII has a
    lower-case form outside ASCII and keeps its bytes here: the code only
    compares the result with ASCII tag names and picks [[a-z0-9]] out of
    it.  [skip] counts the bytes still to pass of the character just
    replaced. *)
Definition kelvinSign : string := utf8 [226; 132; 170]%nat.
Definition capitalIDot : string := utf8 [196; 176]%nat.
Definition smallIDot : string := "i" +:+ utf8 [204; 135]%nat.

Fixpoint lowerFrom (skip : nat) (s : string) : string :=
  match s with
  | EmptyString => ""
  | String a rest =>
      match skip with
      | S k => lowerFrom k rest
      | O =>
          if startsWith kelvinSign s then "k" +:+ lowerFrom 2 rest
          else if startsWith capitalIDot s then smallIDot +:+ lowerFrom 1 rest
          else String (toLowerChar a) (lowerFrom 0 rest)
      end
  end.

Definition toLowerCase (s : string) : string := lowerFrom 0 s.

(** [el.tagName?.toLowerCase() || ""] *)
Definition tagOf (n : DomNode) : string :=
  match n with
  | DomText _ => ""
  | DomElement t _ _ => toLowerCase t
  end.

(** The element [n] and every element below it, in document order. *)
Fixpoint elements (n : DomNode) : list DomNode :=
  match n with
  | DomText _ => []
  | DomElement _ _ cs =>
      n :: (fix go (l : list DomNode) : list DomNode :=
              match l with
              | [] => []
              | c :: rest => elements c ++ go rest
              end) cs
  end.

Definition matches (selector : list string) (n : DomNode) : bool :=
  bool_decide (tagOf n ∈ selector).

(** [$(selector)] on a document: the matching elements in document order. *)
Definition select (selector : list string) (doc : list DomNode) : list DomNode :=
  List.filter (matches selector) (concat (List.map elements doc)).

(** [$(root).find(selector)]: matching elements strictly below [root]. *)
Definition find (selector : list string) (root : DomNode) : list DomNode :=
  match root with
  | DomText _ => []
  | DomElement _ _ cs => select selector cs
  end.

End Cheerio.

(** ** The class-name post-processor ([postprocessClassNames]) *)

Module Postprocessor.

Inductive LeafType := leafHeading | leafParagraph | leafImage | leafButton | leafList.

#[global] Instance LeafType_eq_dec : EqDecision LeafType.
Proof. solve_decision. Defined.

Definition LeafType_to_nat (t : LeafType) : nat :=
  match t with
  | leafHeading => 0 | leafParagraph => 1 | leafImage => 2
  | leafButton => 3 | leafList => 4
  end%nat.

Definition LeafType_of_nat (n : nat) : option LeafType :=
  match n with
  | 0 => Some leafHeading | 1 => Some leafParagraph | 2 => Some leafImage
  | 3 => Some leafButton | 4 => Some leafList | _ => None
  end%nat.

#[global] Instance LeafType_countable : Countable LeafType.
Proof.
  apply (inj_countable LeafType_to_nat LeafType_of_nat). by intros [].
Defined.

Record LeafElement := mkLeafElement {
  id : nat;
  leaf_type : LeafType;
  key : string;
  classes : list string }.

(** The source also stores [leafKeySet: new Set(leafKeys)]; it is derived
    here. *)
Record ContainerElement := mkContainerElement {
  container_id : nat;
  container_classes : list string;
  leafKeys : list string }.

Definition leafKeySet (c : ContainerElement) : gset string :=
  list_to_set (leafKeys c).

(** [/\s/] and [trim()] look for the white-space characters of
    JavaScript: the six of ASCII (tab, line feed, vertical tab, form feed,
    carriage return, space), and U+00A0, U+1680, U+2000 to U+200A, U+2028,
    U+2029, U+202F, U+205F, U+3000 and U+FEFF.  [wideSpaces] lists the
    UTF-8 bytes of those outside ASCII. *)
Definition wideSpaces : list string :=
  [utf8 [194; 160]; utf8 [225; 154; 128]]%nat ++
  List.map (λ c, utf8 [226; 128; c])%nat
    [128; 129; 130; 131; 132; 133; 134; 135; 136; 137; 138; 168; 169; 175]%nat ++
  [utf8 [226; 129; 159]; utf8 [227; 128; 128]; utf8 [239; 187; 191]]%nat.

(** The white-space character that [s] starts with. *)
Definition spaceAt (s : string) : option string :=
  match s with
  | EmptyString => None
  | String a _ =>
      if Ascii.is_space a then Some (String a "")
      else List.find (λ w, startsWith w s) wideSpaces
  end.

(** The text as a scan for [\s] goes through it: each white-space
    character is one item, and every other byte is an item of its own.
    [skip] counts the bytes still to pass of the character just found. *)
Fixpoint charsFrom (skip : nat) (s : string) : list string :=
  match s with
  | EmptyString => []
  | String a rest =>
      match skip with
      | S k => charsFrom k rest
      | O =>
          match spaceAt s with
          | Some w => w :: charsFrom (Nat.pred (String.length w)) rest
          | None => String a "" :: charsFrom 0 rest
          end
      end
  end.

Definition chars (s : string) : list string := charsFrom 0 s.

(** The items back in one string. *)
Definition unchars (l : list string) : string := foldr String.append "" l.

(** [c] is one white-space character. *)
Definition isSpace (c : string) : bool := bool_decide (spaceAt c = Some c).

(** [text.replace(/\s+/g, " ")] *)
Fixpoint collapseItems (inRun : bool) (l : list string) : list string :=
  match l with
  | [] => []
  | c :: rest =>
      if isSpace c then
        if inRun then collapseItems true rest
        else " " :: collapseItems true rest
      else c :: collapseItems false rest
  end.

Definition collapseSpaces (text : string) : string :=
  unchars (collapseItems false (chars text)).

Fixpoint dropSpaces (l : list string) : list string :=
  match l with
  | [] => []
  | c :: rest => if isSpace c then dropSpaces rest else l
  end.

Definition trimStart (s : string) : string := unchars (dropSpaces (chars s)).

Fixpoint dropSpacesEnd (l : list string) : list string :=
  match l with
  | [] => []
  | c :: rest =>
      match dropSpacesEnd rest with
      | [] => if isSpace c then [] else [c]
      | r => c :: r
      end
  end.

Definition trimEnd (s : string) : string := unchars (dropSpacesEnd (chars s)).

Definition trim (s : string) : string := trimEnd (trimStart s).

Definition normalizeText (text : string) : string :=
  trim (collapseSpaces text).

(** [[A-Za-z_]] and [[\w-]] *)
Definition isNameStart (c : ascii) : bool :=
  let n := nat_of_ascii c in
  ((65 <=? n) && (n <=? 90) || (97 <=? n) && (n <=? 122) || (n =? 95))%nat.

Definition isNameChar (c : ascii) : bool :=
  let n := nat_of_ascii c in
  (isNameStart c || (48 <=? n) && (n <=? 57) || (n =? 45))%nat.

(** Where the scan for the class-selector pattern (a dot, one character of
    [A-Za-z_], then the longest run of word characters and dashes) stands:
    outside a match, just after a dot, or inside the captured name. *)
Inductive ScanState := Outside | AfterDot | InName (name : string).

Fixpoint scanClasses (st : ScanState) (css : string) (classes : gset string)
  : gset string :=
  match css with
  | EmptyString =>
      match st with
      | InName name => {[ name ]} ∪ classes
      | _ => classes
      end
  | String c rest =>
      match st with
      | InName name =>
          if isNameChar c then scanClasses (InName (name +:+ String c "")) rest classes
          else
            scanClasses (if decide (c = "."%char) then AfterDot else Outside) rest
              ({[ name ]} ∪ classes)
      | AfterDot =>
          if isNameStart c then scanClasses (InName (String c "")) rest classes
          else scanClasses (if decide (c = "."%char) then AfterDot else Outside) rest classes
      | Outside =>
          scanClasses (if decide (c = "."%char) then AfterDot else Outside) rest classes
      end
  end.

Definition extractCssClasses (css : string) : gset string :=
  scanClasses Outside css ∅.

(** [str.split(/\s+/)] *)
Fixpoint splitItems (cur : string) (inRun : bool) (l : list string) : list string :=
  match l with
  | [] => [cur]
  | c :: rest =>
      if isSpace c then
        if inRun then splitItems cur true rest
        else cur :: splitItems "" true rest
      else splitItems (cur +:+ c) false rest
  end.

Definition splitWs (s : string) : list string := splitItems "" false (chars s).

(** [set.add(x)] on an insertion-ordered [Set<string>]. *)
Definition setAdd (merged : list string) (cls : string) : list string :=
  if bool_decide (cls ∈ merged) then merged else merged ++ [cls].

Definition mergeClassName (existing : option string) (additions : list string)
  : option string :=
  match additions with
  | [] => existing
  | _ =>
      let merged : list string := [] in
      let merged :=
        match nonEmptyStr existing with
        | Some e => foldl setAdd merged (List.filter Renderer.isNonEmpty (splitWs e))
        | None => merged
        end in
      let merged := foldl setAdd merged additions in
      match merged with
      | [] => None
      | _ => Some (join " " merged)
      end
  end.

Definition getClassList (raw : option string) (cssClasses : gset string)
  : list string :=
  match nonEmptyStr raw with
  | None => []
  | Some r =>
      List.filter (λ c, Renderer.isNonEmpty c && bool_decide (c ∈ cssClasses))
        (List.map trim (splitWs r))
  end.

Definition startsWithH (tag : string) : bool :=
  match tag with
  | String "h" _ => true
  | _ => false
  end.

Definition buildLeafKey (tag text : string) (extra : option string)
  : option string :=
  let normText := normalizeText text in
  if startsWithH tag then
    if decide (normText = "") then None else Some (tag +:+ "|" +:+ normText)
  else if decide (tag = "p") then
    if decide (normText = "") then None else Some ("p|" +:+ normText)
  else if decide (tag = "img") then
    match nonEmptyStr extra with
    | None => None
    | Some e => Some ("img|" +:+ e)
    end
  else if decide (tag = "button" ∨ tag = "a") then
    if decide (normText = "") then None
    else Some ("btn|" +:+ normText +:+ "|" +:+ orStr extra "")
  else if decide (tag = "ul" ∨ tag = "ol") then
    match nonEmptyStr extra with
    | None => None
    | Some e => Some ("list|" +:+ tag +:+ "|" +:+ e)
    end
  else None.

Definition leafSelector : list string :=
  ["h1"; "h2"; "h3"; "h4"; "h5"; "h6"; "p"; "img"; "button"; "a"; "ul"; "ol"].

Definition containerSelector : list string :=
  ["div"; "section"; "article"; "nav"; "header"; "footer"; "aside"; "main"].

(** The [li] texts of a list element, normalized, empty ones dropped,
    joined with a bar. *)
Definition listItemsKey (el : DomNode) : string :=
  join "|"
    (List.filter Renderer.isNonEmpty
       (List.map (λ li, normalizeText (Cheerio.text li)) (Cheerio.find ["li"] el))).

(** The key that the body of the [each] callback in [collectHtmlLeafKeys]
    computes for one element. *)
Definition htmlLeafKey (el : DomNode) : option string :=
  let tag := Cheerio.tagOf el in
  if decide (tag = "") then None
  else if decide (tag = "img") then
    buildLeafKey tag "" (Some (orStr (Cheerio.attr el "src") ""))
  else if decide (tag = "ul" ∨ tag = "ol") then
    buildLeafKey tag "" (Some (listItemsKey el))
  else
    let text := Cheerio.text el in
    let href := if decide (tag = "a") then orStr (Cheerio.attr el "href") "" else "" in
    buildLeafKey tag text (Some href).

Definition collectHtmlLeafKeys (root : DomNode) : list string :=
  foldl
    (λ keys el,
      match htmlLeafKey el with
      | Some k => setAdd keys k
      | None => keys
      end)
    [] (Cheerio.find leafSelector root).

(** The content kind and fingerprint key of an IR node.  Both
    [collectIrLeafKeys] and [applyLeafClasses] compute it, with the same
    expressions, in their switch over [node.type]; the outer [None] is the
    [default] branch, the inner one a null key. *)
Definition irLeafKey (n : IRNode) : option (LeafType * option string) :=
  let attrs := attributes n in
  match type n with
  | heading =>
      let level := orNum (level attrs) 2 in
      Some (leafHeading, buildLeafKey ("h" +:+ pretty level) (orStr (content n) "") None)
  | paragraph =>
      Some (leafParagraph, buildLeafKey "p" (orStr (content n) "") None)
  | image =>
      Some (leafImage, buildLeafKey "img" "" (Some (orStr (src attrs) "")))
  | button =>
      Some (leafButton,
            buildLeafKey "button" (orStr (content n) "") (Some (orStr (href attrs) "")))
  | list_ =>
      let items := default [] (items attrs) in
      Some (leafList,
            buildLeafKey (if default false (ordered attrs) then "ol" else "ul") ""
              (Some (join "|" items)))
  | _ => None
  end.

(** The keys that the inner [walkNode] of [collectIrLeafKeys] pushes for a
    node and everything below it, in push order. *)
Fixpoint pushedKeys (n : IRNode) : list string :=
  match n with
  | mkIRNode _ _ _ ch _ _ _ =>
      match irLeafKey n with
      | Some (_, Some k) => [k]
      | _ => []
      end ++
      match ch with
      | Some cs => concat (List.map pushedKeys cs)
      | None => []
      end
  end.

(** [collectIrLeafKeys] on the children of a node or section:
    [Array.from(new Set(keys))]. *)
Definition collectIrLeafKeys (children : option (list IRNode)) : list string :=
  match children with
  | Some cs => foldl setAdd [] (concat (List.map pushedKeys cs))
  | None => []
  end.

Definition setClassName (n : IRNode) (cn : option string) : IRNode :=
  mkIRNode (type n) (content n) (attributes n) (children n) (motionIntent n)
    (style n) cn.

Definition setChildren (n : IRNode) (cs : option (list IRNode)) : IRNode :=
  mkIRNode (type n) (content n) (attributes n) cs (motionIntent n)
    (style n) (className n).

Definition setSectionClassName (s : IRSection) (cn : option string) : IRSection :=
  mkIRSection (sectionIntent s) (layout s) (section_children s)
    (section_motionIntent s) (background s) (section_style s) cn.

Definition setSectionChildren (s : IRSection) (cs : list IRNode) : IRSection :=
  mkIRSection (sectionIntent s) (layout s) cs
    (section_motionIntent s) (background s) (section_style s) (section_className s).

Definition addClassesToNode (node : IRNode) (classes : list string) : IRNode :=
  setClassName node (mergeClassName (className node) classes).

Definition addClassesToSection (section : IRSection) (classes : list string)
  : IRSection :=
  setSectionClassName section (mergeClassName (section_className section) classes).

(** *** Index construction *)

Record Index := mkIndex {
  leafByKey : gmap string (list LeafElement);
  leafByType : gmap LeafType (list LeafElement);
  containers : list ContainerElement }.

(** State of the two [each] loops: the shared [idCounter] and what has been
    collected so far. *)
Record Build := mkBuild {
  idCounter : nat;
  built : Index }.

(** [if (!m.has(k)) m.set(k, []); m.get(k).push(leaf)] *)
Definition pushTo `{Countable K} (m : gmap K (list LeafElement)) (k : K)
    (leaf : LeafElement) : gmap K (list LeafElement) :=
  <[k := default [] (m !! k) ++ [leaf]]> m.

(** The [type] and [key] the leaf loop computes for an element. *)
Definition leafTypeAndKey (el : DomNode) : option (LeafType * string) :=
  let tag := Cheerio.tagOf el in
  if decide (tag = "") then None
  else
    let tk : option LeafType * option string :=
      if startsWithH tag then
        (Some leafHeading, buildLeafKey tag (Cheerio.text el) None)
      else if decide (tag = "p") then
        (Some leafParagraph, buildLeafKey "p" (Cheerio.text el) None)
      else if decide (tag = "img") then
        (Some leafImage,
         buildLeafKey "img" "" (Some (orStr (Cheerio.attr el "src") "")))
      else if decide (tag = "button" ∨ tag = "a") then
        let href :=
          if decide (tag = "a") then orStr (Cheerio.attr el "href") "" else "" in
        (Some leafButton, buildLeafKey tag (Cheerio.text el) (Some href))
      else if decide (tag = "ul" ∨ tag = "ol") then
        (Some leafList, buildLeafKey tag "" (Some (listItemsKey el)))
      else (None, None) in
    match tk with
    | (Some t, Some k) => if decide (k = "") then None else Some (t, k)
    | _ => None
    end.

Definition addLeaf (cssClasses : gset string) (b : Build) (el : DomNode) : Build :=
  match leafTypeAndKey el with
  | None => b
  | Some (t, k) =>
      let classes := getClassList (Cheerio.attr el "class") cssClasses in
      let leaf := mkLeafElement (idCounter b) t k classes in
      mkBuild (S (idCounter b))
        (mkIndex (pushTo (leafByKey (built b)) k leaf)
           (pushTo (leafByType (built b)) t leaf)
           (containers (built b)))
  end.

Definition addContainer (cssClasses : gset string) (b : Build) (el : DomNode)
  : Build :=
  match getClassList (Cheerio.attr el "class") cssClasses with
  | [] => b
  | classes =>
      match collectHtmlLeafKeys el with
      | [] => b
      | keys =>
          mkBuild (S (idCounter b))
            (mkIndex (leafByKey (built b)) (leafByType (built b))
               (containers (built b) ++ [mkContainerElement (idCounter b) classes keys]))
      end
  end.

Definition buildIndex (doc : list DomNode) (cssClasses : gset string) : Index :=
  let b := mkBuild 0 (mkIndex ∅ ∅ []) in
  let b := foldl (addLeaf cssClasses) b (Cheerio.select leafSelector doc) in
  let b := foldl (addContainer cssClasses) b (Cheerio.select containerSelector doc) in
  built b.

(** *** Matching *)

(** The two [used] sets of a call.  [mergedLeaves] and [mergedContainers]
    are history variables: every call of [addClassesToNode] or
    [addClassesToSection] appends the id of the element whose classes it
    merges ([noteLeafMerge], [noteContainerMerge]); marking an id as used
    ([useLeaf], [useContainer]) is a step of its own, as in the source.
    The program does not read the history. *)
Record MatchState := mkMatchState {
  usedLeafIds : gset nat;
  usedContainerIds : gset nat;
  mergedLeaves : list nat;
  mergedContainers : list nat }.

Definition initialState : MatchState := mkMatchState ∅ ∅ [] [].

Definition unusedLeaf (st : MatchState) (leaf : LeafElement) : bool :=
  negb (bool_decide (id leaf ∈ usedLeafIds st)).

Definition findLeafMatch (idx : Index) (st : MatchState) (key : string)
    (type : LeafType) : option LeafElement :=
  match List.find (unusedLeaf st) (default [] (leafByKey idx !! key)) with
  | Some leaf => Some leaf
  | None => List.find (unusedLeaf st) (default [] (leafByType idx !! type))
  end.

(** [leafKeys.length <= 3 ? 1 : Math.ceil(leafKeys.length * 0.3)].  The
    product is taken exactly: for every array length the double nearest to
    [0.3 * n] has the same ceiling as [3 * n / 10]. *)
Definition minOverlap (leafKeys : list string) : nat :=
  if (length leafKeys <=? 3)%nat then 1%nat
  else Z.to_nat (Utils.ceilDiv (3 * Z.of_nat (length leafKeys)) 10).

(** The number of keys of the container's set that the target set has. *)
Definition overlapOf (target : gset string) (c : ContainerElement) : nat :=
  size (filter (λ k, k ∈ target) (leafKeySet c)).

(** [overlap / container.leafKeys.length], as an exact fraction.  It is
    only computed for a positive overlap, hence a positive length, and two
    such quotients of array lengths are equal as doubles exactly when they
    are equal as fractions. *)
Definition ratioOf (overlap : nat) (c : ContainerElement) : Q :=
  Z.of_nat overlap # Pos.of_nat (length (leafKeys c)).

Record Best := mkBest {
  best_container : ContainerElement;
  best_overlap : nat;
  best_ratio : Q;
  best_size : nat }.

Definition Qgtb (a b : Q) : bool := negb (Qle_bool a b).

(** The test that lets a candidate replace [best]. *)
Definition replaces (overlap : nat) (ratio : Q) (size : nat) (best : option Best)
  : bool :=
  match best with
  | None => true
  | Some b =>
      (best_overlap b <? overlap)%nat
      || ((overlap =? best_overlap b)%nat && Qgtb ratio (best_ratio b))
      || ((overlap =? best_overlap b)%nat && Qeq_bool ratio (best_ratio b)
          && (size <? best_size b)%nat)
  end.

(** One iteration of the loop over [containers]. *)
Definition considerContainer (st : MatchState) (target : gset string)
    (threshold : nat) (best : option Best) (c : ContainerElement) : option Best :=
  if bool_decide (container_id c ∈ usedContainerIds st) then best
  else
    let overlap := overlapOf target c in
    if (overlap <? threshold)%nat then best
    else
      let ratio := ratioOf overlap c in
      if replaces overlap ratio (length (leafKeys c)) best
      then Some (mkBest c overlap ratio (length (leafKeys c)))
      else best.

Definition findContainerMatch (idx : Index) (st : MatchState)
    (leafKeys : list string) : option ContainerElement :=
  match leafKeys with
  | [] => None
  | _ =>
      let leafKeySet : gset string := list_to_set leafKeys in
      let threshold := minOverlap leafKeys in
      best_container <$>
        foldl (considerContainer st leafKeySet threshold) None (containers idx)
  end.

(** The history entry for a call [addClassesToNode(node, match.classes)]
    with the classes of the leaf [leafId], and for a call of [applyFn] with
    the classes of the container [cid]. *)
Definition noteLeafMerge (st : MatchState) (leafId : nat) : MatchState :=
  mkMatchState (usedLeafIds st) (usedContainerIds st)
    (mergedLeaves st ++ [leafId]) (mergedContainers st).

Definition noteContainerMerge (st : MatchState) (cid : nat) : MatchState :=
  mkMatchState (usedLeafIds st) (usedContainerIds st)
    (mergedLeaves st) (mergedContainers st ++ [cid]).

(** [usedLeafIds.add(match.id)] and [usedContainerIds.add(match.id)] *)
Definition useLeaf (st : MatchState) (leafId : nat) : MatchState :=
  mkMatchState ({[ leafId ]} ∪ usedLeafIds st) (usedContainerIds st)
    (mergedLeaves st) (mergedContainers st).

Definition useContainer (st : MatchState) (cid : nat) : MatchState :=
  mkMatchState (usedLeafIds st) ({[ cid ]} ∪ usedContainerIds st)
    (mergedLeaves st) (mergedContainers st).

Definition applyLeafClasses (idx : Index) (node : IRNode) (st : MatchState)
  : IRNode * MatchState :=
  match irLeafKey node with
  | Some (t, Some k) =>
      match findLeafMatch idx st k t with
      | Some m =>
          match classes m with
          | [] => (node, st)
          | cls =>
              (addClassesToNode node cls, useLeaf (noteLeafMerge st (id m)) (id m))
          end
      | None => (node, st)
      end
  | _ => (node, st)
  end.

(** [applyContainerClasses(target, applyFn)]; [keys] is
    [collectIrLeafKeys(target)]. *)
Definition applyContainerClasses {T} (idx : Index) (keys : list string)
    (applyFn : T → list string → T) (target : T) (st : MatchState)
  : T * MatchState :=
  match keys with
  | [] => (target, st)
  | _ =>
      match findContainerMatch idx st keys with
      | Some m =>
          match container_classes m with
          | [] => (target, st)
          | cls =>
              (applyFn target cls,
               useContainer (noteContainerMerge st (container_id m)) (container_id m))
          end
      | None => (target, st)
      end
  end.

Fixpoint walkNode (idx : Index) (node : IRNode) (st : MatchState) {struct node}
  : IRNode * MatchState :=
  match node with
  | mkIRNode t _ _ ch _ _ _ =>
      let '(node, st) := applyLeafClasses idx node st in
      let '(node, st) :=
        match t with
        | group =>
            applyContainerClasses idx (collectIrLeafKeys ch) addClassesToNode node st
        | _ => (node, st)
        end in
      match ch with
      | Some cs =>
          let '(cs', st) :=
            (fix each (l : list IRNode) (st : MatchState) : list IRNode * MatchState :=
               match l with
               | [] => ([], st)
               | c :: rest =>
                   let '(c', st) := walkNode idx c st in
                   let '(rest', st) := each rest st in
                   (c' :: rest', st)
               end) cs st in
          (setChildren node (Some cs'), st)
      | None => (node, st)
      end
  end.

(** [list.forEach(walk)] with the state threaded through. *)
Fixpoint forEach {T} (walk : T → MatchState → T * MatchState) (l : list T)
    (st : MatchState) : list T * MatchState :=
  match l with
  | [] => ([], st)
  | x :: rest =>
      let '(x', st) := walk x st in
      let '(rest', st) := forEach walk rest st in
      (x' :: rest', st)
  end.

Definition walkSection (idx : Index) (section : IRSection) (st : MatchState)
  : IRSection * MatchState :=
  let '(section, st) :=
    applyContainerClasses idx (collectIrLeafKeys (Some (section_children section)))
      addClassesToSection section st in
  let '(cs', st) := forEach (walkNode idx) (section_children section) st in
  (setSectionChildren section cs', st).

Definition walkOptional (idx : Index) (section : option IRSection) (st : MatchState)
  : option IRSection * MatchState :=
  match section with
  | Some s => let '(s', st) := walkSection idx s st in (Some s', st)
  | None => (None, st)
  end.

(** Header, then the body sections in order, then footer. *)
Definition walkDocument (idx : Index) (ir : IRDocument) (st : MatchState)
  : IRDocument * MatchState :=
  let '(header', st) := walkOptional idx (header ir) st in
  let '(sections', st) := forEach (walkSection idx) (sections ir) st in
  let '(footer', st) := walkOptional idx (footer ir) st in
  (mkIRDocument (version ir) (metadata ir) (designTokens ir) header' sections'
     footer' (customCSS ir), st).

(** The index a call builds, when it gets past both early returns. *)
Definition indexOf (load : string → list DomNode)
    (rawHtml extractedCSS : option string) : option Index :=
  match nonEmptyStr rawHtml, nonEmptyStr extractedCSS with
  | Some raw, Some css =>
      let cssClasses := extractCssClasses css in
      if decide (size cssClasses = 0%nat) then None
      else Some (buildIndex (load raw) cssClasses)
  | _, _ => None
  end.

(** The document as a call leaves it, with the final matching state.
    [load] is [cheerio.load]. *)
Definition runPostprocess (load : string → list DomNode) (ir : IRDocument)
    (rawHtml extractedCSS : option string) : IRDocument * MatchState :=
  match indexOf load rawHtml extractedCSS with
  | None => (ir, initialState)
  | Some idx => walkDocument idx ir initialState
  end.

(** [postprocessClassNames], as a function of the state of the document
    before the call. *)
Definition postprocessClassNames (load : string → list DomNode) (ir : IRDocument)
    (rawHtml extractedCSS : option string) : IRDocument :=
  fst (runPostprocess load ir rawHtml extractedCSS).

(** *** The call on the heap

    [postprocessClassNames] assigns to [node.className] and
    [section.className] of the objects it was given and ends in
    [return ir].  A reference stands for a document object together with
    everything reachable from it. *)
Definition Ref := nat.

Definition callPostprocessClassNames (load : string → list DomNode) (ir : Ref)
    (rawHtml extractedCSS : option string) (heap : gmap Ref IRDocument)
  : Ref * gmap Ref IRDocument :=
  match heap !! ir with
  | Some doc => (ir, <[ir := postprocessClassNames load doc rawHtml extractedCSS]> heap)
  | None => (ir, heap)
  end.

End Postprocessor.

(** ** [src/lib/utils.ts]: slugs and model output

    The string functions of the file that need the case and white-space
    helpers above. *)

Module UtilsText.

(** [[a-z0-9]] *)
Definition isSlugChar (c : ascii) : bool :=
  let n := nat_of_ascii c in
  ((97 <=? n) && (n <=? 122) || (48 <=? n) && (n <=? 57))%nat.

(** [s.replace(/[^a-z0-9]+/g, "-")]: every maximal run of other characters
    becomes one dash. *)
Fixpoint dashRuns (inRun : bool) (s : string) : string :=
  match s with
  | EmptyString => ""
  | String a rest =>
      if isSlugChar a then String a (dashRuns false rest)
      else if inRun then dashRuns true rest
      else String "-" (dashRuns true rest)
  end.

Fixpoint dropTrailingDash (s : string) : string :=
  match s with
  | EmptyString => ""
  | String a rest =>
      match rest with
      | EmptyString => if decide (a = "-"%char) then "" else s
      | _ => String a (dropTrailingDash rest)
      end
  end.

(** [s.replace(/^-|-$/g, "")]: the scan removes a dash at index 0, and then
    a dash at the last index if that is a later index. *)
Definition dropEdgeDashes (s : string) : string :=
  match s with
  | String a rest =>
      if decide (a = "-"%char) then dropTrailingDash rest else dropTrailingDash s
  | EmptyString => ""
  end.

Definition slugify (name : string) : string :=
  dropEdgeDashes (dashRuns false (Cheerio.toLowerCase name)).

(** [[\x00-\x1F\x7F]] *)
Definition isControl (c : ascii) : bool :=
  let n := nat_of_ascii c in
  ((n <? 32) || (n =? 127))%nat.

Definition blankChar (c : ascii) : ascii := if isControl c then " "%char else c.

(** [s] without the prefix [p], compared without regard to case; [p] is in
    lower case. *)
Fixpoint stripPrefixCI (p s : string) : option string :=
  match p with
  | EmptyString => Some s
  | String a p' =>
      match s with
      | String b s' =>
          if decide (Cheerio.toLowerChar b = a) then stripPrefixCI p' s' else None
      | EmptyString => None
      end
  end.

(** [s.replace(/^```json?\s*/i, "")]: three backticks, [jso], an optional
    [n], and the white space after them, at the start. *)
Definition stripOpeningFence (s : string) : string :=
  match stripPrefixCI "```jso" s with
  | Some rest =>
      Postprocessor.trimStart
        (match stripPrefixCI "n" rest with
         | Some rest' => rest'
         | None => rest
         end)
  | None => s
  end.

(** [s] without three backticks at its end, when it ends with them. *)
Fixpoint stripSuffixFence (s : string) : option string :=
  match s with
  | EmptyString => None
  | String a rest =>
      if decide (s = "```") then Some "" else String a <$> stripSuffixFence rest
  end.

(** [s.replace(/\s*```$/i, "")]: three backticks at the end, with the white
    space before them. *)
Definition stripClosingFence (s : string) : string :=
  match stripSuffixFence s with
  | Some before => Postprocessor.trimEnd before
  | None => s
  end.

Definition sanitizeJSON (raw : string) : string :=
  Postprocessor.trim
    (mapChars (λ c, String (blankChar c) "")
       (stripClosingFence (stripOpeningFence raw))).

End UtilsText.

(** ** [src/generator/files/functions-php.ts]

    The names that [generateFunctionsPhp] derives from the document title,
    and the stylesheet address for the fonts.  The PHP text around them is
    a fixed template and is not modelled. *)

Module FunctionsPhp.

(** [const slug = slugify(ir.metadata.title || "ai-theme")] *)
Definition slug (ir : IRDocument) : string :=
  UtilsText.slugify (orStr (Some (title (metadata ir))) "ai-theme").

(** [const prefix = slug.replace(/-/g, "_")] *)
Definition prefix (ir : IRDocument) : string :=
  Utils.replaceAll "-"%char "_" (slug ir).

(** One iteration of the loop over [[fonts.heading, fonts.body]]; the pair
    is [(families, seen)]. *)
Definition addFont (acc : list string * gset string) (font : option string)
  : list string * gset string :=
  let '(families, seen) := acc in
  match nonEmptyStr font with
  | None => acc
  | Some f =>
      if bool_decide (f ∈ seen) then acc
      else
        let encoded := Utils.replaceAll " "%char "+" f in
        (families ++ ["family=" +:+ encoded +:+ ":wght@400;500;600;700"],
         {[ f ]} ∪ seen)
  end.

(** [null] is [None]. *)
Definition buildGoogleFontsUrl (fonts : Fonts) : option string :=
  let '(families, _) :=
    foldl addFont ([], ∅) [fonts_heading fonts; fonts_body fonts] in
  match families with
  | [] => None
  | _ =>
      Some ("https://fonts.googleapis.com/css2?" +:+ join "&" families +:+
            "&display=swap")
  end.

End FunctionsPhp.

(** ** [src/lib/reducer.ts]: the state of the converter and the summary *)

Module Reducer.

Inductive Status := Idle | Analyzing | Analyzed | Generating | Done | Error.

Record PreprocessStats := mkPreprocessStats {
  originalLength : Z;
  cleanedLength : Z;
  tokenSavings : string;
  svgsSimplified : Z;
  scriptsRemoved : Z }.

Inductive AppErrorType :=
| INVALID_API_KEY | RATE_LIMITED | TOKEN_OVERFLOW | INVALID_RESPONSE
| SCHEMA_VIOLATION | NETWORK_ERROR.

Record AppError := mkAppError {
  error_type : AppErrorType;
  message : string;
  detail : option string }.

(** The archive, as its bytes. *)
Definition Blob := string.

Record AppState := mkAppState {
  status : Status;
  ir : option IRDocument;
  stats : option PreprocessStats;
  zipBlob : option Blob;
  error : option AppError }.

(** [OTHER] is an action of a type that the switch does not name; only the
    [default] branch sees it. *)
Inductive Action :=
| START_ANALYSIS
| ANALYSIS_SUCCESS (payload_ir : IRDocument) (payload_stats : PreprocessStats)
| ANALYSIS_ERROR (payload : AppError)
| START_GENERATION
| GENERATION_DONE (payload : Blob)
| GENERATION_ERROR (payload : AppError)
| CLEAR_ERROR
| RESET
| OTHER (type : string).

Definition initialState : AppState := mkAppState Idle None None None None.

Definition reducer (state : AppState) (action : Action) : AppState :=
  match action with
  | START_ANALYSIS =>
      mkAppState Analyzing (ir initialState) (stats initialState)
        (zipBlob initialState) (error initialState)
  | ANALYSIS_SUCCESS payload_ir payload_stats =>
      mkAppState Analyzed (Some payload_ir) (Some payload_stats) (zipBlob state) None
  | ANALYSIS_ERROR payload =>
      mkAppState Error (ir state) (stats state) (zipBlob state) (Some payload)
  | START_GENERATION =>
      mkAppState Generating (ir state) (stats state) (zipBlob state) None
  | GENERATION_DONE payload =>
      mkAppState Done (ir state) (stats state) (Some payload) (error state)
  | GENERATION_ERROR payload =>
      mkAppState Error (ir state) (stats state) (zipBlob state) (Some payload)
  | CLEAR_ERROR =>
      match ir state with
      | Some _ => mkAppState Analyzed (ir state) (stats state) (zipBlob state) None
      | None => initialState
      end
  | RESET => initialState
  | OTHER _ => state
  end.

(** The three counters of [extractSummary]. *)
Record Counts := mkCounts {
  motionDowngrades : nat;
  externalImages : nat;
  classNameCount : nat }.

(** [m && m !== "static"] *)
Definition isDowngrade (m : option string) : bool :=
  match nonEmptyStr m with
  | Some s => negb (bool_decide (s = "static"))
  | None => false
  end.

(** [src?.startsWith("http")] *)
Definition isExternal (src : option string) : bool :=
  match src with
  | Some s => String.prefix "http" s
  | None => false
  end.

Definition isImage (t : NodeType) : bool :=
  match t with image => true | _ => false end.

Definition hasClassName (cn : option string) : bool :=
  match nonEmptyStr cn with Some _ => true | None => false end.

Definition bump (b : bool) (n : nat) : nat := if b then S n else n.

(** The body of the loop of [walkNodes] for one node. *)
Fixpoint walkNode (node : IRNode) (c : Counts) : Counts :=
  match node with
  | mkIRNode t _ a ch m _ cn =>
      let c :=
        mkCounts (bump (isDowngrade m) (motionDowngrades c)) (externalImages c)
          (classNameCount c) in
      let c :=
        mkCounts (motionDowngrades c)
          (bump (isImage t && isExternal (src a)) (externalImages c))
          (classNameCount c) in
      let c :=
        mkCounts (motionDowngrades c) (externalImages c)
          (bump (hasClassName cn) (classNameCount c)) in
      match ch with
      | Some cs =>
          (fix walkNodes (nodes : list IRNode) (c : Counts) : Counts :=
             match nodes with
             | [] => c
             | n :: rest => walkNodes rest (walkNode n c)
             end) cs c
      | None => c
      end
  end.

Definition walkNodes (nodes : list IRNode) (c : Counts) : Counts :=
  foldl (λ c n, walkNode n c) c nodes.

(** The body of the loop over [allSections]. *)
Definition walkSection (c : Counts) (section : IRSection) : Counts :=
  let c :=
    mkCounts (bump (isDowngrade (section_motionIntent section)) (motionDowngrades c))
      (externalImages c) (classNameCount c) in
  let c :=
    mkCounts (motionDowngrades c) (externalImages c)
      (bump (hasClassName (section_className section)) (classNameCount c)) in
  walkNodes (section_children section) c.

Definition allSections (ir : IRDocument) : list IRSection :=
  match header ir with Some h => [h] | None => [] end ++
  sections ir ++
  match footer ir with Some f => [f] | None => [] end.

Record AnalysisSummary := mkAnalysisSummary {
  sectionCount : nat;
  hasHeader : bool;
  hasFooter : bool;
  summary_designTokens : DesignTokens;
  summary_motionDowngrades : nat;
  summary_externalImages : nat;
  hasCustomCSS : bool;
  summary_classNameCount : nat }.

Definition extractSummary (ir : IRDocument) : AnalysisSummary :=
  let c := foldl walkSection (mkCounts 0 0 0) (allSections ir) in
  mkAnalysisSummary (length (sections ir))
    (match header ir with Some _ => true | None => false end)
    (match footer ir with Some _ => true | None => false end)
    (designTokens ir)
    (motionDowngrades c) (externalImages c)
    (match nonEmptyStr (customCSS ir) with
     | Some css => bool_decide (0 < String.length (Postprocessor.trim css))%nat
     | None => false
     end)
    (classNameCount c).

End Reducer.

(** ** Predicates used to state the properties *)

(** The entity [escapeAttr] ends up writing for one character. *)
Definition attrEntity (c : ascii) : string :=
  if decide (c = "&"%char) then "&amp;"
  else if decide (c = "034"%char) then "&quot;"
  else if decide (c = "<"%char) then "&lt;"
  else if decide (c = ">"%char) then "&gt;"
  else String c "".



(** Scenario A: a heading of level 1 with content Hello and nothing else,
    and the markup expected for it. *)
Definition scenarioA_node : IRNode :=
  mkIRNode heading (Some "Hello")
    (mkNodeAttributes (Some 1) None None None None None None None None None
       None None None None None)
    None None None None.

Definition scenarioA_markup : string :=
  "<!-- wp:heading {" +:+ DQ +:+ "level" +:+ DQ +:+ ":1} -->" +:+ NL +:+
  "<h1 class=" +:+ DQ +:+ "wp-block-heading" +:+ DQ +:+ ">Hello</h1>" +:+ NL +:+
  "<!-- /wp:heading -->".

Definition plainColors : Colors :=
  mkColors "#111111" "#222222" "#ffffff" "#000000" None None.

(** Design tokens without fonts, and with a heading font. *)
Definition plainTokens : DesignTokens :=
  mkDesignTokens plainColors (mkFonts None None) None.


(** The spacer block for a height [h]: the height in the block JSON and in
    the inline style of the div. *)
Definition spacerMarkup (h : string) : string :=
  "<!-- wp:spacer {" +:+ DQ +:+ "height" +:+ DQ +:+ ":" +:+ DQ +:+ h +:+ DQ +:+
  "} -->" +:+ NL +:+
  "<div style=" +:+ DQ +:+ "height:" +:+ h +:+ DQ +:+ " aria-hidden=" +:+ DQ +:+
  "true" +:+ DQ +:+ " class=" +:+ DQ +:+ "wp-block-spacer" +:+ DQ +:+ "></div>" +:+
  NL +:+ "<!-- /wp:spacer -->".

(** The height the spacer claim names: the lookup value of the padding
    attribute, and the lookup value for md when the attribute is absent or
    not a key of the table. *)
Definition claimedSpacerHeight (node : IRNode) : string :=
  default (default "" (Renderer.PADDING_MAP !! "md"))
    (padding (attributes node) ≫= (λ p, Renderer.PADDING_MAP !! p)).

Definition spacerWith (p : option string) : IRNode :=
  mkIRNode spacer None
    (mkNodeAttributes None None None None None None None None None None
       None None None None p)
    None None None None.

(** A button node with the given content, target and variant. *)
Definition buttonWith (content href variant : string) : IRNode :=
  mkIRNode button (Some content)
    (mkNodeAttributes None None None None None (Some href) (Some variant) None
       None None None None None None None)
    None None None None.

(** The border-only style object of an outline button. *)
Definition outlineBorderStyle : json :=
  JObj [("border", JObj [("width", JStr "2px"); ("style", JStr "solid")])].

(** The shape of the markup for a button node: a [wp:buttons] block whose
    div holds one [wp:button] block, whose div holds one anchor. *)
Definition anchorMarkup (classes href styleAttr label : string) : string :=
  "<a class=" +:+ DQ +:+ classes +:+ DQ +:+ " href=" +:+ DQ +:+ href +:+ DQ +:+
  styleAttr +:+ ">" +:+ label +:+ "</a>".

Definition buttonBlockMarkup (json anchor : string) : string :=
  "<!-- wp:button" +:+ json +:+ " -->" +:+ NL +:+
  "<div class=" +:+ DQ +:+ "wp-block-button" +:+ DQ +:+ ">" +:+ anchor +:+ "</div>" +:+
  NL +:+ "<!-- /wp:button -->".

Definition buttonsGroupMarkup (inner : string) : string :=
  "<!-- wp:buttons -->" +:+ NL +:+
  "<div class=" +:+ DQ +:+ "wp-block-buttons is-layout-flex" +:+ DQ +:+ ">" +:+ NL +:+
  inner +:+ NL +:+ "</div>" +:+ NL +:+ "<!-- /wp:buttons -->".

(** The anchor classes of a button node, as [renderButton] joins them. *)
Definition buttonClasses (node : IRNode) : list string :=
  snd (Renderer.applyClassName (className node)
         (fst (Renderer.buttonVariant (orStr (variant (attributes node)) "primary")))
         (snd (Renderer.buttonVariant (orStr (variant (attributes node)) "primary")))).

(** A document with every [className] field cleared: what is left is
    everything the frame property says stays the same. *)
Fixpoint eraseNode (n : IRNode) : IRNode :=
  match n with
  | mkIRNode t c a ch m s _ =>
      mkIRNode t c a
        (match ch with
         | Some cs => Some (List.map eraseNode cs)
         | None => None
         end) m s None
  end.

Definition eraseSection (s : IRSection) : IRSection :=
  mkIRSection (sectionIntent s) (layout s) (List.map eraseNode (section_children s))
    (section_motionIntent s) (background s) (section_style s) None.

Definition eraseDocument (d : IRDocument) : IRDocument :=
  mkIRDocument (version d) (metadata d) (designTokens d)
    (eraseSection <$> header d) (List.map eraseSection (sections d))
    (eraseSection <$> footer d) (customCSS d).

(** What the frame claim says of a call on the heap: the result differs
    from the input at most in class names, and it is a new document, that
    is, another object than the input, which is left as it was. *)
Definition newDocumentClaim (load : string → list DomNode) (ir : Postprocessor.Ref)
    (rawHtml extractedCSS : option string)
    (heap : gmap Postprocessor.Ref IRDocument) : Prop :=
  let '(result, heap') :=
    Postprocessor.callPostprocessClassNames load ir rawHtml extractedCSS heap in
  eraseDocument <$> (heap' !! result) = eraseDocument <$> (heap !! ir) ∧
  result ≠ ir ∧
  heap' !! ir = heap !! ir.

(** Scenario E: the markup [<p class=foo>Hi</p>] as cheerio parses it, a
    stylesheet that defines [.foo], and a document with one paragraph Hi. *)
Definition scenarioE_dom : list DomNode :=
  [DomElement "html" []
     [DomElement "head" [] [];
      DomElement "body" [] [DomElement "p" [("class", "foo")] [DomText "Hi"]]]].

Definition scenarioE_load (rawHtml : string) : list DomNode := scenarioE_dom.

Definition scenarioE_html : string :=
  "<p class=" +:+ DQ +:+ "foo" +:+ DQ +:+ ">Hi</p>".

Definition scenarioE_css : string := ".foo{color:red}".

Definition paragraphNode (content : string) (cn : option string) : IRNode :=
  mkIRNode paragraph (Some content) noAttributes None None None cn.

Definition sectionOf (cs : list IRNode) : IRSection :=
  mkIRSection "content" (mkLayoutDescriptor "constrained" None None None None)
    cs None None None None.

Definition documentOf (cs : list IRNode) : IRDocument :=
  mkIRDocument "1.0" (mkMetadata "Page" None None) plainTokens None
    [sectionOf cs] None None.

Definition scenarioE_document : IRDocument := documentOf [paragraphNode "Hi" None].

(** A container candidate qualifies when it is unused and its overlap
    reaches the threshold. *)
Definition eligible (st : Postprocessor.MatchState) (target : gset string)
    (threshold : nat) (c : Postprocessor.ContainerElement) : Prop :=
  (Postprocessor.container_id c ∉ Postprocessor.usedContainerIds st) ∧
  (threshold ≤ Postprocessor.overlapOf target c)%nat.

(** The preference between candidates: a larger overlap; for the same
    overlap a larger ratio; for the same overlap and ratio fewer leaf keys. *)
Definition beatsScore (o' : nat) (r' : Q) (s' : nat) (o : nat) (r : Q) (s : nat)
  : Prop :=
  (o < o')%nat ∨ (o' = o ∧ (r < r')%Q) ∨ (o' = o ∧ (r' == r)%Q ∧ (s' < s)%nat).

Definition beats (target : gset string) (c' c : Postprocessor.ContainerElement)
  : Prop :=
  beatsScore
    (Postprocessor.overlapOf target c')
    (Postprocessor.ratioOf (Postprocessor.overlapOf target c') c')
    (length (Postprocessor.leafKeys c'))
    (Postprocessor.overlapOf target c)
    (Postprocessor.ratioOf (Postprocessor.overlapOf target c) c)
    (length (Postprocessor.leafKeys c)).

(** What the loop of [findContainerMatch] knows about [best] after the
    candidates in [seen]. *)
Definition bestAmong (st : Postprocessor.MatchState) (target : gset string)
    (threshold : nat) (seen : list Postprocessor.ContainerElement)
    (best : option Postprocessor.Best) : Prop :=
  match best with
  | None => ∀ c, c ∈ seen → ¬ eligible st target threshold c
  | Some b =>
      let c := Postprocessor.best_container b in
      c ∈ seen ∧ eligible st target threshold c ∧
      Postprocessor.best_overlap b = Postprocessor.overlapOf target c ∧
      Postprocessor.best_ratio b
        = Postprocessor.ratioOf (Postprocessor.overlapOf target c) c ∧
      Postprocessor.best_size b = length (Postprocessor.leafKeys c) ∧
      ∀ c', c' ∈ seen → eligible st target threshold c' → ¬ beats target c' c
  end.





(** A group node with every style input that the mapper recognises. *)
Definition styledGroup : IRNode :=
  mkIRNode group None
    (mkNodeAttributes None None None None None None None None None None
       None None (Some "#ffffff") (Some "#111111") (Some "lg"))
    (Some []) None
    (Some (list_to_map
             [("font-size", "18px"); ("line-height", "1.5");
              ("letter-spacing", "1px"); ("text-transform", "uppercase");
              ("gap", "2rem"); ("display", "flex"); ("box-shadow", "none")]))
    None.

(** Scenario D: a section with an image background. *)
Definition scenarioD_section : IRSection :=
  mkIRSection "hero" (mkLayoutDescriptor "constrained" None None None None)
    [scenarioA_node] None (Some (mkBackground "image" "https://x/y.jpg")) None None.

(** Two container candidates around the same two leaves, the second one
    tighter. *)
Definition looseContainer : Postprocessor.ContainerElement :=
  Postprocessor.mkContainerElement 7 ["page"] ["p|a"; "p|b"; "p|c"; "p|d"].

Definition tightContainer : Postprocessor.ContainerElement :=
  Postprocessor.mkContainerElement 8 ["card"] ["p|a"; "p|b"].

Definition twoContainerIndex : Postprocessor.Index :=
  Postprocessor.mkIndex ∅ ∅ [looseContainer; tightContainer].

Definition scenarioE_heap : gmap Postprocessor.Ref IRDocument :=
  {[ 0%nat := scenarioE_document ]}.

(** [x] is in some bucket of a leaf table. *)
Definition inBuckets `{Countable K} (m : gmap K (list Postprocessor.LeafElement))
    (x : Postprocessor.LeafElement) : Prop :=
  ∃ k l, m !! k = Some l ∧ x ∈ l.







(** *** Text and class names *)

(** Every character of [s] passes the test [p]. *)
Fixpoint allChars (p : ascii → bool) (s : string) : bool :=
  match s with
  | EmptyString => true
  | String a rest => p a && allChars p rest
  end.

(** The characters of [s] that pass the test [p], in order. *)
Fixpoint filterChars (p : ascii → bool) (s : string) : string :=
  match s with
  | EmptyString => ""
  | String a rest => if p a then String a (filterChars p rest) else filterChars p rest
  end.

Definition notSpace (c : string) : bool := negb (Postprocessor.isSpace c).

(** The text without its white-space characters. *)
Definition unspaced (s : string) : string :=
  Postprocessor.unchars (List.filter notSpace (Postprocessor.chars s)).

(** Normalized text: the only white space is the single space character,
    and a space stands between two characters that are not white space.
    [prevSpace] tells whether a space may not come next. *)
Fixpoint normalFrom (prevSpace : bool) (l : list string) : bool :=
  match l with
  | [] => true
  | c :: rest =>
      if Postprocessor.isSpace c then
        bool_decide (c = " ") && negb prevSpace && Utils.nonEmpty rest
        && normalFrom true rest
      else normalFrom false rest
  end.

Definition normalForm (s : string) : bool := normalFrom true (Postprocessor.chars s).

(** A name the class-selector pattern can capture. *)
Definition validClassName (name : string) : bool :=
  match name with
  | EmptyString => false
  | String c rest => Postprocessor.isNameStart c && allChars Postprocessor.isNameChar rest
  end.

(** [post] is empty or starts with a character that cannot continue a name. *)
Definition endsName (post : string) : bool :=
  match post with
  | EmptyString => true
  | String c _ => negb (Postprocessor.isNameChar c)
  end.

(** Text without white space. *)
Definition spaceFree (s : string) : bool := forallb notSpace (Postprocessor.chars s).

(** One class token: not empty and without white space. *)
Definition classToken (c : string) : Prop := c ≠ "" ∧ spaceFree c = true.

(** The class tokens of a [className] value. *)
Definition classTokens (cn : option string) : list string :=
  List.filter Renderer.isNonEmpty (Postprocessor.splitWs (default "" cn)).

(** The shape [collapseItems] leaves: [normalFrom] without its demand that
    text follows a space. *)
Fixpoint spacedFrom (prevSpace : bool) (l : list string) : bool :=
  match l with
  | [] => true
  | c :: rest =>
      if Postprocessor.isSpace c then
        bool_decide (c = " ") && negb prevSpace && spacedFrom true rest
      else spacedFrom false rest
  end.

(** An item of a scan: a white-space character or a single byte. *)
Definition isItem (c : string) : Prop :=
  Postprocessor.isSpace c = true ∨
  ∃ a, c = String a "" ∧ Postprocessor.isSpace c = false.

(** A list of items that a scan of its own text gives back. *)
Definition scanned (l : list string) : Prop :=
  Postprocessor.chars (Postprocessor.unchars l) = l.

(** The items of [l] up to its first white-space character. *)
Fixpoint headRun (l : list string) : list string :=
  match l with
  | [] => []
  | c :: rest => if Postprocessor.isSpace c then [] else c :: headRun rest
  end.

(** The byte [b] stands at the second or third place of a white-space
    character. *)
Definition continues (b : ascii) : bool :=
  existsb (λ w, match w with String _ t => occurs b t | EmptyString => false end)
    Postprocessor.wideSpaces.

(** No white-space character can begin before [x] and end inside it. *)
Definition boundary (x : string) : bool :=
  match x with
  | EmptyString => true
  | String b _ => negb (continues b)
  end.

(** [s] without its first [n] bytes. *)
Fixpoint dropBytes (n : nat) (s : string) : string :=
  match n, s with
  | S k, String _ rest => dropBytes k rest
  | _, _ => s
  end.

(** What the scan for class selectors holds in its state is a valid name so
    far. *)
Definition validScan (st : Postprocessor.ScanState) : Prop :=
  match st with
  | Postprocessor.InName name => validClassName name = true
  | _ => True
  end.

(** The [merged] set of [mergeClassName], in insertion order. *)
Definition mergedClasses (existing : option string) (additions : list string)
  : list string :=
  foldl Postprocessor.setAdd (foldl Postprocessor.setAdd [] (classTokens existing))
    additions.

(** Every class of every leaf and container of an index satisfies [P]. *)
Definition indexClasses (P : string → Prop) (idx : Postprocessor.Index) : Prop :=
  (∀ x, inBuckets (Postprocessor.leafByKey idx) x ∨
        inBuckets (Postprocessor.leafByType idx) x →
        Forall P (Postprocessor.classes x)) ∧
  Forall (λ c, Forall P (Postprocessor.container_classes c))
    (Postprocessor.containers idx).

(** The class names a call of [postprocessClassNames] reads from its
    stylesheet argument. *)
Definition stylesheetClasses (extractedCSS : option string) : gset string :=
  match nonEmptyStr extractedCSS with
  | Some css => Postprocessor.extractCssClasses css
  | None => ∅
  end.

(** The [className] fields of a node and everything below it, of a section,
    and of a document, in the order of the walk. *)
Fixpoint nodeClassNames (n : IRNode) : list (option string) :=
  match n with
  | mkIRNode _ _ _ ch _ _ cn =>
      cn :: match ch with
            | Some cs => concat (List.map nodeClassNames cs)
            | None => []
            end
  end.

Definition sectionClassNames (s : IRSection) : list (option string) :=
  section_className s :: concat (List.map nodeClassNames (section_children s)).

Definition documentClassNames (d : IRDocument) : list (option string) :=
  match header d with Some s => sectionClassNames s | None => [] end ++
  concat (List.map sectionClassNames (sections d)) ++
  match footer d with Some s => sectionClassNames s | None => [] end.

(** [after] is [before] with classes that satisfy [P] merged in. *)
Definition mergedWith (P : string → Prop) (before after : option string) : Prop :=
  ∃ additions, Forall P additions ∧
    after = Postprocessor.mergeClassName before additions.

(** *** Block attributes *)

(** A value [cleanObj] keeps as it is: not undefined, null or the empty
    string, and, for an object, not empty and with such values only. *)
Fixpoint keptValue (v : json) : bool :=
  match v with
  | JUndefined | JNull => false
  | JStr s => Renderer.isNonEmpty s
  | JObj fields =>
      Utils.nonEmpty fields &&
      (fix all (l : obj) : bool :=
         match l with
         | [] => true
         | (_, x) :: rest => keptValue x && all rest
         end) fields
  | _ => true
  end.

Definition keptFields (o : obj) : bool := forallb (λ kv, keptValue kv.2) o.

(** *** Style objects and inline styles *)

(** The values of [v] that are not objects, each with the path of keys that
    leads to it. *)
Fixpoint leaves (v : json) : list (list string * json) :=
  match v with
  | JObj fields =>
      (fix go (l : obj) : list (list string * json) :=
         match l with
         | [] => []
         | (k, x) :: rest =>
             List.map (λ py, (k :: py.1, py.2)) (leaves x) ++ go rest
         end) fields
  | _ => [([], v)]
  end.

(** The CSS property that stands for the value at a path of a style
    object. *)
Definition cssProperties : list (list string * string) :=
  [(["typography"; "fontSize"], "font-size");
   (["typography"; "lineHeight"], "line-height");
   (["typography"; "letterSpacing"], "letter-spacing");
   (["typography"; "textTransform"], "text-transform");
   (["color"; "text"], "color");
   (["color"; "background"], "background-color");
   (["color"; "gradient"], "background");
   (["spacing"; "padding"; "top"], "padding-top");
   (["spacing"; "padding"; "right"], "padding-right");
   (["spacing"; "padding"; "bottom"], "padding-bottom");
   (["spacing"; "padding"; "left"], "padding-left");
   (["spacing"; "margin"; "top"], "margin-top");
   (["spacing"; "margin"; "right"], "margin-right");
   (["spacing"; "margin"; "bottom"], "margin-bottom");
   (["spacing"; "margin"; "left"], "margin-left");
   (["spacing"; "blockGap"], "gap");
   (["border"; "radius"], "border-radius")].

(** The style object of the block of a heading, paragraph or group node:
    what its renderer stores under [style] and derives the inline style
    from. *)
Definition blockStyleOf (node : IRNode) (tokens : DesignTokens) : json :=
  match type node with
  | heading => lookupProp (Renderer.headingParts node tokens).1 "style"
  | paragraph => lookupProp (Renderer.paragraphParts node tokens).1 "style"
  | group => lookupProp (Renderer.groupParts node).1 "style"
  | _ => JUndefined
  end.

(** The four-sided padding object with non-empty values. *)
Definition paddingSides (y : json) : Prop :=
  ∃ t r b l,
    y = JObj [("top", JStr t); ("right", JStr r); ("bottom", JStr b);
              ("left", JStr l)] ∧
    t ≠ "" ∧ r ≠ "" ∧ b ≠ "" ∧ l ≠ "".

(** One group of a style object as [buildBlockStyle] fills it: distinct
    keys, under each a non-empty string at a path that has a CSS property,
    or the padding object. *)
Definition goodGroup (g : string) (f : obj) : Prop :=
  NoDup f.*1 ∧
  ∀ k y, (k, y) ∈ f →
    (∃ v name, y = JStr v ∧ v ≠ "" ∧ ([g; k], name) ∈ cssProperties) ∨
    (g = "spacing" ∧ k = "padding" ∧ paddingSides y).

Definition goodStyle (bs : obj) : Prop :=
  NoDup bs.*1 ∧ ∀ g x, (g, x) ∈ bs → ∃ f, x = JObj f ∧ f ≠ [] ∧ goodGroup g f.

(** What the renderers of the styled blocks have under [style]: nothing,
    or a good style object. *)
Definition goodStyleValue (v : json) : Prop :=
  goodStyle (spread v) ∧ (spread v = [] ∨ v = JObj (spread v)).

(** [P] holds of the name and attributes of every block of a tree. *)
Fixpoint everyBlock (P : string → obj → Prop) (m : Markup) : Prop :=
  match m with
  | Html _ => True
  | Block name attrs inner =>
      P name attrs ∧
      (fix all (l : list Markup) : Prop :=
         match l with
         | [] => True
         | x :: rest => everyBlock P x ∧ all rest
         end) inner
  end.

(** *** The block structure of sections and templates

    [renderSection] and [renderTemplate] again, with every call of [block]
    kept as a node, as [renderNodeTree] does for [renderNode].  A
    self-closing block has no content and stays text. *)

Definition renderColumnTree (colChildren : list IRNode) (tokens : DesignTokens)
  : Markup :=
  Block "column" []
    ([Html (("<div class=" +:+ DQ +:+ "wp-block-column is-layout-flow" +:+ DQ +:+
             ">") +:+ NL)] ++
     separated (Html (NL +:+ NL))
       (List.map (λ c, renderNodeTree c tokens) colChildren) ++
     [Html (NL +:+ "</div>")]).

Definition renderChildrenForLayoutTree (section : IRSection) (tokens : DesignTokens)
  : list Markup :=
  let layout := layout section in
  let children := section_children section in
  if decide (layout_type layout = "columns") then
    let columns := Renderer.columnChunks section in
    let colAttrs := Renderer.columnsAttrs layout in
    let colStyleAttr := Renderer.wpInlineStyle (lookupProp colAttrs "style") in
    let colsCssClasses := ["wp-block-columns"; "is-layout-flex"] in
    [Block "columns" colAttrs
       ([Html (("<div class=" +:+ DQ +:+ join " " colsCssClasses +:+ DQ +:+
                colStyleAttr +:+ ">") +:+ NL)] ++
        separated (Html (NL +:+ NL))
          (List.map (λ col, renderColumnTree col tokens) columns) ++
        [Html (NL +:+ "</div>")])]
  else if decide (layout_type layout = "grid") then
    let gridAttrs : obj :=
      [("layout",
        JObj [("type", JStr "grid"); ("minimumColumnWidth", JStr "300px")])] in
    let gridClasses := ["wp-block-group"; "is-layout-grid"] in
    [Block "group" gridAttrs
       ([Html (("<div class=" +:+ DQ +:+ join " " gridClasses +:+ DQ +:+ ">") +:+
               NL)] ++
        separated (Html (NL +:+ NL))
          (List.map (λ c, renderNodeTree c tokens) children) ++
        [Html (NL +:+ "</div>")])]
  else separated (Html (NL +:+ NL)) (List.map (λ c, renderNodeTree c tokens) children).

(** The block that [renderSection] wraps the content of a section in: its
    name, its attributes, and the text before and after the content. *)
Definition sectionParts (section : IRSection) : string * obj * string * string :=
  let background := background section in
  let layout := layout section in
  let className := section_className section in
  let outerType :=
    if decide (layout_type layout = "full-width") then "default" else "constrained" in
  let imageBg :=
    match background with
    | Some bg => if decide (bg_type bg = "image") then Some bg else None
    | None => None
    end in
  match imageBg with
  | Some bg =>
      let coverAttrs : obj :=
        [("url", JStr (bg_value bg)); ("dimRatio", JNum 50);
         ("layout", JObj [("type", JStr outerType)])] in
      let coverClasses := ["wp-block-cover"] in
      let '(coverAttrs, coverClasses) :=
        Renderer.applyClassName className coverAttrs coverClasses in
      ("cover", coverAttrs,
       ("<div class=" +:+ DQ +:+ join " " coverClasses +:+ DQ +:+ ">") +:+ NL +:+
       ("<span aria-hidden=" +:+ DQ +:+ "true" +:+ DQ +:+ " class=" +:+ DQ +:+
          "wp-block-cover__background has-background-dim" +:+ DQ +:+ "></span>") +:+
       NL +:+
       ("<img class=" +:+ DQ +:+ "wp-block-cover__image-background" +:+ DQ +:+
          " alt=" +:+ DQ +:+ DQ +:+ " src=" +:+ DQ +:+
          Utils.escapeAttr (bg_value bg) +:+ DQ +:+ " data-object-fit=" +:+ DQ +:+
          "cover" +:+ DQ +:+ "/>") +:+ NL +:+
       ("<div class=" +:+ DQ +:+ "wp-block-cover__inner-container" +:+ DQ +:+ ">") +:+
       NL,
       NL +:+ "</div>" +:+ NL +:+ "</div>")
  | None =>
      let groupAttrs : obj := [("layout", JObj [("type", JStr outerType)])] in
      let cssClasses := ["wp-block-group"] in
      let cssClasses :=
        match nonEmptyStr (Renderer.layoutClassFromType (Some outerType)) with
        | Some c => cssClasses ++ [c]
        | None => cssClasses
        end in
      let groupStyle : obj := [] in
      let '(groupStyle, cssClasses) :=
        match background with
        | Some bg =>
            if decide (bg_type bg = "color") then
              (setProp groupStyle "color" (JObj [("background", JStr (bg_value bg))]),
               cssClasses ++ ["has-background"])
            else if decide (bg_type bg = "gradient") then
              (setProp groupStyle "color" (JObj [("gradient", JStr (bg_value bg))]),
               cssClasses ++ ["has-background"])
            else (groupStyle, cssClasses)
        | None => (groupStyle, cssClasses)
        end in
      let groupStyle :=
        match nonEmptyStr (gap layout) ≫= (λ g, nonEmptyStr (Renderer.GAP_MAP !! g)) with
        | Some gapVal =>
            setProp groupStyle "spacing"
              (JObj [("padding",
                      JObj [("top", JStr gapVal); ("bottom", JStr gapVal)])])
        | None => groupStyle
        end in
      let groupAttrs := Renderer.attachStyle groupAttrs groupStyle in
      let '(groupAttrs, cssClasses) :=
        Renderer.applyClassName className groupAttrs cssClasses in
      let classAttr := " class=" +:+ DQ +:+ join " " cssClasses +:+ DQ in
      let styleAttr := Renderer.wpInlineStyle (lookupProp groupAttrs "style") in
      ("group", groupAttrs,
       "<div" +:+ classAttr +:+ styleAttr +:+ ">" +:+ NL,
       NL +:+ "</div>")
  end.

Definition renderSectionTree (section : IRSection) (tokens : DesignTokens) : Markup :=
  let '(name, attrs, before, after) := sectionParts section in
  Block name attrs
    ([Html before] ++ renderChildrenForLayoutTree section tokens ++ [Html after]).

Definition renderTemplateTree (sections : list IRSection) (tokens : DesignTokens)
    (hasHeader hasFooter : bool) : list Markup :=
  let parts : list Markup := [] in
  let parts :=
    if hasHeader then
      parts ++ [Html (Renderer.selfClosingBlock "template-part"
                        [("slug", JStr "header"); ("area", JStr "header")])]
    else parts in
  let parts :=
    parts ++ List.map (λ section, renderSectionTree section tokens) sections in
  let parts :=
    if hasFooter then
      parts ++ [Html (Renderer.selfClosingBlock "template-part"
                        [("slug", JStr "footer"); ("area", JStr "footer")])]
    else parts in
  separated (Html (NL +:+ NL)) parts.

(** *** Escaping *)

(** The entity [escapeHtml] ends up writing for one character. *)
Definition htmlEntity (c : ascii) : string :=
  if decide (c = "&"%char) then "&amp;"
  else if decide (c = "<"%char) then "&lt;"
  else if decide (c = ">"%char) then "&gt;"
  else String c "".

(** *** Slugs *)

(** A slug: lower-case letters and digits, with single dashes between
    them only.  [prevDash] tells whether a dash may not come next. *)
Fixpoint slugFrom (prevDash : bool) (s : string) : bool :=
  match s with
  | EmptyString => true
  | String a rest =>
      if decide (a = "-"%char) then
        negb prevDash && Renderer.isNonEmpty rest && slugFrom true rest
      else UtilsText.isSlugChar a && slugFrom false rest
  end.

Definition slugForm (s : string) : bool := slugFrom true s.

(** The shape [dashRuns] leaves: [slugFrom] without its demand that text
    follows a dash. *)
Fixpoint dashedFrom (prevDash : bool) (s : string) : bool :=
  match s with
  | EmptyString => true
  | String a rest =>
      if decide (a = "-"%char) then negb prevDash && dashedFrom true rest
      else UtilsText.isSlugChar a && dashedFrom false rest
  end.

(** A character of a PHP function prefix: a slug character or an
    underscore. *)
Definition isPrefixChar (c : ascii) : bool :=
  UtilsText.isSlugChar c || bool_decide (c = "_"%char).

(** The address for one font family. *)
Definition oneFamilyUrl (font : string) : string :=
  "https://fonts.googleapis.com/css2?family=" +:+
  Utils.replaceAll " "%char "+" font +:+ ":wght@400;500;600;700&display=swap".

(** *** Model output *)

(** A character that is neither white space nor a control character. *)
Definition solid (c : string) : bool :=
  negb (Postprocessor.isSpace c) && allChars (λ a, negb (UtilsText.isControl a)) c.

(** [s] is empty, or starts and ends with a solid character. *)
Definition solidEnds (s : string) : bool :=
  match Postprocessor.chars s with
  | [] => true
  | c :: rest => solid c && solid (List.last rest c)
  end.

(** [s] holds white space only. *)
Definition allSpace (s : string) : bool :=
  forallb Postprocessor.isSpace (Postprocessor.chars s).

(** [s] with its control characters replaced by spaces. *)
Definition blanked (s : string) : string :=
  mapChars (λ c, String (UtilsText.blankChar c) "") s.

(** A byte that [blankChar] leaves alone and that is not its result. *)
Definition plainByte (a : ascii) : bool :=
  negb (UtilsText.isControl a) && negb (bool_decide (a = " "%char)).

(** *** The converter state and the summary *)

(** What holds of every state the converter can be in. *)
Definition stateInv (s : Reducer.AppState) : Prop :=
  match Reducer.status s with
  | Reducer.Idle => s = Reducer.initialState
  | Reducer.Analyzing =>
      Reducer.ir s = None ∧ Reducer.stats s = None ∧ Reducer.zipBlob s = None ∧
      Reducer.error s = None
  | Reducer.Analyzed =>
      Reducer.ir s ≠ None ∧ Reducer.error s = None
  | Reducer.Generating => Reducer.error s = None
  | Reducer.Done => Reducer.zipBlob s ≠ None
  | Reducer.Error => Reducer.error s ≠ None
  end.

(** The number of class names in a list that are present and not empty. *)
Definition countClassNames (l : list (option string)) : nat :=
  length (List.filter Reducer.hasClassName l).

(** Sample payloads. *)
Definition sampleStats : Reducer.PreprocessStats :=
  Reducer.mkPreprocessStats 1200 800 "33%" 2 1.

Definition sampleError : Reducer.AppError :=
  Reducer.mkAppError Reducer.NETWORK_ERROR "Network error" None.

(** *** An IR node and the element it was made from *)

(** [n] describes the element [el]: the same kind of content, and the same
    text up to white space, the same image address, the same link target,
    or the same list items.  A heading has one of the levels 1 to 6, which
    are the heading tags of the leaf selector. *)
Definition corresponds (n : IRNode) (el : DomNode) : Prop :=
  let tag := Cheerio.tagOf el in
  let attrs := attributes n in
  let sameText :=
    Postprocessor.normalizeText (orStr (content n) "")
      = Postprocessor.normalizeText (Cheerio.text el) ∧
    Postprocessor.normalizeText (Cheerio.text el) ≠ "" in
  match type n with
  | heading =>
      tag = "h" +:+ pretty (orNum (level attrs) 2) ∧
      tag ∈ Postprocessor.leafSelector ∧ sameText
  | paragraph => tag = "p" ∧ sameText
  | image =>
      tag = "img" ∧ orStr (src attrs) "" = orStr (Cheerio.attr el "src") "" ∧
      orStr (Cheerio.attr el "src") "" ≠ ""
  | button =>
      (tag = "a" ∧ orStr (href attrs) "" = orStr (Cheerio.attr el "href") "" ∨
       tag = "button" ∧ orStr (href attrs) "" = "") ∧
      sameText
  | list_ =>
      tag = (if default false (ordered attrs) then "ol" else "ul") ∧
      join "|" (default [] (items attrs)) = Postprocessor.listItemsKey el ∧
      Postprocessor.listItemsKey el ≠ ""
  | _ => False
  end.

(** *** The walk as one pass *)

(** What the walk visits: a section or a node. *)
Inductive Target :=
| SectionTarget (s : IRSection)
| NodeTarget (n : IRNode).

(** The targets in the order of the walk: a node before its children, a
    section before its nodes, the header before the body sections and
    these before the footer. *)
Fixpoint nodeTargets (n : IRNode) : list Target :=
  match n with
  | mkIRNode _ _ _ ch _ _ _ =>
      NodeTarget n ::
      match ch with
      | Some cs => concat (List.map nodeTargets cs)
      | None => []
      end
  end.

Definition sectionTargets (s : IRSection) : list Target :=
  SectionTarget s :: concat (List.map nodeTargets (section_children s)).

Definition documentTargets (d : IRDocument) : list Target :=
  match header d with Some s => sectionTargets s | None => [] end ++
  concat (List.map sectionTargets (sections d)) ++
  match footer d with Some s => sectionTargets s | None => [] end.

(** What the walk does at one target, from the matching state [st]: the
    class name the target has afterwards, and the state afterwards.  A
    section gets the container step; a node gets the leaf step and, when it
    is a group, the container step. *)
Definition visit (idx : Postprocessor.Index) (t : Target)
    (st : Postprocessor.MatchState) : option string * Postprocessor.MatchState :=
  match t with
  | SectionTarget s =>
      let '(s1, st1) :=
        Postprocessor.applyContainerClasses idx
          (Postprocessor.collectIrLeafKeys (Some (section_children s)))
          Postprocessor.addClassesToSection s st in
      (section_className s1, st1)
  | NodeTarget n =>
      let '(n1, st1) := Postprocessor.applyLeafClasses idx n st in
      let '(n2, st2) :=
        match type n with
        | group =>
            Postprocessor.applyContainerClasses idx
              (Postprocessor.collectIrLeafKeys (children n))
              Postprocessor.addClassesToNode n1 st1
        | _ => (n1, st1)
        end in
      (className n2, st2)
  end.

(** The targets visited one after the other. *)
Fixpoint visitAll (idx : Postprocessor.Index) (ts : list Target)
    (st : Postprocessor.MatchState)
  : list (option string) * Postprocessor.MatchState :=
  match ts with
  | [] => ([], st)
  | t :: rest =>
      let '(cn, st1) := visit idx t st in
      let '(cns, st2) := visitAll idx rest st1 in
      (cn :: cns, st2)
  end.

(** * Properties *)

(** Induction on IR trees, with the property available for every child. *)
Lemma IRNode_tree_ind (P : IRNode → Prop) :
  (∀ t c a ch m s cn,
     match ch with Some cs => Forall P cs | None => True end →
     P (mkIRNode t c a ch m s cn)) →
  ∀ n, P n.
Proof.
  intros Hstep. fix IH 1. intros [t c a ch m s cn].
  apply Hstep. destruct ch as [cs|]; [|exact I].
  induction cs as [|x cs IHcs]; constructor; [apply IH|exact IHcs].
Qed.

(** ** Escaping *)

Lemma append_cons (a : ascii) (s t : string) :
  String a s +:+ t = String a (s +:+ t).
Proof. reflexivity. Qed.

Lemma append_nil_l (s : string) : "" +:+ s = s.
Proof. reflexivity. Qed.

Lemma append_assoc (s t u : string) : (s +:+ t) +:+ u = s +:+ (t +:+ u).
Proof.
  induction s as [|a s IH]; [done|]. rewrite !append_cons. by rewrite IH.
Qed.

Lemma append_nil_r (s : string) : s +:+ "" = s.
Proof. induction s as [|a s IH]; [done|]. rewrite append_cons. by rewrite IH. Qed.

Lemma occurs_app c s t : occurs c (s +:+ t) = occurs c s || occurs c t.
Proof.
  induction s as [|a s IH]; [done|]. rewrite append_cons. simpl.
  destruct (decide (a = c)); [done|]. apply IH.
Qed.

Lemma replaceAll_app c by_ s t :
  Utils.replaceAll c by_ (s +:+ t) =
  Utils.replaceAll c by_ s +:+ Utils.replaceAll c by_ t.
Proof.
  induction s as [|a s IH]; [done|]. rewrite append_cons. simpl.
  destruct (decide (a = c)).
  - rewrite IH. by rewrite append_assoc.
  - rewrite append_cons. by rewrite IH.
Qed.

Lemma replaceAll_removes c by_ s :
  occurs c by_ = false → occurs c (Utils.replaceAll c by_ s) = false.
Proof.
  intros Hby. induction s as [|a s IH]; simpl; [done|].
  destruct (decide (a = c)) as [->|Hne].
  - rewrite occurs_app, Hby. exact IH.
  - simpl. destruct (decide (a = c)); [done|]. exact IH.
Qed.

Lemma replaceAll_keeps_absent d c by_ s :
  occurs d by_ = false → occurs d s = false →
  occurs d (Utils.replaceAll c by_ s) = false.
Proof.
  intros Hby. induction s as [|a s IH]; simpl; [done|].
  destruct (decide (a = d)) as [->|Hne]; [done|]. intros Hs.
  destruct (decide (a = c)) as [->|Hne'].
  - rewrite occurs_app, Hby. by apply IH.
  - simpl. destruct (decide (a = d)); [done|]. by apply IH.
Qed.

(** The four passes of [escapeAttr] act on each character on its own: the
    ampersands that the later passes write are not escaped again, because
    the ampersand pass runs first. *)
Lemma escapeAttr_cons a s :
  Utils.escapeAttr (String a s) = attrEntity a +:+ Utils.escapeAttr s.
Proof.
  unfold Utils.escapeAttr, attrEntity. simpl.
  destruct (decide (a = "&"%char)) as [->|Hamp].
  { by rewrite !replaceAll_app. }
  simpl. destruct (decide (a = "034"%char)) as [->|Hq].
  { by rewrite !replaceAll_app. }
  simpl. destruct (decide (a = "<"%char)) as [->|Hlt].
  { by rewrite !replaceAll_app. }
  simpl. destruct (decide (a = ">"%char)) as [->|Hgt]; done.
Qed.

Lemma escapeAttr_clean (s : string) :
  occurs "034"%char (Utils.escapeAttr s) = false ∧
  occurs "<"%char (Utils.escapeAttr s) = false ∧
  occurs ">"%char (Utils.escapeAttr s) = false.
Proof.
  unfold Utils.escapeAttr. repeat split.
  - apply replaceAll_keeps_absent; [done|].
    apply replaceAll_keeps_absent; [done|].
    by apply replaceAll_removes.
  - apply replaceAll_keeps_absent; [done|].
    by apply replaceAll_removes.
  - by apply replaceAll_removes.
Qed.

Lemma escapeHtml_clean (s : string) :
  occurs "<"%char (Utils.escapeHtml s) = false ∧
  occurs ">"%char (Utils.escapeHtml s) = false.
Proof.
  unfold Utils.escapeHtml. split.
  - apply replaceAll_keeps_absent; [done|]. by apply replaceAll_removes.
  - by apply replaceAll_removes.
Qed.

(** C10. For every string [s], [escapeAttr s] is [s] with each ampersand,
    double quote, [<] and [>] replaced by its entity, the ampersand first,
    and it holds no double quote, no [<] and no [>]: a value put through
    [escapeAttr] cannot close the double-quoted attribute it is
    interpolated into, nor open a tag. *)
Theorem escapeAttr_no_quote_no_angle (s : string) :
  Utils.escapeAttr s = mapChars attrEntity s ∧
  occurs "034"%char (Utils.escapeAttr s) = false ∧
  occurs "<"%char (Utils.escapeAttr s) = false ∧
  occurs ">"%char (Utils.escapeAttr s) = false.
Proof.
  split.
  - induction s as [|a s IH]; [done|].
    rewrite escapeAttr_cons. simpl. by rewrite IH.
  - unfold Utils.escapeAttr. repeat split.
    + apply replaceAll_keeps_absent; [done|].
      apply replaceAll_keeps_absent; [done|].
      by apply replaceAll_removes.
    + apply replaceAll_keeps_absent; [done|].
      by apply replaceAll_removes.
    + by apply replaceAll_removes.
Qed.

(** ** Chunking *)






Lemma ceilDiv_covers (m n : Z) : 0 < n → 0 ≤ m → 0 ≤ Utils.ceilDiv m n ∧ m ≤ n * Utils.ceilDiv m n.
Proof.
  intros Hn Hm. unfold Utils.ceilDiv.
  pose proof (Z.div_mod (- m) n ltac:(lia)) as Hdm.
  pose proof (Z.mod_pos_bound (- m) n Hn) as Hb.
  split; nia.
Qed.








(** Scenario D: the section renders as a cover block with the dim layer,
    the background image and the composed content inside. *)
Example cover_scenario :
  Renderer.renderSection scenarioD_section plainTokens =
  join NL
    ["<!-- wp:cover {" +:+ DQ +:+ "url" +:+ DQ +:+ ":" +:+ DQ +:+ "https://x/y.jpg" +:+
       DQ +:+ "," +:+ DQ +:+ "dimRatio" +:+ DQ +:+ ":50," +:+ DQ +:+ "layout" +:+ DQ +:+
       ":{" +:+ DQ +:+ "type" +:+ DQ +:+ ":" +:+ DQ +:+ "constrained" +:+ DQ +:+ "}} -->";
     "<div class=" +:+ DQ +:+ "wp-block-cover" +:+ DQ +:+ ">";
     "<span aria-hidden=" +:+ DQ +:+ "true" +:+ DQ +:+ " class=" +:+ DQ +:+
       "wp-block-cover__background has-background-dim" +:+ DQ +:+ "></span>";
     "<img class=" +:+ DQ +:+ "wp-block-cover__image-background" +:+ DQ +:+ " alt=" +:+
       DQ +:+ DQ +:+ " src=" +:+ DQ +:+ "https://x/y.jpg" +:+ DQ +:+
       " data-object-fit=" +:+ DQ +:+ "cover" +:+ DQ +:+ "/>";
     "<div class=" +:+ DQ +:+ "wp-block-cover__inner-container" +:+ DQ +:+ ">";
     scenarioA_markup;
     "</div>";
     "</div>";
     "<!-- /wp:cover -->"].
Proof. by vm_compute. Qed.

(** ** Spacer *)

Lemma renderNode_spacer (node : IRNode) (tokens : DesignTokens) :
  type node = spacer → Renderer.renderNode node tokens = Renderer.renderSpacer node.
Proof. intros H. destruct node; simpl in *. by subst. Qed.

Lemma PADDING_MAP_values (p v : string) :
  Renderer.PADDING_MAP !! p = Some v →
  v = "10px" ∨ v = "20px" ∨ v = "40px" ∨ v = "60px".
Proof.
  unfold Renderer.PADDING_MAP. intros H.
  cbn [list_to_map foldr uncurry] in H.
  repeat (rewrite lookup_insert in H; case_decide; [simpl in H; simplify_eq; tauto|]).
  by rewrite lookup_empty in H.
Qed.

Lemma renderSpacer_markup (node : IRNode) (h : string) :
  Renderer.spacerHeight node = h →
  h = "10px" ∨ h = "20px" ∨ h = "40px" ∨ h = "60px" →
  Renderer.renderSpacer node = spacerMarkup h.
Proof.
  intros Hh Hv. unfold Renderer.renderSpacer, Renderer.spacerParts. rewrite Hh.
  destruct Hv as [-> | [-> | [-> | ->]]]; reflexivity.
Qed.

Lemma spacerHeight_values (node : IRNode) :
  let h := Renderer.spacerHeight node in
  h = "10px" ∨ h = "20px" ∨ h = "40px" ∨ h = "60px".
Proof.
  unfold Renderer.spacerHeight. simpl.
  destruct (Renderer.PADDING_MAP !! orStr (padding (attributes node)) "md")
    as [v|] eqn:Hv; [|by right; right; left].
  pose proof (PADDING_MAP_values _ _ Hv) as Hc.
  unfold orStr, nonEmptyStr.
  destruct (decide (v = "")) as [->|_]; [by right; right; left|exact Hc].
Qed.

(** C9 (as amended). For every spacer node whose padding attribute is not
    one of the names that objects inherit (constructor, toString and the
    like), the rendered block carries one height, in the block JSON and in
    the inline style of the div: the table value of the padding attribute
    when it is a key of the table, the table value for md (20px) when the
    attribute is absent or empty, and the fixed 40px when it is present but
    not a key of the table. *)
Theorem spacer_height (node : IRNode) (tokens : DesignTokens) :
  type node = spacer →
  (∀ p, padding (attributes node) = Some p → p ∉ Renderer.inheritedKeys) →
  Renderer.renderNode node tokens = spacerMarkup (Renderer.spacerHeight node) ∧
  (nonEmptyStr (padding (attributes node)) = None →
     Renderer.PADDING_MAP !! "md" = Some (Renderer.spacerHeight node)) ∧
  (∀ p, padding (attributes node) = Some p →
     is_Some (Renderer.PADDING_MAP !! p) →
     Renderer.PADDING_MAP !! p = Some (Renderer.spacerHeight node)) ∧
  (∀ p, padding (attributes node) = Some p → p ≠ "" →
     Renderer.PADDING_MAP !! p = None →
     Renderer.spacerHeight node = "40px").
Proof.
  intros Hty _. split; [|split; [|split]].
  - rewrite renderNode_spacer by done.
    apply renderSpacer_markup; [done|apply spacerHeight_values].
  - intros Hp. unfold Renderer.spacerHeight, orStr. rewrite Hp. reflexivity.
  - intros p Hp [v Hv]. unfold Renderer.spacerHeight. rewrite Hp.
    assert (p ≠ "") as Hne by (intros ->; vm_compute in Hv; discriminate).
    unfold orStr at 2, nonEmptyStr. destruct (decide (p = "")); [done|]. simpl.
    rewrite Hv. destruct (PADDING_MAP_values _ _ Hv) as [-> | [-> | [-> | ->]]]; reflexivity.
  - intros p Hp Hne Hnone. unfold Renderer.spacerHeight. rewrite Hp.
    unfold orStr at 2, nonEmptyStr. destruct (decide (p = "")); [done|]. simpl.
    by rewrite Hnone.
Qed.

Lemma spacer_height_witness :
  type (spacerWith (Some "xl")) = spacer ∧
  ("xl" ∉ Renderer.inheritedKeys) ∧
  Renderer.renderNode (spacerWith (Some "xl")) plainTokens = spacerMarkup "60px" ∧
  Renderer.renderNode (spacerWith None) plainTokens = spacerMarkup "20px".
Proof.
  assert ("xl" ∉ Renderer.inheritedKeys) as Hxl.
  { intros H. apply list_elem_of_In in H. vm_compute in H.
    repeat (destruct H as [H|H]; [discriminate H|]). exact H. }
  split; [reflexivity|]. split; [exact Hxl|]. split.
  - refine (proj1 (spacer_height (spacerWith (Some "xl")) plainTokens eq_refl _)).
    intros p [= <-]. exact Hxl.
  - refine (proj1 (spacer_height (spacerWith None) plainTokens eq_refl _)).
    intros p [=].
Defined.

(** A padding value outside the table, and not an inherited name, gives a
    spacer of 40px, not the 20px that the table holds for md. *)
Lemma spacer_height_unrecognized_not_md :
  Renderer.PADDING_MAP !! "xxl" = None ∧
  ("xxl" ∉ Renderer.inheritedKeys) ∧
  claimedSpacerHeight (spacerWith (Some "xxl")) = "20px" ∧
  Renderer.renderNode (spacerWith (Some "xxl")) plainTokens = spacerMarkup "40px" ∧
  Renderer.renderNode (spacerWith (Some "xxl")) plainTokens ≠
    spacerMarkup (claimedSpacerHeight (spacerWith (Some "xxl"))).
Proof.
  split; [by vm_compute|]. split.
  { intros H. apply list_elem_of_In in H. vm_compute in H.
    repeat (destruct H as [H|H]; [discriminate H|]). exact H. }
  split; [by vm_compute|]. split; [by vm_compute|].
  intros H. vm_compute in H. discriminate.
Qed.

(** ** Buttons *)

Lemma renderNode_button (node : IRNode) (tokens : DesignTokens) :
  type node = button →
  Renderer.renderNode node tokens = Renderer.renderButton node tokens.
Proof. intros H. destruct node; simpl in *. by subst. Qed.

Lemma lookupProp_setProp_ne (o : obj) (k k' : string) (v : json) :
  k ≠ k' → lookupProp (setProp o k v) k' = lookupProp o k'.
Proof.
  intros Hne. induction o as [|[k0 v0] o IH]; simpl.
  - destruct (decide (k = k')); done.
  - destruct (decide (k0 = k)) as [->|Hk0]; simpl.
    + destruct (decide (k = k')); [done|]. by destruct (decide (k = k')).
    + destruct (decide (k0 = k')); [done|]. exact IH.
Qed.

Lemma applyClassName_style (cn : option string) (attrs : obj) (cls : list string) :
  lookupProp (fst (Renderer.applyClassName cn attrs cls)) "style" =
  lookupProp attrs "style".
Proof.
  unfold Renderer.applyClassName. destruct (nonEmptyStr cn); [|done].
  simpl. by apply lookupProp_setProp_ne.
Qed.

Lemma block_empty_attrs (name inner : string) :
  Renderer.block name [] inner =
  "<!-- wp:" +:+ name +:+ " -->" +:+ NL +:+ inner +:+ NL +:+
  "<!-- /wp:" +:+ name +:+ " -->".
Proof. reflexivity. Qed.

Lemma flatten_Block name attrs inner :
  flatten (Block name attrs inner) = Renderer.block name attrs (flattenAll inner).
Proof. reflexivity. Qed.

Lemma flattenAll_app l1 l2 : flattenAll (l1 ++ l2) = flattenAll l1 +:+ flattenAll l2.
Proof.
  induction l1 as [|x l1 IH]; [done|]. cbn [app flattenAll foldr].
  fold (flattenAll (l1 ++ l2)). fold (flattenAll l1).
  by rewrite IH, append_assoc.
Qed.

Lemma flattenAll_separated sep items :
  flattenAll (separated (Html sep) items) = join sep (List.map flatten items).
Proof.
  induction items as [|x [|y rest] IH]; [done| |].
  - cbn [separated flattenAll foldr List.map join]. by rewrite append_nil_r.
  - change (separated (Html sep) (x :: y :: rest))
      with (x :: Html sep :: separated (Html sep) (y :: rest)).
    change (flattenAll (x :: Html sep :: separated (Html sep) (y :: rest)))
      with (flatten x +:+ sep +:+ flattenAll (separated (Html sep) (y :: rest))).
    by rewrite IH.
Qed.

Lemma flatten_leaf_block name attrs html :
  flatten (Block name attrs [Html html]) = Renderer.block name attrs html.
Proof. rewrite flatten_Block. cbn [flattenAll foldr flatten]. by rewrite append_nil_r. Qed.

Lemma flatten_div_block name attrs openTag items :
  flatten (Block name attrs
             ([Html (openTag +:+ NL)] ++ separated (Html (NL +:+ NL)) items ++
              [Html (NL +:+ "</div>")]))
  = Renderer.block name attrs
      (openTag +:+ NL +:+ join (NL +:+ NL) (List.map flatten items) +:+ NL +:+ "</div>").
Proof.
  rewrite flatten_Block, !flattenAll_app, flattenAll_separated.
  cbn [flattenAll foldr flatten]. by rewrite !append_nil_r, !append_assoc.
Qed.

(** The tree is the fragment: written out, it is the string that
    [renderNode] returns. *)
Lemma renderNodeTree_flatten tokens node :
  flatten (renderNodeTree node tokens) = Renderer.renderNode node tokens.
Proof.
  induction node as [t c a ch m s cn IH] using IRNode_tree_ind.
  destruct t; cbn [renderNodeTree Renderer.renderNode].
  - unfold Renderer.renderHeading. destruct (Renderer.headingParts _ _).
    apply flatten_leaf_block.
  - unfold Renderer.renderParagraph. destruct (Renderer.paragraphParts _ _).
    apply flatten_leaf_block.
  - unfold Renderer.renderImage. destruct (Renderer.imageParts _).
    apply flatten_leaf_block.
  - unfold Renderer.renderButton. rewrite flatten_Block.
    cbn [flattenAll foldr]. rewrite flatten_leaf_block. cbn [flatten].
    by rewrite !append_nil_r, !append_assoc.
  - unfold Renderer.renderList. destruct (Renderer.listParts _).
    apply flatten_leaf_block.
  - unfold Renderer.renderSpacer. destruct (Renderer.spacerParts _).
    apply flatten_leaf_block.
  - unfold Renderer.renderGroup. destruct (Renderer.groupParts _) as [attrs openTag].
    rewrite flatten_div_block.
    assert (List.map flatten
              (match ch with
               | Some cs => List.map (λ c, renderNodeTree c tokens) cs
               | None => []
               end)
            = match ch with
              | Some cs => List.map (λ c, Renderer.renderNode c tokens) cs
              | None => []
              end) as ->; [|done].
    destruct ch as [cs|]; [|done].
    induction IH as [|x cs Hx _ IHcs]; [done|]. cbn [List.map]. by rewrite Hx, IHcs.
  - unfold Renderer.renderNavigation.
    destruct (Renderer.navigationParts _) as [attrs openTag].
    rewrite flatten_div_block. cbn [attributes].
    assert (List.map flatten
              (List.map (λ link, Block "paragraph" [] [Html (Renderer.linkHtml link)])
                 (default [] (links a)))
            = List.map (λ link, Renderer.block "paragraph" [] (Renderer.linkHtml link))
                (default [] (links a))) as ->; [|done].
    rewrite List.map_map. apply List.map_ext. intros link.
    apply flatten_leaf_block.
  - done.
Qed.

Lemma separated_Forall (P : Markup → Prop) sep items :
  P sep → Forall P items → Forall P (separated sep items).
Proof.
  intros Hsep Hall. induction Hall as [|x [|y rest] Hx Hrest IH]; [constructor| |].
  - by repeat constructor.
  - change (separated sep (x :: y :: rest))
      with (x :: sep :: separated sep (y :: rest)).
    by repeat constructor.
Qed.

(** In the tree of any node, of any kind and depth, button blocks are
    wrapped. *)
Lemma renderNodeTree_wrapped tokens node : Wrapped (renderNodeTree node tokens).
Proof.
  induction node as [t c a ch m s cn IH] using IRNode_tree_ind.
  destruct t; cbn [renderNodeTree].
  - destruct (Renderer.headingParts _ _). by repeat constructor.
  - destruct (Renderer.paragraphParts _ _). by repeat constructor.
  - destruct (Renderer.imageParts _). by repeat constructor.
  - apply Wrapped_buttons.
  - destruct (Renderer.listParts _). by repeat constructor.
  - destruct (Renderer.spacerParts _). by repeat constructor.
  - destruct (Renderer.groupParts _) as [attrs openTag].
    apply Wrapped_block; [done..|].
    apply Forall_app. split; [by repeat constructor|].
    apply Forall_app. split; [|by repeat constructor].
    apply separated_Forall; [constructor|].
    destruct ch as [cs|]; [|constructor].
    induction IH as [|x cs Hx _ IHcs]; by constructor.
  - destruct (Renderer.navigationParts _) as [attrs openTag].
    apply Wrapped_block; [done..|].
    apply Forall_app. split; [by repeat constructor|].
    apply Forall_app. split; [|by repeat constructor].
    apply separated_Forall; [constructor|].
    apply Forall_forall. intros x Hx. apply list_elem_of_In, List.in_map_iff in Hx.
    destruct Hx as (link & <- & _). by repeat constructor.
  - constructor.
Qed.

(** C2. For every button node, whatever its content, target, variant and
    class name, the fragment is a [wp:buttons] block with no attributes
    whose div holds exactly one [wp:button] block, which holds the one
    anchor; the target is escaped as an attribute value and the label as
    text, so neither can close the anchor or open a tag.  In the fragment
    of any node, a button block occurs only inside such a wrapper. *)
Theorem button_wrapped_in_buttons (node : IRNode) (tokens : DesignTokens) :
  type node = button →
  Renderer.renderNode node tokens =
    buttonsGroupMarkup
      (buttonBlockMarkup (Renderer.attrsJson (Renderer.buttonAttrs node))
         (anchorMarkup (join " " (buttonClasses node))
            (Utils.escapeAttr (orStr (href (attributes node)) "#"))
            (Renderer.wpInlineStyle (lookupProp (Renderer.buttonAttrs node) "style"))
            (Utils.escapeHtml (default "" (content node))))) ∧
  occurs "034"%char (Utils.escapeAttr (orStr (href (attributes node)) "#")) = false ∧
  occurs "<"%char (Utils.escapeHtml (default "" (content node))) = false ∧
  renderNodeTree node tokens =
    Block "buttons" []
      [Html (Renderer.buttonsOpenTag +:+ NL);
       Block "button" (Renderer.buttonAttrs node) [Html (Renderer.buttonInnerHtml node)];
       Html (NL +:+ "</div>")] ∧
  ∀ any : IRNode,
    flatten (renderNodeTree any tokens) = Renderer.renderNode any tokens ∧
    Wrapped (renderNodeTree any tokens).
Proof.
  intros Hty. split; [|split; [|split; [|split]]].
  - rewrite renderNode_button by done.
    unfold Renderer.renderButton, Renderer.buttonInnerHtml, Renderer.buttonAttrs,
      buttonClasses.
    destruct (Renderer.buttonVariant _) as [btnAttrs btnClasses]. simpl.
    destruct (Renderer.applyClassName _ btnAttrs btnClasses) as [attrs' classes'].
    simpl. rewrite block_empty_attrs.
    unfold buttonsGroupMarkup, buttonBlockMarkup, anchorMarkup, Renderer.block.
    cbn [join]. rewrite !append_assoc. reflexivity.
  - apply escapeAttr_clean.
  - apply escapeHtml_clean.
  - destruct node; simpl in *. by subst.
  - intros any. split; [apply renderNodeTree_flatten|apply renderNodeTree_wrapped].
Qed.

Lemma button_wrapped_in_buttons_witness :
  type (buttonWith "Buy" "/buy" "primary") = button ∧
  Renderer.renderNode (buttonWith "Buy" "/buy" "primary") plainTokens =
    buttonsGroupMarkup
      (buttonBlockMarkup
         (" {" +:+ DQ +:+ "backgroundColor" +:+ DQ +:+ ":" +:+ DQ +:+ "primary" +:+
          DQ +:+ "," +:+ DQ +:+ "textColor" +:+ DQ +:+ ":" +:+ DQ +:+ "background" +:+
          DQ +:+ "}")
         (anchorMarkup
            "wp-block-button__link wp-element-button has-primary-background-color has-background-color-color has-text-color has-background"
            "/buy" "" "Buy")).
Proof.
  split; [reflexivity|].
  exact (proj1 (button_wrapped_in_buttons (buttonWith "Buy" "/buy" "primary")
                  plainTokens eq_refl)).
Defined.

(** ** Inline style *)

(** For a group that uses every recognised style input, the style object
    and the inline style carry the same values, in the fixed order; the
    unrecognised property of the style map is in neither. *)
Example styled_group_inline_style :
  lookupProp (fst (Renderer.groupParts styledGroup)) "style" =
    JObj [("color", JObj [("text", JStr "#111111"); ("background", JStr "#ffffff")]);
          ("spacing",
           JObj [("padding",
                  JObj [("top", JStr "40px"); ("right", JStr "40px");
                        ("bottom", JStr "40px"); ("left", JStr "40px")]);
                 ("blockGap", JStr "2rem")]);
          ("typography",
           JObj [("fontSize", JStr "18px"); ("lineHeight", JStr "1.5");
                 ("letterSpacing", JStr "1px"); ("textTransform", JStr "uppercase")])] ∧
  Renderer.inlineStyles (lookupProp (fst (Renderer.groupParts styledGroup)) "style") =
    ["font-size:18px"; "line-height:1.5"; "letter-spacing:1px";
     "text-transform:uppercase"; "color:#111111"; "background-color:#ffffff";
     "padding-top:40px"; "padding-right:40px"; "padding-bottom:40px";
     "padding-left:40px"; "gap:2rem"].
Proof. split; by vm_compute. Qed.

(** ** Inline style of an outline button *)

Lemma buttonVariant_outline_style :
  lookupProp (fst (Renderer.buttonVariant "outline")) "style" = outlineBorderStyle.
Proof. reflexivity. Qed.

(** C1 (the code departs from the claim). For every outline button the
    style object in the block JSON is the border-only object with width 2px
    and style solid, and the inline style derived from it by
    [wpInlineStyle] is empty: both border values are missing from the
    anchor. *)
Theorem outline_border_missing_from_inline_style (node : IRNode) :
  type node = button →
  orStr (variant (attributes node)) "primary" = "outline" →
  lookupProp (Renderer.buttonAttrs node) "style" = outlineBorderStyle ∧
  getProp (getProp outlineBorderStyle "border") "width" = JStr "2px" ∧
  getProp (getProp outlineBorderStyle "border") "style" = JStr "solid" ∧
  Renderer.inlineStyles (lookupProp (Renderer.buttonAttrs node) "style") = [] ∧
  Renderer.wpInlineStyle (lookupProp (Renderer.buttonAttrs node) "style") = "".
Proof.
  intros _ Hv.
  assert (lookupProp (Renderer.buttonAttrs node) "style" = outlineBorderStyle) as Hs.
  { unfold Renderer.buttonAttrs. rewrite Hv.
    destruct (Renderer.buttonVariant "outline") as [a c] eqn:Hbv.
    rewrite applyClassName_style.
    change a with (fst (a, c)). rewrite <- Hbv. apply buttonVariant_outline_style. }
  rewrite Hs. repeat split; reflexivity.
Qed.

Lemma outline_border_missing_witness :
  type (buttonWith "Buy" "/buy" "outline") = button ∧
  orStr (variant (attributes (buttonWith "Buy" "/buy" "outline"))) "primary" = "outline" ∧
  Renderer.wpInlineStyle
    (lookupProp (Renderer.buttonAttrs (buttonWith "Buy" "/buy" "outline")) "style") = "" ∧
  Renderer.renderNode (buttonWith "Buy" "/buy" "outline") plainTokens =
    buttonsGroupMarkup
      (buttonBlockMarkup
         (" {" +:+ DQ +:+ "textColor" +:+ DQ +:+ ":" +:+ DQ +:+ "primary" +:+ DQ +:+
          "," +:+ DQ +:+ "style" +:+ DQ +:+ ":{" +:+ DQ +:+ "border" +:+ DQ +:+ ":{" +:+
          DQ +:+ "width" +:+ DQ +:+ ":" +:+ DQ +:+ "2px" +:+ DQ +:+ "," +:+ DQ +:+
          "style" +:+ DQ +:+ ":" +:+ DQ +:+ "solid" +:+ DQ +:+ "}}}")
         (anchorMarkup
            "wp-block-button__link wp-element-button has-primary-color has-text-color is-style-outline"
            "/buy" "" "Buy")).
Proof.
  split; [reflexivity|]. split; [reflexivity|]. split.
  - exact (proj2 (proj2 (proj2 (proj2
      (outline_border_missing_from_inline_style (buttonWith "Buy" "/buy" "outline")
         eq_refl eq_refl))))).
  - by vm_compute.
Defined.

(** ** Reconciliation: skipping *)

(** C8. When the raw markup is absent or empty, or the stylesheet text is
    absent or empty, or the stylesheet defines no class name, the call
    returns its input unchanged: the same document value, and on the heap
    the same reference with nothing written. *)
Theorem postprocess_passthrough (load : string → list DomNode) (ir : IRDocument)
    (rawHtml extractedCSS : option string) :
  rawHtml = None ∨ rawHtml = Some "" ∨
  extractedCSS = None ∨ extractedCSS = Some "" ∨
  (∃ css, extractedCSS = Some css ∧ Postprocessor.extractCssClasses css = ∅) →
  Postprocessor.postprocessClassNames load ir rawHtml extractedCSS = ir ∧
  ∀ (ref : Postprocessor.Ref) (heap : gmap Postprocessor.Ref IRDocument),
    heap !! ref = Some ir →
    Postprocessor.callPostprocessClassNames load ref rawHtml extractedCSS heap
    = (ref, heap).
Proof.
  intros H.
  assert (Postprocessor.indexOf load rawHtml extractedCSS = None) as Hidx.
  { unfold Postprocessor.indexOf.
    destruct H as [-> | [-> | [-> | [-> | (css & -> & Hcss)]]]]; try done.
    - by destruct (nonEmptyStr rawHtml).
    - by destruct (nonEmptyStr rawHtml).
    - destruct (nonEmptyStr rawHtml); [|done].
      unfold nonEmptyStr. destruct (decide (css = "")); [done|].
      rewrite Hcss. by rewrite size_empty. }
  assert (Postprocessor.postprocessClassNames load ir rawHtml extractedCSS = ir) as Heq.
  { unfold Postprocessor.postprocessClassNames, Postprocessor.runPostprocess.
    by rewrite Hidx. }
  split; [exact Heq|].
  intros ref heap Href. unfold Postprocessor.callPostprocessClassNames.
  rewrite Href, Heq. by rewrite insert_id.
Qed.

Lemma postprocess_passthrough_witness :
  (∃ css, Some "p { margin: 0 }" = Some css ∧ Postprocessor.extractCssClasses css = ∅) ∧
  Postprocessor.postprocessClassNames scenarioE_load scenarioE_document
    (Some scenarioE_html) (Some "p { margin: 0 }") = scenarioE_document.
Proof.
  assert (∃ css, Some "p { margin: 0 }" = Some css ∧
                 Postprocessor.extractCssClasses css = ∅) as H.
  { eexists. split; [reflexivity|]. by vm_compute. }
  split; [exact H|].
  apply (postprocess_passthrough scenarioE_load scenarioE_document
           (Some scenarioE_html) (Some "p { margin: 0 }")).
  right; right; right; right. exact H.
Defined.

(** ** Reconciliation: the walk *)


Lemma walkNode_unfold (idx : Postprocessor.Index) (node : IRNode)
    (st : Postprocessor.MatchState) :
  Postprocessor.walkNode idx node st =
  let '(node1, st1) := Postprocessor.applyLeafClasses idx node st in
  let '(node2, st2) :=
    match type node with
    | group =>
        Postprocessor.applyContainerClasses idx
          (Postprocessor.collectIrLeafKeys (children node))
          Postprocessor.addClassesToNode node1 st1
    | _ => (node1, st1)
    end in
  match children node with
  | Some cs =>
      let '(cs', st3) := Postprocessor.forEach (Postprocessor.walkNode idx) cs st2 in
      (Postprocessor.setChildren node2 (Some cs'), st3)
  | None => (node2, st2)
  end.
Proof.
  destruct node as [t c a ch m s cn]. cbn [Postprocessor.walkNode type children].
  destruct (Postprocessor.applyLeafClasses idx _ st) as [node1 st1].
  destruct (match t with group => _ | _ => _ end) as [node2 st2].
  destruct ch as [cs|]; [|done].
  match goal with
  | |- (let '(_, _) := ?f cs st2 in _) = _ =>
      assert (∀ l s0, f l s0 = Postprocessor.forEach (Postprocessor.walkNode idx) l s0)
        as Heach
  end.
  { induction l as [|x l IHl]; intros s0; [done|].
    cbn [Postprocessor.forEach].
    destruct (Postprocessor.walkNode idx x s0) as [x' s1]. by rewrite IHl. }
  by rewrite Heach.
Qed.

(** A step of the walk that only rewrites the class name of its target. *)
Lemma applyLeafClasses_className idx node st :
  ∃ cn, fst (Postprocessor.applyLeafClasses idx node st)
        = Postprocessor.setClassName node cn.
Proof.
  unfold Postprocessor.applyLeafClasses.
  assert (∃ cn, node = Postprocessor.setClassName node cn) as Hid.
  { exists (className node). by destruct node. }
  destruct (Postprocessor.irLeafKey node) as [[t [k|]]|]; try exact Hid.
  destruct (Postprocessor.findLeafMatch idx st k t) as [m|]; [|exact Hid].
  destruct (Postprocessor.classes m); [exact Hid|].
  eexists. reflexivity.
Qed.

Lemma applyContainerClasses_node_className idx keys node st :
  ∃ cn, fst (Postprocessor.applyContainerClasses idx keys
               Postprocessor.addClassesToNode node st)
        = Postprocessor.setClassName node cn.
Proof.
  unfold Postprocessor.applyContainerClasses.
  assert (∃ cn, node = Postprocessor.setClassName node cn) as Hid.
  { exists (className node). by destruct node. }
  destruct keys; [exact Hid|].
  destruct (Postprocessor.findContainerMatch idx st _) as [m|]; [|exact Hid].
  destruct (Postprocessor.container_classes m); [exact Hid|].
  eexists. reflexivity.
Qed.

Lemma applyContainerClasses_section_className idx keys section st :
  ∃ cn, fst (Postprocessor.applyContainerClasses idx keys
               Postprocessor.addClassesToSection section st)
        = Postprocessor.setSectionClassName section cn.
Proof.
  unfold Postprocessor.applyContainerClasses.
  assert (∃ cn, section = Postprocessor.setSectionClassName section cn) as Hid.
  { exists (section_className section). by destruct section. }
  destruct keys; [exact Hid|].
  destruct (Postprocessor.findContainerMatch idx st _) as [m|]; [|exact Hid].
  destruct (Postprocessor.container_classes m); [exact Hid|].
  eexists. reflexivity.
Qed.

Lemma forEach_erase {T} (erase : T → T)
    (walk : T → Postprocessor.MatchState → T * Postprocessor.MatchState)
    (l : list T) (st : Postprocessor.MatchState) :
  Forall (λ x, ∀ st, erase (fst (walk x st)) = erase x) l →
  List.map erase (fst (Postprocessor.forEach walk l st)) = List.map erase l.
Proof.
  intros Hall. revert st. induction Hall as [|x l Hx _ IH]; intros st; [done|].
  cbn [Postprocessor.forEach]. specialize (Hx st).
  destruct (walk x st) as [x' st1]. specialize (IH st1).
  destruct (Postprocessor.forEach walk l st1) as [l' st2].
  simpl in *. by rewrite Hx, IH.
Qed.

Lemma walkNode_erase idx node :
  ∀ st, eraseNode (fst (Postprocessor.walkNode idx node st)) = eraseNode node.
Proof.
  induction node as [t c a ch m s cn IH] using IRNode_tree_ind. intros st.
  rewrite walkNode_unfold. cbn [type children].
  destruct (applyLeafClasses_className idx (mkIRNode t c a ch m s cn) st) as [cn1 H1].
  destruct (Postprocessor.applyLeafClasses idx _ st) as [node1 st1].
  simpl in H1. subst node1.
  assert (∃ cn2 st2,
    match t with
    | group =>
        Postprocessor.applyContainerClasses idx (Postprocessor.collectIrLeafKeys ch)
          Postprocessor.addClassesToNode
          (Postprocessor.setClassName (mkIRNode t c a ch m s cn) cn1) st1
    | _ => (Postprocessor.setClassName (mkIRNode t c a ch m s cn) cn1, st1)
    end = (Postprocessor.setClassName (mkIRNode t c a ch m s cn) cn2, st2)) as (cn2 & st2 & H2).
  { destruct t; try (by eexists _, _).
    destruct (applyContainerClasses_node_className idx
                (Postprocessor.collectIrLeafKeys ch)
                (Postprocessor.setClassName (mkIRNode group c a ch m s cn) cn1) st1)
      as [cn2 Hc].
    destruct (Postprocessor.applyContainerClasses _ _ _ _ _) as [n2 st2].
    simpl in Hc. subst n2. by exists cn2, st2. }
  rewrite H2. destruct ch as [cs|]; [|done].
  pose proof (forEach_erase eraseNode (Postprocessor.walkNode idx) cs st2 IH)
    as Hcs.
  destruct (Postprocessor.forEach _ cs st2) as [cs' st3]. simpl in *.
  by rewrite Hcs.
Qed.

Lemma walkSection_erase idx section st :
  eraseSection (fst (Postprocessor.walkSection idx section st)) = eraseSection section.
Proof.
  unfold Postprocessor.walkSection.
  destruct (applyContainerClasses_section_className idx
              (Postprocessor.collectIrLeafKeys (Some (section_children section)))
              section st) as [cn Hc].
  destruct (Postprocessor.applyContainerClasses _ _ _ _ _) as [s1 st1].
  simpl in Hc. subst s1.
  pose proof (forEach_erase eraseNode (Postprocessor.walkNode idx)
                (section_children section) st1) as Hcs.
  destruct (Postprocessor.forEach _ _ st1) as [cs' st2]. simpl in *.
  unfold eraseSection. simpl. rewrite Hcs; [done|].
  apply Forall_forall. intros x _ st'. apply walkNode_erase.
Qed.

Lemma walkOptional_erase idx section st :
  eraseSection <$> fst (Postprocessor.walkOptional idx section st)
  = eraseSection <$> section.
Proof.
  destruct section as [s|]; [|done]. simpl.
  pose proof (walkSection_erase idx s st) as H.
  destruct (Postprocessor.walkSection idx s st). simpl in *. by rewrite H.
Qed.

Lemma walkDocument_erase idx ir st :
  eraseDocument (fst (Postprocessor.walkDocument idx ir st)) = eraseDocument ir.
Proof.
  unfold Postprocessor.walkDocument.
  pose proof (walkOptional_erase idx (header ir) st) as Hh.
  destruct (Postprocessor.walkOptional idx (header ir) st) as [h' st1].
  pose proof (forEach_erase eraseSection (Postprocessor.walkSection idx)
                (sections ir) st1) as Hs.
  destruct (Postprocessor.forEach _ (sections ir) st1) as [ss' st2].
  pose proof (walkOptional_erase idx (footer ir) st2) as Hf.
  destruct (Postprocessor.walkOptional idx (footer ir) st2) as [f' st3].
  simpl in *. unfold eraseDocument. simpl. rewrite Hh, Hf, Hs; [done|].
  apply Forall_forall. intros x _ st'. apply walkSection_erase.
Qed.

Lemma postprocess_erase load ir rawHtml extractedCSS :
  eraseDocument (Postprocessor.postprocessClassNames load ir rawHtml extractedCSS)
  = eraseDocument ir.
Proof.
  unfold Postprocessor.postprocessClassNames, Postprocessor.runPostprocess.
  destruct (Postprocessor.indexOf load rawHtml extractedCSS) as [idx|]; [|done].
  apply walkDocument_erase.
Qed.

(** On scenario E the call hands back the reference it was given, and the
    document behind that reference now carries the class name foo: the
    input has been changed and no new document exists. *)
Lemma postprocess_not_a_new_document :
  fst (Postprocessor.callPostprocessClassNames scenarioE_load 0%nat
         (Some scenarioE_html) (Some scenarioE_css) scenarioE_heap) = 0%nat ∧
  snd (Postprocessor.callPostprocessClassNames scenarioE_load 0%nat
         (Some scenarioE_html) (Some scenarioE_css) scenarioE_heap) !! 0%nat
    = Some (documentOf [paragraphNode "Hi" (Some "foo")]) ∧
  ¬ newDocumentClaim scenarioE_load 0%nat (Some scenarioE_html)
      (Some scenarioE_css) scenarioE_heap.
Proof.
  split; [reflexivity|]. split; [by vm_compute|].
  unfold newDocumentClaim.
  destruct (Postprocessor.callPostprocessClassNames _ _ _ _ _) as [r h] eqn:Hcall.
  assert (r = 0%nat) as ->.
  { change r with (fst (r, h)). by rewrite <- Hcall. }
  intros (_ & Hne & _). by apply Hne.
Qed.

(** ** Reconciliation: the container match *)

Lemma beatsScore_trans oa ra sa oc rc sc ob rb sb :
  beatsScore oa ra sa oc rc sc → beatsScore oc rc sc ob rb sb →
  beatsScore oa ra sa ob rb sb.
Proof.
  unfold beatsScore. intros Hac Hcb.
  destruct Hcb as [?|[[? ?]|[? [? ?]]]]; destruct Hac as [?|[[? ?]|[? [? ?]]]];
    first [ left; lia
          | right; left; split; [lia|lra]
          | right; right; split; [lia|split; [lra|lia]] ].
Qed.

Lemma beatsScore_irrefl o r s : ¬ beatsScore o r s o r s.
Proof. unfold beatsScore. intros [?|[[_ ?]|[_ [_ ?]]]]; [lia|lra|lia]. Qed.

Lemma replaces_spec o' r' s' b :
  Postprocessor.replaces o' r' s' (Some b) = true ↔
  beatsScore o' r' s' (Postprocessor.best_overlap b) (Postprocessor.best_ratio b)
    (Postprocessor.best_size b).
Proof.
  unfold Postprocessor.replaces, beatsScore, Postprocessor.Qgtb.
  rewrite !orb_true_iff, !andb_true_iff, negb_true_iff, !Nat.ltb_lt, !Nat.eqb_eq,
    Qeq_bool_iff.
  rewrite <- not_true_iff_false, Qle_bool_iff.
  split.
  - intros [[H|[H1 H2]]|[[H1 H2] H3]].
    + left; lia.
    + right; left. split; [lia|lra].
    + right; right. split; [lia|]. split; [lra|lia].
  - intros [H|[[H1 H2]|[H1 [H2 H3]]]].
    + left; left; lia.
    + left; right. split; [lia|lra].
    + right. split; [split; [lia|lra]|lia].
Qed.

Lemma considerContainer_bestAmong st target thr seen best c :
  bestAmong st target thr seen best →
  bestAmong st target thr (seen ++ [c])
    (Postprocessor.considerContainer st target thr best c).
Proof.
  intros Hinv. unfold Postprocessor.considerContainer.
  assert (∀ x, x ∈ seen ++ [c] ↔ x ∈ seen ∨ x = c) as Hmem.
  { intros x. rewrite elem_of_app, list_elem_of_singleton. tauto. }
  (* a candidate that does not qualify leaves [best] as it is *)
  assert (¬ eligible st target thr c → bestAmong st target thr (seen ++ [c]) best)
    as Hskip.
  { intros Hnot. destruct best as [b|]; simpl in *.
    - destruct Hinv as (Hin & Hel & Ho & Hr & Hs & Hmax).
      repeat split; try done; try apply Hel.
      + apply Hmem. by left.
      + intros c' Hc' Hel'. apply Hmem in Hc' as [Hc'| ->]; [by apply Hmax|done].
    - intros c' Hc'. apply Hmem in Hc' as [Hc'| ->]; [by apply Hinv|done]. }
  case_bool_decide as Hused.
  { apply Hskip. intros [Hu _]. done. }
  destruct (Nat.ltb_spec (Postprocessor.overlapOf target c) thr) as [Hlt|Hge].
  { apply Hskip. intros [_ Ho]. lia. }
  assert (eligible st target thr c) as Helc by done.
  destruct (Postprocessor.replaces _ _ _ best) eqn:Hrep.
  - (* the candidate becomes [best] *)
    simpl. repeat split; try done; try apply Helc.
    + apply Hmem. by right.
    + intros c' Hc' Hel'. apply Hmem in Hc' as [Hc'| ->];
        [|apply beatsScore_irrefl].
      destruct best as [b|]; simpl in Hinv; [|by destruct (Hinv c')].
      destruct Hinv as (_ & _ & Ho & Hr & Hs & Hmax).
      apply replaces_spec in Hrep. rewrite Ho, Hr, Hs in Hrep.
      intros Hbeat. apply (Hmax c' Hc' Hel').
      exact (beatsScore_trans _ _ _ _ _ _ _ _ _ Hbeat Hrep).
  - (* [best] stays *)
    destruct best as [b|]; [|done]. simpl in *.
    destruct Hinv as (Hin & Hel & Ho & Hr & Hs & Hmax).
    repeat split; try done; try apply Hel.
    + apply Hmem. by left.
    + intros c' Hc' Hel'. apply Hmem in Hc' as [Hc'| ->]; [by apply Hmax|].
      intros Hbeat. apply not_true_iff_false in Hrep. apply Hrep.
      apply replaces_spec. by rewrite Ho, Hr, Hs.
Qed.

Lemma foldl_considerContainer_bestAmong st target thr l :
  ∀ seen best,
    bestAmong st target thr seen best →
    bestAmong st target thr (seen ++ l)
      (foldl (Postprocessor.considerContainer st target thr) best l).
Proof.
  induction l as [|c l IH]; intros seen best Hinv; simpl.
  - by rewrite app_nil_r.
  - replace (seen ++ c :: l) with ((seen ++ [c]) ++ l) by by rewrite <- app_assoc.
    apply IH. by apply considerContainer_bestAmong.
Qed.

Lemma findContainerMatch_spec idx st keys :
  match Postprocessor.findContainerMatch idx st keys with
  | Some c =>
      keys ≠ [] ∧ c ∈ Postprocessor.containers idx ∧
      eligible st (list_to_set keys) (Postprocessor.minOverlap keys) c ∧
      ∀ c', c' ∈ Postprocessor.containers idx →
            eligible st (list_to_set keys) (Postprocessor.minOverlap keys) c' →
            ¬ beats (list_to_set keys) c' c
  | None =>
      keys = [] ∨
      ∀ c, c ∈ Postprocessor.containers idx →
           ¬ eligible st (list_to_set keys) (Postprocessor.minOverlap keys) c
  end.
Proof.
  unfold Postprocessor.findContainerMatch.
  destruct keys as [|k keys]; [by left|].
  pose proof (foldl_considerContainer_bestAmong st (list_to_set (k :: keys))
    (Postprocessor.minOverlap (k :: keys)) (Postprocessor.containers idx) [] None)
    as Hfold.
  simpl app in Hfold. specialize (Hfold ltac:(by intros c Hc; inversion Hc)).
  destruct (foldl _ None (Postprocessor.containers idx)) as [b|]; simpl in *.
  - destruct Hfold as (Hin & Hel & _ & _ & _ & Hmax). done.
  - by right.
Qed.

Lemma minOverlap_spec (keys : list string) :
  (length keys ≤ 3 → Postprocessor.minOverlap keys = 1)%nat ∧
  (3 < length keys →
   3 * length keys ≤ 10 * Postprocessor.minOverlap keys ∧
   10 * (Postprocessor.minOverlap keys - 1) < 3 * length keys)%nat.
Proof.
  unfold Postprocessor.minOverlap.
  destruct (Nat.leb_spec (length keys) 3) as [Hle|Hgt]; (split; [done || lia|]);
    [lia|]. intros _.
  destruct (ceilDiv_covers (3 * Z.of_nat (length keys)) 10) as [H0 H1]; [lia..|].
  unfold Utils.ceilDiv in *.
  pose proof (Z.div_mod (- (3 * Z.of_nat (length keys))) 10 ltac:(lia)) as Hdm.
  pose proof (Z.mod_pos_bound (- (3 * Z.of_nat (length keys))) 10 ltac:(lia)) as Hb.
  lia.
Qed.

Lemma setAdd_NoDup (l : list string) (x : string) :
  NoDup l → NoDup (Postprocessor.setAdd l x).
Proof.
  intros Hl. unfold Postprocessor.setAdd. case_bool_decide; [done|].
  apply NoDup_app. repeat split; [done| |apply NoDup_singleton].
  intros y Hy Hy'. apply list_elem_of_singleton in Hy'. by subst.
Qed.

Lemma foldl_setAdd_NoDup (xs l : list string) :
  NoDup l → NoDup (foldl Postprocessor.setAdd l xs).
Proof.
  revert l. induction xs as [|x xs IH]; intros l Hl; simpl; [done|].
  apply IH. by apply setAdd_NoDup.
Qed.

Lemma collectIrLeafKeys_NoDup ch : NoDup (Postprocessor.collectIrLeafKeys ch).
Proof.
  destruct ch as [cs|]; simpl; [|constructor].
  apply foldl_setAdd_NoDup. constructor.
Qed.

(** With the same overlap of 2, the candidate with two leaf keys has the
    larger ratio and wins over the one with four; once it is used, the
    other one is the match. *)
Example tighter_container_wins :
  Postprocessor.findContainerMatch twoContainerIndex Postprocessor.initialState
    ["p|a"; "p|b"] = Some tightContainer ∧
  Postprocessor.findContainerMatch twoContainerIndex
    (Postprocessor.useContainer Postprocessor.initialState 8) ["p|a"; "p|b"]
    = Some looseContainer ∧
  Postprocessor.findContainerMatch twoContainerIndex Postprocessor.initialState
    ["p|z"] = None.
Proof. repeat split; by vm_compute. Qed.

(** C6. The key list of a structural node or section has no repeated key.
    For a key list of length k the threshold is 1 when k is at most 3 and
    the least integer that is at least 0.3 k otherwise.  A match is an
    unused candidate whose overlap reaches the threshold and which no other
    such candidate beats on overlap, then on ratio, then on having fewer
    leaf keys.  There is no match exactly when the key list is empty or no
    unused candidate reaches the threshold, and then nothing is merged and
    nothing is marked used. *)
Theorem container_match_is_best (idx : Postprocessor.Index)
    (st : Postprocessor.MatchState) (keys : list string) :
  (∀ ch, NoDup (Postprocessor.collectIrLeafKeys ch)) ∧
  ((length keys ≤ 3 → Postprocessor.minOverlap keys = 1)%nat ∧
   (3 < length keys →
    3 * length keys ≤ 10 * Postprocessor.minOverlap keys ∧
    10 * (Postprocessor.minOverlap keys - 1) < 3 * length keys)%nat) ∧
  match Postprocessor.findContainerMatch idx st keys with
  | Some c =>
      keys ≠ [] ∧ c ∈ Postprocessor.containers idx ∧
      eligible st (list_to_set keys) (Postprocessor.minOverlap keys) c ∧
      ∀ c', c' ∈ Postprocessor.containers idx →
            eligible st (list_to_set keys) (Postprocessor.minOverlap keys) c' →
            ¬ beats (list_to_set keys) c' c
  | None =>
      (keys = [] ∨
       ∀ c, c ∈ Postprocessor.containers idx →
            ¬ eligible st (list_to_set keys) (Postprocessor.minOverlap keys) c) ∧
      (∀ (node : IRNode),
         Postprocessor.applyContainerClasses idx keys
           Postprocessor.addClassesToNode node st = (node, st)) ∧
      (∀ (section : IRSection),
         Postprocessor.applyContainerClasses idx keys
           Postprocessor.addClassesToSection section st = (section, st))
  end.
Proof.
  split; [apply collectIrLeafKeys_NoDup|]. split; [apply minOverlap_spec|].
  pose proof (findContainerMatch_spec idx st keys) as Hspec.
  destruct (Postprocessor.findContainerMatch idx st keys) as [c|] eqn:Hfind;
    [exact Hspec|].
  split; [exact Hspec|].
  split; intros ?; unfold Postprocessor.applyContainerClasses;
    rewrite Hfind; by destruct keys.
Qed.

(** ** Reconciliation: consumption *)



Lemma find_elem_of {A} (f : A → bool) (l : list A) (x : A) :
  List.find f l = Some x → x ∈ l ∧ f x = true.
Proof.
  intros H. apply List.find_some in H as [Hin Hf]. split; [|done].
  by apply list_elem_of_In.
Qed.

Lemma findLeafMatch_found idx st k t m :
  Postprocessor.findLeafMatch idx st k t = Some m →
  (Postprocessor.id m ∉ Postprocessor.usedLeafIds st) ∧
  (inBuckets (Postprocessor.leafByKey idx) m ∨
   inBuckets (Postprocessor.leafByType idx) m).
Proof.
  unfold Postprocessor.findLeafMatch. intros H.
  assert (Postprocessor.unusedLeaf st m = true ∧
          (inBuckets (Postprocessor.leafByKey idx) m ∨
           inBuckets (Postprocessor.leafByType idx) m)) as [Hun Hin].
  { destruct (List.find _ (default [] (Postprocessor.leafByKey idx !! k))) as [x|] eqn:Hk.
    - injection H as ->. apply find_elem_of in Hk as [Hin ?]. split; [done|]. left.
      destruct (Postprocessor.leafByKey idx !! k) as [l|] eqn:Hl; [|by inversion Hin].
      by exists k, l.
    - apply find_elem_of in H as [Hin ?]. split; [done|]. right.
      destruct (Postprocessor.leafByType idx !! t) as [l|] eqn:Hl; [|by inversion Hin].
      by exists t, l. }
  split; [|done]. unfold Postprocessor.unusedLeaf in Hun.
  apply negb_true_iff, bool_decide_eq_false in Hun. exact Hun.
Qed.

Lemma findContainerMatch_found idx st keys c :
  Postprocessor.findContainerMatch idx st keys = Some c →
  (Postprocessor.container_id c ∉ Postprocessor.usedContainerIds st) ∧
  c ∈ Postprocessor.containers idx.
Proof.
  intros H. pose proof (findContainerMatch_spec idx st keys) as Hspec.
  rewrite H in Hspec. by destruct Hspec as (_ & ? & [Hun _] & _).
Qed.












(** *** Ids assigned by the index construction *)

Lemma inBuckets_pushTo `{Countable K}
    (m : gmap K (list Postprocessor.LeafElement)) (k : K) leaf x :
  inBuckets (Postprocessor.pushTo m k leaf) x ↔ inBuckets m x ∨ x = leaf.
Proof.
  unfold inBuckets, Postprocessor.pushTo. split.
  - intros (k' & l & Hl & Hx). destruct (decide (k = k')) as [<-|Hne].
    + rewrite lookup_insert_eq in Hl. injection Hl as <-.
      apply elem_of_app in Hx as [Hx|Hx].
      * left. destruct (m !! k) as [l0|] eqn:Hk; [|by inversion Hx].
        by exists k, l0.
      * right. by apply list_elem_of_singleton in Hx.
    + rewrite lookup_insert_ne in Hl by done. left. by exists k', l.
  - intros [(k' & l & Hl & Hx)| ->].
    + destruct (decide (k = k')) as [<-|Hne].
      * exists k, (l ++ [leaf]). rewrite lookup_insert_eq, Hl. simpl.
        split; [done|]. apply elem_of_app. by left.
      * exists k', l. by rewrite lookup_insert_ne.
    + exists k, (default [] (m !! k) ++ [leaf]). rewrite lookup_insert_eq.
      split; [done|]. apply elem_of_app. right. by apply list_elem_of_singleton.
Qed.










(** * Further properties *)

(** ** White space *)

Lemma unchars_cons x l :
  Postprocessor.unchars (x :: l) = x +:+ Postprocessor.unchars l.
Proof. reflexivity. Qed.

Lemma unchars_app l1 l2 :
  Postprocessor.unchars (l1 ++ l2)
  = Postprocessor.unchars l1 +:+ Postprocessor.unchars l2.
Proof.
  induction l1 as [|x l1 IH]; [done|].
  rewrite <- app_comm_cons, !unchars_cons, IH. by rewrite append_assoc.
Qed.

Lemma append_inv_head (p s t : string) : p +:+ s = p +:+ t → s = t.
Proof.
  induction p as [|a p IH]; [done|]. rewrite !append_cons. intros [= H]. by apply IH.
Qed.

Lemma startsWith_spec p s :
  startsWith p s = true ↔ ∃ r, s = p +:+ r.
Proof.
  revert s. induction p as [|a p IH]; intros s.
  - split; [by exists s|done].
  - cbn [startsWith]. destruct s as [|b s].
    + split; [done|]. by intros [r Hr].
    + rewrite andb_true_iff, bool_decide_eq_true, IH. split.
      * intros [-> [r ->]]. by exists r.
      * intros [r Hr]. rewrite append_cons in Hr. injection Hr as -> ->.
        split; [done|]. by exists r.
Qed.

(** A text put behind [v] does not change whether [v] starts with [w], when
    its first byte is none of the bytes that [w] still needs. *)
Lemma startsWith_app_all w v x :
  match x with EmptyString => True | String b _ => occurs b w = false end →
  startsWith w (v +:+ x) = startsWith w v.
Proof.
  revert v. induction w as [|a w IH]; intros v Hx; [done|].
  destruct v as [|c v].
  - rewrite append_nil_l. cbn [startsWith].
    destruct x as [|b x]; [done|]. cbn [occurs] in Hx.
    destruct (decide (a = b)) as [->|Hne]; [done|].
    by rewrite bool_decide_eq_false_2.
  - rewrite append_cons. cbn [startsWith]. f_equal. apply IH.
    destruct x as [|b x]; [done|]. cbn [occurs] in Hx.
    by destruct (decide (a = b)).
Qed.

Lemma startsWith_app_tail w v x :
  v ≠ "" →
  match x, w with
  | String b _, String _ t => occurs b t = false
  | _, _ => True
  end →
  startsWith w (v +:+ x) = startsWith w v.
Proof.
  intros Hv Hx. destruct v as [|c v]; [done|]. destruct w as [|a w]; [done|].
  rewrite append_cons. cbn [startsWith]. f_equal.
  apply startsWith_app_all. by destruct x.
Qed.

Lemma find_ext_in {A} (f g : A → bool) (l : list A) :
  (∀ x, x ∈ l → f x = g x) → List.find f l = List.find g l.
Proof.
  induction l as [|x l IH]; intros H; [done|]. cbn [List.find].
  rewrite <- (H x) by (by left). destruct (f x); [done|].
  apply IH. intros y Hy. apply H. by right.
Qed.

Lemma continues_spec b w :
  continues b = false → w ∈ Postprocessor.wideSpaces →
  match w with String _ t => occurs b t = false | EmptyString => True end.
Proof.
  unfold continues. intros Hb Hw.
  destruct w as [|a t]; [done|].
  destruct (occurs b t) eqn:Ht; [|done].
  assert (existsb
            (λ w, match w with String _ t => occurs b t | EmptyString => false end)
            Postprocessor.wideSpaces = true) as Hex.
  { apply existsb_exists. exists (String a t). split; [|done].
    by apply list_elem_of_In. }
  by rewrite Hex in Hb.
Qed.

(** What stands behind a boundary is not looked at. *)
Lemma spaceAt_boundary v x :
  v ≠ "" → boundary x = true →
  Postprocessor.spaceAt (v +:+ x) = Postprocessor.spaceAt v.
Proof.
  intros Hv Hx. destruct v as [|a v]; [done|]. rewrite append_cons.
  cbn [Postprocessor.spaceAt]. destruct (Ascii.is_space a); [done|].
  apply find_ext_in. intros w Hw. rewrite <- append_cons.
  apply startsWith_app_tail; [done|].
  destruct x as [|b x]; [done|]. cbn [boundary] in Hx.
  apply negb_true_iff in Hx. exact (continues_spec b w Hx Hw).
Qed.

Lemma wideSpaces_cases (P : string → Prop) :
  Forall P Postprocessor.wideSpaces → ∀ w, w ∈ Postprocessor.wideSpaces → P w.
Proof. intros H w Hw. rewrite Forall_forall in H. by apply H. Qed.

Lemma spaceAt_wide w r :
  w ∈ Postprocessor.wideSpaces → Postprocessor.spaceAt (w +:+ r) = Some w.
Proof.
  revert w. apply wideSpaces_cases.
  unfold Postprocessor.wideSpaces. cbn [app List.map].
  repeat (constructor; [reflexivity|]). constructor.
Qed.

Lemma wide_two w :
  w ∈ Postprocessor.wideSpaces → ∃ a b t, w = String a (String b t).
Proof.
  revert w. apply wideSpaces_cases.
  unfold Postprocessor.wideSpaces. cbn [app List.map].
  repeat (constructor; [by eexists _, _, _|]). constructor.
Qed.

Lemma spaceAt_single a :
  Postprocessor.spaceAt (String a "")
  = if Ascii.is_space a then Some (String a "") else None.
Proof.
  cbn [Postprocessor.spaceAt]. destruct (Ascii.is_space a); [done|].
  destruct (List.find _ _) as [w|] eqn:Hw; [|done].
  apply List.find_some in Hw as [Hin Hsw].
  apply startsWith_spec in Hsw as [r Hr].
  apply list_elem_of_In, wide_two in Hin as (x & y & t & ->).
  by rewrite !append_cons in Hr.
Qed.

Lemma isSpace_cases w :
  Postprocessor.isSpace w = true ↔
  (∃ a, w = String a "" ∧ Ascii.is_space a = true) ∨ w ∈ Postprocessor.wideSpaces.
Proof.
  unfold Postprocessor.isSpace. rewrite bool_decide_eq_true. split.
  - destruct w as [|a t]; [done|]. cbn [Postprocessor.spaceAt].
    destruct (Ascii.is_space a) eqn:Ha.
    + intros [= <-]. left. by exists a.
    + intros H. right. apply List.find_some in H as [H _]. by apply list_elem_of_In.
  - intros [(a & -> & Ha)|Hw].
    + by rewrite spaceAt_single, Ha.
    + rewrite <- (append_nil_r w) at 1. by apply spaceAt_wide.
Qed.

Lemma isSpace_space : Postprocessor.isSpace " " = true.
Proof. reflexivity. Qed.

Lemma isSpace_nonempty w : Postprocessor.isSpace w = true → w ≠ "".
Proof. by intros H ->. Qed.

Lemma spaceAt_app_space w r :
  Postprocessor.isSpace w = true → Postprocessor.spaceAt (w +:+ r) = Some w.
Proof.
  intros H. apply isSpace_cases in H as [(a & -> & Ha)|Hw].
  - rewrite append_cons. cbn [Postprocessor.spaceAt]. by rewrite Ha.
  - by apply spaceAt_wide.
Qed.

Lemma spaceAt_found s w :
  Postprocessor.spaceAt s = Some w →
  Postprocessor.isSpace w = true ∧ ∃ r, s = w +:+ r.
Proof.
  destruct s as [|a s]; [done|]. cbn [Postprocessor.spaceAt].
  destruct (Ascii.is_space a) eqn:Ha.
  - intros [= <-]. split.
    + apply isSpace_cases. left. by exists a.
    + by exists s.
  - intros H. apply List.find_some in H as [Hin Hsw]. split.
    + apply isSpace_cases. right. by apply list_elem_of_In.
    + by apply startsWith_spec.
Qed.

Lemma dropBytes_app t r : dropBytes (String.length t) (t +:+ r) = r.
Proof.
  induction t as [|a t IH]; [by destruct r|]. rewrite append_cons. exact IH.
Qed.

Lemma charsFrom_drop k s :
  Postprocessor.charsFrom k s = Postprocessor.chars (dropBytes k s).
Proof.
  revert k. induction s as [|a s IH]; intros k; [by destruct k|].
  destruct k as [|k]; [done|]. cbn [Postprocessor.charsFrom dropBytes]. apply IH.
Qed.

Lemma chars_space w r :
  Postprocessor.isSpace w = true →
  Postprocessor.chars (w +:+ r) = w :: Postprocessor.chars r.
Proof.
  intros Hw. pose proof (spaceAt_app_space w r Hw) as Hat.
  destruct w as [|a t]; [done|]. rewrite append_cons in *.
  unfold Postprocessor.chars at 1. cbn [Postprocessor.charsFrom]. rewrite Hat.
  f_equal. cbn [String.length Nat.pred]. by rewrite charsFrom_drop, dropBytes_app.
Qed.

Lemma chars_byte a r :
  Postprocessor.spaceAt (String a r) = None →
  Postprocessor.chars (String a r) = String a "" :: Postprocessor.chars r.
Proof.
  intros H. unfold Postprocessor.chars at 1. cbn [Postprocessor.charsFrom].
  by rewrite H.
Qed.

Lemma isSpace_byte a r :
  Postprocessor.spaceAt (String a r) = None →
  Postprocessor.isSpace (String a "") = false.
Proof.
  intros H. unfold Postprocessor.isSpace. apply bool_decide_eq_false.
  rewrite spaceAt_single. cbn [Postprocessor.spaceAt] in H.
  by destruct (Ascii.is_space a).
Qed.

(** One step of the scan. *)
Lemma chars_step s :
  s = "" ∧ Postprocessor.chars s = [] ∨
  (∃ w r, s = w +:+ r ∧ Postprocessor.isSpace w = true ∧
          Postprocessor.chars s = w :: Postprocessor.chars r) ∨
  (∃ a r, s = String a r ∧ Postprocessor.isSpace (String a "") = false ∧
          Postprocessor.spaceAt s = None ∧
          Postprocessor.chars s = String a "" :: Postprocessor.chars r).
Proof.
  destruct s as [|a s]; [by left|]. right.
  destruct (Postprocessor.spaceAt (String a s)) as [w|] eqn:Hat.
  - left. apply spaceAt_found in Hat as [Hw [r Hr]]. exists w, r.
    split; [done|]. split; [done|]. rewrite Hr. by apply chars_space.
  - right. exists a, s. split; [done|]. split; [by apply (isSpace_byte a s)|].
    split; [done|]. by apply chars_byte.
Qed.

Lemma string_length_ind (P : string → Prop) :
  (∀ s, (∀ t, (String.length t < String.length s)%nat → P t) → P s) → ∀ s, P s.
Proof.
  intros H s. remember (String.length s) as n eqn:Hn. revert s Hn.
  induction n as [n IH] using lt_wf_ind. intros s ->.
  apply H. intros t Ht. by apply (IH _ Ht).
Qed.

Lemma length_append s t :
  String.length (s +:+ t) = (String.length s + String.length t)%nat.
Proof.
  induction s as [|a s IH]; [done|]. rewrite append_cons. cbn [String.length].
  by rewrite IH.
Qed.

Lemma length_pos s : s ≠ "" → (0 < String.length s)%nat.
Proof. destruct s; [done|]. cbn. lia. Qed.

(** Induction along the scan of a text. *)
Lemma chars_ind (P : string → Prop) :
  P "" →
  (∀ w r, Postprocessor.isSpace w = true →
          Postprocessor.chars (w +:+ r) = w :: Postprocessor.chars r →
          P r → P (w +:+ r)) →
  (∀ a r, Postprocessor.isSpace (String a "") = false →
          Postprocessor.spaceAt (String a r) = None →
          Postprocessor.chars (String a r) = String a "" :: Postprocessor.chars r →
          P r → P (String a r)) →
  ∀ s, P s.
Proof.
  intros Hnil Hsp Hby. apply string_length_ind. intros s IH.
  destruct (chars_step s) as [[-> _]|[(w & r & -> & Hw & Hc)|(a & r & -> & Ha & Hat & Hc)]].
  - exact Hnil.
  - apply Hsp; [done|done|]. apply IH. rewrite length_append.
    pose proof (length_pos w (isSpace_nonempty w Hw)). lia.
  - apply Hby; [done|done|done|]. apply IH. cbn. lia.
Qed.

Lemma unchars_chars s : Postprocessor.unchars (Postprocessor.chars s) = s.
Proof.
  induction s as [|w r Hw Hc IH|a r Ha Hat Hc IH] using chars_ind; [done| |].
  - by rewrite Hc, unchars_cons, IH.
  - by rewrite Hc, unchars_cons, IH.
Qed.

Lemma chars_items s : Forall isItem (Postprocessor.chars s).
Proof.
  induction s as [|w r Hw Hc IH|a r Ha Hat Hc IH] using chars_ind.
  - constructor.
  - rewrite Hc. constructor; [by left|done].
  - rewrite Hc. constructor; [|done]. right. by exists a.
Qed.

Lemma scanned_chars s : scanned (Postprocessor.chars s).
Proof. unfold scanned. by rewrite unchars_chars. Qed.

Lemma scanned_nil : scanned [].
Proof. done. Qed.

Lemma scanned_items l : scanned l → Forall isItem l.
Proof. intros H. rewrite <- H. apply chars_items. Qed.

Lemma scanned_cons_space w l :
  Postprocessor.isSpace w = true → scanned l → scanned (w :: l).
Proof.
  intros Hw Hl. unfold scanned. rewrite unchars_cons, chars_space by done.
  by rewrite Hl.
Qed.

Lemma scanned_cons_byte a l :
  Postprocessor.spaceAt (String a (Postprocessor.unchars l)) = None →
  scanned l → scanned (String a "" :: l).
Proof.
  intros Hat Hl. unfold scanned. rewrite unchars_cons, append_cons, append_nil_l.
  rewrite chars_byte by done. by rewrite Hl.
Qed.

Lemma scanned_tail c l : scanned (c :: l) → scanned l.
Proof.
  unfold scanned. rewrite unchars_cons. intros H.
  destruct (chars_step (c +:+ Postprocessor.unchars l))
    as [[_ Hc]|[(w & r & Hs & Hw & Hc)|(a & r & Hs & Ha & Hat & Hc)]];
    rewrite Hc in H; [done| |].
  - injection H as -> <-. apply append_inv_head in Hs. by rewrite Hs.
  - injection H as <- <-. rewrite append_cons, append_nil_l in Hs.
    injection Hs as Hs. by rewrite Hs.
Qed.

Lemma scanned_byte_inv a l :
  scanned (String a "" :: l) → Postprocessor.isSpace (String a "") = false →
  Postprocessor.spaceAt (String a (Postprocessor.unchars l)) = None.
Proof.
  unfold scanned. rewrite unchars_cons, append_cons, append_nil_l. intros H Ha.
  destruct (Postprocessor.spaceAt _) as [w|] eqn:Hat; [|done].
  apply spaceAt_found in Hat as [Hw [r Hr]].
  rewrite Hr, chars_space in H by done. injection H as -> _.
  by rewrite Hw in Ha.
Qed.

Lemma is_space_cases a :
  Ascii.is_space a = true →
  a ∈ ["009"; "010"; "011"; "012"; "013"; " "]%char.
Proof.
  destruct a as [[] [] [] [] [] [] [] []]; try discriminate; intros _;
    repeat first [ by left | right ].
Qed.

(** A text that starts with a white-space character is a boundary. *)
Lemma boundary_space w r :
  Postprocessor.isSpace w = true → boundary (w +:+ r) = true.
Proof.
  intros H. apply isSpace_cases in H as [(a & -> & Ha)|Hw].
  - apply is_space_cases in Ha. rewrite append_cons. cbn [boundary].
    repeat (apply elem_of_cons in Ha as [-> | Ha]; [by vm_compute|]).
    by apply elem_of_nil in Ha.
  - revert w Hw. apply wideSpaces_cases.
    unfold Postprocessor.wideSpaces. cbn [app List.map].
    repeat (constructor; [by vm_compute|]). constructor.
Qed.

Lemma headRun_split l :
  ∃ rest, l = headRun l ++ rest ∧
          (rest = [] ∨ ∃ w rest', rest = w :: rest' ∧ Postprocessor.isSpace w = true).
Proof.
  induction l as [|c l (rest & Hl & Hrest)]; [by exists []; split; [|left]|].
  cbn [headRun]. destruct (Postprocessor.isSpace c) eqn:Hc.
  - exists (c :: l). split; [done|]. right. by exists c, l.
  - exists rest. split; [|done]. by rewrite <- app_comm_cons, <- Hl.
Qed.

Lemma boundary_items rest :
  rest = [] ∨ (∃ w rest', rest = w :: rest' ∧ Postprocessor.isSpace w = true) →
  boundary (Postprocessor.unchars rest) = true.
Proof.
  intros [-> |(w & rest' & -> & Hw)]; [done|].
  rewrite unchars_cons. by apply boundary_space.
Qed.

(** Whether a byte is scanned as an item of its own depends on the items
    behind it up to the next white-space character only. *)
Lemma spaceAt_headRun a l :
  Postprocessor.spaceAt (String a (Postprocessor.unchars l))
  = Postprocessor.spaceAt (String a (Postprocessor.unchars (headRun l))).
Proof.
  destruct (headRun_split l) as (rest & Hl & Hrest).
  rewrite Hl at 1. rewrite unchars_app, <- append_cons.
  apply spaceAt_boundary; [done|]. by apply boundary_items.
Qed.

Lemma headRun_app l1 l2 :
  l2 = [] ∨ (∃ w rest', l2 = w :: rest' ∧ Postprocessor.isSpace w = true) →
  headRun (l1 ++ l2) = headRun l1.
Proof.
  intros Hl2. induction l1 as [|c l1 IH].
  - destruct Hl2 as [-> |(w & rest' & -> & Hw)]; [done|]. cbn [app headRun].
    by rewrite Hw.
  - cbn [app headRun]. destruct (Postprocessor.isSpace c); [done|]. by rewrite IH.
Qed.

(** Two scanned lists stay scanned when joined at a white-space character
    or at the end. *)
Lemma scanned_app l1 l2 :
  l2 = [] ∨ (∃ w rest', l2 = w :: rest' ∧ Postprocessor.isSpace w = true) →
  scanned l1 → scanned l2 → scanned (l1 ++ l2).
Proof.
  intros Hl2 H1 H2. induction l1 as [|c l1 IH]; [done|].
  pose proof (scanned_items _ H1) as Hit. apply Forall_cons in Hit as [Hc _].
  specialize (IH (scanned_tail _ _ H1)).
  rewrite <- app_comm_cons. destruct Hc as [Hc|(a & -> & Ha)].
  - by apply scanned_cons_space.
  - apply scanned_cons_byte; [|done].
    rewrite spaceAt_headRun, headRun_app by done. rewrite <- spaceAt_headRun.
    by apply scanned_byte_inv.
Qed.

Lemma scanned_app_inv l1 l2 :
  l2 = [] ∨ (∃ w rest', l2 = w :: rest' ∧ Postprocessor.isSpace w = true) →
  scanned (l1 ++ l2) → scanned l1.
Proof.
  intros Hl2 H. induction l1 as [|c l1 IH]; [done|].
  pose proof (scanned_items _ H) as Hit. rewrite <- app_comm_cons in Hit, H.
  apply Forall_cons in Hit as [Hc _].
  specialize (IH (scanned_tail _ _ H)). destruct Hc as [Hc|(a & -> & Ha)].
  - by apply scanned_cons_space.
  - apply scanned_cons_byte; [|done].
    rewrite spaceAt_headRun, <- (headRun_app l1 l2), <- spaceAt_headRun by done.
    by apply scanned_byte_inv.
Qed.

Lemma scanned_suffix l1 l2 : scanned (l1 ++ l2) → scanned l2.
Proof.
  induction l1 as [|c l1 IH]; [done|]. rewrite <- app_comm_cons. intros H.
  apply IH. by apply scanned_tail in H.
Qed.

Lemma chars_unchars l : scanned l → Postprocessor.chars (Postprocessor.unchars l) = l.
Proof. done. Qed.

(** The scan of a text in front of a white-space character. *)
Lemma chars_app_space s w r :
  Postprocessor.isSpace w = true →
  Postprocessor.chars (s +:+ w +:+ r)
  = Postprocessor.chars s ++ w :: Postprocessor.chars r.
Proof.
  intros Hw.
  assert (scanned (Postprocessor.chars s ++ w :: Postprocessor.chars r)) as H.
  { apply scanned_app; [right; by eexists _, _|apply scanned_chars|].
    apply scanned_cons_space; [done|apply scanned_chars]. }
  unfold scanned in H. by rewrite unchars_app, unchars_cons, !unchars_chars in H.
Qed.

(** ** Text normalization *)

Lemma dropSpaces_suffix l : ∃ sp, l = sp ++ Postprocessor.dropSpaces l.
Proof.
  induction l as [|c l [sp IH]]; [by exists []|]. cbn [Postprocessor.dropSpaces].
  destruct (Postprocessor.isSpace c); [|by exists []].
  exists (c :: sp). by rewrite <- app_comm_cons, <- IH.
Qed.

Lemma dropSpacesEnd_cons c l :
  Postprocessor.dropSpacesEnd (c :: l) =
  match Postprocessor.dropSpacesEnd l with
  | [] => if Postprocessor.isSpace c then [] else [c]
  | r => c :: r
  end.
Proof. reflexivity. Qed.

Lemma dropSpacesEnd_prefix l :
  ∃ sp, l = Postprocessor.dropSpacesEnd l ++ sp ∧
        (sp = [] ∨ ∃ w rest', sp = w :: rest' ∧ Postprocessor.isSpace w = true).
Proof.
  induction l as [|c l (sp & IH & Hsp)]; [exists []; by split; [|left]|].
  rewrite dropSpacesEnd_cons.
  destruct (Postprocessor.dropSpacesEnd l) as [|d r] eqn:Hr.
  - destruct (Postprocessor.isSpace c) eqn:Hc.
    + exists (c :: l). split; [done|]. right. by exists c, l.
    + exists sp. split; [|done]. cbn [app] in *. by rewrite <- IH.
  - exists sp. split; [|done]. rewrite IH at 1. done.
Qed.

Lemma scanned_dropSpaces l : scanned l → scanned (Postprocessor.dropSpaces l).
Proof.
  intros H. destruct (dropSpaces_suffix l) as [sp Hsp]. rewrite Hsp in H.
  by apply scanned_suffix in H.
Qed.

Lemma scanned_dropSpacesEnd l : scanned l → scanned (Postprocessor.dropSpacesEnd l).
Proof.
  intros H. destruct (dropSpacesEnd_prefix l) as (sp & Hl & Hsp). rewrite Hl in H.
  by apply scanned_app_inv in H.
Qed.

Lemma headRun_collapse l :
  headRun (Postprocessor.collapseItems false l) = headRun l.
Proof.
  induction l as [|c l IH]; [done|]. cbn [Postprocessor.collapseItems headRun].
  destruct (Postprocessor.isSpace c) eqn:Hc.
  - cbn [headRun]. by rewrite isSpace_space.
  - cbn [headRun]. by rewrite Hc, IH.
Qed.

Lemma scanned_collapse b l :
  scanned l → scanned (Postprocessor.collapseItems b l).
Proof.
  revert b. induction l as [|c l IH]; intros b H; [done|].
  pose proof (scanned_items _ H) as Hit. apply Forall_cons in Hit as [Hc _].
  pose proof (scanned_tail _ _ H) as Ht.
  cbn [Postprocessor.collapseItems]. destruct Hc as [Hc|(a & -> & Ha)].
  - rewrite Hc. destruct b; [by apply IH|].
    apply scanned_cons_space; [apply isSpace_space|by apply IH].
  - rewrite Ha. apply scanned_cons_byte; [|by apply IH].
    rewrite spaceAt_headRun, headRun_collapse, <- spaceAt_headRun.
    by apply scanned_byte_inv.
Qed.

(** [trimStart], [trimEnd] and [normalizeText] on the items of the text. *)
Lemma chars_trimStart s :
  Postprocessor.chars (Postprocessor.trimStart s)
  = Postprocessor.dropSpaces (Postprocessor.chars s).
Proof. apply scanned_dropSpaces, scanned_chars. Qed.

Lemma chars_trimEnd s :
  Postprocessor.chars (Postprocessor.trimEnd s)
  = Postprocessor.dropSpacesEnd (Postprocessor.chars s).
Proof. apply scanned_dropSpacesEnd, scanned_chars. Qed.

Lemma chars_collapseSpaces s :
  Postprocessor.chars (Postprocessor.collapseSpaces s)
  = Postprocessor.collapseItems false (Postprocessor.chars s).
Proof. apply scanned_collapse, scanned_chars. Qed.

Lemma chars_trim s :
  Postprocessor.chars (Postprocessor.trim s)
  = Postprocessor.dropSpacesEnd (Postprocessor.dropSpaces (Postprocessor.chars s)).
Proof. unfold Postprocessor.trim. by rewrite chars_trimEnd, chars_trimStart. Qed.

Lemma chars_normalizeText text :
  Postprocessor.chars (Postprocessor.normalizeText text)
  = Postprocessor.dropSpacesEnd
      (Postprocessor.dropSpaces
         (Postprocessor.collapseItems false (Postprocessor.chars text))).
Proof. unfold Postprocessor.normalizeText. by rewrite chars_trim, chars_collapseSpaces. Qed.

Lemma chars_inj s t : Postprocessor.chars s = Postprocessor.chars t → s = t.
Proof. intros H. by rewrite <- (unchars_chars s), H, unchars_chars. Qed.

(** Collapsed text: white space is the space character, never twice in a row. *)
Lemma collapseItems_filter b l :
  List.filter notSpace (Postprocessor.collapseItems b l) = List.filter notSpace l.
Proof.
  revert b. induction l as [|c l IH]; intros b; [done|].
  cbn [Postprocessor.collapseItems List.filter]. unfold notSpace at 2.
  destruct (Postprocessor.isSpace c) eqn:Hc; cbn [negb].
  - destruct b; [apply IH|]. cbn [List.filter]. unfold notSpace at 1.
    rewrite isSpace_space. apply IH.
  - cbn [List.filter]. unfold notSpace at 1. rewrite Hc. cbn [negb]. by rewrite IH.
Qed.

Lemma dropSpaces_filter l :
  List.filter notSpace (Postprocessor.dropSpaces l) = List.filter notSpace l.
Proof.
  induction l as [|c l IH]; [done|].
  cbn [Postprocessor.dropSpaces]. destruct (Postprocessor.isSpace c) eqn:Hc; [|done].
  cbn [List.filter]. unfold notSpace at 2. by rewrite Hc.
Qed.

Lemma dropSpacesEnd_filter l :
  List.filter notSpace (Postprocessor.dropSpacesEnd l) = List.filter notSpace l.
Proof.
  induction l as [|c l IH]; [done|].
  rewrite dropSpacesEnd_cons. cbn [List.filter]. rewrite <- IH.
  destruct (Postprocessor.dropSpacesEnd l) as [|d r] eqn:Hr.
  - unfold notSpace. destruct (Postprocessor.isSpace c) eqn:Hc; cbn [negb]; [done|].
    cbn [List.filter]. unfold notSpace. by rewrite Hc.
  - cbn [List.filter]. done.
Qed.

Lemma collapseItems_spaced b l :
  spacedFrom b (Postprocessor.collapseItems b l) = true.
Proof.
  revert b. induction l as [|c l IH]; intros b; [done|].
  cbn [Postprocessor.collapseItems].
  destruct (Postprocessor.isSpace c) eqn:Hc.
  - destruct b; [apply IH|]. cbn [spacedFrom]. rewrite isSpace_space.
    rewrite bool_decide_eq_true_2 by done. by rewrite IH.
  - cbn [spacedFrom]. rewrite Hc. apply IH.
Qed.

Lemma spacedFrom_weaken b l : spacedFrom b l = true → spacedFrom false l = true.
Proof.
  destruct l as [|c l]; [done|]. cbn [spacedFrom].
  destruct (Postprocessor.isSpace c); [|done].
  destruct b; [|done]. by rewrite andb_false_r.
Qed.

Lemma dropSpaces_spaced l :
  spacedFrom false l = true → spacedFrom true (Postprocessor.dropSpaces l) = true.
Proof.
  induction l as [|c l IH]; [done|].
  cbn [Postprocessor.dropSpaces spacedFrom].
  destruct (Postprocessor.isSpace c) eqn:Hc.
  - intros H. apply andb_true_iff in H as [_ H].
    destruct l as [|d l]; [done|].
    cbn [Postprocessor.dropSpaces]. cbn [spacedFrom] in H.
    destruct (Postprocessor.isSpace d) eqn:Hd.
    + by rewrite andb_false_r in H.
    + cbn [spacedFrom]. by rewrite Hd.
  - intros H. cbn [spacedFrom]. by rewrite Hc.
Qed.

Lemma dropSpacesEnd_normal b l :
  spacedFrom b l = true → normalFrom b (Postprocessor.dropSpacesEnd l) = true.
Proof.
  revert b. induction l as [|c l IH]; intros b; [done|].
  rewrite dropSpacesEnd_cons. cbn [spacedFrom].
  destruct (Postprocessor.isSpace c) eqn:Hc.
  - intros H. apply andb_true_iff in H as [H Hs]. apply andb_true_iff in H as [H1 H2].
    specialize (IH true Hs).
    destruct (Postprocessor.dropSpacesEnd l) as [|d r]; [done|].
    cbn [normalFrom]. rewrite Hc, H1, H2. cbn [andb Utils.nonEmpty]. exact IH.
  - intros Hs. specialize (IH false Hs).
    destruct (Postprocessor.dropSpacesEnd l) as [|d r].
    + cbn [normalFrom]. by rewrite Hc.
    + cbn [normalFrom]. by rewrite Hc.
Qed.

Lemma normalizeText_normalForm t : normalForm (Postprocessor.normalizeText t) = true.
Proof.
  unfold normalForm. rewrite chars_normalizeText.
  apply dropSpacesEnd_normal, dropSpaces_spaced, collapseItems_spaced.
Qed.

Lemma normalFrom_collapse b p l :
  (b = true → p = true) → normalFrom p l = true →
  Postprocessor.collapseItems b l = l.
Proof.
  revert b p. induction l as [|c l IH]; intros b p Hb; [done|].
  cbn [normalFrom Postprocessor.collapseItems].
  destruct (Postprocessor.isSpace c) eqn:Hc.
  - intros H. apply andb_true_iff in H as [H Hs]. apply andb_true_iff in H as [H H3].
    apply andb_true_iff in H as [H1 H2].
    apply bool_decide_eq_true in H1 as ->.
    destruct p; [done|]. destruct b; [by specialize (Hb eq_refl)|].
    f_equal. by apply (IH true true).
  - intros H. f_equal. by apply (IH false false).
Qed.

Lemma normalFrom_dropSpacesEnd p l :
  normalFrom p l = true → Postprocessor.dropSpacesEnd l = l.
Proof.
  revert p. induction l as [|c l IH]; intros p; [done|].
  rewrite dropSpacesEnd_cons. cbn [normalFrom].
  destruct (Postprocessor.isSpace c) eqn:Hc.
  - intros H. apply andb_true_iff in H as [H Hs]. apply andb_true_iff in H as [H H3].
    rewrite (IH _ Hs). destruct l; [done|done].
  - intros H. rewrite (IH _ H). by destruct l.
Qed.

Lemma normalFrom_dropSpaces l :
  normalFrom true l = true → Postprocessor.dropSpaces l = l.
Proof.
  destruct l as [|c l]; [done|].
  cbn [normalFrom Postprocessor.dropSpaces].
  destruct (Postprocessor.isSpace c); [|done].
  by rewrite andb_false_r.
Qed.

Lemma normalForm_fixed s :
  normalForm s = true → Postprocessor.normalizeText s = s.
Proof.
  unfold normalForm. intros H. apply chars_inj. rewrite chars_normalizeText.
  rewrite (normalFrom_collapse false true _); [|done|exact H].
  rewrite (normalFrom_dropSpaces _ H). exact (normalFrom_dropSpacesEnd _ _ H).
Qed.

(** X1.  [normalizeText] brings a text to its normal form: the only white
    space left is the single space character, never at either end and never
    twice in a row; white space is every character of [\s], inside and
    outside ASCII.  The texts it leaves unchanged are exactly the texts in
    normal form, so normalizing twice is normalizing once; and what is not
    white space comes out unchanged and in order. *)
Theorem normalizeText_normal_form (text : string) :
  normalForm (Postprocessor.normalizeText text) = true ∧
  (Postprocessor.normalizeText text = text ↔ normalForm text = true) ∧
  Postprocessor.normalizeText (Postprocessor.normalizeText text)
    = Postprocessor.normalizeText text ∧
  unspaced (Postprocessor.normalizeText text) = unspaced text.
Proof.
  split; [apply normalizeText_normalForm|]. split.
  { split; [|apply normalForm_fixed].
    intros H. rewrite <- H. apply normalizeText_normalForm. }
  split; [apply normalForm_fixed, normalizeText_normalForm|].
  unfold unspaced. rewrite chars_normalizeText.
  by rewrite dropSpacesEnd_filter, dropSpaces_filter, collapseItems_filter.
Qed.

(** ** Class tokens *)

Lemma allChars_app p s t : allChars p (s +:+ t) = allChars p s && allChars p t.
Proof.
  induction s as [|a s IH]; [by rewrite append_nil_l|].
  rewrite append_cons. cbn [allChars]. by rewrite IH, andb_assoc.
Qed.

(** The tokens that a split gives have no white space: [run] holds the items
    of the token under way. *)
Lemma splitItems_spaceFree run b l :
  scanned (run ++ l) → forallb notSpace run = true → (b = true → run = []) →
  Forall (λ c, spaceFree c = true)
    (Postprocessor.splitItems (Postprocessor.unchars run) b l).
Proof.
  revert run b. induction l as [|c l IH]; intros run b Hsc Hrun Hb.
  { rewrite app_nil_r in Hsc. constructor; [|constructor].
    unfold spaceFree. by rewrite Hsc. }
  cbn [Postprocessor.splitItems].
  destruct (Postprocessor.isSpace c) eqn:Hc.
  - assert (scanned l) as Hl.
    { apply scanned_suffix in Hsc. by apply scanned_tail in Hsc. }
    destruct b.
    + rewrite (Hb eq_refl). by apply (IH [] true).
    + constructor.
      * apply scanned_app_inv in Hsc; [|right; by eexists _, _].
        unfold spaceFree. by rewrite Hsc.
      * by apply (IH [] true).
  - replace (Postprocessor.unchars run +:+ c)
      with (Postprocessor.unchars (run ++ [c]))
      by (by rewrite unchars_app, unchars_cons, append_nil_r).
    apply IH.
    + by rewrite <- app_assoc.
    + rewrite forallb_app, Hrun. cbn. unfold notSpace. by rewrite Hc.
    + done.
Qed.

Lemma filter_isNonEmpty_token l :
  Forall (λ c, spaceFree c = true) l →
  Forall classToken (List.filter Renderer.isNonEmpty l).
Proof.
  induction 1 as [|x l Hx _ IH]; [constructor|].
  cbn [List.filter]. unfold Renderer.isNonEmpty at 1.
  destruct (decide (x = "")); [done|]. by constructor.
Qed.

Lemma splitWs_spaceFree s :
  Forall (λ c, spaceFree c = true) (Postprocessor.splitWs s).
Proof.
  apply (splitItems_spaceFree [] false); [apply scanned_chars|done|done].
Qed.

Lemma classTokens_token cn : Forall classToken (classTokens cn).
Proof. apply filter_isNonEmpty_token, splitWs_spaceFree. Qed.

Lemma splitItems_run cur b run rest :
  forallb notSpace run = true →
  Postprocessor.splitItems cur b (run ++ rest) =
  Postprocessor.splitItems (cur +:+ Postprocessor.unchars run)
    (match run with [] => b | _ => false end) rest.
Proof.
  revert cur b. induction run as [|c run IH]; intros cur b.
  { intros _. by rewrite append_nil_r. }
  cbn [forallb]. intros H. apply andb_true_iff in H as [Hc Hrun].
  rewrite <- app_comm_cons. cbn [Postprocessor.splitItems].
  unfold notSpace in Hc. apply negb_true_iff in Hc. rewrite Hc.
  rewrite (IH _ _ Hrun). rewrite unchars_cons, append_assoc.
  by destruct run.
Qed.

Lemma chars_token_nonempty x :
  classToken x → Postprocessor.chars x ≠ [].
Proof.
  intros [Hx _] H. apply Hx. by rewrite <- (unchars_chars x), H.
Qed.

Lemma splitWs_join b M :
  M ≠ [] → Forall classToken M →
  Postprocessor.splitItems "" b (Postprocessor.chars (join " " M)) = M.
Proof.
  intros Hne HM. revert b. induction HM as [|x M Hx HM IH]; intros b; [done|].
  pose proof (chars_token_nonempty x Hx) as Hcx. destruct Hx as [Hx Hxs].
  destruct M as [|y M].
  - cbn [join]. rewrite <- (app_nil_r (Postprocessor.chars x)).
    rewrite (splitItems_run _ _ _ _ Hxs), append_nil_l, unchars_chars.
    by destruct (Postprocessor.chars x).
  - change (join " " (x :: y :: M)) with (x +:+ " " +:+ join " " (y :: M)).
    rewrite chars_app_space by apply isSpace_space.
    rewrite (splitItems_run _ _ _ _ Hxs), append_nil_l, unchars_chars.
    destruct (Postprocessor.chars x) as [|c cs]; [done|].
    cbn [Postprocessor.splitItems]. rewrite isSpace_space. f_equal. by apply IH.
Qed.

Lemma filter_isNonEmpty_id M :
  Forall classToken M → List.filter Renderer.isNonEmpty M = M.
Proof.
  induction 1 as [|x M [Hx _] _ IH]; [done|].
  cbn [List.filter]. unfold Renderer.isNonEmpty at 1.
  destruct (decide (x = "")); [done|]. by rewrite IH.
Qed.

Lemma classTokens_join M :
  Forall classToken M → classTokens (Some (join " " M)) = M.
Proof.
  intros HM. unfold classTokens. cbn [default from_option id].
  destruct M as [|x M]; [done|].
  unfold Postprocessor.splitWs. rewrite splitWs_join; [|done|done].
  by apply filter_isNonEmpty_id.
Qed.

Lemma join_token_nonempty M :
  M ≠ [] → Forall classToken M → join " " M ≠ "".
Proof.
  intros Hne HM. destruct HM as [|x M [Hx _] _]; [done|].
  destruct x as [|a x]; [done|]. destruct M; cbn [join]; [done|].
  by rewrite append_cons.
Qed.

Lemma dropSpaces_spaceFree l :
  forallb notSpace l = true → Postprocessor.dropSpaces l = l.
Proof.
  destruct l as [|c l]; [done|]. cbn [forallb Postprocessor.dropSpaces].
  intros H. apply andb_true_iff in H as [Hc _].
  unfold notSpace in Hc. apply negb_true_iff in Hc. by rewrite Hc.
Qed.

Lemma dropSpacesEnd_spaceFree l :
  forallb notSpace l = true → Postprocessor.dropSpacesEnd l = l.
Proof.
  induction l as [|c l IH]; [done|]. rewrite dropSpacesEnd_cons. cbn [forallb].
  intros H. apply andb_true_iff in H as [Hc Hl]. rewrite (IH Hl).
  unfold notSpace in Hc. apply negb_true_iff in Hc. rewrite Hc. by destruct l.
Qed.

Lemma trim_token c : spaceFree c = true → Postprocessor.trim c = c.
Proof.
  unfold spaceFree. intros H. apply chars_inj. rewrite chars_trim.
  rewrite (dropSpaces_spaceFree _ H). by apply dropSpacesEnd_spaceFree.
Qed.

Lemma map_trim_tokens l :
  Forall (λ c, spaceFree c = true) l → List.map Postprocessor.trim l = l.
Proof.
  induction 1 as [|x l Hx _ IH]; [done|]. cbn [List.map].
  by rewrite (trim_token x Hx), IH.
Qed.

Lemma filter_andb {A} (f g : A → bool) (l : list A) :
  List.filter (λ x, f x && g x) l = List.filter g (List.filter f l).
Proof.
  induction l as [|x l IH]; [done|]. cbn [List.filter].
  destruct (f x); cbn [andb List.filter]; [by rewrite IH|exact IH].
Qed.

Lemma getClassList_tokens raw css :
  Postprocessor.getClassList raw css =
  List.filter (λ c, bool_decide (c ∈ css)) (classTokens raw).
Proof.
  unfold Postprocessor.getClassList, classTokens.
  destruct raw as [r|]; [|done]. cbn [nonEmptyStr default from_option id].
  destruct (decide (r = "")) as [->|Hr]; [done|].
  rewrite map_trim_tokens; [|by apply splitWs_spaceFree].
  apply filter_andb.
Qed.

Lemma filter_Forall_sub {A} (P : A → Prop) (f : A → bool) (l : list A) :
  Forall P l → Forall P (List.filter f l).
Proof.
  induction 1 as [|x l Hx _ IH]; [constructor|]. cbn [List.filter].
  destruct (f x); [by constructor|done].
Qed.

Lemma getClassList_classToken raw css :
  Forall classToken (Postprocessor.getClassList raw css).
Proof.
  rewrite getClassList_tokens. apply filter_Forall_sub, classTokens_token.
Qed.

(** X2.  [getClassList] returns the white-space separated tokens of the class
    attribute that the stylesheet defines, in their order (an absent or empty
    attribute gives none); every class it returns is a non-empty token without
    white space and a class of the stylesheet. *)
Theorem getClassList_stylesheet_tokens (raw : option string) (cssClasses : gset string) :
  Postprocessor.getClassList raw cssClasses
    = List.filter (λ c, bool_decide (c ∈ cssClasses)) (classTokens raw) ∧
  Forall (λ c, classToken c ∧ c ∈ cssClasses)
    (Postprocessor.getClassList raw cssClasses).
Proof.
  split; [apply getClassList_tokens|].
  pose proof (getClassList_classToken raw cssClasses) as Htok.
  rewrite getClassList_tokens in *.
  apply Forall_forall. intros c Hc. split.
  - rewrite Forall_forall in Htok. by apply Htok.
  - apply list_elem_of_In, List.filter_In in Hc as [_ Hc].
    by apply bool_decide_eq_true in Hc.
Qed.

(** ** Merging *)

Lemma elem_of_setAdd l x c :
  c ∈ Postprocessor.setAdd l x ↔ c ∈ l ∨ c = x.
Proof.
  unfold Postprocessor.setAdd. case_bool_decide as Hx.
  - split; [by left|]. intros [?| ->]; done.
  - rewrite elem_of_app, list_elem_of_singleton. done.
Qed.

Lemma elem_of_foldl_setAdd xs l c :
  c ∈ foldl Postprocessor.setAdd l xs ↔ c ∈ l ∨ c ∈ xs.
Proof.
  revert l. induction xs as [|x xs IH]; intros l; cbn [foldl].
  - split; [by left|]. intros [?|H]; [done|by inversion H].
  - rewrite IH, elem_of_setAdd, elem_of_cons. tauto.
Qed.

Lemma foldl_setAdd_absorb xs l :
  (∀ c, c ∈ xs → c ∈ l) → foldl Postprocessor.setAdd l xs = l.
Proof.
  revert l. induction xs as [|x xs IH]; intros l Hsub; [done|].
  cbn [foldl]. unfold Postprocessor.setAdd at 2.
  rewrite bool_decide_eq_true_2; [|apply Hsub; by left].
  apply IH. intros c Hc. apply Hsub. by right.
Qed.

Lemma foldl_setAdd_fresh xs l :
  NoDup (l ++ xs) → foldl Postprocessor.setAdd l xs = l ++ xs.
Proof.
  revert l. induction xs as [|x xs IH]; intros l Hnd; [by rewrite app_nil_r|].
  cbn [foldl]. unfold Postprocessor.setAdd at 2.
  apply NoDup_app in Hnd as (Hl & Hdisj & Hxs).
  rewrite bool_decide_eq_false_2; [|intros Hx; apply (Hdisj x Hx); by left].
  rewrite IH; [by rewrite <- app_assoc|].
  rewrite <- app_assoc. apply NoDup_app. split; [done|]. split; [|done].
  exact Hdisj.
Qed.


Lemma mergeClassName_merged existing additions :
  additions ≠ [] → Forall classToken additions →
  Postprocessor.mergeClassName existing additions
    = Some (join " " (mergedClasses existing additions)) ∧
  mergedClasses existing additions ≠ [].
Proof.
  intros Hne Hadd.
  assert (mergedClasses existing additions ≠ []) as Hm.
  { destruct additions as [|a l]; [done|]. intros Hnil.
    assert (a ∈ mergedClasses existing (a :: l)) as Ha.
    { apply elem_of_foldl_setAdd. right. by left. }
    rewrite Hnil in Ha. by inversion Ha. }
  split; [|done].
  unfold Postprocessor.mergeClassName. destruct additions as [|a l]; [done|].
  assert (match nonEmptyStr existing with
          | Some e => foldl Postprocessor.setAdd []
                        (List.filter Renderer.isNonEmpty (Postprocessor.splitWs e))
          | None => []
          end = foldl Postprocessor.setAdd [] (classTokens existing)) as ->.
  { unfold classTokens. destruct existing as [e|]; [|done]. cbn [nonEmptyStr default from_option id].
    by destruct (decide (e = "")) as [->|]. }
  fold (mergedClasses existing (a :: l)).
  by destruct (mergedClasses existing (a :: l)).
Qed.

Lemma mergedClasses_token existing additions :
  Forall classToken additions → Forall classToken (mergedClasses existing additions).
Proof.
  intros Hadd. apply Forall_forall. intros c Hc.
  apply elem_of_foldl_setAdd in Hc as [Hc|Hc].
  - apply elem_of_foldl_setAdd in Hc as [Hc|Hc]; [by inversion Hc|].
    pose proof (classTokens_token existing) as H. rewrite Forall_forall in H. by apply H.
  - rewrite Forall_forall in Hadd. by apply Hadd.
Qed.

Lemma mergedClasses_NoDup existing additions : NoDup (mergedClasses existing additions).
Proof. apply foldl_setAdd_NoDup, foldl_setAdd_NoDup. constructor. Qed.

Lemma classTokens_merge existing additions :
  additions ≠ [] → Forall classToken additions →
  classTokens (Postprocessor.mergeClassName existing additions)
    = mergedClasses existing additions.
Proof.
  intros Hne Hadd.
  destruct (mergeClassName_merged existing additions Hne Hadd) as [-> _].
  apply classTokens_join. by apply mergedClasses_token.
Qed.

Lemma mergeClassName_again existing additions :
  Forall classToken additions →
  Postprocessor.mergeClassName (Postprocessor.mergeClassName existing additions)
    additions
  = Postprocessor.mergeClassName existing additions.
Proof.
  intros Hadd. destruct (decide (additions = [])) as [->|Hne]; [done|].
  destruct (mergeClassName_merged (Postprocessor.mergeClassName existing additions)
              additions Hne Hadd) as [-> _].
  destruct (mergeClassName_merged existing additions Hne Hadd) as [Heq _].
  rewrite Heq at 2. do 2 f_equal.
  unfold mergedClasses at 1. rewrite classTokens_merge by done.
  rewrite (foldl_setAdd_fresh _ []); [|by apply mergedClasses_NoDup].
  cbn [app]. apply foldl_setAdd_absorb.
  intros c Hc. apply elem_of_foldl_setAdd. by right.
Qed.

Lemma classTokens_mergeClassName existing additions c :
  Forall classToken additions →
  c ∈ classTokens (Postprocessor.mergeClassName existing additions)
  ↔ c ∈ classTokens existing ∨ c ∈ additions.
Proof.
  intros Hadd. destruct (decide (additions = [])) as [->|Hne].
  { cbn. split; [by left|]. intros [?|H]; [done|by inversion H]. }
  rewrite classTokens_merge by done. unfold mergedClasses.
  rewrite !elem_of_foldl_setAdd. split; [|tauto].
  intros [[H|H]|H]; [by inversion H|by left|by right].
Qed.

(** X3.  [mergeClassName] is a set union on class tokens: for additions that
    are class tokens, the tokens of the result are exactly the tokens of the
    existing class name together with the additions; when something is added
    no token occurs twice; and merging the same additions again changes
    nothing. *)
Theorem mergeClassName_union (existing : option string) (additions : list string) :
  Forall classToken additions →
  (∀ c, c ∈ classTokens (Postprocessor.mergeClassName existing additions)
        ↔ c ∈ classTokens existing ∨ c ∈ additions) ∧
  (additions ≠ [] →
   NoDup (classTokens (Postprocessor.mergeClassName existing additions))) ∧
  Postprocessor.mergeClassName (Postprocessor.mergeClassName existing additions)
    additions
  = Postprocessor.mergeClassName existing additions.
Proof.
  intros Hadd. split; [|split]; [| |by apply mergeClassName_again].
  - intros c. by apply classTokens_mergeClassName.
  - intros Hne. rewrite classTokens_merge by done. apply mergedClasses_NoDup.
Qed.

Lemma mergeClassName_union_witness :
  Forall classToken ["card"; "lead"] ∧
  NoDup (classTokens
           (Postprocessor.mergeClassName (Some "lead  hero") ["card"; "lead"])).
Proof.
  assert (Forall classToken ["card"; "lead"]) as H.
  { repeat constructor; done. }
  split; [exact H|].
  by apply (mergeClassName_union (Some "lead  hero") ["card"; "lead"] H).
Defined.

(** ** Class names of the stylesheet *)


Lemma validClassName_snoc name c :
  validClassName name = true → Postprocessor.isNameChar c = true →
  validClassName (name +:+ String c "") = true.
Proof.
  destruct name as [|a name]; [done|]. rewrite append_cons. cbn [validClassName].
  intros H Hc. apply andb_true_iff in H as [Ha Hn].
  rewrite Ha, allChars_app, Hn. cbn [allChars]. by rewrite Hc.
Qed.

Lemma scanClasses_valid css st acc name :
  validScan st → (∀ n, n ∈ acc → validClassName n = true) →
  name ∈ Postprocessor.scanClasses st css acc → validClassName name = true.
Proof.
  revert st acc. induction css as [|c css IH]; intros st acc Hst Hacc.
  - cbn [Postprocessor.scanClasses]. destruct st as [| |n]; try apply Hacc.
    intros [->%elem_of_singleton|H]%elem_of_union; [exact Hst|by apply Hacc].
  - cbn [Postprocessor.scanClasses]. destruct st as [| |n].
    + apply IH; [by destruct (decide _)|done].
    + destruct (Postprocessor.isNameStart c) eqn:Hc.
      * apply IH; [|done]. cbn [validScan validClassName allChars]. by rewrite Hc.
      * apply IH; [by destruct (decide _)|done].
    + destruct (Postprocessor.isNameChar c) eqn:Hc.
      * apply IH; [|done]. by apply validClassName_snoc.
      * apply IH; [by destruct (decide _)|].
        intros n' [->%elem_of_singleton|H]%elem_of_union; [exact Hst|by apply Hacc].
Qed.

Lemma scanClasses_mono css st acc name :
  name ∈ acc → name ∈ Postprocessor.scanClasses st css acc.
Proof.
  revert st acc. induction css as [|c css IH]; intros st acc Hacc.
  - cbn [Postprocessor.scanClasses]. destruct st; [done|done|].
    apply elem_of_union. by right.
  - cbn [Postprocessor.scanClasses]. destruct st as [| |n].
    + by apply IH.
    + destruct (Postprocessor.isNameStart c); by apply IH.
    + destruct (Postprocessor.isNameChar c); apply IH; [done|].
      apply elem_of_union. by right.
Qed.

(** After any prefix, a dot puts the scan just after a dot. *)
Lemma scanClasses_dot pre rest st acc :
  ∃ acc', acc ⊆ acc' ∧
    Postprocessor.scanClasses st (pre +:+ String "."%char rest) acc
    = Postprocessor.scanClasses Postprocessor.AfterDot rest acc'.
Proof.
  revert st acc. induction pre as [|c pre IH]; intros st acc.
  - rewrite append_nil_l. cbn [Postprocessor.scanClasses].
    destruct st as [| |n].
    + by exists acc.
    + by exists acc.
    + exists ({[ n ]} ∪ acc). split; [set_solver|done].
  - rewrite append_cons. cbn [Postprocessor.scanClasses].
    destruct st as [| |n].
    + apply IH.
    + destruct (Postprocessor.isNameStart c); apply IH.
    + destruct (Postprocessor.isNameChar c); [apply IH|].
      destruct (IH (if decide (c = "."%char) then Postprocessor.AfterDot
                    else Postprocessor.Outside) ({[ n ]} ∪ acc)) as (acc' & Hsub & Heq).
      exists acc'. split; [|exact Heq]. intros x Hx. apply Hsub, elem_of_union. by right.
Qed.

Lemma scanClasses_name cur tail post acc :
  allChars Postprocessor.isNameChar tail = true → endsName post = true →
  (cur +:+ tail) ∈
    Postprocessor.scanClasses (Postprocessor.InName cur) (tail +:+ post) acc.
Proof.
  revert cur. induction tail as [|c tail IH]; intros cur Htail Hpost.
  - rewrite append_nil_l, append_nil_r. destruct post as [|d post].
    + cbn [Postprocessor.scanClasses]. set_solver.
    + cbn [Postprocessor.scanClasses]. cbn [endsName] in Hpost.
      apply negb_true_iff in Hpost. rewrite Hpost.
      apply scanClasses_mono. set_solver.
  - cbn [allChars] in Htail. apply andb_true_iff in Htail as [Hc Htail].
    rewrite append_cons. cbn [Postprocessor.scanClasses]. rewrite Hc.
    specialize (IH (cur +:+ String c "") Htail Hpost).
    by rewrite append_assoc, append_cons, append_nil_l in IH.
Qed.

(** X4.  [extractCssClasses] is sound and complete for class selectors: every
    name it returns starts with a letter or an underscore and goes on with
    letters, digits, underscores and dashes; and wherever the stylesheet has a
    dot followed by such a name and then the end of the text or a character
    that cannot continue the name, that name is returned. *)
Theorem extractCssClasses_names (css : string) :
  (∀ name, name ∈ Postprocessor.extractCssClasses css → validClassName name = true) ∧
  (∀ pre name post,
     css = pre +:+ "." +:+ name +:+ post →
     validClassName name = true → endsName post = true →
     name ∈ Postprocessor.extractCssClasses css).
Proof.
  split.
  - intros name. unfold Postprocessor.extractCssClasses.
    apply scanClasses_valid; [done|]. intros n Hn. by apply elem_of_empty in Hn.
  - intros pre name post -> Hname Hpost. unfold Postprocessor.extractCssClasses.
    rewrite append_cons, append_nil_l.
    destruct (scanClasses_dot pre (name +:+ post) Postprocessor.Outside ∅)
      as (acc' & _ & ->).
    destruct name as [|c tail]; [done|]. cbn [validClassName] in Hname.
    apply andb_true_iff in Hname as [Hc Htail].
    rewrite append_cons. cbn [Postprocessor.scanClasses]. rewrite Hc.
    pose proof (scanClasses_name (String c "") tail post acc' Htail Hpost) as H.
    by rewrite append_cons, append_nil_l in H.
Qed.

Lemma extractCssClasses_names_witness :
  "foo" ∈ Postprocessor.extractCssClasses "a.foo{color:red}".
Proof.
  apply (proj2 (extractCssClasses_names "a.foo{color:red}") "a" "foo" "{color:red}");
    reflexivity.
Defined.

(** ** Reconciliation: the classes of the index *)

Lemma addLeaf_indexClasses css P b el :
  (∀ raw, Forall P (Postprocessor.getClassList raw css)) →
  indexClasses P (Postprocessor.built b) →
  indexClasses P (Postprocessor.built (Postprocessor.addLeaf css b el)).
Proof.
  intros HP [Hleaf Hcont]. unfold Postprocessor.addLeaf.
  destruct (Postprocessor.leafTypeAndKey el) as [[t k]|]; [|done].
  split; [|exact Hcont]. cbn [Postprocessor.built Postprocessor.leafByKey
                               Postprocessor.leafByType].
  intros x [Hx|Hx]; apply inBuckets_pushTo in Hx as [Hx| ->];
    try apply HP; apply Hleaf; tauto.
Qed.

Lemma addContainer_indexClasses css P b el :
  (∀ raw, Forall P (Postprocessor.getClassList raw css)) →
  indexClasses P (Postprocessor.built b) →
  indexClasses P (Postprocessor.built (Postprocessor.addContainer css b el)).
Proof.
  intros HP [Hleaf Hcont]. unfold Postprocessor.addContainer.
  destruct (Postprocessor.getClassList _ css) as [|c cs] eqn:Hcl; [done|].
  destruct (Postprocessor.collectHtmlLeafKeys el) as [|k ks]; [done|].
  split; [exact Hleaf|]. cbn [Postprocessor.built Postprocessor.containers].
  apply Forall_app. split; [exact Hcont|]. constructor; [|constructor].
  cbn [Postprocessor.container_classes]. rewrite <- Hcl. apply HP.
Qed.

Lemma foldl_indexClasses P
    (step : Postprocessor.Build → DomNode → Postprocessor.Build)
    (els : list DomNode) :
  (∀ b el, indexClasses P (Postprocessor.built b) →
           indexClasses P (Postprocessor.built (step b el))) →
  ∀ b, indexClasses P (Postprocessor.built b) →
       indexClasses P (Postprocessor.built (foldl step b els)).
Proof.
  intros Hstep. induction els as [|el els IH]; intros b Hb; simpl; [done|].
  apply IH. by apply Hstep.
Qed.

Lemma buildIndex_indexClasses doc css P :
  (∀ raw, Forall P (Postprocessor.getClassList raw css)) →
  indexClasses P (Postprocessor.buildIndex doc css).
Proof.
  intros HP. unfold Postprocessor.buildIndex.
  apply foldl_indexClasses; [intros; by apply addContainer_indexClasses|].
  apply foldl_indexClasses; [intros; by apply addLeaf_indexClasses|].
  split; [|constructor]. cbn.
  intros x [(k & l & Hl & _)|(k & l & Hl & _)]; by rewrite lookup_empty in Hl.
Qed.

Lemma indexClasses_impl (P Q : string → Prop) idx :
  (∀ c, P c → Q c) → indexClasses P idx → indexClasses Q idx.
Proof.
  intros HPQ [Hleaf Hcont]. split.
  - intros x Hx. eapply Forall_impl; [by apply Hleaf|exact HPQ].
  - eapply Forall_impl; [exact Hcont|]. intros c Hc.
    eapply Forall_impl; [exact Hc|exact HPQ].
Qed.

Lemma findLeafMatch_classes P idx st k t m :
  indexClasses P idx → Postprocessor.findLeafMatch idx st k t = Some m →
  Forall P (Postprocessor.classes m).
Proof.
  intros [Hleaf _] Hm. apply findLeafMatch_found in Hm as [_ Hin]. by apply Hleaf.
Qed.

Lemma findContainerMatch_classes P idx st keys m :
  indexClasses P idx → Postprocessor.findContainerMatch idx st keys = Some m →
  Forall P (Postprocessor.container_classes m).
Proof.
  intros [_ Hcont] Hm. apply findContainerMatch_found in Hm as [_ Hin].
  rewrite Forall_forall in Hcont. by apply Hcont.
Qed.

(** ** Reconciliation: a second pass *)

Lemma setChildren_children n : Postprocessor.setChildren n (children n) = n.
Proof. by destruct n. Qed.

Lemma applyLeafClasses_again idx n st cs :
  indexClasses classToken idx →
  Postprocessor.applyLeafClasses idx
    (Postprocessor.setChildren (Postprocessor.applyLeafClasses idx n st).1 cs) st
  = (Postprocessor.setChildren (Postprocessor.applyLeafClasses idx n st).1 cs,
     (Postprocessor.applyLeafClasses idx n st).2).
Proof.
  intros Hidx. unfold Postprocessor.applyLeafClasses.
  assert (∀ cn, Postprocessor.irLeafKey
                  (Postprocessor.setChildren (Postprocessor.setClassName n cn) cs)
                = Postprocessor.irLeafKey n) as Hkey.
  { intros cn. destruct n as [t c a ch m s cn0]. by destruct t. }
  assert (Postprocessor.setClassName n (className n) = n) as Hn by by destruct n.
  destruct (Postprocessor.irLeafKey n) as [[t [k|]]|] eqn:Hk; cbn [fst snd].
  - destruct (Postprocessor.findLeafMatch idx st k t) as [m|] eqn:Hm.
    + pose proof (findLeafMatch_classes _ _ _ _ _ _ Hidx Hm) as Hcls.
      destruct (Postprocessor.classes m) as [|c cls] eqn:Hc; cbn [fst snd].
      * rewrite <- Hn at 1. rewrite Hkey, Hm, Hc. done.
      * unfold Postprocessor.addClassesToNode at 1 2.
        rewrite Hkey, Hm, Hc. f_equal.
        unfold Postprocessor.addClassesToNode, Postprocessor.setChildren,
          Postprocessor.setClassName.
        cbn [type content attributes children motionIntent style className].
        by rewrite mergeClassName_again.
    + cbn [fst snd]. rewrite <- Hn at 1. by rewrite Hkey, Hm.
  - rewrite <- Hn at 1. by rewrite Hkey.
  - rewrite <- Hn at 1. by rewrite Hkey.
Qed.

Lemma applyContainerClasses_node_again idx keys n st cs :
  indexClasses classToken idx →
  Postprocessor.applyContainerClasses idx keys Postprocessor.addClassesToNode
    (Postprocessor.setChildren
       (Postprocessor.applyContainerClasses idx keys Postprocessor.addClassesToNode
          n st).1 cs) st
  = (Postprocessor.setChildren
       (Postprocessor.applyContainerClasses idx keys Postprocessor.addClassesToNode
          n st).1 cs,
     (Postprocessor.applyContainerClasses idx keys Postprocessor.addClassesToNode
        n st).2).
Proof.
  intros Hidx. unfold Postprocessor.applyContainerClasses.
  destruct keys as [|k keys]; [done|].
  destruct (Postprocessor.findContainerMatch idx st (k :: keys)) as [m|] eqn:Hm;
    [|done].
  pose proof (findContainerMatch_classes _ _ _ _ _ Hidx Hm) as Hcls.
  destruct (Postprocessor.container_classes m) as [|c cls] eqn:Hc; [done|].
  cbn [fst snd]. f_equal.
  unfold Postprocessor.addClassesToNode, Postprocessor.setChildren,
    Postprocessor.setClassName.
  cbn [type content attributes children motionIntent style className].
  by rewrite mergeClassName_again.
Qed.

Lemma applyContainerClasses_section_again idx keys s st cs :
  indexClasses classToken idx →
  Postprocessor.applyContainerClasses idx keys Postprocessor.addClassesToSection
    (Postprocessor.setSectionChildren
       (Postprocessor.applyContainerClasses idx keys
          Postprocessor.addClassesToSection s st).1 cs) st
  = (Postprocessor.setSectionChildren
       (Postprocessor.applyContainerClasses idx keys
          Postprocessor.addClassesToSection s st).1 cs,
     (Postprocessor.applyContainerClasses idx keys
        Postprocessor.addClassesToSection s st).2).
Proof.
  intros Hidx. unfold Postprocessor.applyContainerClasses.
  destruct keys as [|k keys]; [done|].
  destruct (Postprocessor.findContainerMatch idx st (k :: keys)) as [m|] eqn:Hm;
    [|done].
  pose proof (findContainerMatch_classes _ _ _ _ _ Hidx Hm) as Hcls.
  destruct (Postprocessor.container_classes m) as [|c cls] eqn:Hc; [done|].
  cbn [fst snd]. f_equal.
  unfold Postprocessor.addClassesToSection, Postprocessor.setSectionChildren,
    Postprocessor.setSectionClassName.
  cbn [sectionIntent layout section_children section_motionIntent background
       section_style section_className].
  by rewrite mergeClassName_again.
Qed.

Lemma pushedKeys_erase n : Postprocessor.pushedKeys (eraseNode n) = Postprocessor.pushedKeys n.
Proof.
  induction n as [t c a ch m s cn IH] using IRNode_tree_ind.
  cbn [eraseNode Postprocessor.pushedKeys].
  assert (∀ ch' cn', Postprocessor.irLeafKey (mkIRNode t c a ch' m s cn')
                     = Postprocessor.irLeafKey (mkIRNode t c a ch m s cn)) as ->.
  { intros ch' cn'. by destruct t. }
  f_equal. destruct ch as [cs|]; [|done]. f_equal.
  induction IH as [|x cs Hx _ IHcs]; [done|]. cbn [List.map]. by rewrite Hx, IHcs.
Qed.

Lemma collectIrLeafKeys_erase cs cs' :
  List.map eraseNode cs' = List.map eraseNode cs →
  Postprocessor.collectIrLeafKeys (Some cs') = Postprocessor.collectIrLeafKeys (Some cs).
Proof.
  intros H. unfold Postprocessor.collectIrLeafKeys. do 2 f_equal.
  assert (∀ l, List.map Postprocessor.pushedKeys l
               = List.map Postprocessor.pushedKeys (List.map eraseNode l)) as Hl.
  { induction l as [|x l IHl]; [done|]. cbn [List.map]. by rewrite pushedKeys_erase, IHl. }
  by rewrite (Hl cs'), (Hl cs), H.
Qed.

Lemma forEach_again {T} (walk : T → Postprocessor.MatchState → T * Postprocessor.MatchState)
    (l : list T) :
  Forall (λ x, ∀ st, walk (walk x st).1 st = walk x st) l →
  ∀ st, Postprocessor.forEach walk (Postprocessor.forEach walk l st).1 st
        = Postprocessor.forEach walk l st.
Proof.
  induction 1 as [|x l Hx _ IH]; intros st; [done|].
  cbn [Postprocessor.forEach].
  specialize (Hx st). destruct (walk x st) as [x' st1] eqn:Hw.
  specialize (IH st1). destruct (Postprocessor.forEach walk l st1) as [l' st2] eqn:Hl.
  cbn [fst] in *. cbn [Postprocessor.forEach]. by rewrite Hx, IH.
Qed.

Lemma forEach_walkNode_erase idx cs st :
  List.map eraseNode (Postprocessor.forEach (Postprocessor.walkNode idx) cs st).1
  = List.map eraseNode cs.
Proof.
  apply forEach_erase. apply Forall_forall. intros x _ st0. apply walkNode_erase.
Qed.

Lemma walkNode_again idx n :
  indexClasses classToken idx →
  ∀ st, Postprocessor.walkNode idx (Postprocessor.walkNode idx n st).1 st
        = Postprocessor.walkNode idx n st.
Proof.
  intros Hidx. induction n as [t c a ch m s cn IH] using IRNode_tree_ind. intros st.
  set (n := mkIRNode t c a ch m s cn).
  rewrite (walkNode_unfold idx n st).
  pose proof (applyLeafClasses_again idx n st) as Hleaf.
  destruct (applyLeafClasses_className idx n st) as [cn1 Hcn1].
  destruct (Postprocessor.applyLeafClasses idx n st) as [n1 st1] eqn:H1.
  cbn [fst snd] in Hleaf, Hcn1.
  assert (t = group ∨
          ∀ (A : Type) (x y : A), match t with group => x | _ => y end = y)
    as [-> | Hsel] by (destruct t; auto).
  - (* a group: no leaf step, then the container step *)
    assert (n1 = n ∧ st1 = st) as [-> ->].
    { unfold Postprocessor.applyLeafClasses in H1. cbn in H1. by injection H1. }
    cbn [type n].
    pose proof (applyContainerClasses_node_again idx
                  (Postprocessor.collectIrLeafKeys (children n)) n st) as Hcont.
    destruct (applyContainerClasses_node_className idx
                (Postprocessor.collectIrLeafKeys (children n)) n st) as [cn2 Hcn2].
    destruct (Postprocessor.applyContainerClasses idx _ _ n st) as [n2 st2] eqn:H2.
    cbn [fst snd] in Hcont, Hcn2. cbn [children n].
    destruct ch as [cs|].
    + pose proof (forEach_again (Postprocessor.walkNode idx) cs IH st2) as Hkids.
      pose proof (forEach_walkNode_erase idx cs st2) as Her.
      destruct (Postprocessor.forEach (Postprocessor.walkNode idx) cs st2)
        as [cs' st3] eqn:H3.
      cbn [fst] in *.
      set (r := Postprocessor.setChildren n2 (Some cs')).
      rewrite (walkNode_unfold idx r st).
      assert (type r = group ∧ children r = Some cs') as [Ht Hch].
      { subst r n2. done. }
      rewrite Ht, Hch.
      assert (Postprocessor.applyLeafClasses idx r st = (r, st)) as ->.
      { unfold Postprocessor.applyLeafClasses, Postprocessor.irLeafKey. by rewrite Ht. }
      rewrite (collectIrLeafKeys_erase cs cs' Her).
      specialize (Hcont (Some cs' ) Hidx). fold r in Hcont.
      cbn [children n] in Hcont. rewrite Hcont. rewrite Hkids.
      subst r. by destruct n2.
    + cbn [fst]. rewrite (walkNode_unfold idx n2 st).
      assert (type n2 = group ∧ children n2 = None) as [Ht Hch] by (by subst n2).
      rewrite Ht, Hch.
      assert (Postprocessor.applyLeafClasses idx n2 st = (n2, st)) as ->.
      { unfold Postprocessor.applyLeafClasses, Postprocessor.irLeafKey. by rewrite Ht. }
      assert (Postprocessor.setChildren n2 None = n2) as Hr by (by subst n2).
      specialize (Hcont None Hidx). rewrite Hr in Hcont.
      cbn [children n] in Hcont. by rewrite Hcont.
  - cbn [type n]. rewrite Hsel. cbn [children n].
    destruct ch as [cs|].
    + pose proof (forEach_again (Postprocessor.walkNode idx) cs IH st1) as Hkids.
      destruct (Postprocessor.forEach (Postprocessor.walkNode idx) cs st1)
        as [cs' st3] eqn:H3.
      cbn [fst] in *.
      set (r := Postprocessor.setChildren n1 (Some cs')).
      rewrite (walkNode_unfold idx r st).
      assert (type r = t ∧ children r = Some cs') as [Ht Hch].
      { subst r n1. done. }
      specialize (Hleaf (Some cs') Hidx). fold r in Hleaf.
      rewrite Hleaf, Ht, Hch, Hsel, Hkids.
      subst r. by destruct n1.
    + cbn [fst]. rewrite (walkNode_unfold idx n1 st).
      assert (type n1 = t ∧ children n1 = None) as [Ht Hch] by (by subst n1).
      assert (Postprocessor.setChildren n1 None = n1) as Hr by (by subst n1).
      specialize (Hleaf None Hidx). rewrite Hr in Hleaf.
      by rewrite Hleaf, Ht, Hch, Hsel.
Qed.

Lemma walkSection_again idx s :
  indexClasses classToken idx →
  ∀ st, Postprocessor.walkSection idx (Postprocessor.walkSection idx s st).1 st
        = Postprocessor.walkSection idx s st.
Proof.
  intros Hidx st. unfold Postprocessor.walkSection at 2 3.
  pose proof (applyContainerClasses_section_again idx
                (Postprocessor.collectIrLeafKeys (Some (section_children s))) s st)
    as Hcont.
  destruct (applyContainerClasses_section_className idx
              (Postprocessor.collectIrLeafKeys (Some (section_children s))) s st)
    as [cn1 Hcn1].
  destruct (Postprocessor.applyContainerClasses idx _ _ s st) as [s1 st1] eqn:H1.
  cbn [fst snd] in Hcont, Hcn1.
  assert (section_children s1 = section_children s) as Hch by (by subst s1).
  rewrite Hch.
  assert (Forall (λ x, ∀ st, Postprocessor.walkNode idx
                               (Postprocessor.walkNode idx x st).1 st
                             = Postprocessor.walkNode idx x st) (section_children s))
    as Hall.
  { apply Forall_forall. intros x _. by apply walkNode_again. }
  pose proof (forEach_again (Postprocessor.walkNode idx) _ Hall st1) as Hkids.
  pose proof (forEach_walkNode_erase idx (section_children s) st1) as Her.
  destruct (Postprocessor.forEach (Postprocessor.walkNode idx) (section_children s) st1)
    as [cs' st2] eqn:H2.
  cbn [fst] in *.
  set (r := Postprocessor.setSectionChildren s1 cs').
  unfold Postprocessor.walkSection.
  assert (section_children r = cs') as Hr by done.
  rewrite Hr, (collectIrLeafKeys_erase _ _ Her).
  specialize (Hcont cs' Hidx). fold r in Hcont. rewrite Hcont, Hr, Hkids.
  subst r. by destruct s1.
Qed.

Lemma walkOptional_again idx s :
  indexClasses classToken idx →
  ∀ st, Postprocessor.walkOptional idx (Postprocessor.walkOptional idx s st).1 st
        = Postprocessor.walkOptional idx s st.
Proof.
  intros Hidx st. destruct s as [s|]; [|done]. cbn [Postprocessor.walkOptional].
  pose proof (walkSection_again idx s Hidx st) as H.
  destruct (Postprocessor.walkSection idx s st) as [s' st'] eqn:Hs.
  cbn [fst Postprocessor.walkOptional] in *. by rewrite H.
Qed.

Lemma walkDocument_again idx ir :
  indexClasses classToken idx →
  ∀ st, Postprocessor.walkDocument idx (Postprocessor.walkDocument idx ir st).1 st
        = Postprocessor.walkDocument idx ir st.
Proof.
  intros Hidx st. unfold Postprocessor.walkDocument at 2 3.
  pose proof (walkOptional_again idx (header ir) Hidx st) as Hh.
  destruct (Postprocessor.walkOptional idx (header ir) st) as [h' st1] eqn:H1.
  assert (Forall (λ x, ∀ st, Postprocessor.walkSection idx
                               (Postprocessor.walkSection idx x st).1 st
                             = Postprocessor.walkSection idx x st) (sections ir))
    as Hall.
  { apply Forall_forall. intros x _. by apply walkSection_again. }
  pose proof (forEach_again (Postprocessor.walkSection idx) _ Hall st1) as Hs.
  destruct (Postprocessor.forEach (Postprocessor.walkSection idx) (sections ir) st1)
    as [ss' st2] eqn:H2.
  pose proof (walkOptional_again idx (footer ir) Hidx st2) as Hf.
  destruct (Postprocessor.walkOptional idx (footer ir) st2) as [f' st3] eqn:H3.
  cbn [fst] in *. unfold Postprocessor.walkDocument.
  cbn [header sections footer version metadata designTokens customCSS].
  by rewrite Hh, Hs, Hf.
Qed.

(** X5.  [postprocessClassNames] is idempotent: a second call with the same
    markup and stylesheet on the document the first call returned changes
    nothing.  The second call finds the same matches in the same order, and
    merging the classes of a match a second time adds nothing. *)
Theorem postprocess_idempotent (load : string → list DomNode) (ir : IRDocument)
    (rawHtml extractedCSS : option string) :
  Postprocessor.postprocessClassNames load
    (Postprocessor.postprocessClassNames load ir rawHtml extractedCSS)
    rawHtml extractedCSS
  = Postprocessor.postprocessClassNames load ir rawHtml extractedCSS.
Proof.
  unfold Postprocessor.postprocessClassNames, Postprocessor.runPostprocess.
  destruct (Postprocessor.indexOf load rawHtml extractedCSS) as [idx|] eqn:Hidx;
    [|done].
  assert (indexClasses classToken idx) as Hcls.
  { unfold Postprocessor.indexOf in Hidx.
    destruct (nonEmptyStr rawHtml) as [raw|]; [|done].
    destruct (nonEmptyStr extractedCSS) as [css|]; [|done].
    destruct (decide _); [done|]. injection Hidx as <-.
    apply buildIndex_indexClasses. intros r. apply getClassList_classToken. }
  by rewrite (walkDocument_again idx ir Hcls).
Qed.

(** ** Reconciliation: what a class name becomes *)

Lemma mergedWith_refl P cn : mergedWith P cn cn.
Proof. exists []. by split. Qed.

Lemma applyLeafClasses_merged P idx n st :
  indexClasses P idx →
  ∃ cn, mergedWith P (className n) cn ∧
        (Postprocessor.applyLeafClasses idx n st).1 = Postprocessor.setClassName n cn.
Proof.
  intros Hidx. unfold Postprocessor.applyLeafClasses.
  assert (∃ cn, mergedWith P (className n) cn ∧ n = Postprocessor.setClassName n cn)
    as Hid.
  { exists (className n). split; [apply mergedWith_refl|by destruct n]. }
  destruct (Postprocessor.irLeafKey n) as [[t [k|]]|]; try exact Hid.
  destruct (Postprocessor.findLeafMatch idx st k t) as [m|] eqn:Hm; [|exact Hid].
  pose proof (findLeafMatch_classes _ _ _ _ _ _ Hidx Hm) as Hcls.
  destruct (Postprocessor.classes m) as [|c cls]; [exact Hid|].
  eexists. split; [|reflexivity]. by exists (c :: cls).
Qed.

Lemma applyContainerClasses_node_merged P idx keys n st :
  indexClasses P idx →
  ∃ cn, mergedWith P (className n) cn ∧
        (Postprocessor.applyContainerClasses idx keys Postprocessor.addClassesToNode
           n st).1 = Postprocessor.setClassName n cn.
Proof.
  intros Hidx. unfold Postprocessor.applyContainerClasses.
  assert (∃ cn, mergedWith P (className n) cn ∧ n = Postprocessor.setClassName n cn)
    as Hid.
  { exists (className n). split; [apply mergedWith_refl|by destruct n]. }
  destruct keys as [|k keys]; [exact Hid|].
  destruct (Postprocessor.findContainerMatch idx st (k :: keys)) as [m|] eqn:Hm;
    [|exact Hid].
  pose proof (findContainerMatch_classes _ _ _ _ _ Hidx Hm) as Hcls.
  destruct (Postprocessor.container_classes m) as [|c cls]; [exact Hid|].
  eexists. split; [|reflexivity]. by exists (c :: cls).
Qed.

Lemma applyContainerClasses_section_merged P idx keys s st :
  indexClasses P idx →
  ∃ cn, mergedWith P (section_className s) cn ∧
        (Postprocessor.applyContainerClasses idx keys
           Postprocessor.addClassesToSection s st).1
        = Postprocessor.setSectionClassName s cn.
Proof.
  intros Hidx. unfold Postprocessor.applyContainerClasses.
  assert (∃ cn, mergedWith P (section_className s) cn ∧
                s = Postprocessor.setSectionClassName s cn) as Hid.
  { exists (section_className s). split; [apply mergedWith_refl|by destruct s]. }
  destruct keys as [|k keys]; [exact Hid|].
  destruct (Postprocessor.findContainerMatch idx st (k :: keys)) as [m|] eqn:Hm;
    [|exact Hid].
  pose proof (findContainerMatch_classes _ _ _ _ _ Hidx Hm) as Hcls.
  destruct (Postprocessor.container_classes m) as [|c cls]; [exact Hid|].
  eexists. split; [|reflexivity]. by exists (c :: cls).
Qed.

Lemma forEach_classNames {T} (R : option string → option string → Prop)
    (names : T → list (option string))
    (walk : T → Postprocessor.MatchState → T * Postprocessor.MatchState)
    (l : list T) :
  Forall (λ x, ∀ st, Forall2 R (names x) (names (walk x st).1)) l →
  ∀ st, Forall2 R (concat (List.map names l))
          (concat (List.map names (Postprocessor.forEach walk l st).1)).
Proof.
  induction 1 as [|x l Hx _ IH]; intros st; [constructor|].
  cbn [Postprocessor.forEach].
  specialize (Hx st). destruct (walk x st) as [x' st1].
  specialize (IH st1). destruct (Postprocessor.forEach walk l st1) as [l' st2].
  cbn [fst List.map concat] in *. by apply Forall2_app.
Qed.

Lemma walkNode_classNames P idx n :
  indexClasses P idx →
  ∀ st, Forall2 (mergedWith P) (nodeClassNames n)
          (nodeClassNames (Postprocessor.walkNode idx n st).1).
Proof.
  intros Hidx. induction n as [t c a ch m s cn IH] using IRNode_tree_ind. intros st.
  set (n := mkIRNode t c a ch m s cn).
  rewrite (walkNode_unfold idx n st).
  destruct (applyLeafClasses_merged P idx n st Hidx) as (cn1 & Hm1 & Hcn1).
  destruct (Postprocessor.applyLeafClasses idx n st) as [n1 st1] eqn:H1.
  cbn [fst] in Hcn1.
  assert (∃ n2 st2 cn2,
            match type n with
            | group =>
                Postprocessor.applyContainerClasses idx
                  (Postprocessor.collectIrLeafKeys (children n))
                  Postprocessor.addClassesToNode n1 st1
            | _ => (n1, st1)
            end = (n2, st2) ∧
            mergedWith P cn cn2 ∧ n2 = Postprocessor.setClassName n cn2)
    as (n2 & st2 & cn2 & -> & Hm2 & Hn2).
  { assert (t = group ∨
            ∀ (A : Type) (x y : A), match t with group => x | _ => y end = y)
      as [-> | Hsel] by (destruct t; auto).
    - assert (n1 = n ∧ st1 = st) as [-> ->].
      { unfold Postprocessor.applyLeafClasses in H1. cbn in H1. by injection H1. }
      cbn [type n].
      destruct (applyContainerClasses_node_merged P idx
                  (Postprocessor.collectIrLeafKeys (children n)) n st Hidx)
        as (cn2 & Hm2 & Hcn2).
      destruct (Postprocessor.applyContainerClasses idx _ _ n st) as [n2 st2].
      cbn [fst] in Hcn2. by exists n2, st2, cn2.
    - cbn [type n]. rewrite Hsel. by exists n1, st1, cn1. }
  cbn [children n]. destruct ch as [cs|].
  - pose proof (forEach_classNames (mergedWith P) nodeClassNames
                  (Postprocessor.walkNode idx) cs IH st2) as Hkids.
    destruct (Postprocessor.forEach (Postprocessor.walkNode idx) cs st2) as [cs' st3].
    cbn [fst] in *. subst n2. cbn. by constructor.
  - cbn [fst]. subst n2. cbn. by constructor.
Qed.

Lemma walkSection_classNames P idx s :
  indexClasses P idx →
  ∀ st, Forall2 (mergedWith P) (sectionClassNames s)
          (sectionClassNames (Postprocessor.walkSection idx s st).1).
Proof.
  intros Hidx st. unfold Postprocessor.walkSection.
  destruct (applyContainerClasses_section_merged P idx
              (Postprocessor.collectIrLeafKeys (Some (section_children s))) s st Hidx)
    as (cn1 & Hm1 & Hcn1).
  destruct (Postprocessor.applyContainerClasses idx _ _ s st) as [s1 st1].
  cbn [fst] in Hcn1. subst s1.
  cbn [Postprocessor.setSectionClassName section_children].
  assert (Forall (λ x, ∀ st, Forall2 (mergedWith P) (nodeClassNames x)
                               (nodeClassNames (Postprocessor.walkNode idx x st).1))
            (section_children s)) as Hall.
  { apply Forall_forall. intros x _. by apply walkNode_classNames. }
  pose proof (forEach_classNames (mergedWith P) nodeClassNames
                (Postprocessor.walkNode idx) _ Hall st1) as Hkids.
  destruct (Postprocessor.forEach (Postprocessor.walkNode idx) (section_children s) st1)
    as [cs' st2].
  cbn [fst] in *. unfold sectionClassNames. cbn. by constructor.
Qed.

Lemma walkOptional_classNames P idx s :
  indexClasses P idx →
  ∀ st, Forall2 (mergedWith P)
          (match s with Some x => sectionClassNames x | None => [] end)
          (match (Postprocessor.walkOptional idx s st).1 with
           | Some x => sectionClassNames x
           | None => []
           end).
Proof.
  intros Hidx st. destruct s as [s|]; [|constructor]. cbn [Postprocessor.walkOptional].
  pose proof (walkSection_classNames P idx s Hidx st) as H.
  by destruct (Postprocessor.walkSection idx s st) as [s' st'].
Qed.

Lemma walkDocument_classNames P idx ir :
  indexClasses P idx →
  ∀ st, Forall2 (mergedWith P) (documentClassNames ir)
          (documentClassNames (Postprocessor.walkDocument idx ir st).1).
Proof.
  intros Hidx st. unfold Postprocessor.walkDocument.
  pose proof (walkOptional_classNames P idx (header ir) Hidx st) as Hh.
  destruct (Postprocessor.walkOptional idx (header ir) st) as [h' st1].
  assert (Forall (λ x, ∀ st, Forall2 (mergedWith P) (sectionClassNames x)
                               (sectionClassNames (Postprocessor.walkSection idx x st).1))
            (sections ir)) as Hall.
  { apply Forall_forall. intros x _. by apply walkSection_classNames. }
  pose proof (forEach_classNames (mergedWith P) sectionClassNames
                (Postprocessor.walkSection idx) _ Hall st1) as Hs.
  destruct (Postprocessor.forEach (Postprocessor.walkSection idx) (sections ir) st1)
    as [ss' st2].
  pose proof (walkOptional_classNames P idx (footer ir) Hidx st2) as Hf.
  destruct (Postprocessor.walkOptional idx (footer ir) st2) as [f' st3].
  cbn [fst] in *. unfold documentClassNames. cbn [header sections footer].
  apply Forall2_app; [done|]. by apply Forall2_app.
Qed.

Lemma postprocess_classNames load ir rawHtml extractedCSS :
  Forall2 (mergedWith (λ c, classToken c ∧ c ∈ stylesheetClasses extractedCSS))
    (documentClassNames ir)
    (documentClassNames
       (Postprocessor.postprocessClassNames load ir rawHtml extractedCSS)).
Proof.
  unfold Postprocessor.postprocessClassNames, Postprocessor.runPostprocess.
  destruct (Postprocessor.indexOf load rawHtml extractedCSS) as [idx|] eqn:Hidx.
  - apply walkDocument_classNames.
    unfold Postprocessor.indexOf in Hidx. unfold stylesheetClasses.
    destruct (nonEmptyStr rawHtml) as [raw|]; [|done].
    destruct (nonEmptyStr extractedCSS) as [css|]; [|done].
    destruct (decide _); [done|]. injection Hidx as <-.
    apply buildIndex_indexClasses. intros r.
    pose proof (getClassList_classToken r (Postprocessor.extractCssClasses css)) as Htok.
    rewrite getClassList_tokens in *.
    apply Forall_forall. intros c Hc. split.
    + rewrite Forall_forall in Htok. by apply Htok.
    + apply list_elem_of_In, List.filter_In in Hc as [_ Hc].
      by apply bool_decide_eq_true in Hc.
  - cbn [fst]. apply Forall_Forall2_diag, Forall_forall. intros cn _.
    apply mergedWith_refl.
Qed.

(** X6.  [postprocessClassNames] never removes a class and adds only classes
    of the stylesheet: for every section and node, each class token of its
    class name before the call is a token of its class name after the call,
    and each token after the call was there before or is a class that
    [extractCssClasses] finds in the stylesheet argument. *)
Theorem postprocess_adds_stylesheet_classes (load : string → list DomNode)
    (ir : IRDocument) (rawHtml extractedCSS : option string) :
  Forall2
    (λ before after,
       (∀ c, c ∈ classTokens before → c ∈ classTokens after) ∧
       (∀ c, c ∈ classTokens after →
             c ∈ classTokens before ∨ c ∈ stylesheetClasses extractedCSS))
    (documentClassNames ir)
    (documentClassNames
       (Postprocessor.postprocessClassNames load ir rawHtml extractedCSS)).
Proof.
  eapply Forall2_impl; [apply postprocess_classNames|].
  intros before after (adds & Hadds & ->).
  assert (Forall classToken adds) as Htok.
  { eapply Forall_impl; [exact Hadds|]. by intros c [? _]. }
  split; intros c Hc.
  - apply classTokens_mergeClassName; [done|]. by left.
  - apply classTokens_mergeClassName in Hc as [Hc|Hc]; [by left|right|done].
    rewrite Forall_forall in Hadds. by apply Hadds.
Qed.

(** ** Reconciliation: the result of a call *)

Lemma visitAll_app idx ts1 ts2 st :
  visitAll idx (ts1 ++ ts2) st =
  let '(cns1, st1) := visitAll idx ts1 st in
  let '(cns2, st2) := visitAll idx ts2 st1 in
  (cns1 ++ cns2, st2).
Proof.
  revert st. induction ts1 as [|t ts1 IH]; intros st.
  - cbn [app visitAll]. by destruct (visitAll idx ts2 st).
  - cbn [app visitAll]. destruct (visit idx t st) as [cn st1]. rewrite IH.
    destruct (visitAll idx ts1 st1) as [cns1 st2].
    by destruct (visitAll idx ts2 st2).
Qed.

Lemma forEach_visitAll {T} idx (names : T → list (option string))
    (targets : T → list Target)
    (walk : T → Postprocessor.MatchState → T * Postprocessor.MatchState)
    (l : list T) :
  Forall (λ x, ∀ st, (names (walk x st).1, (walk x st).2)
                     = visitAll idx (targets x) st) l →
  ∀ st, (concat (List.map names (Postprocessor.forEach walk l st).1),
         (Postprocessor.forEach walk l st).2)
        = visitAll idx (concat (List.map targets l)) st.
Proof.
  induction 1 as [|x l Hx _ IH]; intros st; [done|].
  cbn [Postprocessor.forEach List.map concat]. rewrite visitAll_app.
  specialize (Hx st). destruct (walk x st) as [x' st1].
  cbn [fst snd] in Hx. rewrite <- Hx.
  specialize (IH st1). destruct (Postprocessor.forEach walk l st1) as [l' st2].
  cbn [fst snd] in *. by rewrite <- IH.
Qed.

Lemma walkNode_visitAll idx n :
  ∀ st, (nodeClassNames (Postprocessor.walkNode idx n st).1,
         (Postprocessor.walkNode idx n st).2)
        = visitAll idx (nodeTargets n) st.
Proof.
  induction n as [t c a ch m s cn IH] using IRNode_tree_ind. intros st.
  set (n := mkIRNode t c a ch m s cn).
  rewrite (walkNode_unfold idx n st).
  change (nodeTargets n) with
    (NodeTarget n :: match ch with
                     | Some cs => concat (List.map nodeTargets cs)
                     | None => []
                     end).
  cbn [visitAll visit].
  destruct (applyLeafClasses_className idx n st) as [cn1 Hcn1].
  destruct (Postprocessor.applyLeafClasses idx n st) as [n1 st1].
  cbn [fst] in Hcn1.
  assert (∃ cn2, (match type n with
                  | group =>
                      Postprocessor.applyContainerClasses idx
                        (Postprocessor.collectIrLeafKeys (children n))
                        Postprocessor.addClassesToNode n1 st1
                  | _ => (n1, st1)
                  end).1 = Postprocessor.setClassName n cn2) as [cn2 Hcn2].
  { destruct (type n); try by exists cn1.
    destruct (applyContainerClasses_node_className idx
                (Postprocessor.collectIrLeafKeys (children n)) n1 st1) as [cn2 H2].
    exists cn2. rewrite H2, Hcn1. by destruct n. }
  destruct (match type n with group => _ | _ => _ end) as [n2 st2].
  cbn [fst] in Hcn2. subst n2. cbn [children n].
  destruct ch as [cs|].
  - pose proof (forEach_visitAll idx nodeClassNames nodeTargets
                  (Postprocessor.walkNode idx) cs IH st2) as Hkids.
    destruct (Postprocessor.forEach (Postprocessor.walkNode idx) cs st2) as [cs' st3].
    cbn [fst snd] in Hkids. rewrite <- Hkids. done.
  - done.
Qed.

Lemma walkSection_visitAll idx s st :
  (sectionClassNames (Postprocessor.walkSection idx s st).1,
   (Postprocessor.walkSection idx s st).2)
  = visitAll idx (sectionTargets s) st.
Proof.
  unfold Postprocessor.walkSection, sectionTargets. cbn [visitAll visit].
  destruct (applyContainerClasses_section_className idx
              (Postprocessor.collectIrLeafKeys (Some (section_children s))) s st)
    as [cn1 Hcn1].
  destruct (Postprocessor.applyContainerClasses idx _ _ s st) as [s1 st1].
  cbn [fst] in Hcn1. subst s1.
  cbn [Postprocessor.setSectionClassName section_children section_className].
  assert (Forall (λ x, ∀ st, (nodeClassNames (Postprocessor.walkNode idx x st).1,
                              (Postprocessor.walkNode idx x st).2)
                             = visitAll idx (nodeTargets x) st)
            (section_children s)) as Hall.
  { apply Forall_forall. intros x _. apply walkNode_visitAll. }
  pose proof (forEach_visitAll idx nodeClassNames nodeTargets
                (Postprocessor.walkNode idx) _ Hall st1) as Hkids.
  destruct (Postprocessor.forEach (Postprocessor.walkNode idx) (section_children s) st1)
    as [cs' st2].
  cbn [fst snd] in Hkids. rewrite <- Hkids. done.
Qed.

Lemma walkOptional_visitAll idx s st :
  (match (Postprocessor.walkOptional idx s st).1 with
   | Some x => sectionClassNames x
   | None => []
   end, (Postprocessor.walkOptional idx s st).2)
  = visitAll idx (match s with Some x => sectionTargets x | None => [] end) st.
Proof.
  destruct s as [s|]; [|done]. cbn [Postprocessor.walkOptional].
  pose proof (walkSection_visitAll idx s st) as H.
  by destruct (Postprocessor.walkSection idx s st) as [s' st'].
Qed.

Lemma walkDocument_visitAll idx ir st :
  (documentClassNames (Postprocessor.walkDocument idx ir st).1,
   (Postprocessor.walkDocument idx ir st).2)
  = visitAll idx (documentTargets ir) st.
Proof.
  unfold Postprocessor.walkDocument, documentTargets.
  pose proof (walkOptional_visitAll idx (header ir) st) as Hh.
  destruct (Postprocessor.walkOptional idx (header ir) st) as [h' st1].
  assert (Forall (λ x, ∀ st, (sectionClassNames (Postprocessor.walkSection idx x st).1,
                              (Postprocessor.walkSection idx x st).2)
                             = visitAll idx (sectionTargets x) st)
            (sections ir)) as Hall.
  { apply Forall_forall. intros x _ st'. apply walkSection_visitAll. }
  pose proof (forEach_visitAll idx sectionClassNames sectionTargets
                (Postprocessor.walkSection idx) _ Hall st1) as Hs.
  destruct (Postprocessor.forEach (Postprocessor.walkSection idx) (sections ir) st1)
    as [ss' st2].
  pose proof (walkOptional_visitAll idx (footer ir) st2) as Hf.
  destruct (Postprocessor.walkOptional idx (footer ir) st2) as [f' st3].
  cbn [fst snd] in *. rewrite visitAll_app, <- Hh, visitAll_app, <- Hs, <- Hf.
  done.
Qed.

Lemma irLeafKey_not_group n t k :
  Postprocessor.irLeafKey n = Some (t, k) → type n ≠ group.
Proof. unfold Postprocessor.irLeafKey. intros H Hty. by rewrite Hty in H. Qed.

Lemma visit_leaf idx n st t k m :
  Postprocessor.irLeafKey n = Some (t, Some k) →
  Postprocessor.findLeafMatch idx st k t = Some m →
  Postprocessor.classes m ≠ [] →
  (visit idx (NodeTarget n) st).1
  = Postprocessor.mergeClassName (className n) (Postprocessor.classes m).
Proof.
  intros Hk Hm Hcls. pose proof (irLeafKey_not_group _ _ _ Hk) as Hty.
  cbn [visit]. unfold Postprocessor.applyLeafClasses. rewrite Hk, Hm.
  destruct (Postprocessor.classes m) as [|c cls] eqn:Hc; [done|].
  by destruct (type n).
Qed.

Lemma visit_group idx n st c :
  type n = group →
  Postprocessor.findContainerMatch idx st
    (Postprocessor.collectIrLeafKeys (children n)) = Some c →
  Postprocessor.container_classes c ≠ [] →
  (visit idx (NodeTarget n) st).1
  = Postprocessor.mergeClassName (className n) (Postprocessor.container_classes c).
Proof.
  intros Hty Hm Hcls. cbn [visit].
  assert (Postprocessor.applyLeafClasses idx n st = (n, st)) as ->.
  { unfold Postprocessor.applyLeafClasses, Postprocessor.irLeafKey. by rewrite Hty. }
  rewrite Hty. unfold Postprocessor.applyContainerClasses. rewrite Hm.
  destruct (Postprocessor.collectIrLeafKeys (children n)) as [|k keys]; [done|].
  by destruct (Postprocessor.container_classes c).
Qed.

Lemma visit_section idx s st c :
  Postprocessor.findContainerMatch idx st
    (Postprocessor.collectIrLeafKeys (Some (section_children s))) = Some c →
  Postprocessor.container_classes c ≠ [] →
  (visit idx (SectionTarget s) st).1
  = Postprocessor.mergeClassName (section_className s)
      (Postprocessor.container_classes c).
Proof.
  intros Hm Hcls. cbn [visit]. unfold Postprocessor.applyContainerClasses. rewrite Hm.
  destruct (Postprocessor.collectIrLeafKeys (Some (section_children s)))
    as [|k keys]; [done|].
  by destruct (Postprocessor.container_classes c).
Qed.

Lemma indexOf_classTokens load rawHtml extractedCSS idx :
  Postprocessor.indexOf load rawHtml extractedCSS = Some idx →
  indexClasses classToken idx.
Proof.
  unfold Postprocessor.indexOf. intros Hidx.
  destruct (nonEmptyStr rawHtml) as [raw|]; [|done].
  destruct (nonEmptyStr extractedCSS) as [css|]; [|done].
  destruct (decide _); [done|]. injection Hidx as <-.
  apply buildIndex_indexClasses. intros r. apply getClassList_classToken.
Qed.

(** C4 (as amended).  A call returns the reference it was given: the
    document is updated in place, not copied, and every other object of the
    heap is untouched.  The document found there after the call differs
    from the one before it at most in the [className] fields of its
    sections and nodes.  These fields are what one pass over the sections
    and nodes in the order of the walk leaves, threading the used sets; and
    at each step of that pass the class name is populated when a match with
    classes is found: a node of a leaf kind gets the classes of the leaf
    that [findLeafMatch] returns, a group node and a section get the
    classes of the container that [findContainerMatch] returns, merged into
    the class name, so that each of these classes is a token of it. *)
Theorem postprocess_frame (load : string → list DomNode) (ir : Postprocessor.Ref)
    (rawHtml extractedCSS : option string)
    (heap : gmap Postprocessor.Ref IRDocument) (doc : IRDocument) :
  heap !! ir = Some doc →
  ∃ doc',
    Postprocessor.callPostprocessClassNames load ir rawHtml extractedCSS heap
    = (ir, <[ir := doc']> heap) ∧
    eraseDocument doc' = eraseDocument doc ∧
    (∀ other, other ≠ ir → <[ir := doc']> heap !! other = heap !! other) ∧
    documentClassNames doc' =
      match Postprocessor.indexOf load rawHtml extractedCSS with
      | Some idx =>
          (visitAll idx (documentTargets doc) Postprocessor.initialState).1
      | None => documentClassNames doc
      end ∧
    ∀ idx, Postprocessor.indexOf load rawHtml extractedCSS = Some idx →
      (∀ n st t k m,
         Postprocessor.irLeafKey n = Some (t, Some k) →
         Postprocessor.findLeafMatch idx st k t = Some m →
         Postprocessor.classes m ≠ [] →
         (visit idx (NodeTarget n) st).1
         = Postprocessor.mergeClassName (className n) (Postprocessor.classes m) ∧
         ∀ c, c ∈ Postprocessor.classes m →
              c ∈ classTokens (visit idx (NodeTarget n) st).1) ∧
      (∀ n st m,
         type n = group →
         Postprocessor.findContainerMatch idx st
           (Postprocessor.collectIrLeafKeys (children n)) = Some m →
         Postprocessor.container_classes m ≠ [] →
         (visit idx (NodeTarget n) st).1
         = Postprocessor.mergeClassName (className n)
             (Postprocessor.container_classes m) ∧
         ∀ c, c ∈ Postprocessor.container_classes m →
              c ∈ classTokens (visit idx (NodeTarget n) st).1) ∧
      (∀ s st m,
         Postprocessor.findContainerMatch idx st
           (Postprocessor.collectIrLeafKeys (Some (section_children s))) = Some m →
         Postprocessor.container_classes m ≠ [] →
         (visit idx (SectionTarget s) st).1
         = Postprocessor.mergeClassName (section_className s)
             (Postprocessor.container_classes m) ∧
         ∀ c, c ∈ Postprocessor.container_classes m →
              c ∈ classTokens (visit idx (SectionTarget s) st).1).
Proof.
  intros Hdoc.
  exists (Postprocessor.postprocessClassNames load doc rawHtml extractedCSS).
  split; [|split; [|split; [|split]]].
  - unfold Postprocessor.callPostprocessClassNames. by rewrite Hdoc.
  - apply postprocess_erase.
  - intros other Hne. by rewrite lookup_insert_ne.
  - unfold Postprocessor.postprocessClassNames, Postprocessor.runPostprocess.
    destruct (Postprocessor.indexOf load rawHtml extractedCSS) as [idx|]; [|done].
    pose proof (walkDocument_visitAll idx doc Postprocessor.initialState) as H.
    by rewrite <- H.
  - intros idx Hidx. pose proof (indexOf_classTokens _ _ _ _ Hidx) as Hcls.
    split; [|split].
    + intros n st t k m Hk Hm Hne.
      rewrite (visit_leaf idx n st t k m Hk Hm Hne). split; [done|].
      intros c Hc. apply classTokens_mergeClassName; [|by right].
      by apply (findLeafMatch_classes _ idx st k t m).
    + intros n st m Hty Hm Hne.
      rewrite (visit_group idx n st m Hty Hm Hne). split; [done|].
      intros c Hc. apply classTokens_mergeClassName; [|by right].
      by eapply findContainerMatch_classes.
    + intros s st m Hm Hne.
      rewrite (visit_section idx s st m Hm Hne). split; [done|].
      intros c Hc. apply classTokens_mergeClassName; [|by right].
      by eapply findContainerMatch_classes.
Qed.

Lemma postprocess_frame_witness :
  scenarioE_heap !! 0%nat = Some scenarioE_document ∧
  ∃ doc',
    Postprocessor.callPostprocessClassNames scenarioE_load 0%nat
      (Some scenarioE_html) (Some scenarioE_css) scenarioE_heap
    = (0%nat, <[0%nat := doc']> scenarioE_heap) ∧
    eraseDocument doc' = eraseDocument scenarioE_document ∧
    documentClassNames doc' = [None; Some "foo"].
Proof.
  split; [reflexivity|].
  destruct (postprocess_frame scenarioE_load 0%nat (Some scenarioE_html)
              (Some scenarioE_css) scenarioE_heap scenarioE_document eq_refl)
    as (doc' & Hcall & Herase & _ & Hnames & _).
  exists doc'. split; [exact Hcall|]. split; [exact Herase|].
  rewrite Hnames. by vm_compute.
Defined.

(** ** Cleaning of block attributes *)

(** Induction on JSON values, with the property available for every field
    of an object. *)
Lemma json_fields_ind (P : json → Prop) :
  (∀ v, match v with
        | JObj fields => Forall (λ kv, P kv.2) fields
        | _ => True
        end → P v) →
  ∀ v, P v.
Proof.
  intros Hstep. fix IH 1. intros v. apply Hstep.
  destruct v as [| | | | | |fields]; try exact I.
  induction fields as [|[k x] rest IHrest]; constructor; [apply IH|exact IHrest].
Qed.

Lemma cleanObj_cons k x rest :
  Renderer.cleanObj ((k, x) :: rest) =
  match x with
  | JUndefined | JNull => Renderer.cleanObj rest
  | JStr s =>
      if decide (s = "") then Renderer.cleanObj rest
      else (k, x) :: Renderer.cleanObj rest
  | JObj f =>
      match Renderer.cleanObj f with
      | [] => Renderer.cleanObj rest
      | nested => (k, JObj nested) :: Renderer.cleanObj rest
      end
  | _ => (k, x) :: Renderer.cleanObj rest
  end.
Proof. by destruct x. Qed.

Lemma keptValue_obj f : keptValue (JObj f) = Utils.nonEmpty f && keptFields f.
Proof.
  cbn [keptValue]. f_equal. unfold keptFields.
  induction f as [|[k x] rest IH]; [done|]. cbn [forallb snd]. by rewrite IH.
Qed.

Lemma cleanObj_kept o : keptFields (Renderer.cleanObj o) = true.
Proof.
  change (match JObj o with
          | JObj f => keptFields (Renderer.cleanObj f) = true
          | _ => True
          end).
  generalize (JObj o). clear o. intros v.
  induction v as [v IH] using json_fields_ind.
  destruct v as [| | | | | |fields]; try exact I.
  induction IH as [|[k x] rest Hx _ IHrest]; [done|].
  rewrite cleanObj_cons. cbn [snd] in Hx.
  destruct x as [| |b|n|s|l|f]; try exact IHrest.
  - destruct (decide (s = "")) as [->|Hs]; [exact IHrest|].
    unfold keptFields. cbn [forallb snd keptValue]. unfold Renderer.isNonEmpty.
    destruct (decide (s = "")); [done|]. exact IHrest.
  - destruct (Renderer.cleanObj f) as [|kv nested] eqn:Hf; [exact IHrest|].
    unfold keptFields. cbn [forallb snd]. rewrite keptValue_obj, Hx.
    cbn [Utils.nonEmpty andb]. exact IHrest.
Qed.

Lemma cleanObj_fixed o : keptFields o = true → Renderer.cleanObj o = o.
Proof.
  change (match JObj o with
          | JObj f => keptFields f = true → Renderer.cleanObj f = f
          | _ => True
          end).
  generalize (JObj o). clear o. intros v.
  induction v as [v IH] using json_fields_ind.
  destruct v as [| | | | | |fields]; try exact I.
  induction IH as [|[k x] rest Hx _ IHrest]; [done|].
  unfold keptFields. cbn [forallb snd]. intros H.
  apply andb_true_iff in H as [Hk Hrest]. specialize (IHrest Hrest).
  rewrite cleanObj_cons, IHrest. cbn [snd] in Hx.
  destruct x as [| |b|n|s|l|f]; try done.
  - cbn [keptValue] in Hk. unfold Renderer.isNonEmpty in Hk.
    by destruct (decide (s = "")).
  - rewrite keptValue_obj in Hk. apply andb_true_iff in Hk as [Hne Hf].
    rewrite (Hx Hf). by destruct f.
Qed.

(** X7.  [cleanObj] brings an attribute object to a normal form: the result
    holds no undefined, null or empty-string value and no empty object, at any
    depth of nested objects.  The objects it returns unchanged are exactly
    the objects of that form, so cleaning twice is cleaning once. *)
Theorem cleanObj_normal_form (o : obj) :
  keptFields (Renderer.cleanObj o) = true ∧
  (Renderer.cleanObj o = o ↔ keptFields o = true) ∧
  Renderer.cleanObj (Renderer.cleanObj o) = Renderer.cleanObj o.
Proof.
  split; [apply cleanObj_kept|]. split.
  - split; [|apply cleanObj_fixed]. intros H. rewrite <- H. apply cleanObj_kept.
  - apply cleanObj_fixed, cleanObj_kept.
Qed.

(** ** Style objects and inline styles *)

Lemma keys_setProp o k v k' :
  k' ∈ (setProp o k v).*1 ↔ k' = k ∨ k' ∈ o.*1.
Proof.
  induction o as [|[k0 v0] o IH]; cbn [setProp fmap list_fmap fst].
  - rewrite list_elem_of_singleton. split; [by left|]. intros [?|H]; [done|by inversion H].
  - destruct (decide (k0 = k)) as [->|Hne]; cbn [fmap list_fmap fst].
    + rewrite !elem_of_cons. tauto.
    + rewrite !elem_of_cons, IH. tauto.
Qed.

Lemma NoDup_setProp o k v : NoDup o.*1 → NoDup (setProp o k v).*1.
Proof.
  induction o as [|[k0 v0] o IH]; cbn [setProp fmap list_fmap fst]; intros Hnd.
  - apply NoDup_singleton.
  - apply NoDup_cons in Hnd as [Hk0 Hnd].
    destruct (decide (k0 = k)) as [->|Hne]; cbn [fmap list_fmap fst].
    + by apply NoDup_cons.
    + apply NoDup_cons. split; [|by apply IH].
      rewrite keys_setProp. intros [?|?]; done.
Qed.

Lemma elem_of_setProp o k v k' x :
  NoDup o.*1 → (k', x) ∈ setProp o k v →
  (k' = k ∧ x = v) ∨ (k' ≠ k ∧ (k', x) ∈ o).
Proof.
  induction o as [|[k0 v0] o IH]; cbn [setProp fmap list_fmap fst]; intros Hnd.
  - intros H. apply list_elem_of_singleton in H. injection H as -> ->. by left.
  - apply NoDup_cons in Hnd as [Hk0 Hnd].
    destruct (decide (k0 = k)) as [->|Hne].
    + intros [H|H]%elem_of_cons.
      * injection H as -> ->. by left.
      * right. split; [|by right]. intros ->. apply Hk0.
        apply list_elem_of_fmap. by exists (k, x).
    + intros [H|H]%elem_of_cons.
      * injection H as -> ->. right. split; [done|by left].
      * destruct (IH Hnd H) as [?|[? ?]]; [by left|]. right. split; [done|by right].
Qed.

Lemma lookupProp_elem o k x : NoDup o.*1 → (k, x) ∈ o → lookupProp o k = x.
Proof.
  induction o as [|[k0 v0] o IH]; cbn [lookupProp fmap list_fmap fst]; intros Hnd.
  - intros H. by inversion H.
  - apply NoDup_cons in Hnd as [Hk0 Hnd]. intros [H|H]%elem_of_cons.
    + injection H as -> ->. by destruct (decide (k0 = k0)).
    + destruct (decide (k0 = k)) as [->|Hne]; [|by apply IH].
      exfalso. apply Hk0. apply list_elem_of_fmap. by exists (k, x).
Qed.

Lemma lookupProp_cases o k :
  lookupProp o k = JUndefined ∨ (k, lookupProp o k) ∈ o.
Proof.
  induction o as [|[k0 v0] o IH]; cbn [lookupProp]; [by left|].
  destruct (decide (k0 = k)) as [->|Hne]; [right; by left|].
  destruct IH as [?|?]; [by left|right; by right].
Qed.

Lemma elem_of_leaves_obj o p y :
  (p, y) ∈ leaves (JObj o) ↔
  ∃ k x p', (k, x) ∈ o ∧ p = k :: p' ∧ (p', y) ∈ leaves x.
Proof.
  induction o as [|[k0 x0] o IH].
  - cbn. split; [intros H; by inversion H|]. intros (k & x & p' & H & _). by inversion H.
  - change (leaves (JObj ((k0, x0) :: o)))
      with (List.map (λ py, (k0 :: py.1, py.2)) (leaves x0) ++ leaves (JObj o)).
    rewrite elem_of_app, IH. split.
    + intros [H|(k & x & p' & H & Hp & Hl)].
      * apply list_elem_of_fmap in H as ([p' y'] & Heq & Hin). cbn in Heq.
        injection Heq as -> ->. exists k0, x0, p'. split; [by left|done].
      * exists k, x, p'. split; [by right|done].
    + intros (k & x & p' & [H|H]%elem_of_cons & -> & Hl).
      * injection H as -> ->. left. apply list_elem_of_fmap. by exists (p', y).
      * right. by exists k, x, p'.
Qed.

Lemma goodGroup_nil g : goodGroup g [].
Proof. split; [constructor|]. intros k y H. by inversion H. Qed.

Lemma goodStyle_nil : goodStyle [].
Proof. split; [constructor|]. intros k y H. by inversion H. Qed.

Lemma setProp_nonempty o k v : setProp o k v ≠ [].
Proof. destruct o as [|[k0 v0] o]; cbn [setProp]; [done|]. by destruct (decide _). Qed.

Lemma goodStyle_setProp bs g f :
  goodStyle bs → f ≠ [] → goodGroup g f → goodStyle (setProp bs g (JObj f)).
Proof.
  intros [Hnd Hall] Hne Hf. split; [by apply NoDup_setProp|].
  intros g' x Hin. apply elem_of_setProp in Hin as [[-> ->]|[_ Hin]]; [|by apply Hall|done].
  by exists f.
Qed.

Lemma goodStyle_spread bs g : goodStyle bs → goodGroup g (spread (lookupProp bs g)).
Proof.
  intros [Hnd Hall]. destruct (lookupProp_cases bs g) as [->|Hin].
  - apply goodGroup_nil.
  - destruct (Hall _ _ Hin) as (f & -> & _ & Hf). exact Hf.
Qed.

Lemma goodStyle_setIn bs g k v name :
  ([g; k], name) ∈ cssProperties → v ≠ "" → goodStyle bs →
  goodStyle (Renderer.setIn bs g k v).
Proof.
  intros Hname Hv Hbs. unfold Renderer.setIn.
  apply goodStyle_setProp; [done|apply setProp_nonempty|].
  destruct (goodStyle_spread bs g Hbs) as [Hnd Hall].
  split; [by apply NoDup_setProp|].
  intros k' y Hin. apply elem_of_setProp in Hin as [[-> ->]|[_ Hin]]; [|by apply Hall|done].
  left. by exists v, name.
Qed.

Lemma nonEmptyStr_Some o v : nonEmptyStr o = Some v → v ≠ "".
Proof.
  destruct o as [s|]; [|done]. cbn. destruct (decide (s = "")); [done|].
  by intros [= <-].
Qed.

(** A property of the first component that every conditional step keeps. *)
Lemma when_fst {A} (P : obj → Prop) (o : option A)
    (f : A → obj * list string → obj * list string) (acc : obj * list string) :
  P acc.1 → (∀ a acc', o = Some a → P acc'.1 → P (f a acc').1) →
  P (Renderer.when o f acc).1.
Proof. intros Hacc Hf. destruct o as [a|]; [by apply Hf|done]. Qed.

Ltac find_property := repeat first [ by left | right ].

Lemma goodStyle_padding bs val :
  val ≠ "" → goodStyle bs →
  goodStyle
    (setProp bs "spacing"
       (JObj [("padding",
               JObj [("top", JStr val); ("right", JStr val);
                     ("bottom", JStr val); ("left", JStr val)])])).
Proof.
  intros Hne Hbs. apply goodStyle_setProp; [exact Hbs|done|].
  split; [apply NoDup_singleton|].
  intros k y Hin. apply list_elem_of_singleton in Hin. injection Hin as -> ->.
  right. split; [done|]. split; [done|]. by exists val, val, val, val.
Qed.

Lemma buildBlockStyle_good attrs irStyle :
  goodStyle (Renderer.buildBlockStyle attrs irStyle).1.
Proof.
  unfold Renderer.buildBlockStyle.
  assert (∀ (o : option string) v,
            (match o with Some _ => None | None => Renderer.styleProp irStyle "color" end
                  = Some v ∨
                  match o with
                  | Some _ => None
                  | None => Renderer.styleProp irStyle "background-color"
                  end = Some v) → v ≠ "") as Hsel.
  { intros [x|] v [H|H]; try done; by apply nonEmptyStr_Some in H. }
  destruct irStyle as [m|];
    repeat (apply when_fst;
            [|intros v [bs cls] Hv Hbs; cbn [fst];
              first [ eapply goodStyle_setIn;
                      [find_property
                      |first [ by apply nonEmptyStr_Some in Hv
                             | eapply Hsel; by left
                             | eapply Hsel; by right ]
                      |exact Hbs]
                    | apply goodStyle_padding; [|exact Hbs];
                      destruct (nonEmptyStr (padding attrs)) as [p|]; [|done];
                      cbn in Hv; by apply nonEmptyStr_Some in Hv ]]);
    apply goodStyle_nil.
Qed.

Lemma pushIf_str prop v : v ≠ "" → Renderer.pushIf prop (JStr v) = [prop +:+ ":" +:+ v].
Proof.
  intros Hv. unfold Renderer.pushIf, truthy. by destruct (decide (v = "")).
Qed.

Lemma blockGapOf_str v : v ≠ "" → Renderer.blockGapOf (JStr v) = ["gap:" +:+ v].
Proof.
  intros Hv. unfold Renderer.blockGapOf, truthy. by destruct (decide (v = "")).
Qed.

Lemma sidesOf_sides prefix t r b l :
  t ≠ "" → r ≠ "" → b ≠ "" → l ≠ "" →
  Renderer.sidesOf prefix
    (JObj [("top", JStr t); ("right", JStr r); ("bottom", JStr b); ("left", JStr l)])
  = [(prefix +:+ "-top") +:+ ":" +:+ t; (prefix +:+ "-right") +:+ ":" +:+ r;
     (prefix +:+ "-bottom") +:+ ":" +:+ b; (prefix +:+ "-left") +:+ ":" +:+ l].
Proof.
  intros Ht Hr Hb Hl. unfold Renderer.sidesOf.
  cbn [truthy Renderer.isObjectType andb getProp].
  set (o := [("top", JStr t); ("right", JStr r); ("bottom", JStr b); ("left", JStr l)]).
  assert (lookupProp o "top" = JStr t) as -> by reflexivity.
  assert (lookupProp o "right" = JStr r) as -> by reflexivity.
  assert (lookupProp o "bottom" = JStr b) as -> by reflexivity.
  assert (lookupProp o "left" = JStr l) as -> by reflexivity.
  by rewrite !pushIf_str.
Qed.

Ltac find_entry :=
  first [ by left
        | apply elem_of_cons; right; find_entry
        | apply elem_of_app; left; find_entry
        | apply elem_of_app; right; find_entry ].

Lemma goodStyle_declared bs p x :
  goodStyle bs → (p, x) ∈ leaves (JObj bs) →
  ∃ name, (p, name) ∈ cssProperties ∧
          (name +:+ ":" +:+ toStr x) ∈ Renderer.inlineStyles (JObj bs).
Proof.
  intros [Hnd Hall] Hin.
  apply elem_of_leaves_obj in Hin as (g & X & p1 & HgX & -> & Hin).
  destruct (Hall _ _ HgX) as (f & -> & _ & Hndf & Hf).
  apply elem_of_leaves_obj in Hin as (k & y & p2 & Hky & -> & Hin).
  pose proof (lookupProp_elem _ _ _ Hnd HgX) as Hg.
  pose proof (lookupProp_elem _ _ _ Hndf Hky) as Hk.
  destruct (Hf _ _ Hky) as [(v & name & -> & Hv & Hname)|(-> & -> & Hsides)].
  - apply list_elem_of_singleton in Hin. injection Hin as -> ->.
    exists name. split; [exact Hname|]. cbn [toStr].
    unfold cssProperties in Hname.
    repeat (apply elem_of_cons in Hname as [Hname|Hname];
            [simplify_eq;
             unfold Renderer.inlineStyles; cbn [getProp]; rewrite Hg; cbn [getProp];
             rewrite Hk, ?(pushIf_str _ v Hv), ?(blockGapOf_str v Hv); find_entry
            |]).
    by inversion Hname.
  - destruct Hsides as (t & r & b & l & -> & Ht & Hr & Hb & Hl).
    assert (∀ e, e ∈ Renderer.sidesOf "padding"
                       (JObj [("top", JStr t); ("right", JStr r);
                              ("bottom", JStr b); ("left", JStr l)]) →
                 e ∈ Renderer.inlineStyles (JObj bs)) as Hsub.
    { intros e He. unfold Renderer.inlineStyles. cbn [getProp]. rewrite Hg.
      cbn [getProp]. rewrite Hk. rewrite !elem_of_app. tauto. }
    rewrite sidesOf_sides in Hsub by done.
    cbn in Hin.
    repeat (apply elem_of_cons in Hin as [Hin|Hin];
            [injection Hin as -> ->;
             eexists; split; [find_property|]; apply Hsub; cbn [toStr]; find_entry
            |]).
    by inversion Hin.
Qed.

Lemma lookupProp_setProp_eq (o : obj) (k : string) (v : json) :
  lookupProp (setProp o k v) k = v.
Proof.
  induction o as [|[k0 v0] o IH]; cbn [setProp lookupProp].
  - by destruct (decide (k = k)).
  - destruct (decide (k0 = k)) as [->|Hne]; cbn [lookupProp].
    + by destruct (decide (k = k)).
    + by destruct (decide (k0 = k)).
Qed.

Lemma attachStyle_style ba bs :
  lookupProp ba "style" = JUndefined →
  spread (lookupProp (Renderer.attachStyle ba bs) "style") = bs ∧
  (bs = [] ∨ lookupProp (Renderer.attachStyle ba bs) "style" = JObj bs).
Proof.
  intros Hba. destruct bs as [|kv bs]; cbn [Renderer.attachStyle].
  - rewrite Hba. split; [done|by left].
  - rewrite lookupProp_setProp_eq. split; [done|by right].
Qed.

Lemma attachStyle_goodStyleValue cn ba cls bs :
  lookupProp ba "style" = JUndefined → goodStyle bs →
  goodStyleValue
    (lookupProp (Renderer.applyClassName cn (Renderer.attachStyle ba bs) cls).1 "style").
Proof.
  intros Hba Hbs. rewrite applyClassName_style.
  destruct (attachStyle_style ba bs Hba) as [Hsp Hcases].
  split; [by rewrite Hsp|]. rewrite Hsp. exact Hcases.
Qed.

Lemma blockStyleOf_good node tokens : goodStyleValue (blockStyleOf node tokens).
Proof.
  unfold blockStyleOf.
  pose proof (buildBlockStyle_good (attributes node) (style node)) as Hgood.
  destruct (type node).
  - (* heading *)
    unfold Renderer.headingParts.
    destruct (Renderer.buildBlockStyle _ _) as [bs classes]. cbn [fst] in Hgood.
    match goal with
    | |- context [let '(_, _) := ?acc in _] =>
        assert (lookupProp acc.1 "style" = JUndefined) as Hacc;
        [|destruct acc as [ba cls]]
    end.
    { repeat (apply when_fst;
              [|intros v [ba cls] _ Hba; cbn [fst];
                by rewrite lookupProp_setProp_ne]).
      done. }
    cbn [fst] in Hacc.
    destruct (Renderer.applyClassName _ _ _) as [ba' cls'] eqn:Hcn. cbn [fst].
    replace ba' with (Renderer.applyClassName (className node)
                        (Renderer.attachStyle ba bs) (cls ++ classes)).1
      by by rewrite Hcn.
    by apply attachStyle_goodStyleValue.
  - (* paragraph *)
    unfold Renderer.paragraphParts.
    destruct (Renderer.buildBlockStyle _ _) as [bs classes]. cbn [fst] in Hgood.
    match goal with
    | |- context [let '(_, _) := ?acc in _] =>
        assert (lookupProp acc.1 "style" = JUndefined) as Hacc;
        [|destruct acc as [ba cls]]
    end.
    { repeat (apply when_fst;
              [|intros v [ba cls] _ Hba; cbn [fst];
                by rewrite lookupProp_setProp_ne]).
      done. }
    cbn [fst] in Hacc.
    destruct (Renderer.applyClassName _ _ _) as [ba' cls'] eqn:Hcn. cbn [fst].
    replace ba' with (Renderer.applyClassName (className node)
                        (Renderer.attachStyle ba bs) (cls ++ classes)).1
      by by rewrite Hcn.
    by apply attachStyle_goodStyleValue.
  - split; [apply goodStyle_nil|by left].
  - split; [apply goodStyle_nil|by left].
  - split; [apply goodStyle_nil|by left].
  - split; [apply goodStyle_nil|by left].
  - (* group *)
    unfold Renderer.groupParts.
    destruct (Renderer.buildBlockStyle _ _) as [bs classes]. cbn [fst] in Hgood.
    match goal with
    | |- context [Renderer.attachStyle ?ba ?b] =>
        assert (goodStyle b) as Hgood2; [|generalize dependent b; intros bs2 Hgood2]
    end.
    { destruct (Renderer.styleProp (style node) "gap") as [g|] eqn:Hg; [|exact Hgood].
      apply (goodStyle_setIn bs "spacing" "blockGap" g "gap");
        [find_property|by apply nonEmptyStr_Some in Hg|exact Hgood]. }
    destruct (Renderer.applyClassName _ _ _) as [ba' cls'] eqn:Hcn. cbn [fst].
    match type of Hcn with
    | Renderer.applyClassName ?cn ?a ?c = _ =>
        replace ba' with (Renderer.applyClassName cn a c).1 by by rewrite Hcn
    end.
    by apply attachStyle_goodStyleValue.
  - split; [apply goodStyle_nil|by left].
  - split; [apply goodStyle_nil|by left].
Qed.

(** X8.  Inline style and style object agree for the styled blocks.  For a
    heading, paragraph or group node, every value in the style object that
    the renderer stores in the block attributes sits at a path for which
    [wpInlineStyle] has a CSS property, and the declaration of that property
    with that value is among the declarations of the inline style: no value
    of the object is missing from the markup. *)
Theorem inline_style_declares_every_value (node : IRNode) (tokens : DesignTokens)
    (path : list string) (value : json) :
  (path, value) ∈ leaves (JObj (spread (blockStyleOf node tokens))) →
  ∃ name, (path, name) ∈ cssProperties ∧
          (name +:+ ":" +:+ toStr value)
            ∈ Renderer.inlineStyles (blockStyleOf node tokens).
Proof.
  intros Hin. destruct (blockStyleOf_good node tokens) as [Hgood [Hnil|Hobj]].
  - rewrite Hnil in Hin. by inversion Hin.
  - destruct (goodStyle_declared _ _ _ Hgood Hin) as (name & Hname & Hentry).
    exists name. split; [exact Hname|]. by rewrite Hobj.
Qed.

Lemma inline_style_declares_every_value_witness :
  ∃ name, (["spacing"; "blockGap"], name) ∈ cssProperties ∧
          (name +:+ ":" +:+ "2rem")
            ∈ Renderer.inlineStyles (blockStyleOf styledGroup plainTokens).
Proof.
  apply (inline_style_declares_every_value styledGroup plainTokens
           ["spacing"; "blockGap"] (JStr "2rem")).
  vm_compute. find_entry.
Defined.

(** ** Attributes that the block comment carries in full *)

Lemma isNonEmpty_true v : v ≠ "" → Renderer.isNonEmpty v = true.
Proof. intros Hv. unfold Renderer.isNonEmpty. by destruct (decide (v = "")). Qed.

Lemma keptFields_setProp o k v :
  keptFields o = true → keptValue v = true → keptFields (setProp o k v) = true.
Proof.
  intros Ho Hv. induction o as [|[k0 v0] o IH]; cbn [setProp].
  - unfold keptFields. cbn [forallb snd]. by rewrite Hv.
  - unfold keptFields in Ho. cbn [forallb snd] in Ho.
    apply andb_true_iff in Ho as [Hv0 Ho].
    destruct (decide (k0 = k)); unfold keptFields; cbn [forallb snd].
    + by rewrite Hv.
    + rewrite Hv0. by apply IH.
Qed.

Lemma goodStyle_kept bs : goodStyle bs → keptFields bs = true.
Proof.
  intros [_ Hall]. unfold keptFields. apply forallb_forall.
  intros [g x] Hin%list_elem_of_In. cbn [snd].
  destruct (Hall _ _ Hin) as (f & -> & Hne & _ & Hf).
  rewrite keptValue_obj. apply andb_true_iff. split; [by destruct f|].
  unfold keptFields. apply forallb_forall.
  intros [k y] Hky%list_elem_of_In. cbn [snd].
  destruct (Hf _ _ Hky) as [(v & name & -> & Hv & _)|(_ & _ & Hsides)].
  - by apply isNonEmpty_true.
  - destruct Hsides as (t & r & b & l & -> & Ht & Hr & Hb & Hl).
    cbn. by rewrite !isNonEmpty_true.
Qed.

Lemma attachStyle_kept ba bs :
  keptFields ba = true → goodStyle bs → keptFields (Renderer.attachStyle ba bs) = true.
Proof.
  intros Hba Hbs. destruct bs as [|kv bs]; [done|]. cbn [Renderer.attachStyle].
  apply keptFields_setProp; [done|]. rewrite keptValue_obj.
  by rewrite (goodStyle_kept _ Hbs).
Qed.

Lemma applyClassName_kept cn ba cls :
  keptFields ba = true → keptFields (Renderer.applyClassName cn ba cls).1 = true.
Proof.
  intros Hba. unfold Renderer.applyClassName.
  destruct (nonEmptyStr cn) as [c|] eqn:Hc; [|done]. cbn [fst].
  apply keptFields_setProp; [done|]. apply isNonEmpty_true.
  by apply nonEmptyStr_Some in Hc.
Qed.

Ltac kept_steps :=
  repeat (apply when_fst;
          [|intros v [ba cls] Hv Hba; cbn [fst];
            apply keptFields_setProp;
              [exact Hba
              |first [ reflexivity
                     | apply isNonEmpty_true; by apply nonEmptyStr_Some in Hv ]]]).

Lemma headingParts_kept node tokens :
  keptFields (Renderer.headingParts node tokens).1 = true.
Proof.
  unfold Renderer.headingParts.
  pose proof (buildBlockStyle_good (attributes node) (style node)) as Hgood.
  destruct (Renderer.buildBlockStyle _ _) as [bs classes]. cbn [fst] in Hgood.
  match goal with
  | |- context [let '(_, _) := ?acc in _] =>
      assert (keptFields acc.1 = true) as Hacc; [|destruct acc as [ba cls]]
  end.
  { kept_steps. reflexivity. }
  cbn [fst] in Hacc.
  pose proof (applyClassName_kept (className node) (Renderer.attachStyle ba bs)
                (cls ++ classes) (attachStyle_kept _ _ Hacc Hgood)) as H.
  by destruct (Renderer.applyClassName _ _ _).
Qed.

Lemma paragraphParts_kept node tokens :
  keptFields (Renderer.paragraphParts node tokens).1 = true.
Proof.
  unfold Renderer.paragraphParts.
  pose proof (buildBlockStyle_good (attributes node) (style node)) as Hgood.
  destruct (Renderer.buildBlockStyle _ _) as [bs classes]. cbn [fst] in Hgood.
  match goal with
  | |- context [let '(_, _) := ?acc in _] =>
      assert (keptFields acc.1 = true) as Hacc; [|destruct acc as [ba cls]]
  end.
  { kept_steps. reflexivity. }
  cbn [fst] in Hacc.
  pose proof (applyClassName_kept (className node) (Renderer.attachStyle ba bs)
                (cls ++ classes) (attachStyle_kept _ _ Hacc Hgood)) as H.
  by destruct (Renderer.applyClassName _ _ _).
Qed.

Lemma imageParts_kept node : keptFields (Renderer.imageParts node).1 = true.
Proof.
  unfold Renderer.imageParts.
  match goal with
  | |- context [Renderer.applyClassName ?cn ?ba ?cls] =>
      pose proof (applyClassName_kept cn ba cls) as H;
      destruct (Renderer.applyClassName cn ba cls) as [ba' cls']
  end.
  cbn [fst] in *. apply H.
  destruct (nonZero (width (attributes node))), (nonZero (height (attributes node)));
    reflexivity.
Qed.

Lemma buttonAttrs_kept node : keptFields (Renderer.buttonAttrs node) = true.
Proof.
  unfold Renderer.buttonAttrs.
  destruct (Renderer.buttonVariant _) as [ba cls] eqn:Hv.
  apply applyClassName_kept.
  unfold Renderer.buttonVariant in Hv.
  repeat (destruct (decide _) in Hv; [by injection Hv as <- _|]).
  by injection Hv as <- _.
Qed.

Lemma listParts_kept node : keptFields (Renderer.listParts node).1 = true.
Proof.
  unfold Renderer.listParts.
  match goal with
  | |- context [Renderer.applyClassName ?cn ?ba ?cls] =>
      pose proof (applyClassName_kept cn ba cls) as H;
      destruct (Renderer.applyClassName cn ba cls) as [ba' cls']
  end.
  cbn [fst] in *. apply H. by destruct (default false _).
Qed.

Lemma spacerParts_kept node : keptFields (Renderer.spacerParts node).1 = true.
Proof.
  unfold Renderer.spacerParts, keptFields. cbn [fst forallb snd keptValue].
  rewrite isNonEmpty_true; [done|].
  unfold Renderer.spacerHeight, orStr.
  destruct (nonEmptyStr _) as [h|] eqn:Hh; [|done]. by apply nonEmptyStr_Some in Hh.
Qed.

Lemma groupParts_kept node : keptFields (Renderer.groupParts node).1 = true.
Proof.
  unfold Renderer.groupParts.
  pose proof (buildBlockStyle_good (attributes node) (style node)) as Hgood.
  destruct (Renderer.buildBlockStyle _ _) as [bs classes]. cbn [fst] in Hgood.
  match goal with
  | |- context [Renderer.attachStyle ?ba ?b] =>
      assert (goodStyle b) as Hgood2;
      [|assert (keptFields ba = true) as Hba;
        [|pose proof (attachStyle_kept ba b Hba Hgood2) as Hatt;
          generalize dependent (Renderer.attachStyle ba b); intros ba2 Hatt]]
  end.
  { destruct (Renderer.styleProp (style node) "gap") as [g|] eqn:Hg; [|exact Hgood].
    apply (goodStyle_setIn bs "spacing" "blockGap" g "gap");
      [find_property|by apply nonEmptyStr_Some in Hg|exact Hgood]. }
  { repeat (destruct (decide _)); reflexivity. }
  match goal with
  | |- context [Renderer.applyClassName ?cn ?ba ?cls] =>
      pose proof (applyClassName_kept cn ba cls Hatt) as H;
      destruct (Renderer.applyClassName cn ba cls) as [ba' cls']
  end.
  exact H.
Qed.

Lemma navigationParts_kept node : keptFields (Renderer.navigationParts node).1 = true.
Proof.
  unfold Renderer.navigationParts.
  match goal with
  | |- context [Renderer.applyClassName ?cn ?ba ?cls] =>
      pose proof (applyClassName_kept cn ba cls) as H;
      destruct (Renderer.applyClassName cn ba cls) as [ba' cls']
  end.
  cbn [fst] in *. by apply H.
Qed.

Lemma everyBlock_Block P name attrs inner :
  everyBlock P (Block name attrs inner) ↔ P name attrs ∧ Forall (everyBlock P) inner.
Proof.
  cbn [everyBlock].
  assert ((fix all (l : list Markup) : Prop :=
             match l with
             | [] => True
             | x :: rest => everyBlock P x ∧ all rest
             end) inner ↔ Forall (everyBlock P) inner) as ->; [|done].
  induction inner as [|x l IH]; [by split; [constructor|]|].
  rewrite Forall_cons, IH. done.
Qed.

Lemma everyBlock_leaf P name attrs html :
  P name attrs → everyBlock P (Block name attrs [Html html]).
Proof. intros H. cbn. done. Qed.

Lemma everyBlock_div P name attrs openTag items :
  P name attrs → Forall (everyBlock P) items →
  everyBlock P
    (Block name attrs
       ([Html (openTag +:+ NL)] ++ separated (Html (NL +:+ NL)) items ++
        [Html (NL +:+ "</div>")])).
Proof.
  intros HP Hitems. apply everyBlock_Block. split; [done|].
  apply Forall_app. split; [by repeat constructor|].
  apply Forall_app. split; [|by repeat constructor].
  by apply separated_Forall.
Qed.

(** X9.  The block comment carries the attributes of a node in full: for
    every block that [renderNode] emits for a node, at any depth of groups,
    [cleanObj] returns the attribute object handed to [block] unchanged.  No
    renderer of a node builds an undefined, null or empty value. *)
Theorem node_blocks_written_in_full (node : IRNode) (tokens : DesignTokens) :
  everyBlock (λ _ attrs, Renderer.cleanObj attrs = attrs) (renderNodeTree node tokens).
Proof.
  set (P := λ (_ : string) (attrs : obj), Renderer.cleanObj attrs = attrs).
  assert (∀ name attrs, keptFields attrs = true → P name attrs) as Hkept.
  { intros name attrs H. by apply cleanObj_fixed. }
  induction node as [t c a ch m s cn IH] using IRNode_tree_ind.
  destruct t; cbn [renderNodeTree].
  - match goal with
    | |- context [Renderer.headingParts ?n tokens] =>
        pose proof (headingParts_kept n tokens) as H;
        destruct (Renderer.headingParts n tokens) as [ba html]
    end. cbv beta iota. cbn [fst] in H.
    apply (everyBlock_leaf P). by apply Hkept.
  - match goal with
    | |- context [Renderer.paragraphParts ?n tokens] =>
        pose proof (paragraphParts_kept n tokens) as H;
        destruct (Renderer.paragraphParts n tokens) as [ba html]
    end. cbv beta iota. cbn [fst] in H.
    apply (everyBlock_leaf P). by apply Hkept.
  - match goal with
    | |- context [Renderer.imageParts ?n] =>
        pose proof (imageParts_kept n) as H;
        destruct (Renderer.imageParts n) as [ba html]
    end. cbv beta iota. cbn [fst] in H.
    apply (everyBlock_leaf P). by apply Hkept.
  - apply (everyBlock_Block P). split; [by apply Hkept|].
    constructor; [exact I|]. constructor; [|by repeat constructor].
    apply (everyBlock_leaf P), Hkept, buttonAttrs_kept.
  - match goal with
    | |- context [Renderer.listParts ?n] =>
        pose proof (listParts_kept n) as H;
        destruct (Renderer.listParts n) as [ba html]
    end. cbv beta iota. cbn [fst] in H.
    apply (everyBlock_leaf P). by apply Hkept.
  - match goal with
    | |- context [Renderer.spacerParts ?n] =>
        pose proof (spacerParts_kept n) as H;
        destruct (Renderer.spacerParts n) as [ba html]
    end. cbv beta iota. cbn [fst] in H.
    apply (everyBlock_leaf P). by apply Hkept.
  - match goal with
    | |- context [Renderer.groupParts ?n] =>
        pose proof (groupParts_kept n) as H;
        destruct (Renderer.groupParts n) as [ba openTag]
    end. cbv beta iota. cbn [fst] in H.
    apply (everyBlock_div P); [by apply Hkept|].
    destruct ch as [cs|]; [|constructor].
    induction IH as [|x cs Hx _ IHcs]; [constructor|]. by constructor.
  - match goal with
    | |- context [Renderer.navigationParts ?n] =>
        pose proof (navigationParts_kept n) as H;
        destruct (Renderer.navigationParts n) as [ba openTag]
    end. cbv beta iota. cbn [fst] in H.
    apply (everyBlock_div P); [by apply Hkept|].
    apply Forall_forall. intros x Hx. apply list_elem_of_fmap in Hx as (l & -> & _).
    apply (everyBlock_leaf P). by apply Hkept.
  - exact I.
Qed.

(** ** The block structure of sections and templates *)

Lemma renderColumnTree_flatten col tokens :
  flatten (renderColumnTree col tokens) = Renderer.renderColumn col tokens.
Proof.
  unfold renderColumnTree, Renderer.renderColumn.
  rewrite flatten_div_block.
  assert (List.map flatten (List.map (λ c, renderNodeTree c tokens) col)
          = List.map (λ c, Renderer.renderNode c tokens) col) as ->.
  { rewrite List.map_map. apply List.map_ext. intros c. apply renderNodeTree_flatten. }
  by rewrite !append_assoc.
Qed.

Lemma map_renderNodeTree_flatten cs tokens :
  List.map flatten (List.map (λ c, renderNodeTree c tokens) cs)
  = List.map (λ c, Renderer.renderNode c tokens) cs.
Proof.
  rewrite List.map_map. apply List.map_ext. intros c. apply renderNodeTree_flatten.
Qed.

Lemma flattenAll_singleton m : flattenAll [m] = flatten m.
Proof. cbn [flattenAll foldr]. by rewrite append_nil_r. Qed.

Lemma renderChildrenForLayoutTree_flatten section tokens :
  flattenAll (renderChildrenForLayoutTree section tokens)
  = Renderer.renderChildrenForLayout section tokens.
Proof.
  unfold renderChildrenForLayoutTree, Renderer.renderChildrenForLayout.
  destruct (decide (layout_type (layout section) = "columns")).
  - rewrite flattenAll_singleton, flatten_div_block.
    assert (List.map flatten
              (List.map (λ col, renderColumnTree col tokens)
                 (Renderer.columnChunks section))
            = List.map (λ col, Renderer.renderColumn col tokens)
                (Renderer.columnChunks section)) as ->.
    { rewrite List.map_map. apply List.map_ext. intros col.
      apply renderColumnTree_flatten. }
    by rewrite !append_assoc.
  - destruct (decide (layout_type (layout section) = "grid")).
    + rewrite flattenAll_singleton, flatten_div_block, map_renderNodeTree_flatten.
      by rewrite !append_assoc.
    + by rewrite flattenAll_separated, map_renderNodeTree_flatten.
Qed.

Lemma renderSection_parts section tokens :
  Renderer.renderSection section tokens =
  let '(name, attrs, before, after) := sectionParts section in
  Renderer.block name attrs
    (before +:+ Renderer.renderChildrenForLayout section tokens +:+ after).
Proof.
  unfold Renderer.renderSection, sectionParts.
  destruct (match background section with
            | Some bg => if decide (bg_type bg = "image") then Some bg else None
            | None => None
            end) as [bg|].
  - destruct (Renderer.applyClassName _ _ _) as [coverAttrs coverClasses].
    f_equal. cbn [join]. by rewrite !append_assoc.
  - destruct (match background section with
              | Some bg => _
              | None => _
              end) as [groupStyle cssClasses].
    destruct (Renderer.applyClassName _ _ _) as [groupAttrs cssClasses2].
    f_equal. by rewrite !append_assoc.
Qed.

Lemma renderSectionTree_flatten section tokens :
  flatten (renderSectionTree section tokens) = Renderer.renderSection section tokens.
Proof.
  rewrite renderSection_parts. unfold renderSectionTree.
  destruct (sectionParts section) as [[[name attrs] before] after].
  rewrite flatten_Block, !flattenAll_app, renderChildrenForLayoutTree_flatten.
  cbn [flattenAll foldr flatten]. by rewrite !append_nil_r.
Qed.

Lemma renderColumnTree_wrapped col tokens : Wrapped (renderColumnTree col tokens).
Proof.
  apply Wrapped_block; [done|done|].
  apply Forall_app. split; [by repeat constructor|].
  apply Forall_app. split; [|by repeat constructor].
  apply separated_Forall; [constructor|].
  apply Forall_forall. intros x Hx. apply list_elem_of_fmap in Hx as (c & -> & _).
  apply renderNodeTree_wrapped.
Qed.

Lemma map_renderNodeTree_wrapped cs tokens :
  Forall Wrapped (separated (Html (NL +:+ NL))
                    (List.map (λ c, renderNodeTree c tokens) cs)).
Proof.
  apply separated_Forall; [constructor|].
  apply Forall_forall. intros x Hx. apply list_elem_of_fmap in Hx as (c & -> & _).
  apply renderNodeTree_wrapped.
Qed.

Lemma renderChildrenForLayoutTree_wrapped section tokens :
  Forall Wrapped (renderChildrenForLayoutTree section tokens).
Proof.
  unfold renderChildrenForLayoutTree.
  destruct (decide (layout_type (layout section) = "columns")).
  - constructor; [|constructor]. apply Wrapped_block; [done|done|].
    apply Forall_app. split; [by repeat constructor|].
    apply Forall_app. split; [|by repeat constructor].
    apply separated_Forall; [constructor|].
    apply Forall_forall. intros x Hx. apply list_elem_of_fmap in Hx as (c & -> & _).
    apply renderColumnTree_wrapped.
  - destruct (decide (layout_type (layout section) = "grid")).
    + constructor; [|constructor]. apply Wrapped_block; [done|done|].
      apply Forall_app. split; [by repeat constructor|].
      apply Forall_app. split; [|by repeat constructor].
      apply map_renderNodeTree_wrapped.
    + apply map_renderNodeTree_wrapped.
Qed.

Lemma sectionParts_name section :
  (sectionParts section).1.1.1 = "cover" ∨ (sectionParts section).1.1.1 = "group".
Proof.
  unfold sectionParts.
  destruct (match background section with
            | Some bg => if decide (bg_type bg = "image") then Some bg else None
            | None => None
            end) as [bg|].
  - destruct (Renderer.applyClassName _ _ _). by left.
  - destruct (match background section with
              | Some bg => _
              | None => _
              end) as [groupStyle cssClasses].
    destruct (Renderer.applyClassName _ _ _). by right.
Qed.

Lemma renderSectionTree_wrapped section tokens :
  Wrapped (renderSectionTree section tokens).
Proof.
  unfold renderSectionTree. pose proof (sectionParts_name section) as Hname.
  destruct (sectionParts section) as [[[name attrs] before] after]. cbn [fst] in Hname.
  apply Wrapped_block; [by destruct Hname as [-> | ->]..|].
  apply Forall_app. split; [by repeat constructor|].
  apply Forall_app. split; [|by repeat constructor].
  apply renderChildrenForLayoutTree_wrapped.
Qed.

(** X10.  The button wrapping holds for whole templates and sections.
    [renderTemplateTree] and [renderSectionTree] write out to the strings
    that [renderTemplate] and [renderSection] return, and in them, through
    cover, group, columns and column blocks down to the nodes, a button block
    occurs only as the single block of a buttons block. *)
Theorem template_buttons_wrapped (sections : list IRSection) (tokens : DesignTokens)
    (hasHeader hasFooter : bool) :
  flattenAll (renderTemplateTree sections tokens hasHeader hasFooter)
    = Renderer.renderTemplate sections tokens hasHeader hasFooter ∧
  Forall Wrapped (renderTemplateTree sections tokens hasHeader hasFooter) ∧
  ∀ section, flatten (renderSectionTree section tokens)
               = Renderer.renderSection section tokens ∧
             Wrapped (renderSectionTree section tokens).
Proof.
  split; [|split].
  - unfold renderTemplateTree, Renderer.renderTemplate.
    rewrite flattenAll_separated. f_equal.
    assert (List.map flatten (List.map (λ s, renderSectionTree s tokens) sections)
            = List.map (λ s, Renderer.renderSection s tokens) sections) as Hmap.
    { rewrite List.map_map. apply List.map_ext. intros s.
      apply renderSectionTree_flatten. }
    destruct hasHeader, hasFooter; cbn [app];
      rewrite ?List.map_app; cbn [List.map flatten app];
      rewrite ?List.map_app; cbn [List.map flatten app];
      by rewrite Hmap.
  - unfold renderTemplateTree. apply separated_Forall; [constructor|].
    assert (Forall Wrapped (List.map (λ s, renderSectionTree s tokens) sections)) as Hs.
    { apply Forall_forall. intros x Hx. apply list_elem_of_fmap in Hx as (c & -> & _).
      apply renderSectionTree_wrapped. }
    destruct hasHeader, hasFooter; cbn [app];
      repeat first [ apply Forall_app; split | apply Forall_cons; split
                   | exact Hs | constructor ].
  - intros section. split; [apply renderSectionTree_flatten|apply renderSectionTree_wrapped].
Qed.

(** ** Escaping, character by character *)

Lemma escapeHtml_cons a s :
  Utils.escapeHtml (String a s) = htmlEntity a +:+ Utils.escapeHtml s.
Proof.
  unfold Utils.escapeHtml, htmlEntity. cbn [Utils.replaceAll].
  destruct (decide (a = "&"%char)) as [->|Hamp].
  { by rewrite !replaceAll_app. }
  cbn [Utils.replaceAll].
  destruct (decide (a = "<"%char)) as [->|Hlt].
  { by rewrite !replaceAll_app. }
  cbn [Utils.replaceAll].
  destruct (decide (a = ">"%char)) as [->|Hgt]; [done|].
  by rewrite append_cons, append_nil_l.
Qed.

Lemma escapeHtml_mapChars s : Utils.escapeHtml s = mapChars htmlEntity s.
Proof.
  induction s as [|a s IH]; [done|]. by rewrite escapeHtml_cons, IH.
Qed.

Lemma escapeAttr_mapChars s : Utils.escapeAttr s = mapChars attrEntity s.
Proof.
  induction s as [|a s IH]; [done|]. by rewrite escapeAttr_cons, IH.
Qed.

Ltac entity_cases H :=
  repeat case_decide; subst;
  rewrite ?append_cons, ?append_nil_l in H;
  try discriminate H;
  try (injection H; intros; subst; done).

Lemma htmlEntity_inj a b r1 r2 :
  htmlEntity a +:+ r1 = htmlEntity b +:+ r2 → a = b ∧ r1 = r2.
Proof.
  unfold htmlEntity. intros H. entity_cases H.
Qed.

Lemma attrEntity_inj a b r1 r2 :
  attrEntity a +:+ r1 = attrEntity b +:+ r2 → a = b ∧ r1 = r2.
Proof.
  unfold attrEntity. intros H. entity_cases H.
Qed.

Lemma mapChars_inj (f : ascii → string) :
  (∀ a r, f a +:+ r ≠ "") →
  (∀ a b r1 r2, f a +:+ r1 = f b +:+ r2 → a = b ∧ r1 = r2) →
  ∀ s t, mapChars f s = mapChars f t → s = t.
Proof.
  intros Hne Hinj. induction s as [|a s IH]; intros [|b t] H; cbn [mapChars] in H.
  - done.
  - symmetry in H. by apply Hne in H.
  - by apply Hne in H.
  - apply Hinj in H as [-> H]. by rewrite (IH t H).
Qed.

(** X11.  Escaping works character by character and loses nothing.
    [escapeHtml] writes the entity of the ampersand and of the two angle
    brackets and every other character as it is (the double quote too: its
    result is not fit for an attribute value), and two texts with the same
    [escapeHtml] result, or the same [escapeAttr] result, are the same
    text. *)
Theorem escaping_is_charwise_and_injective (s t : string) :
  Utils.escapeHtml s = mapChars htmlEntity s ∧
  (Utils.escapeHtml s = Utils.escapeHtml t → s = t) ∧
  (Utils.escapeAttr s = Utils.escapeAttr t → s = t).
Proof.
  split; [apply escapeHtml_mapChars|]. split.
  - rewrite !escapeHtml_mapChars. apply mapChars_inj.
    + intros a r. unfold htmlEntity. repeat case_decide; by rewrite append_cons.
    + apply htmlEntity_inj.
  - rewrite !escapeAttr_mapChars. apply mapChars_inj.
    + intros a r. unfold attrEntity. repeat case_decide; by rewrite append_cons.
    + apply attrEntity_inj.
Qed.

(** ** Chunking: the chunks exactly *)










(** ** Slugs *)

Lemma isSlugChar_dash : UtilsText.isSlugChar "-" = false.
Proof. reflexivity. Qed.

Lemma dashRuns_dashed b s : dashedFrom b (UtilsText.dashRuns b s) = true.
Proof.
  revert b. induction s as [|a s IH]; intros b; [done|].
  cbn [UtilsText.dashRuns]. destruct (UtilsText.isSlugChar a) eqn:Ha.
  - cbn [dashedFrom]. destruct (decide (a = "-"%char)) as [->|_]; [done|].
    by rewrite Ha, IH.
  - destruct b; [apply IH|]. cbn [dashedFrom].
    destruct (decide ("-"%char = "-"%char)); [|done]. by rewrite IH.
Qed.

Lemma dropTrailingDash_slug b s :
  dashedFrom b s = true → slugFrom b (UtilsText.dropTrailingDash s) = true.
Proof.
  revert b. induction s as [|a s IH]; intros b; [done|].
  cbn [dashedFrom UtilsText.dropTrailingDash].
  destruct (decide (a = "-"%char)) as [->|Ha].
  - intros H. apply andb_true_iff in H as [Hb Hs]. specialize (IH true Hs).
    destruct s as [|c s]; [by destruct (decide ("-"%char = "-"%char))|].
    cbn [slugFrom]. destruct (decide ("-"%char = "-"%char)); [|done].
    rewrite Hb, IH. cbn [andb]. rewrite andb_true_r.
    (* what follows the dash is not a dash, so something stays *)
    cbn [dashedFrom] in Hs. destruct (decide (c = "-"%char)); [done|].
    cbn [UtilsText.dropTrailingDash]. destruct s; [|done].
    by destruct (decide (c = "-"%char)).
  - intros H. apply andb_true_iff in H as [Hslug Hs]. specialize (IH false Hs).
    destruct s as [|c s].
    + destruct (decide (a = "-"%char)); [done|]. cbn [slugFrom].
      destruct (decide (a = "-"%char)); [done|]. by rewrite Hslug.
    + cbn [slugFrom]. destruct (decide (a = "-"%char)); [done|]. by rewrite Hslug, IH.
Qed.

Lemma dropEdgeDashes_slug s :
  dashedFrom false s = true → slugForm (UtilsText.dropEdgeDashes s) = true.
Proof.
  unfold slugForm. destruct s as [|a s]; [done|].
  cbn [UtilsText.dropEdgeDashes dashedFrom].
  destruct (decide (a = "-"%char)) as [->|Ha].
  - cbn [negb andb]. apply dropTrailingDash_slug.
  - intros H. apply dropTrailingDash_slug. cbn [dashedFrom].
    by destruct (decide (a = "-"%char)).
Qed.

Lemma slugify_slugForm name : slugForm (UtilsText.slugify name) = true.
Proof. apply dropEdgeDashes_slug, dashRuns_dashed. Qed.

Lemma isSlugChar_lower a : UtilsText.isSlugChar a = true → Cheerio.toLowerChar a = a.
Proof.
  unfold UtilsText.isSlugChar, Cheerio.toLowerChar. intros H.
  destruct ((65 <=? nat_of_ascii a)%nat && (nat_of_ascii a <=? 90)%nat) eqn:Hup; [|done].
  apply andb_true_iff in Hup as [H1 H2].
  apply Nat.leb_le in H1, H2.
  apply orb_true_iff in H as [H|H]; apply andb_true_iff in H as [H3 H4];
    apply Nat.leb_le in H3, H4; lia.
Qed.

Lemma lowerFrom_plain a s :
  (nat_of_ascii a < 128)%nat →
  Cheerio.lowerFrom 0 (String a s)
  = String (Cheerio.toLowerChar a) (Cheerio.lowerFrom 0 s).
Proof.
  intros Ha. cbn [Cheerio.lowerFrom].
  assert (∀ n r, (128 ≤ n < 256)%nat →
                 startsWith (String (ascii_of_nat n) r) (String a s) = false) as Hno.
  { intros n r Hn. cbn [startsWith]. rewrite bool_decide_eq_false_2; [done|].
    intros <-. rewrite nat_ascii_embedding in Ha; lia. }
  unfold Cheerio.kelvinSign, Cheerio.capitalIDot. cbn [utf8 foldr].
  by rewrite !Hno by lia.
Qed.

Lemma isSlugChar_ascii a : UtilsText.isSlugChar a = true → (nat_of_ascii a < 128)%nat.
Proof.
  unfold UtilsText.isSlugChar. intros H.
  apply orb_true_iff in H as [H|H]; apply andb_true_iff in H as [_ H];
    apply Nat.leb_le in H; lia.
Qed.

Lemma slugFrom_lower b s : slugFrom b s = true → Cheerio.toLowerCase s = s.
Proof.
  unfold Cheerio.toLowerCase.
  revert b. induction s as [|a s IH]; intros b; [done|].
  cbn [slugFrom].
  destruct (decide (a = "-"%char)) as [->|Ha].
  - intros H. apply andb_true_iff in H as [_ Hs].
    rewrite lowerFrom_plain by (by apply Nat.ltb_lt). by rewrite (IH _ Hs).
  - intros H. apply andb_true_iff in H as [Hslug Hs].
    rewrite lowerFrom_plain by (by apply isSlugChar_ascii).
    by rewrite (IH _ Hs), (isSlugChar_lower a Hslug).
Qed.

Lemma slugFrom_dashRuns b p s :
  (b = true → p = true) → slugFrom p s = true → UtilsText.dashRuns b s = s.
Proof.
  revert b p. induction s as [|a s IH]; intros b p Hb; [done|].
  cbn [slugFrom UtilsText.dashRuns].
  destruct (decide (a = "-"%char)) as [->|Ha].
  - rewrite isSlugChar_dash. intros H. apply andb_true_iff in H as [H Hs].
    apply andb_true_iff in H as [Hp _].
    destruct p; [done|]. destruct b; [by specialize (Hb eq_refl)|].
    f_equal. by apply (IH true true).
  - intros H. apply andb_true_iff in H as [Hslug Hs]. rewrite Hslug.
    f_equal. by apply (IH false false).
Qed.

Lemma slugFrom_dropTrailingDash p s :
  slugFrom p s = true → UtilsText.dropTrailingDash s = s.
Proof.
  revert p. induction s as [|a s IH]; intros p; [done|].
  cbn [slugFrom UtilsText.dropTrailingDash].
  destruct (decide (a = "-"%char)) as [->|Ha].
  - intros H. apply andb_true_iff in H as [H Hs]. apply andb_true_iff in H as [_ Hne].
    rewrite (IH _ Hs). by destruct s.
  - intros H. apply andb_true_iff in H as [_ Hs]. rewrite (IH _ Hs).
    destruct s; [|done]. by destruct (decide (a = "-"%char)).
Qed.

Lemma slugForm_fixed s : slugForm s = true → UtilsText.slugify s = s.
Proof.
  intros H. unfold UtilsText.slugify.
  rewrite (slugFrom_lower _ _ H), (slugFrom_dashRuns false true s); [|done|exact H].
  unfold slugForm in H. destruct s as [|a s]; [done|].
  cbn [UtilsText.dropEdgeDashes]. cbn [slugFrom] in H.
  destruct (decide (a = "-"%char)) as [->|Ha]; [done|].
  apply (slugFrom_dropTrailingDash true). cbn [slugFrom].
  by destruct (decide (a = "-"%char)).
Qed.

Lemma dashRuns_filter b s :
  filterChars UtilsText.isSlugChar (UtilsText.dashRuns b s)
  = filterChars UtilsText.isSlugChar s.
Proof.
  revert b. induction s as [|a s IH]; intros b; [done|].
  cbn [UtilsText.dashRuns filterChars].
  destruct (UtilsText.isSlugChar a) eqn:Ha.
  - cbn [filterChars]. by rewrite Ha, IH.
  - destruct b; [apply IH|]. cbn [filterChars]. rewrite isSlugChar_dash. apply IH.
Qed.

Lemma dropTrailingDash_filter s :
  filterChars UtilsText.isSlugChar (UtilsText.dropTrailingDash s)
  = filterChars UtilsText.isSlugChar s.
Proof.
  induction s as [|a s IH]; [done|]. cbn [UtilsText.dropTrailingDash].
  destruct s as [|c s].
  - destruct (decide (a = "-"%char)) as [->|]; [|done].
    cbn [filterChars]. by rewrite isSlugChar_dash.
  - cbn [filterChars] in *. by rewrite IH.
Qed.

Lemma dropEdgeDashes_filter s :
  filterChars UtilsText.isSlugChar (UtilsText.dropEdgeDashes s)
  = filterChars UtilsText.isSlugChar s.
Proof.
  destruct s as [|a s]; [done|]. cbn [UtilsText.dropEdgeDashes].
  destruct (decide (a = "-"%char)) as [->|].
  - rewrite dropTrailingDash_filter. cbn [filterChars]. by rewrite isSlugChar_dash.
  - apply dropTrailingDash_filter.
Qed.

Lemma slugify_filter name :
  filterChars UtilsText.isSlugChar (UtilsText.slugify name)
  = filterChars UtilsText.isSlugChar (Cheerio.toLowerCase name).
Proof. unfold UtilsText.slugify. by rewrite dropEdgeDashes_filter, dashRuns_filter. Qed.

Lemma slugForm_empty s :
  slugForm s = true → filterChars UtilsText.isSlugChar s = "" → s = "".
Proof.
  unfold slugForm. destruct s as [|a s]; [done|]. cbn [slugFrom filterChars].
  destruct (decide (a = "-"%char)); [done|].
  intros H. apply andb_true_iff in H as [Ha _]. by rewrite Ha.
Qed.

Lemma slugify_empty name :
  UtilsText.slugify name = "" ↔
  filterChars UtilsText.isSlugChar (Cheerio.toLowerCase name) = "".
Proof.
  rewrite <- slugify_filter. split.
  - by intros ->.
  - apply slugForm_empty, slugify_slugForm.
Qed.

(** X14.  [slugify] returns a slug: lower-case letters and digits, with
    single dashes between them only (no dash first or last, no two dashes in
    a row).  The names it leaves unchanged are exactly the slugs, so it is
    idempotent; and the letters and digits of the lower-cased name are all
    kept, in order. *)
Theorem slugify_slug (name : string) :
  slugForm (UtilsText.slugify name) = true ∧
  (UtilsText.slugify name = name ↔ slugForm name = true) ∧
  UtilsText.slugify (UtilsText.slugify name) = UtilsText.slugify name ∧
  filterChars UtilsText.isSlugChar (UtilsText.slugify name)
    = filterChars UtilsText.isSlugChar (Cheerio.toLowerCase name).
Proof.
  split; [apply slugify_slugForm|]. split; [|split].
  - split; [|apply slugForm_fixed]. intros H. rewrite <- H. apply slugify_slugForm.
  - apply slugForm_fixed, slugify_slugForm.
  - apply slugify_filter.
Qed.

(** ** Names and addresses in [functions.php] *)

Lemma slugFrom_prefix b s :
  slugFrom b s = true → allChars isPrefixChar (Utils.replaceAll "-"%char "_" s) = true.
Proof.
  revert b. induction s as [|a s IH]; intros b; [done|].
  cbn [slugFrom Utils.replaceAll].
  destruct (decide (a = "-"%char)) as [->|Ha].
  - intros H. apply andb_true_iff in H as [_ Hs].
    rewrite append_cons, append_nil_l. cbn [allChars]. by rewrite (IH _ Hs).
  - intros H. apply andb_true_iff in H as [Hslug Hs].
    cbn [allChars]. unfold isPrefixChar at 1. by rewrite Hslug, (IH _ Hs).
Qed.

(** X15.  The names [generateFunctionsPhp] derives from the title: the theme
    slug is a slug, and the prefix of the PHP function names holds only
    lower-case letters, digits and underscores.  The fallback name covers
    the empty title only: the slug, and with it the prefix, is empty exactly
    when the title is not empty and has no letter or digit. *)
Theorem php_names_are_safe (ir : IRDocument) :
  slugForm (FunctionsPhp.slug ir) = true ∧
  allChars isPrefixChar (FunctionsPhp.prefix ir) = true ∧
  (FunctionsPhp.slug ir = "" ↔
   title (metadata ir) ≠ "" ∧
   filterChars UtilsText.isSlugChar (Cheerio.toLowerCase (title (metadata ir))) = "") ∧
  (FunctionsPhp.prefix ir = "" ↔ FunctionsPhp.slug ir = "").
Proof.
  split; [apply slugify_slugForm|].
  split; [apply (slugFrom_prefix true), slugify_slugForm|]. split.
  - unfold FunctionsPhp.slug, orStr. cbn [nonEmptyStr].
    destruct (decide (title (metadata ir) = "")) as [Ht|Ht]; cbn [default].
    + split; [by vm_compute|by intros [? _]].
    + rewrite slugify_empty. split; [by split|by intros [_ ?]].
  - unfold FunctionsPhp.prefix. split; [|by intros ->].
    destruct (FunctionsPhp.slug ir) as [|a r]; [done|].
    cbn [Utils.replaceAll]. destruct (decide (a = "-"%char)); [|done].
    by rewrite append_cons.
Qed.

Lemma family_no_space f :
  occurs " " ("family=" +:+ Utils.replaceAll " "%char "+" f +:+ ":wght@400;500;600;700")
  = false.
Proof.
  rewrite !occurs_app, replaceAll_removes by done. reflexivity.
Qed.

Lemma buildGoogleFontsUrl_cases fonts :
  FunctionsPhp.buildGoogleFontsUrl fonts =
  let family f :=
    "family=" +:+ Utils.replaceAll " "%char "+" f +:+ ":wght@400;500;600;700" in
  let url families :=
    Some ("https://fonts.googleapis.com/css2?" +:+ join "&" families +:+
          "&display=swap") in
  match nonEmptyStr (fonts_heading fonts), nonEmptyStr (fonts_body fonts) with
  | Some h, Some b => if decide (b = h) then url [family h] else url [family h; family b]
  | Some h, None => url [family h]
  | None, Some b => url [family b]
  | None, None => None
  end.
Proof.
  unfold FunctionsPhp.buildGoogleFontsUrl. cbn [foldl]. unfold FunctionsPhp.addFont.
  destruct (nonEmptyStr (fonts_heading fonts)) as [h|];
    destruct (nonEmptyStr (fonts_body fonts)) as [b|]; cbv zeta.
  - rewrite (bool_decide_eq_false_2 (h ∈ (∅ : gset string)))
      by apply not_elem_of_empty.
    destruct (decide (b = h)) as [->|Hne].
    + rewrite bool_decide_eq_true_2; [done|].
      apply elem_of_union. left. by apply elem_of_singleton.
    + rewrite bool_decide_eq_false_2; [done|].
      intros [Hin|Hin]%elem_of_union; [by apply elem_of_singleton in Hin|].
      by apply not_elem_of_empty in Hin.
  - by rewrite (bool_decide_eq_false_2 (h ∈ (∅ : gset string)))
      by apply not_elem_of_empty.
  - by rewrite (bool_decide_eq_false_2 (b ∈ (∅ : gset string)))
      by apply not_elem_of_empty.
  - done.
Qed.

Lemma url_no_space (families : list string) :
  Forall (λ f, occurs " " f = false) families →
  occurs " " ("https://fonts.googleapis.com/css2?" +:+ join "&" families +:+
              "&display=swap") = false.
Proof.
  intros Hall. rewrite occurs_app, (occurs_app _ (join "&" families)).
  assert (occurs " " (join "&" families) = false) as ->; [|reflexivity].
  induction Hall as [|f [|g l] Hf Hl IH]; [done|done|].
  change (join "&" (f :: g :: l)) with (f +:+ "&" +:+ join "&" (g :: l)).
  by rewrite occurs_app, (occurs_app _ "&"), Hf, IH.
Qed.

(** X16.  [buildGoogleFontsUrl] returns null exactly when neither font is
    given; an address it returns holds no space; and when the body font is
    absent or the same as the heading font the address names the one family
    once. *)
Theorem google_fonts_url (fonts : Fonts) :
  (FunctionsPhp.buildGoogleFontsUrl fonts = None ↔
   nonEmptyStr (fonts_heading fonts) = None ∧ nonEmptyStr (fonts_body fonts) = None) ∧
  (∀ url, FunctionsPhp.buildGoogleFontsUrl fonts = Some url → occurs " " url = false) ∧
  (∀ font, nonEmptyStr (fonts_heading fonts) = Some font →
           nonEmptyStr (fonts_body fonts) = None ∨
           nonEmptyStr (fonts_body fonts) = Some font →
           FunctionsPhp.buildGoogleFontsUrl fonts = Some (oneFamilyUrl font)).
Proof.
  rewrite buildGoogleFontsUrl_cases. cbv zeta.
  destruct (nonEmptyStr (fonts_heading fonts)) as [h|];
    destruct (nonEmptyStr (fonts_body fonts)) as [b|].
  - split; [destruct (decide (b = h)); by split; [|intros [? _]]|]. split.
    + intros url. destruct (decide (b = h)); intros [= <-].
      * apply (url_no_space [_]). constructor; [apply family_no_space|constructor].
      * apply (url_no_space [_; _]).
        constructor; [apply family_no_space|].
        constructor; [apply family_no_space|constructor].
    + intros font [= <-] [?|[= ->]]; [done|].
      destruct (decide (h = h)); [|done]. cbn [join]. unfold oneFamilyUrl.
      by rewrite !append_assoc.
  - split; [by split; [|intros [? _]]|]. split.
    + intros url [= <-]. apply (url_no_space [_]).
      constructor; [apply family_no_space|constructor].
    + intros font [= <-] _. cbn [join]. unfold oneFamilyUrl.
      by rewrite !append_assoc.
  - split; [by split; [|intros [_ ?]]|]. split.
    + intros url [= <-]. apply (url_no_space [_]).
      constructor; [apply family_no_space|constructor].
    + intros font ?. done.
  - split; [done|]. split; [done|]. intros font ?. done.
Qed.

Lemma google_fonts_url_witness :
  FunctionsPhp.buildGoogleFontsUrl (mkFonts (Some "Open Sans") (Some "Open Sans"))
  = Some (oneFamilyUrl "Open Sans").
Proof.
  apply (proj2 (proj2 (google_fonts_url (mkFonts (Some "Open Sans") (Some "Open Sans"))))
           "Open Sans"); [reflexivity|by right].
Defined.

(** ** Model output: [sanitizeJSON] *)

Lemma blanked_cons a s :
  blanked (String a s) = String (UtilsText.blankChar a) (blanked s).
Proof. unfold blanked. cbn [mapChars]. by rewrite append_cons, append_nil_l. Qed.

Lemma blanked_app s t : blanked (s +:+ t) = blanked s +:+ blanked t.
Proof.
  induction s as [|a s IH]; [done|].
  by rewrite append_cons, !blanked_cons, append_cons, IH.
Qed.

Lemma blankChar_notControl c : UtilsText.isControl (UtilsText.blankChar c) = false.
Proof. unfold UtilsText.blankChar. by destruct (UtilsText.isControl c) eqn:Hc. Qed.

Lemma blanked_notControl s :
  allChars (λ c, negb (UtilsText.isControl c)) (blanked s) = true.
Proof.
  induction s as [|a s IH]; [done|]. rewrite blanked_cons. cbn [allChars].
  by rewrite blankChar_notControl, IH.
Qed.

Lemma allChars_unchars_app p l1 l2 :
  allChars p (Postprocessor.unchars (l1 ++ l2))
  = allChars p (Postprocessor.unchars l1) && allChars p (Postprocessor.unchars l2).
Proof. by rewrite unchars_app, allChars_app. Qed.

Lemma trimStart_allChars p s :
  allChars p s = true → allChars p (Postprocessor.trimStart s) = true.
Proof.
  unfold Postprocessor.trimStart. rewrite <- (unchars_chars s) at 1.
  destruct (dropSpaces_suffix (Postprocessor.chars s)) as [sp Hsp].
  rewrite Hsp at 1. rewrite allChars_unchars_app. intros H.
  by apply andb_true_iff in H as [_ H].
Qed.

Lemma trimEnd_allChars p s :
  allChars p s = true → allChars p (Postprocessor.trimEnd s) = true.
Proof.
  unfold Postprocessor.trimEnd. rewrite <- (unchars_chars s) at 1.
  destruct (dropSpacesEnd_prefix (Postprocessor.chars s)) as (sp & Hsp & _).
  rewrite Hsp at 1. rewrite allChars_unchars_app. intros H.
  by apply andb_true_iff in H as [H _].
Qed.

Lemma dropSpacesEnd_again l :
  Postprocessor.dropSpacesEnd (Postprocessor.dropSpacesEnd l)
  = Postprocessor.dropSpacesEnd l.
Proof.
  induction l as [|c l IH]; [done|]. rewrite dropSpacesEnd_cons.
  destruct (Postprocessor.dropSpacesEnd l) as [|d r] eqn:Hl.
  - destruct (Postprocessor.isSpace c) eqn:Hc; [done|].
    rewrite dropSpacesEnd_cons. cbn [Postprocessor.dropSpacesEnd]. by rewrite Hc.
  - by rewrite dropSpacesEnd_cons, IH.
Qed.

Lemma dropSpaces_head c l :
  Postprocessor.isSpace c = false → Postprocessor.dropSpaces (c :: l) = c :: l.
Proof. intros Hc. cbn [Postprocessor.dropSpaces]. by rewrite Hc. Qed.

(** What [dropSpaces] returns is empty or starts with a character that is
    not white space, and [dropSpacesEnd] keeps that. *)
Lemma dropSpaces_dropSpacesEnd_fixed l :
  Postprocessor.dropSpaces (Postprocessor.dropSpacesEnd (Postprocessor.dropSpaces l))
  = Postprocessor.dropSpacesEnd (Postprocessor.dropSpaces l).
Proof.
  induction l as [|c l IH]; [done|]. cbn [Postprocessor.dropSpaces].
  destruct (Postprocessor.isSpace c) eqn:Hc; [exact IH|].
  rewrite dropSpacesEnd_cons.
  destruct (Postprocessor.dropSpacesEnd l) as [|d r]; rewrite ?Hc;
    by rewrite dropSpaces_head.
Qed.

Lemma trim_again s : Postprocessor.trim (Postprocessor.trim s) = Postprocessor.trim s.
Proof.
  apply chars_inj. rewrite !chars_trim.
  by rewrite dropSpaces_dropSpacesEnd_fixed, dropSpacesEnd_again.
Qed.

(** Joining scanned lists at a boundary. *)
Lemma scanned_app_boundary l1 l2 :
  boundary (Postprocessor.unchars l2) = true →
  scanned l1 → scanned l2 → scanned (l1 ++ l2).
Proof.
  intros Hl2 H1 H2. induction l1 as [|c l1 IH]; [done|].
  pose proof (scanned_items _ H1) as Hit. apply Forall_cons in Hit as [Hc _].
  specialize (IH (scanned_tail _ _ H1)).
  rewrite <- app_comm_cons. destruct Hc as [Hc|(a & -> & Ha)].
  - by apply scanned_cons_space.
  - apply scanned_cons_byte; [|done].
    rewrite unchars_app, <- append_cons, spaceAt_boundary by done.
    by apply scanned_byte_inv.
Qed.

Lemma chars_app_boundary s x :
  boundary x = true →
  Postprocessor.chars (s +:+ x) = Postprocessor.chars s ++ Postprocessor.chars x.
Proof.
  intros Hx.
  assert (scanned (Postprocessor.chars s ++ Postprocessor.chars x)) as H.
  { apply scanned_app_boundary; [by rewrite unchars_chars|apply scanned_chars..]. }
  unfold scanned in H. by rewrite unchars_app, !unchars_chars in H.
Qed.

Lemma allSpace_boundary ws x : allSpace ws = true → boundary x = true → boundary (ws +:+ x) = true.
Proof.
  unfold allSpace. intros Hws Hx.
  destruct (chars_step ws) as [[-> _]|[(w & r & -> & Hw & _)|(a & r & -> & Ha & _ & Hc)]].
  - done.
  - rewrite append_assoc. by apply boundary_space.
  - rewrite Hc in Hws. cbn [forallb] in Hws. by rewrite Ha in Hws.
Qed.

Lemma dropSpaces_spaces sp l :
  forallb Postprocessor.isSpace sp = true →
  Postprocessor.dropSpaces (sp ++ l) = Postprocessor.dropSpaces l.
Proof.
  induction sp as [|c sp IH]; [done|]. cbn [forallb]. intros H.
  apply andb_true_iff in H as [Hc Hsp]. rewrite <- app_comm_cons.
  cbn [Postprocessor.dropSpaces]. rewrite Hc. by apply IH.
Qed.

Lemma dropSpacesEnd_spaces sp :
  forallb Postprocessor.isSpace sp = true → Postprocessor.dropSpacesEnd sp = [].
Proof.
  induction sp as [|c sp IH]; [done|]. cbn [forallb]. intros H.
  apply andb_true_iff in H as [Hc Hsp]. by rewrite dropSpacesEnd_cons, (IH Hsp), Hc.
Qed.

Lemma dropSpacesEnd_app_spaces l sp :
  forallb Postprocessor.isSpace sp = true →
  Postprocessor.dropSpacesEnd (l ++ sp) = Postprocessor.dropSpacesEnd l.
Proof.
  intros Hsp. induction l as [|c l IH].
  - by apply dropSpacesEnd_spaces.
  - rewrite <- app_comm_cons, !dropSpacesEnd_cons. by rewrite IH.
Qed.

Lemma last_cons {A} (l : list A) (d c : A) : List.last (d :: l) c = List.last l d.
Proof.
  revert d c. induction l as [|x l IH]; intros d c; [done|].
  change (List.last (d :: x :: l) c) with (List.last (x :: l) c).
  by rewrite !IH.
Qed.

Lemma dropSpacesEnd_last c l :
  Postprocessor.isSpace (List.last l c) = false →
  Postprocessor.dropSpacesEnd (c :: l) = c :: l.
Proof.
  revert c. induction l as [|d l IH]; intros c.
  - cbn [List.last]. intros Hc. cbn [Postprocessor.dropSpacesEnd]. by rewrite Hc.
  - rewrite last_cons. intros H. by rewrite dropSpacesEnd_cons, (IH d).
Qed.

Lemma trimStart_spaces ws s :
  allSpace ws = true →
  Postprocessor.trimStart (ws +:+ s) = Postprocessor.trimStart s.
Proof.
  unfold allSpace. intros Hws.
  assert (Postprocessor.chars (ws +:+ s)
          = Postprocessor.chars ws ++ Postprocessor.chars s) as Hc.
  { assert (∀ l, forallb Postprocessor.isSpace l = true →
                 scanned (l ++ Postprocessor.chars s)) as Hl.
    { induction l as [|c l IH]; [intros _; apply scanned_chars|].
      cbn [forallb]. intros H. apply andb_true_iff in H as [Hc Hl].
      rewrite <- app_comm_cons. apply scanned_cons_space; [done|by apply IH]. }
    specialize (Hl _ Hws). unfold scanned in Hl.
    by rewrite unchars_app, !unchars_chars in Hl. }
  unfold Postprocessor.trimStart. by rewrite Hc, dropSpaces_spaces.
Qed.

Lemma stripSuffixFence_app p : UtilsText.stripSuffixFence (p +:+ "```") = Some p.
Proof.
  induction p as [|a p IH]; [done|]. rewrite append_cons.
  cbn [UtilsText.stripSuffixFence].
  destruct (decide (String a (p +:+ "```") = "```")) as [Heq|_].
  - exfalso. injection Heq as _ Heq. destruct p as [|b p]; [done|].
    rewrite append_cons in Heq. injection Heq as _ Heq.
    destruct p as [|c p]; [done|]. rewrite append_cons in Heq. injection Heq as _ Heq.
    destruct p as [|d p]; [done|]. by rewrite append_cons in Heq.
  - by rewrite IH.
Qed.

(** Blanking looks at one byte at a time, and no byte of a white-space
    character outside ASCII is a control character or a space. *)
Lemma startsWith_blanked w s :
  allChars plainByte w = true →
  startsWith w (blanked s) = startsWith w s.
Proof.
  revert s. induction w as [|a w IH]; intros s; [done|].
  cbn [allChars]. intros H. apply andb_true_iff in H as [Ha Hw].
  destruct s as [|b s]; [done|]. rewrite blanked_cons.
  cbn [startsWith]. rewrite (IH _ Hw). f_equal.
  unfold plainByte in Ha. apply andb_true_iff in Ha as [Hc Hsp].
  apply negb_true_iff in Hc, Hsp. apply bool_decide_eq_false in Hsp.
  unfold UtilsText.blankChar. destruct (UtilsText.isControl b) eqn:Hb; [|done].
  rewrite !bool_decide_eq_false_2; [done| |done].
  intros ->. by rewrite Hb in Hc.
Qed.

Lemma wide_plain w : w ∈ Postprocessor.wideSpaces → allChars plainByte w = true.
Proof.
  revert w. apply wideSpaces_cases.
  unfold Postprocessor.wideSpaces. cbn [app List.map].
  repeat (constructor; [by vm_compute|]). constructor.
Qed.

Lemma blanked_plain w : allChars plainByte w = true → blanked w = w.
Proof.
  induction w as [|a w IH]; [done|]. cbn [allChars]. intros H.
  apply andb_true_iff in H as [Ha Hw]. rewrite blanked_cons, (IH Hw).
  unfold plainByte in Ha. apply andb_true_iff in Ha as [Hc _].
  apply negb_true_iff in Hc. unfold UtilsText.blankChar. by rewrite Hc.
Qed.

Lemma blanked_space w :
  Postprocessor.isSpace w = true → Postprocessor.isSpace (blanked w) = true.
Proof.
  intros H. apply isSpace_cases in H as [(a & -> & Ha)|Hw].
  - apply is_space_cases in Ha.
    repeat (apply elem_of_cons in Ha as [-> | Ha]; [reflexivity|]).
    by apply elem_of_nil in Ha.
  - rewrite blanked_plain by (by apply wide_plain). apply isSpace_cases. by right.
Qed.

Lemma chars_blanked s :
  Postprocessor.chars (blanked s) = List.map blanked (Postprocessor.chars s).
Proof.
  induction s as [|w r Hw Hc IH|a r Ha Hat Hc IH] using chars_ind; [done| |].
  - rewrite Hc, blanked_app. cbn [List.map]. rewrite <- IH.
    apply chars_space. by apply blanked_space.
  - rewrite Hc, blanked_cons. cbn [List.map]. rewrite <- IH.
    unfold UtilsText.blankChar at 1. destruct (UtilsText.isControl a) eqn:Hctl.
    + rewrite (blanked_cons a ""). unfold UtilsText.blankChar. rewrite Hctl.
      rewrite <- (append_nil_l (blanked r)), <- append_cons.
      by apply chars_space.
    + assert (blanked (String a "") = String a "") as ->.
      { rewrite blanked_cons. unfold UtilsText.blankChar. by rewrite Hctl. }
      apply chars_byte. cbn [Postprocessor.spaceAt] in *.
      destruct (Ascii.is_space a); [done|].
      rewrite <- Hat. apply find_ext_in. intros w Hin.
      replace (String a (blanked r)) with (blanked (String a r))
        by (rewrite blanked_cons; unfold UtilsText.blankChar; by rewrite Hctl).
      by apply startsWith_blanked, wide_plain.
Qed.

Lemma solid_blanked c :
  isItem c → solid c = true →
  blanked c = c ∧ Postprocessor.isSpace c = false.
Proof.
  unfold solid. intros Hit H. apply andb_true_iff in H as [Hs Hc].
  apply negb_true_iff in Hs. split; [|done].
  destruct Hit as [Hsp|(a & -> & _)]; [by rewrite Hsp in Hs|].
  cbn [allChars] in Hc. rewrite andb_true_r in Hc. apply negb_true_iff in Hc.
  rewrite blanked_cons. unfold UtilsText.blankChar. by rewrite Hc.
Qed.

Lemma last_map {A B} (f : A → B) (l : list A) (d : A) :
  List.last (List.map f l) (f d) = f (List.last l d).
Proof.
  revert d. induction l as [|x l IH]; intros d; [done|].
  cbn [List.map]. by rewrite !last_cons, IH.
Qed.

Lemma last_cons_in {A} (l : list A) (c : A) : List.last l c ∈ c :: l.
Proof.
  revert c. induction l as [|x l IH]; intros c; [by left|].
  rewrite last_cons. right. apply IH.
Qed.

Lemma trim_blanked_solid body :
  solidEnds body = true → Postprocessor.trim (blanked body) = blanked body.
Proof.
  unfold solidEnds. intros H. apply chars_inj. rewrite chars_trim, chars_blanked.
  pose proof (chars_items body) as Hit.
  destruct (Postprocessor.chars body) as [|c rest]; [done|].
  apply andb_true_iff in H as [Hc Hl].
  assert (isItem (List.last rest c)) as Hlast.
  { rewrite Forall_forall in Hit. apply Hit, last_cons_in. }
  apply Forall_cons in Hit as [Hitc _].
  apply (solid_blanked _ Hitc) in Hc as [Hbc Hsc].
  apply (solid_blanked _ Hlast) in Hl as [Hbl Hsl].
  cbn [List.map]. rewrite Hbc, dropSpaces_head by done.
  apply dropSpacesEnd_last. rewrite <- Hbc at 1. by rewrite last_map, Hbl.
Qed.

Lemma backtick_boundary r : boundary (String "`" r) = true.
Proof. by vm_compute. Qed.

(** X17.  [sanitizeJSON] returns text without control characters and
    without white space at either end; and it unwraps a fenced answer: for a
    body that starts and ends with a character that is neither white space
    nor a control character, wrapped in a json fence with any white space
    inside the fence, the result is the body with its control characters
    (line breaks too) replaced by spaces.  White space is every character
    of [\s], inside and outside ASCII. *)
Theorem sanitizeJSON_unwraps (raw : string) :
  allChars (λ c, negb (UtilsText.isControl c)) (UtilsText.sanitizeJSON raw) = true ∧
  Postprocessor.trim (UtilsText.sanitizeJSON raw) = UtilsText.sanitizeJSON raw ∧
  ∀ ws1 body ws2,
    raw = "```json" +:+ ws1 +:+ body +:+ ws2 +:+ "```" →
    allSpace ws1 = true →
    allSpace ws2 = true →
    solidEnds body = true →
    UtilsText.sanitizeJSON raw = blanked body.
Proof.
  split; [|split].
  - unfold UtilsText.sanitizeJSON, Postprocessor.trim.
    apply trimEnd_allChars, trimStart_allChars, blanked_notControl.
  - apply trim_again.
  - intros ws1 body ws2 -> Hws1 Hws2 Hbody. unfold UtilsText.sanitizeJSON.
    assert (UtilsText.stripOpeningFence
              ("```json" +:+ ws1 +:+ body +:+ ws2 +:+ "```")
            = Postprocessor.trimStart (body +:+ ws2 +:+ "```")) as ->.
    { unfold UtilsText.stripOpeningFence. rewrite !append_cons, append_nil_l.
      cbn [UtilsText.stripPrefixCI]. cbn. by apply trimStart_spaces. }
    assert (UtilsText.stripClosingFence
              (Postprocessor.trimStart (body +:+ ws2 +:+ "```")) = body) as ->.
    { unfold UtilsText.stripClosingFence.
      assert (boundary (ws2 +:+ "```") = true) as Hb
        by (by apply allSpace_boundary).
      assert (Postprocessor.chars body = [] ∨
              Postprocessor.trimStart (body +:+ ws2 +:+ "```")
              = body +:+ ws2 +:+ "```" ∧
              Postprocessor.trimEnd (body +:+ ws2) = body) as [Hnil|[-> Hend]].
      { pose proof (chars_items body) as Hit. unfold solidEnds in Hbody.
        destruct (Postprocessor.chars body) as [|c rest] eqn:Hcb; [by left|]. right.
        apply andb_true_iff in Hbody as [Hc Hl].
        assert (isItem (List.last rest c)) as Hlast.
        { rewrite Forall_forall in Hit. apply Hit, last_cons_in. }
        apply Forall_cons in Hit as [Hitc _].
        apply (solid_blanked _ Hitc) in Hc as [_ Hsc].
        apply (solid_blanked _ Hlast) in Hl as [_ Hsl].
        split.
        - apply chars_inj. rewrite chars_trimStart, chars_app_boundary by done.
          rewrite Hcb, <- app_comm_cons. by apply dropSpaces_head.
        - apply chars_inj. rewrite chars_trimEnd.
          rewrite chars_app_boundary by (rewrite <- (append_nil_r ws2); by apply allSpace_boundary).
          rewrite dropSpacesEnd_app_spaces by done. rewrite Hcb.
          by apply dropSpacesEnd_last. }
      - assert (body = "") as -> by (by rewrite <- (unchars_chars body), Hnil).
        rewrite append_nil_l.
        rewrite <- (append_nil_r (ws2 +:+ "```")), append_assoc.
        rewrite trimStart_spaces by done. done.
      - rewrite <- append_assoc, stripSuffixFence_app. exact Hend. }
    by apply trim_blanked_solid.
Qed.

Lemma sanitizeJSON_unwraps_witness :
  UtilsText.sanitizeJSON ("```json" +:+ NL +:+ "{}" +:+ NL +:+ "```") = "{}".
Proof.
  apply (proj2 (proj2 (sanitizeJSON_unwraps _)) NL "{}" NL); reflexivity.
Defined.

(** ** The converter state *)

Lemma reducer_stateInv s a : stateInv s → stateInv (Reducer.reducer s a).
Proof.
  intros Hs. destruct a; unfold stateInv; cbn; try done.
  (* CLEAR_ERROR *)
  destruct (Reducer.ir s) eqn:Hir; cbn; done.
Qed.

Lemma foldl_reducer_stateInv actions s :
  stateInv s → stateInv (foldl Reducer.reducer s actions).
Proof.
  revert s. induction actions as [|a l IH]; intros s Hs; [done|].
  cbn [foldl]. by apply IH, reducer_stateInv.
Qed.

(** X18.  What holds of every state the converter reaches from the initial
    state, whatever the actions: an idle state is the initial state; while
    analyzing nothing is stored; an analyzed state has a document and no
    error; a generating state has no error; a done state has an archive; an
    error state has an error. *)
Theorem reachable_states (actions : list Reducer.Action) :
  let s := foldl Reducer.reducer Reducer.initialState actions in
  match Reducer.status s with
  | Reducer.Idle => s = Reducer.initialState
  | Reducer.Analyzing =>
      Reducer.ir s = None ∧ Reducer.stats s = None ∧ Reducer.zipBlob s = None ∧
      Reducer.error s = None
  | Reducer.Analyzed => Reducer.ir s ≠ None ∧ Reducer.error s = None
  | Reducer.Generating => Reducer.error s = None
  | Reducer.Done => Reducer.zipBlob s ≠ None
  | Reducer.Error => Reducer.error s ≠ None
  end.
Proof.
  intros s. change (stateInv s). by apply foldl_reducer_stateInv.
Qed.

(** X19.  An error does not lose the analysis.  From any analyzed state
    the converter reaches, an analysis error or a generation error followed
    by [CLEAR_ERROR] gives that state again, and so does a generation that
    was started and failed. *)
Theorem error_then_clear_restores (actions : list Reducer.Action)
    (e : Reducer.AppError) :
  let s := foldl Reducer.reducer Reducer.initialState actions in
  Reducer.status s = Reducer.Analyzed →
  Reducer.reducer (Reducer.reducer s (Reducer.ANALYSIS_ERROR e)) Reducer.CLEAR_ERROR = s ∧
  Reducer.reducer (Reducer.reducer s (Reducer.GENERATION_ERROR e)) Reducer.CLEAR_ERROR = s ∧
  Reducer.reducer
    (Reducer.reducer (Reducer.reducer s Reducer.START_GENERATION)
       (Reducer.GENERATION_ERROR e)) Reducer.CLEAR_ERROR = s.
Proof.
  intros s Hst.
  assert (stateInv s) as Hinv by by apply foldl_reducer_stateInv.
  unfold stateInv in Hinv. rewrite Hst in Hinv.
  destruct Hinv as [Hir Herr]. destruct s as [st i sts z er]. cbn in *. subst.
  by destruct i.
Qed.

Lemma error_then_clear_restores_witness :
  let s :=
    foldl Reducer.reducer Reducer.initialState
      [Reducer.START_ANALYSIS; Reducer.ANALYSIS_SUCCESS scenarioE_document sampleStats] in
  Reducer.reducer
    (Reducer.reducer (Reducer.reducer s Reducer.START_GENERATION)
       (Reducer.GENERATION_ERROR sampleError)) Reducer.CLEAR_ERROR = s.
Proof.
  apply (error_then_clear_restores
           [Reducer.START_ANALYSIS; Reducer.ANALYSIS_SUCCESS scenarioE_document sampleStats]
           sampleError).
  reflexivity.
Defined.

(** ** The summary of a reconciled document *)

Lemma reducer_walkNode_unfold t c a ch m s cn c0 :
  Reducer.walkNode (mkIRNode t c a ch m s cn) c0 =
  let c3 :=
    Reducer.mkCounts
      (Reducer.bump (Reducer.isDowngrade m) (Reducer.motionDowngrades c0))
      (Reducer.bump (Reducer.isImage t && Reducer.isExternal (src a))
         (Reducer.externalImages c0))
      (Reducer.bump (Reducer.hasClassName cn) (Reducer.classNameCount c0)) in
  match ch with
  | Some cs => Reducer.walkNodes cs c3
  | None => c3
  end.
Proof.
  cbn [Reducer.walkNode Reducer.motionDowngrades Reducer.externalImages
       Reducer.classNameCount].
  destruct ch as [cs|]; [|done]. cbv zeta.
  generalize (Reducer.mkCounts
                (Reducer.bump (Reducer.isDowngrade m) (Reducer.motionDowngrades c0))
                (Reducer.bump (Reducer.isImage t && Reducer.isExternal (src a))
                   (Reducer.externalImages c0))
                (Reducer.bump (Reducer.hasClassName cn) (Reducer.classNameCount c0))).
  induction cs as [|x cs IH]; intros c1; [done|].
  cbn [Reducer.walkNodes foldl]. apply IH.
Qed.

(** Two counters do not look at class names. *)
Lemma reducer_walkNode_erase n :
  ∀ c c',
    Reducer.motionDowngrades c = Reducer.motionDowngrades c' →
    Reducer.externalImages c = Reducer.externalImages c' →
    Reducer.motionDowngrades (Reducer.walkNode (eraseNode n) c)
      = Reducer.motionDowngrades (Reducer.walkNode n c') ∧
    Reducer.externalImages (Reducer.walkNode (eraseNode n) c)
      = Reducer.externalImages (Reducer.walkNode n c').
Proof.
  induction n as [t c0 a ch m s cn IH] using IRNode_tree_ind. intros c c' Hm Hi.
  cbn [eraseNode]. rewrite !reducer_walkNode_unfold. cbv zeta.
  destruct ch as [cs|]; [|cbn; by rewrite Hm, Hi].
  match goal with
  | |- context [Reducer.walkNodes (List.map eraseNode cs) ?c1] =>
      match goal with
      | |- context [Reducer.walkNodes cs ?c2] =>
          assert (Reducer.motionDowngrades c1 = Reducer.motionDowngrades c2 ∧
                  Reducer.externalImages c1 = Reducer.externalImages c2) as Hstart
            by (cbn; by rewrite Hm, Hi);
          generalize dependent c1; generalize dependent c2
      end
  end.
  induction IH as [|x cs Hx _ IHcs]; intros c2 c1 [Hm1 Hi1]; [done|].
  cbn [List.map Reducer.walkNodes foldl].
  apply IHcs. by apply Hx.
Qed.

Lemma reducer_walkNodes_erase ns :
  ∀ c c',
    Reducer.motionDowngrades c = Reducer.motionDowngrades c' →
    Reducer.externalImages c = Reducer.externalImages c' →
    Reducer.motionDowngrades (Reducer.walkNodes (List.map eraseNode ns) c)
      = Reducer.motionDowngrades (Reducer.walkNodes ns c') ∧
    Reducer.externalImages (Reducer.walkNodes (List.map eraseNode ns) c)
      = Reducer.externalImages (Reducer.walkNodes ns c').
Proof.
  induction ns as [|n ns IH]; intros c c' Hm Hi; [done|].
  cbn [List.map Reducer.walkNodes foldl].
  destruct (reducer_walkNode_erase n c c' Hm Hi) as [Hm1 Hi1]. by apply IH.
Qed.

Lemma reducer_walkSection_erase s c c' :
  Reducer.motionDowngrades c = Reducer.motionDowngrades c' →
  Reducer.externalImages c = Reducer.externalImages c' →
  Reducer.motionDowngrades (Reducer.walkSection c (eraseSection s))
    = Reducer.motionDowngrades (Reducer.walkSection c' s) ∧
  Reducer.externalImages (Reducer.walkSection c (eraseSection s))
    = Reducer.externalImages (Reducer.walkSection c' s).
Proof.
  intros Hm Hi. unfold Reducer.walkSection.
  cbn [eraseSection section_children section_motionIntent section_className].
  apply reducer_walkNodes_erase; cbn; by rewrite ?Hm, ?Hi.
Qed.

Lemma reducer_sections_erase ss :
  ∀ c c',
    Reducer.motionDowngrades c = Reducer.motionDowngrades c' →
    Reducer.externalImages c = Reducer.externalImages c' →
    Reducer.motionDowngrades (foldl Reducer.walkSection c (List.map eraseSection ss))
      = Reducer.motionDowngrades (foldl Reducer.walkSection c' ss) ∧
    Reducer.externalImages (foldl Reducer.walkSection c (List.map eraseSection ss))
      = Reducer.externalImages (foldl Reducer.walkSection c' ss).
Proof.
  induction ss as [|s ss IH]; intros c c' Hm Hi; [done|].
  cbn [List.map foldl].
  destruct (reducer_walkSection_erase s c c' Hm Hi) as [Hm1 Hi1]. by apply IH.
Qed.

Lemma allSections_erase d :
  Reducer.allSections (eraseDocument d) = List.map eraseSection (Reducer.allSections d).
Proof.
  unfold Reducer.allSections. cbn [eraseDocument header sections footer].
  rewrite !List.map_app. by destruct (header d), (footer d).
Qed.

(** The third counter adds one for every class name in walk order. *)
Lemma reducer_walkNode_classes n :
  ∀ c, Reducer.classNameCount (Reducer.walkNode n c)
       = (Reducer.classNameCount c + countClassNames (nodeClassNames n))%nat.
Proof.
  induction n as [t c0 a ch m s cn IH] using IRNode_tree_ind. intros c.
  rewrite reducer_walkNode_unfold. cbv zeta. cbn [nodeClassNames].
  unfold countClassNames. cbn [List.filter].
  assert (∀ l, length (if Reducer.hasClassName cn then cn :: l else l)
               = Reducer.bump (Reducer.hasClassName cn) (length l)) as Hb.
  { intros l. by destruct (Reducer.hasClassName cn). }
  rewrite Hb. destruct ch as [cs|].
  - match goal with
    | |- context [Reducer.walkNodes cs ?c1] =>
        assert (Reducer.classNameCount c1
                = Reducer.bump (Reducer.hasClassName cn) (Reducer.classNameCount c))
          as Hc1 by done;
        generalize dependent c1
    end.
    intros c1 Hc1.
    assert (Reducer.classNameCount (Reducer.walkNodes cs c1)
            = (Reducer.classNameCount c1
               + length (List.filter Reducer.hasClassName
                           (concat (List.map nodeClassNames cs))))%nat) as ->.
    { clear Hc1. revert c1. induction IH as [|x cs Hx _ IHcs]; intros c1.
      - cbn. lia.
      - cbn [Reducer.walkNodes foldl List.map concat].
        fold (Reducer.walkNodes cs (Reducer.walkNode x c1)).
        rewrite IHcs, Hx, List.filter_app, length_app. unfold countClassNames. lia. }
    rewrite Hc1. destruct (Reducer.hasClassName cn); cbn [Reducer.bump]; lia.
  - cbn [Reducer.classNameCount List.filter length].
    destruct (Reducer.hasClassName cn); cbn [Reducer.bump]; lia.
Qed.

Lemma reducer_walkNodes_classes ns :
  ∀ c, Reducer.classNameCount (Reducer.walkNodes ns c)
       = (Reducer.classNameCount c
          + countClassNames (concat (List.map nodeClassNames ns)))%nat.
Proof.
  induction ns as [|n ns IH]; intros c.
  - cbn. unfold countClassNames. cbn. lia.
  - cbn [Reducer.walkNodes foldl List.map concat].
    fold (Reducer.walkNodes ns (Reducer.walkNode n c)).
    rewrite IH, reducer_walkNode_classes. unfold countClassNames.
    rewrite List.filter_app, length_app. lia.
Qed.

Lemma reducer_walkSection_classes s c :
  Reducer.classNameCount (Reducer.walkSection c s)
  = (Reducer.classNameCount c + countClassNames (sectionClassNames s))%nat.
Proof.
  unfold Reducer.walkSection. rewrite reducer_walkNodes_classes.
  unfold sectionClassNames, countClassNames. cbn [List.filter Reducer.classNameCount].
  destruct (Reducer.hasClassName (section_className s)); cbn [Reducer.bump length]; lia.
Qed.

Lemma reducer_sections_classes ss :
  ∀ c, Reducer.classNameCount (foldl Reducer.walkSection c ss)
       = (Reducer.classNameCount c
          + countClassNames (concat (List.map sectionClassNames ss)))%nat.
Proof.
  induction ss as [|s ss IH]; intros c.
  - cbn. unfold countClassNames. cbn. lia.
  - cbn [foldl List.map concat]. rewrite IH, reducer_walkSection_classes.
    unfold countClassNames. rewrite List.filter_app, length_app. lia.
Qed.

Lemma documentClassNames_allSections d :
  documentClassNames d = concat (List.map sectionClassNames (Reducer.allSections d)).
Proof.
  unfold documentClassNames, Reducer.allSections.
  rewrite !List.map_app, !concat_app.
  destruct (header d), (footer d); cbn [List.map concat]; by rewrite ?app_nil_r.
Qed.

Lemma countClassNames_mono (R : option string → option string → Prop) l l' :
  (∀ b a, R b a → Reducer.hasClassName b = true → Reducer.hasClassName a = true) →
  Forall2 R l l' → (countClassNames l ≤ countClassNames l')%nat.
Proof.
  intros HR Hall. unfold countClassNames.
  induction Hall as [|b a l l' Hba _ IH]; [done|]. cbn [List.filter].
  specialize (HR b a Hba).
  destruct (Reducer.hasClassName b); [rewrite HR by done|];
    destruct (Reducer.hasClassName a); cbn [length]; lia.
Qed.

Lemma mergedWith_hasClassName (css : gset string) b a :
  mergedWith (λ c, classToken c ∧ c ∈ css) b a →
  Reducer.hasClassName b = true → Reducer.hasClassName a = true.
Proof.
  intros (adds & Hadds & ->) Hb.
  destruct (decide (adds = [])) as [->|Hne]; [done|].
  assert (Forall classToken adds) as Htok.
  { eapply Forall_impl; [exact Hadds|]. by intros c [? _]. }
  destruct (mergeClassName_merged b adds Hne Htok) as [-> Hm].
  unfold Reducer.hasClassName. cbn [nonEmptyStr].
  destruct (decide (join " " (mergedClasses b adds) = "")) as [Heq|]; [|done].
  exfalso. revert Heq. apply join_token_nonempty; [done|].
  by apply mergedClasses_token.
Qed.

(** X20.  The summary of a reconciled document.  [extractSummary] of the
    document that [postprocessClassNames] returns agrees with the summary of
    the input in every field but the number of class names, and that number
    does not go down. *)
Theorem summary_after_reconciliation (load : string → list DomNode) (ir : IRDocument)
    (rawHtml extractedCSS : option string) :
  let before := Reducer.extractSummary ir in
  let after :=
    Reducer.extractSummary
      (Postprocessor.postprocessClassNames load ir rawHtml extractedCSS) in
  Reducer.sectionCount after = Reducer.sectionCount before ∧
  Reducer.hasHeader after = Reducer.hasHeader before ∧
  Reducer.hasFooter after = Reducer.hasFooter before ∧
  Reducer.summary_designTokens after = Reducer.summary_designTokens before ∧
  Reducer.summary_motionDowngrades after = Reducer.summary_motionDowngrades before ∧
  Reducer.summary_externalImages after = Reducer.summary_externalImages before ∧
  Reducer.hasCustomCSS after = Reducer.hasCustomCSS before ∧
  (Reducer.summary_classNameCount before ≤ Reducer.summary_classNameCount after)%nat.
Proof.
  intros before after. subst before after.
  pose proof (postprocess_erase load ir rawHtml extractedCSS) as Her.
  pose proof (postprocess_classNames load ir rawHtml extractedCSS) as Hcls.
  set (ir' := Postprocessor.postprocessClassNames load ir rawHtml extractedCSS) in *.
  assert (∀ d, let c := foldl Reducer.walkSection (Reducer.mkCounts 0 0 0)
                          (Reducer.allSections d) in
               let c' := foldl Reducer.walkSection (Reducer.mkCounts 0 0 0)
                           (Reducer.allSections (eraseDocument d)) in
               Reducer.motionDowngrades c' = Reducer.motionDowngrades c ∧
               Reducer.externalImages c' = Reducer.externalImages c) as Hcount.
  { intros d. cbv zeta. rewrite allSections_erase.
    by apply reducer_sections_erase. }
  destruct (Hcount ir) as [Hm Hi]. destruct (Hcount ir') as [Hm' Hi'].
  rewrite Her in Hm', Hi'.
  unfold Reducer.extractSummary.
  cbn [Reducer.sectionCount Reducer.hasHeader Reducer.hasFooter
       Reducer.summary_designTokens Reducer.summary_motionDowngrades
       Reducer.summary_externalImages Reducer.hasCustomCSS
       Reducer.summary_classNameCount].
  assert (length (sections ir') = length (sections ir)) as Hlen.
  { apply (f_equal (λ d, length (sections d))) in Her.
    cbn [eraseDocument sections] in Her. by rewrite !length_map in Her. }
  assert (match header ir' with Some _ => true | None => false end
          = match header ir with Some _ => true | None => false end) as Hh.
  { apply (f_equal header) in Her. cbn [eraseDocument header] in Her.
    destruct (header ir'), (header ir); done. }
  assert (match footer ir' with Some _ => true | None => false end
          = match footer ir with Some _ => true | None => false end) as Hf.
  { apply (f_equal footer) in Her. cbn [eraseDocument footer] in Her.
    destruct (footer ir'), (footer ir); done. }
  assert (designTokens ir' = designTokens ir) as Hd.
  { by apply (f_equal designTokens) in Her. }
  assert (customCSS ir' = customCSS ir) as Hc.
  { by apply (f_equal customCSS) in Her. }
  split; [exact Hlen|].
  split; [exact Hh|].
  split; [exact Hf|].
  split; [exact Hd|].
  split; [by rewrite <- Hm', Hm|].
  split; [by rewrite <- Hi', Hi|].
  split; [by rewrite Hc|].
  rewrite !reducer_sections_classes, <- !documentClassNames_allSections.
  cbn [Reducer.classNameCount plus].
  eapply countClassNames_mono; [|exact Hcls].
  apply mergedWith_hasClassName.
Qed.

(** ** The two places that compute the key of an element *)

Lemma append_not_empty_r s t : t ≠ "" → s +:+ t ≠ "".
Proof.
  intros Ht. destruct s as [|a s]; [by rewrite append_nil_l|]. by rewrite append_cons.
Qed.

Lemma buildLeafKey_nonempty tag text extra k :
  Postprocessor.buildLeafKey tag text extra = Some k → k ≠ "".
Proof.
  unfold Postprocessor.buildLeafKey.
  destruct (Postprocessor.startsWithH tag).
  { destruct (decide _); [done|]. intros [= <-].
    apply append_not_empty_r. by rewrite append_cons. }
  destruct (decide (tag = "p")).
  { destruct (decide _); [done|]. by intros [= <-]. }
  destruct (decide (tag = "img")).
  { destruct (nonEmptyStr extra); [|done]. by intros [= <-]. }
  destruct (decide (tag = "button" ∨ tag = "a")).
  { destruct (decide _); [done|]. by intros [= <-]. }
  destruct (decide (tag = "ul" ∨ tag = "ol")); [|done].
  destruct (nonEmptyStr extra); [|done]. by intros [= <-].
Qed.

Lemma buildLeafKey_heading_extra tag text extra :
  Postprocessor.startsWithH tag = true →
  Postprocessor.buildLeafKey tag text extra = Postprocessor.buildLeafKey tag text None.
Proof. intros H. unfold Postprocessor.buildLeafKey. by rewrite H. Qed.

Lemma buildLeafKey_p_extra text extra :
  Postprocessor.buildLeafKey "p" text extra = Postprocessor.buildLeafKey "p" text None.
Proof. reflexivity. Qed.

Lemma buildLeafKey_other tag text extra :
  Postprocessor.startsWithH tag = false → tag ≠ "p" → tag ≠ "img" →
  ¬ (tag = "button" ∨ tag = "a") → ¬ (tag = "ul" ∨ tag = "ol") →
  Postprocessor.buildLeafKey tag text extra = None.
Proof.
  intros Hh Hp Hi Hb Hl. unfold Postprocessor.buildLeafKey. rewrite Hh.
  by repeat (destruct (decide _); [done|]).
Qed.

Lemma htmlLeafKey_leafTypeAndKey el :
  Postprocessor.htmlLeafKey el = snd <$> Postprocessor.leafTypeAndKey el.
Proof.
  unfold Postprocessor.htmlLeafKey, Postprocessor.leafTypeAndKey.
  set (tag := Cheerio.tagOf el).
  destruct (decide (tag = "")) as [|Hne]; [done|].
  assert (∀ (t : Postprocessor.LeafType) (key : option string),
            (∀ k, key = Some k → k ≠ "") →
            snd <$> (match (Some t, key) with
                     | (Some t0, Some k) =>
                         if decide (k = "") then None else Some (t0, k)
                     | _ => None
                     end) = key) as Hkey.
  { intros t [k|] Hk; [|done]. destruct (decide (k = "")) as [->|]; [|done].
    by destruct (Hk "" eq_refl). }
  destruct (Postprocessor.startsWithH tag) eqn:Hh.
  { assert (tag ≠ "img" ∧ ¬ (tag = "ul" ∨ tag = "ol")) as [Hi Hl].
    { split; [intros Heq|intros [Heq|Heq]]; by rewrite Heq in Hh. }
    destruct (decide (tag = "img")); [done|].
    destruct (decide (tag = "ul" ∨ tag = "ol")); [done|].
    rewrite Hkey; [by apply buildLeafKey_heading_extra|].
    intros k. apply buildLeafKey_nonempty. }
  destruct (decide (tag = "p")) as [Hp|Hp].
  { destruct (decide (tag = "img")) as [Hi|]; [by rewrite Hi in Hp|].
    destruct (decide (tag = "ul" ∨ tag = "ol")) as [[Hl|Hl]|]; [by rewrite Hl in Hp..|].
    rewrite Hkey; [by rewrite Hp|]. intros k. apply buildLeafKey_nonempty. }
  destruct (decide (tag = "img")) as [Hi|Hi].
  { rewrite Hkey; [by rewrite Hi|]. intros k. apply buildLeafKey_nonempty. }
  destruct (decide (tag = "button" ∨ tag = "a")) as [Hb|Hb].
  { destruct (decide (tag = "ul" ∨ tag = "ol")) as [[Hl|Hl]|].
    - destruct Hb as [Hb|Hb]; by rewrite Hl in Hb.
    - destruct Hb as [Hb|Hb]; by rewrite Hl in Hb.
    - rewrite Hkey; [done|]. intros k. apply buildLeafKey_nonempty. }
  destruct (decide (tag = "ul" ∨ tag = "ol")) as [Hl|Hl].
  { rewrite Hkey; [done|]. intros k. apply buildLeafKey_nonempty. }
  by rewrite buildLeafKey_other.
Qed.

Lemma elem_of_foldl_setAdd_keys {A} (f : A → option string) (els : list A) acc k :
  k ∈ foldl (λ keys el, match f el with
                        | Some k => Postprocessor.setAdd keys k
                        | None => keys
                        end) acc els
  ↔ k ∈ acc ∨ ∃ el, el ∈ els ∧ f el = Some k.
Proof.
  revert acc. induction els as [|el els IH]; intros acc; cbn [foldl].
  - split; [by left|]. intros [?|(el & Hel & _)]; [done|by inversion Hel].
  - rewrite IH. destruct (f el) as [k'|] eqn:Hf.
    + rewrite elem_of_setAdd. split.
      * intros [[?| ->]|(x & Hx & Hfx)]; [by left| |].
        -- right. exists el. split; [by left|done].
        -- right. exists x. split; [by right|done].
      * intros [?|(x & [-> |Hx]%elem_of_cons & Hfx)]; [by left; left| |].
        -- left. right. congruence.
        -- right. by exists x.
    + split.
      * intros [?|(x & Hx & Hfx)]; [by left|]. right. exists x. split; [by right|done].
      * intros [?|(x & [-> |Hx]%elem_of_cons & Hfx)]; [by left|congruence|].
        right. by exists x.
Qed.

(** X21.  The two places that compute the key of an original element
    agree: the key [collectHtmlLeafKeys] computes for an element is the key
    the index files the element under, and it is never empty.  So the keys
    of a container are exactly the index keys of the leaf elements below
    it. *)
Theorem html_keys_agree (el root : DomNode) (k : string) :
  Postprocessor.htmlLeafKey el = snd <$> Postprocessor.leafTypeAndKey el ∧
  (k ∈ Postprocessor.collectHtmlLeafKeys root ↔
   ∃ leaf t, leaf ∈ Cheerio.find Postprocessor.leafSelector root ∧
             Postprocessor.leafTypeAndKey leaf = Some (t, k)).
Proof.
  split; [apply htmlLeafKey_leafTypeAndKey|].
  unfold Postprocessor.collectHtmlLeafKeys. rewrite elem_of_foldl_setAdd_keys.
  split.
  - intros [H|(leaf & Hleaf & Hk)]; [by inversion H|].
    rewrite htmlLeafKey_leafTypeAndKey in Hk.
    destruct (Postprocessor.leafTypeAndKey leaf) as [[t k']|] eqn:Hl; [|done].
    injection Hk as ->. by exists leaf, t.
  - intros (leaf & t & Hleaf & Hl). right. exists leaf. split; [done|].
    by rewrite htmlLeafKey_leafTypeAndKey, Hl.
Qed.

(** ** Reconciliation: markup without classes of the stylesheet *)

Lemma foldl_indexClasses_in P
    (step : Postprocessor.Build → DomNode → Postprocessor.Build)
    (els : list DomNode) :
  (∀ b el, el ∈ els → indexClasses P (Postprocessor.built b) →
           indexClasses P (Postprocessor.built (step b el))) →
  ∀ b, indexClasses P (Postprocessor.built b) →
       indexClasses P (Postprocessor.built (foldl step b els)).
Proof.
  induction els as [|el els IH]; intros Hstep b Hb; simpl; [done|].
  apply IH.
  - intros b' el' Hel'. apply Hstep. by right.
  - apply Hstep; [by left|done].
Qed.

Lemma addLeaf_indexClasses_el css P b el :
  Forall P (Postprocessor.getClassList (Cheerio.attr el "class") css) →
  indexClasses P (Postprocessor.built b) →
  indexClasses P (Postprocessor.built (Postprocessor.addLeaf css b el)).
Proof.
  intros HP [Hleaf Hcont]. unfold Postprocessor.addLeaf.
  destruct (Postprocessor.leafTypeAndKey el) as [[t k]|]; [|done].
  split; [|exact Hcont]. cbn [Postprocessor.built Postprocessor.leafByKey
                               Postprocessor.leafByType].
  intros x [Hx|Hx]; apply inBuckets_pushTo in Hx as [Hx| ->];
    try exact HP; apply Hleaf; tauto.
Qed.

Lemma addContainer_indexClasses_el css P b el :
  Forall P (Postprocessor.getClassList (Cheerio.attr el "class") css) →
  indexClasses P (Postprocessor.built b) →
  indexClasses P (Postprocessor.built (Postprocessor.addContainer css b el)).
Proof.
  intros HP [Hleaf Hcont]. unfold Postprocessor.addContainer.
  destruct (Postprocessor.getClassList _ css) as [|c cs] eqn:Hcl; [done|].
  destruct (Postprocessor.collectHtmlLeafKeys el) as [|k ks]; [done|].
  split; [exact Hleaf|]. cbn [Postprocessor.built Postprocessor.containers].
  apply Forall_app. split; [exact Hcont|]. constructor; [|constructor]. exact HP.
Qed.

Lemma select_elements selector doc el :
  el ∈ Cheerio.select selector doc → el ∈ concat (List.map Cheerio.elements doc).
Proof.
  unfold Cheerio.select. intros H. apply list_elem_of_In, List.filter_In in H as [H _].
  by apply list_elem_of_In.
Qed.

Lemma buildIndex_indexClasses_dom doc css P :
  (∀ el, el ∈ concat (List.map Cheerio.elements doc) →
         Forall P (Postprocessor.getClassList (Cheerio.attr el "class") css)) →
  indexClasses P (Postprocessor.buildIndex doc css).
Proof.
  intros HP. unfold Postprocessor.buildIndex.
  apply foldl_indexClasses_in.
  { intros b el Hel. apply addContainer_indexClasses_el, HP.
    by apply select_elements in Hel. }
  apply foldl_indexClasses_in.
  { intros b el Hel. apply addLeaf_indexClasses_el, HP.
    by apply select_elements in Hel. }
  split; [|constructor]. cbn.
  intros x [(k & l & Hl & _)|(k & l & Hl & _)]; by rewrite lookup_empty in Hl.
Qed.

Lemma Forall_False_nil {A} (l : list A) : Forall (λ _, False) l → l = [].
Proof. intros H. destruct H; [done|tauto]. Qed.

Lemma applyLeafClasses_none idx n st :
  indexClasses (λ _, False) idx → Postprocessor.applyLeafClasses idx n st = (n, st).
Proof.
  intros Hidx. unfold Postprocessor.applyLeafClasses.
  destruct (Postprocessor.irLeafKey n) as [[t [k|]]|]; try done.
  destruct (Postprocessor.findLeafMatch idx st k t) as [m|] eqn:Hm; [|done].
  by rewrite (Forall_False_nil _ (findLeafMatch_classes _ _ _ _ _ _ Hidx Hm)).
Qed.

Lemma applyContainerClasses_none {T} idx keys (applyFn : T → list string → T) x st :
  indexClasses (λ _, False) idx →
  Postprocessor.applyContainerClasses idx keys applyFn x st = (x, st).
Proof.
  intros Hidx. unfold Postprocessor.applyContainerClasses.
  destruct keys as [|k keys]; [done|].
  destruct (Postprocessor.findContainerMatch idx st (k :: keys)) as [m|] eqn:Hm; [|done].
  by rewrite (Forall_False_nil _ (findContainerMatch_classes _ _ _ _ _ Hidx Hm)).
Qed.

Lemma forEach_none {T} (walk : T → Postprocessor.MatchState → T * Postprocessor.MatchState)
    (l : list T) :
  Forall (λ x, ∀ st, walk x st = (x, st)) l →
  ∀ st, Postprocessor.forEach walk l st = (l, st).
Proof.
  induction 1 as [|x l Hx _ IH]; intros st; [done|].
  cbn [Postprocessor.forEach]. by rewrite Hx, IH.
Qed.

Lemma walkNode_none idx n :
  indexClasses (λ _, False) idx → ∀ st, Postprocessor.walkNode idx n st = (n, st).
Proof.
  intros Hidx. induction n as [t c a ch m s cn IH] using IRNode_tree_ind. intros st.
  rewrite walkNode_unfold, applyLeafClasses_none by done.
  cbn [type children].
  assert (match t with
          | group =>
              Postprocessor.applyContainerClasses idx
                (Postprocessor.collectIrLeafKeys ch) Postprocessor.addClassesToNode
                (mkIRNode t c a ch m s cn) st
          | _ => (mkIRNode t c a ch m s cn, st)
          end = (mkIRNode t c a ch m s cn, st)) as ->.
  { destruct t; try done. by apply applyContainerClasses_none. }
  destruct ch as [cs|]; [|done]. by rewrite (forEach_none _ cs IH).
Qed.

Lemma walkSection_none idx s :
  indexClasses (λ _, False) idx → ∀ st, Postprocessor.walkSection idx s st = (s, st).
Proof.
  intros Hidx st. unfold Postprocessor.walkSection.
  rewrite applyContainerClasses_none by done.
  rewrite forEach_none; [by destruct s|].
  apply Forall_forall. intros x _. by apply walkNode_none.
Qed.

Lemma walkDocument_none idx ir :
  indexClasses (λ _, False) idx → ∀ st, Postprocessor.walkDocument idx ir st = (ir, st).
Proof.
  intros Hidx st. unfold Postprocessor.walkDocument.
  assert (∀ o st0, Postprocessor.walkOptional idx o st0 = (o, st0)) as Hopt.
  { intros [s|] st0; [|done]. cbn [Postprocessor.walkOptional].
    by rewrite walkSection_none. }
  rewrite Hopt, forEach_none, Hopt; [by destruct ir|].
  apply Forall_forall. intros x _. by apply walkSection_none.
Qed.

(** X22.  Markup without classes of the stylesheet changes nothing: when no
    element of the parsed markup has, in its class attribute, a class that
    the stylesheet defines, [postprocessClassNames] returns the document as
    it was, although it builds the index and walks the document. *)
Theorem postprocess_unchanged_without_stylesheet_classes
    (load : string → list DomNode) (ir : IRDocument)
    (rawHtml extractedCSS : option string) :
  (∀ raw el,
     rawHtml = Some raw →
     el ∈ concat (List.map Cheerio.elements (load raw)) →
     Postprocessor.getClassList (Cheerio.attr el "class")
       (stylesheetClasses extractedCSS) = []) →
  Postprocessor.postprocessClassNames load ir rawHtml extractedCSS = ir.
Proof.
  intros Hnone.
  unfold Postprocessor.postprocessClassNames, Postprocessor.runPostprocess.
  destruct (Postprocessor.indexOf load rawHtml extractedCSS) as [idx|] eqn:Hidx;
    [|done].
  rewrite walkDocument_none; [done|].
  unfold Postprocessor.indexOf in Hidx. unfold stylesheetClasses in Hnone.
  destruct rawHtml as [raw|]; [|done]. cbn [nonEmptyStr] in Hidx.
  destruct (decide (raw = "")); [done|].
  destruct (nonEmptyStr extractedCSS) as [css|]; [|done].
  destruct (decide _); [done|]. injection Hidx as <-.
  apply buildIndex_indexClasses_dom. intros el Hel.
  by rewrite (Hnone raw el eq_refl Hel).
Qed.

Lemma postprocess_unchanged_without_stylesheet_classes_witness :
  Postprocessor.postprocessClassNames scenarioE_load scenarioE_document
    (Some scenarioE_html) (Some ".bar{color:red}") = scenarioE_document.
Proof.
  apply postprocess_unchanged_without_stylesheet_classes.
  intros raw el _ Hel. apply list_elem_of_In in Hel. vm_compute in Hel.
  repeat (destruct Hel as [<-|Hel]; [by vm_compute|]). done.
Defined.

(** ** An IR node and the element it was made from *)

Lemma nonEmptyStr_of_nonempty s : s ≠ "" → nonEmptyStr (Some s) = Some s.
Proof. intros Hs. cbn. by destruct (decide (s = "")). Qed.

Lemma leafTypeAndKey_of el t key k :
  Cheerio.tagOf el ≠ "" →
  (if Postprocessor.startsWithH (Cheerio.tagOf el) then
     (Some Postprocessor.leafHeading,
      Postprocessor.buildLeafKey (Cheerio.tagOf el) (Cheerio.text el) None)
   else if decide (Cheerio.tagOf el = "p") then
     (Some Postprocessor.leafParagraph,
      Postprocessor.buildLeafKey "p" (Cheerio.text el) None)
   else if decide (Cheerio.tagOf el = "img") then
     (Some Postprocessor.leafImage,
      Postprocessor.buildLeafKey "img" ""
        (Some (orStr (Cheerio.attr el "src") "")))
   else if decide (Cheerio.tagOf el = "button" ∨ Cheerio.tagOf el = "a") then
     (Some Postprocessor.leafButton,
      Postprocessor.buildLeafKey (Cheerio.tagOf el) (Cheerio.text el)
        (Some (if decide (Cheerio.tagOf el = "a")
               then orStr (Cheerio.attr el "href") "" else "")))
   else if decide (Cheerio.tagOf el = "ul" ∨ Cheerio.tagOf el = "ol") then
     (Some Postprocessor.leafList,
      Postprocessor.buildLeafKey (Cheerio.tagOf el) ""
        (Some (Postprocessor.listItemsKey el)))
   else (None, None)) = (Some t, key) →
  key = Some k →
  Postprocessor.leafTypeAndKey el = Some (t, k).
Proof.
  intros Htag Htk ->. unfold Postprocessor.leafTypeAndKey.
  destruct (decide (Cheerio.tagOf el = "")); [done|].
  rewrite Htk. destruct (decide (k = "")) as [->|]; [|done].
  exfalso. revert Htk.
  repeat (first [ destruct (Postprocessor.startsWithH _) | destruct (decide _) ];
          [intros [= _ Hk]; by apply buildLeafKey_nonempty in Hk|]).
  done.
Qed.

(** X23.  An IR node and the element it describes get the same key and the
    same kind: a heading and an [h1]..[h6] element of its level, or a
    paragraph and a [p] element, with the same text up to white space; an
    image and an [img] element with the same address; a button and an [a]
    element with the same target (or a [button] element, when the node has
    no target) and the same text up to white space; a list and a [ul] or
    [ol] element with the same items.  The element is then one that the
    leaf selector selects, the key of the node is not null, and it is the
    key the index files the element under. *)
Theorem corresponding_element_has_the_key (n : IRNode) (el : DomNode) :
  corresponds n el →
  Cheerio.matches Postprocessor.leafSelector el = true ∧
  ∃ t k, Postprocessor.irLeafKey n = Some (t, Some k) ∧
         Postprocessor.leafTypeAndKey el = Some (t, k).
Proof.
  intros Hcor. split.
  { unfold Cheerio.matches. apply bool_decide_eq_true.
    unfold corresponds in Hcor. destruct (type n); try done.
    - by destruct Hcor as (_ & Hin & _).
    - destruct Hcor as (-> & _). by vm_compute; set_solver.
    - destruct Hcor as (-> & _). set_solver.
    - destruct Hcor as ([[-> _]|[-> _]] & _); set_solver.
    - destruct Hcor as (-> & _). destruct (default false _); set_solver. }
  revert Hcor. unfold corresponds, Postprocessor.irLeafKey.
  destruct (type n).
  - (* heading *)
    intros (Htag & _ & Htext & Hne).
    exists Postprocessor.leafHeading,
      (Cheerio.tagOf el +:+ "|" +:+ Postprocessor.normalizeText (Cheerio.text el)).
    assert (Postprocessor.startsWithH (Cheerio.tagOf el) = true) as Hh
      by by rewrite Htag, append_cons.
    assert (∀ text,
              Postprocessor.normalizeText text
                = Postprocessor.normalizeText (Cheerio.text el) →
              Postprocessor.buildLeafKey (Cheerio.tagOf el) text None
              = Some (Cheerio.tagOf el +:+ "|" +:+
                      Postprocessor.normalizeText (Cheerio.text el))) as Hkey.
    { intros text Ht. unfold Postprocessor.buildLeafKey. rewrite Hh, Ht.
      by destruct (decide _). }
    split.
    + rewrite <- Htag. by rewrite Hkey.
    + eapply leafTypeAndKey_of;
        [by rewrite Htag, append_cons|by rewrite Hh|by apply Hkey].
  - (* paragraph *)
    intros (Htag & Htext & Hne).
    exists Postprocessor.leafParagraph,
      ("p|" +:+ Postprocessor.normalizeText (Cheerio.text el)).
    assert (∀ text,
              Postprocessor.normalizeText text
                = Postprocessor.normalizeText (Cheerio.text el) →
              Postprocessor.buildLeafKey "p" text None
              = Some ("p|" +:+ Postprocessor.normalizeText (Cheerio.text el))) as Hkey.
    { intros text Ht. unfold Postprocessor.buildLeafKey. cbn [Postprocessor.startsWithH].
      destruct (decide ("p" = "p")); [|done]. rewrite Ht. by destruct (decide _). }
    split; [by rewrite Hkey|].
    eapply leafTypeAndKey_of; [by rewrite Htag|by rewrite Htag|by apply Hkey].
  - (* image *)
    intros (Htag & Hsrc & Hne).
    exists Postprocessor.leafImage, ("img|" +:+ orStr (Cheerio.attr el "src") "").
    assert (Postprocessor.buildLeafKey "img" "" (Some (orStr (Cheerio.attr el "src") ""))
            = Some ("img|" +:+ orStr (Cheerio.attr el "src") "")) as Hkey.
    { unfold Postprocessor.buildLeafKey. cbn [Postprocessor.startsWithH].
      destruct (decide ("img" = "p")); [done|].
      destruct (decide ("img" = "img")); [|done].
      by rewrite nonEmptyStr_of_nonempty. }
    split; [by rewrite Hsrc, Hkey|].
    eapply leafTypeAndKey_of; [by rewrite Htag|by rewrite Htag|exact Hkey].
  - (* button *)
    intros (Htag & Htext & Hne).
    set (target := if decide (Cheerio.tagOf el = "a")
                 then orStr (Cheerio.attr el "href") "" else "").
    exists Postprocessor.leafButton,
      ("btn|" +:+ Postprocessor.normalizeText (Cheerio.text el) +:+ "|" +:+ target).
    assert (∀ tag text,
              tag = "a" ∨ tag = "button" →
              Postprocessor.normalizeText text
                = Postprocessor.normalizeText (Cheerio.text el) →
              Postprocessor.buildLeafKey tag text (Some target)
              = Some ("btn|" +:+ Postprocessor.normalizeText (Cheerio.text el) +:+
                      "|" +:+ target)) as Hkey.
    { intros tag text Ht Hn. unfold Postprocessor.buildLeafKey. rewrite Hn.
      destruct Ht as [-> | ->]; cbn [Postprocessor.startsWithH];
        repeat (destruct (decide _); try done; try tauto);
        unfold orStr; cbn [nonEmptyStr]; by destruct (decide (target = "")) as [->|]. }
    assert (orStr (href (attributes n)) "" = target) as Hhref.
    { subst target. destruct Htag as [[Ha Hh]|[Hb Hh]].
      - by destruct (decide _).
      - destruct (decide _) as [Ha|]; [by rewrite Ha in Hb|done]. }
    split.
    + rewrite Hhref. f_equal. f_equal. apply Hkey; [by right|done].
    + assert (Cheerio.tagOf el = "a" ∨ Cheerio.tagOf el = "button") as Ht
        by (destruct Htag as [[? _]|[? _]]; tauto).
      eapply leafTypeAndKey_of;
        [by destruct Ht as [-> | ->]| |by apply (Hkey _ (Cheerio.text el) Ht)].
      fold target. clearbody target.
      destruct Ht as [Ht|Ht]; rewrite Ht; cbn [Postprocessor.startsWithH];
        repeat (destruct (decide _); try done; try tauto).
  - (* list *)
    intros (Htag & Hitems & Hne).
    exists Postprocessor.leafList,
      ("list|" +:+ Cheerio.tagOf el +:+ "|" +:+ Postprocessor.listItemsKey el).
    assert (Cheerio.tagOf el = "ul" ∨ Cheerio.tagOf el = "ol") as Ht
      by (rewrite Htag; destruct (default false _); tauto).
    assert (Postprocessor.buildLeafKey (Cheerio.tagOf el) ""
              (Some (Postprocessor.listItemsKey el))
            = Some ("list|" +:+ Cheerio.tagOf el +:+ "|" +:+
                    Postprocessor.listItemsKey el)) as Hkey.
    { unfold Postprocessor.buildLeafKey. rewrite nonEmptyStr_of_nonempty by done.
      destruct Ht as [-> | ->]; cbn [Postprocessor.startsWithH];
        repeat (destruct (decide _); try done; try tauto). }
    split.
    + rewrite Hitems, <- Htag. by rewrite Hkey.
    + eapply leafTypeAndKey_of; [by destruct Ht as [-> | ->]| |exact Hkey].
      destruct Ht as [Ht|Ht]; rewrite Ht; cbn [Postprocessor.startsWithH];
        repeat (destruct (decide _); try done; try tauto).
  - done.
  - done.
  - done.
  - done.
Qed.

Lemma corresponding_element_has_the_key_witness :
  Cheerio.matches Postprocessor.leafSelector
    (DomElement "P" [("class", "foo")] [DomText " Hi there"; DomText NL]) = true ∧
  ∃ t k,
    Postprocessor.irLeafKey (paragraphNode "Hi  there" None) = Some (t, Some k) ∧
    Postprocessor.leafTypeAndKey
      (DomElement "P" [("class", "foo")] [DomText " Hi there"; DomText NL])
    = Some (t, k).
Proof.
  apply corresponding_element_has_the_key. by vm_compute.
Defined.
